(** * MasalaScript: lexer, parser, analyser and evaluator, embedded in Rocq

    The development follows the layout of the repository:
    - [TokenType], [Keywords], [Token]        (src/tokens.js)
    - [Errors]                                (src/errors.js)
    - [Lexer]                                 (src/lexer.js)
    - the AST                                 (src/ast.js)
    - [Parser]                                (src/parser.js)
    - [Analyzer]                              (src/analyzer.js)
    - [Interpreter]                           (src/interpreter.js)
    - [MasalaScript]                          (src/masalascript.js)
    - [Bundle]                                (the browser bundle, where it
                                               differs from the modules)

    JavaScript numbers are IEEE-754 binary64 values; they are modelled by
    Rocq's primitive floats.  JavaScript [Map]s are modelled by [gmap]s.
    Source texts are taken to be ASCII.  The limits of the host (the call
    stack, the memory) and what the code writes to the console are not
    modelled. *)

From Stdlib Require Import ZArith Ascii String Floats.
From stdpp Require Import base option list strings gmap fin_maps.

Local Open Scope string_scope.
Local Open Scope nat_scope.

(** ** Outcomes and the state-and-exception monad

    Every stage of the pipeline is a JavaScript object whose methods mutate
    the object and may throw.  A method is modelled as a function from the
    object's state to an outcome and the state it leaves behind (a throw
    does not undo the mutations done before it).  [Timeout] is not a
    JavaScript outcome: it marks that the recursion budget of the model ran
    out. *)

Inductive outcome (E A : Type) : Type :=
| Done (a : A)
| Raise (e : E)
| Timeout.
Arguments Done {E A} a.
Arguments Raise {E A} e.
Arguments Timeout {E A}.

Definition M (S E A : Type) : Type := S -> outcome E A * S.

Definition ret {S E A} (a : A) : M S E A := fun s => (Done a, s).

Definition bind {S E A B} (m : M S E A) (k : A -> M S E B) : M S E B :=
  fun s =>
    match m s with
    | (Done a, s') => k a s'
    | (Raise e, s') => (Raise e, s')
    | (Timeout, s') => (Timeout, s')
    end.

Definition throw {S E A} (e : E) : M S E A := fun s => (Raise e, s).
Definition timeout {S E A} : M S E A := fun s => (Timeout, s).
Definition get_state {S E} : M S E S := fun s => (Done s, s).
Definition modify {S E} (f : S -> S) : M S E unit := fun s => (Done tt, f s).

Notation "x <- c1 ;; c2" := (bind c1 (fun x => c2))
  (at level 100, c1 at next level, right associativity).
Notation "c1 ;;; c2" := (bind c1 (fun _ => c2))
  (at level 100, right associativity).

(** [for (const x of xs) body(x)] *)
Fixpoint for_each {S E A} (body : A -> M S E unit) (xs : list A) : M S E unit :=
  match xs with
  | [] => ret tt
  | x :: rest => body x ;;; for_each body rest
  end.

(** [xs.map(f)] for an [f] with effects, left to right. *)
Fixpoint map_M {S E A B} (f : A -> M S E B) (xs : list A) : M S E (list B) :=
  match xs with
  | [] => ret []
  | x :: rest => y <- f x ;; ys <- map_M f rest ;; ret (y :: ys)
  end.

(** ** Characters *)

Definition NUL : ascii := "000"%char.
Definition TAB : ascii := "009"%char.
Definition LF : ascii := "010"%char.
Definition CR : ascii := "013"%char.
Definition DQUOTE : ascii := "034"%char.
Definition BACKSLASH : ascii := "\"%char.

Definition char_eqb (a b : ascii) : bool := Ascii.eqb a b.

Definition char_between (lo hi c : ascii) : bool :=
  (nat_of_ascii lo <=? nat_of_ascii c) && (nat_of_ascii c <=? nat_of_ascii hi).

(** [String.prototype.toLowerCase] on ASCII text. *)
Definition lower_char (c : ascii) : ascii :=
  if char_between "A" "Z" c then ascii_of_nat (nat_of_ascii c + 32) else c.

Fixpoint toLowerCase (s : string) : string :=
  match s with
  | EmptyString => EmptyString
  | String c r => String (lower_char c) (toLowerCase r)
  end.

(** [s.startsWith(p)] *)
Definition startsWith (s p : string) : bool := String.prefix p s.

(** [s.slice(a, b)] for [a <= b]. *)
Definition slice (s : string) (a b : nat) : string := String.substring a (b - a) s.

(** [s.replace(/xy/g, z)] for a two-character literal pattern [xy]: every
    occurrence found scanning left to right, without overlap, is replaced. *)
Fixpoint replace_all2 (x y z : ascii) (s : string) : string :=
  match s with
  | EmptyString => EmptyString
  | String c r =>
      match r with
      | String d r' =>
          if char_eqb c x && char_eqb d y
          then String z (replace_all2 x y z r')
          else String c (replace_all2 x y z r)
      | EmptyString => String c EmptyString
      end
  end.

(** ** Numbers

    [parseFloat] on a lexeme of the form DIGIT+ ( . DIGIT+ )? is the binary64
    value nearest to the decimal it denotes (ties to even). *)

Definition digit_value (c : ascii) : Z := (Z.of_nat (nat_of_ascii c) - 48)%Z.

Fixpoint digits_value (acc : Z) (s : string) : Z :=
  match s with
  | EmptyString => acc
  | String c r => digits_value (10 * acc + digit_value c)%Z r
  end.

(** The binary64 value nearest to [num / den], for [0 <= num] and [0 < den]. *)
Definition nearest_float (num den : Z) : float :=
  match num, den with
  | Zpos n, Zpos d =>
      SF2Prim (SFdiv prec emax (S754_finite false n 0) (S754_finite false d 0))
  | _, _ => PrimFloat.zero
  end.

Fixpoint split_dot (s : string) : string * string :=
  match s with
  | EmptyString => (EmptyString, EmptyString)
  | String c r =>
      if char_eqb c "." then (EmptyString, r)
      else let (i, f) := split_dot r in (String c i, f)
  end.

Definition parseFloat (lexeme : string) : float :=
  let (int_part, frac_part) := split_dot lexeme in
  nearest_float (digits_value 0 (int_part +:+ frac_part))
                (10 ^ Z.of_nat (String.length frac_part))%Z.

(** ** Tokens (src/tokens.js) *)

Module TokenType.
Inductive t : Set :=
| ACTION | PAISA_VASOOL
| MAAN_LO
| AGAR_KISMAT_RAHI | NAHI_TO | WARNA
| JAB_TAK_HAI_JAAN | BREAK
| CLIMAX | DIALOGUE_WAPAS_DO
| EK_BAAT_BATAUN
| NUMBER | STRING | SACH | GALAT | KHAALI
| IDENTIFIER
| PLUS | MINUS | STAR | SLASH | PERCENT
| EQUAL_EQUAL | BANG_EQUAL | LESS | GREATER | LESS_EQUAL | GREATER_EQUAL
| AND | OR | BANG
| EQUAL
| LPAREN | RPAREN | LBRACE | RBRACE | COMMA | COLON
| EOF | NEWLINE
(** [Keywords] is a plain object, so [Keywords[name]] also finds the
    properties it inherits from [Object.prototype]; such a value is no
    member of [TokenType] and equals none of them. *)
| INHERITED_PROPERTY.

Definition code (x : t) : nat :=
  match x with
  | ACTION => 0 | PAISA_VASOOL => 1 | MAAN_LO => 2 | AGAR_KISMAT_RAHI => 3
  | NAHI_TO => 4 | WARNA => 5 | JAB_TAK_HAI_JAAN => 6 | BREAK => 7
  | CLIMAX => 8 | DIALOGUE_WAPAS_DO => 9 | EK_BAAT_BATAUN => 10
  | NUMBER => 11 | STRING => 12 | SACH => 13 | GALAT => 14 | KHAALI => 15
  | IDENTIFIER => 16 | PLUS => 17 | MINUS => 18 | STAR => 19 | SLASH => 20
  | PERCENT => 21 | EQUAL_EQUAL => 22 | BANG_EQUAL => 23 | LESS => 24
  | GREATER => 25 | LESS_EQUAL => 26 | GREATER_EQUAL => 27 | AND => 28
  | OR => 29 | BANG => 30 | EQUAL => 31 | LPAREN => 32 | RPAREN => 33
  | LBRACE => 34 | RBRACE => 35 | COMMA => 36 | COLON => 37 | EOF => 38
  | NEWLINE => 39 | INHERITED_PROPERTY => 40
  end.

(** [a === b] on token types. *)
Definition eqb (a b : t) : bool := Nat.eqb (code a) (code b).
End TokenType.

(** The object [Keywords], as its list of own keys in insertion order. *)
Definition Keywords : list (string * TokenType.t) :=
  [ ("Chal bhai suru kar", TokenType.ACTION);
    ("bas khatam karo", TokenType.PAISA_VASOOL);
    ("maan lo", TokenType.MAAN_LO);
    ("agar kismat rahi", TokenType.AGAR_KISMAT_RAHI);
    ("nahi to", TokenType.NAHI_TO);
    ("warna", TokenType.WARNA);
    ("jab tak hai jaan", TokenType.JAB_TAK_HAI_JAAN);
    ("me bahar ja raha hu", TokenType.BREAK);
    ("climax", TokenType.CLIMAX);
    ("dialogue wapas do", TokenType.DIALOGUE_WAPAS_DO);
    ("ek baat bataun:", TokenType.EK_BAAT_BATAUN);
    ("sach", TokenType.SACH);
    ("galat", TokenType.GALAT);
    ("khaali", TokenType.KHAALI) ].

Definition SingleCharTokens : list (ascii * TokenType.t) :=
  [ ("+"%char, TokenType.PLUS);
    ("-"%char, TokenType.MINUS);
    ("*"%char, TokenType.STAR);
    ("/"%char, TokenType.SLASH);
    ("%"%char, TokenType.PERCENT);
    ("("%char, TokenType.LPAREN);
    (")"%char, TokenType.RPAREN);
    ("{"%char, TokenType.LBRACE);
    ("}"%char, TokenType.RBRACE);
    (","%char, TokenType.COMMA);
    (":"%char, TokenType.COLON) ].

(** [obj[key]] on the own properties of a table. *)
Fixpoint own_property {K V} (eqb : K -> K -> bool) (key : K) (obj : list (K * V)) : option V :=
  match obj with
  | [] => None
  | (k, v) :: rest => if eqb k key then Some v else own_property eqb key rest
  end.

(** The lower-case names that an object literal inherits from
    [Object.prototype]. *)
Definition inherited_names : list string := [ "constructor"; "__proto__" ].

(** [Keywords[name]], [undefined] being [None]. *)
Definition Keywords_get (name : string) : option TokenType.t :=
  match own_property String.eqb name Keywords with
  | Some ty => Some ty
  | None =>
      if existsb (String.eqb name) inherited_names
      then Some TokenType.INHERITED_PROPERTY else None
  end.

(** The primitive JavaScript values that occur as a token's [literal]
    ([null], a number or a string) and as the [value] of a [Literal] node
    (these and the booleans). *)
Inductive literal : Type :=
| LitNull
| LitBool (b : bool)
| LitNumber (n : float)
| LitString (s : string).

Record Token : Type := mkToken {
  tok_type : TokenType.t;
  tok_lexeme : string;
  tok_literal : literal;
  tok_line : nat;
  tok_column : nat
}.

(** ** Errors (src/errors.js) *)

Inductive ErrorMessage : Type :=
| UNEXPECTED_CHARACTER (char : ascii)
| UNTERMINATED_STRING
| INVALID_NUMBER (num : string)
| EXPECTED_ACTION
| EXPECTED_PAISA_VASOOL
| EXPECTED_IDENTIFIER
| EXPECTED_EXPRESSION
| EXPECTED_LPAREN
| EXPECTED_RPAREN
| EXPECTED_LBRACE
| EXPECTED_RBRACE
| EXPECTED_EQUALS
| INVALID_ASSIGNMENT_TARGET
| UNDEFINED_VARIABLE (name : string)
| UNDEFINED_FUNCTION (name : string)
| ALREADY_DEFINED (name : string)
| WRONG_ARG_COUNT (name : string) (expected got : nat)
| RETURN_OUTSIDE_FUNCTION
| BREAK_OUTSIDE_LOOP
| DIVISION_BY_ZERO
| NOT_A_FUNCTION (name : string)
| NOT_A_NUMBER (op : string)
| INVALID_OPERAND (op : string)
| LOOP_LIMIT_EXCEEDED
| UNKNOWN_STATEMENT_TYPE.

(** The four classes of [MasalaError]; [line] and [column] may be [null]. *)
Inductive MasalaError : Type :=
| LexerError (message : ErrorMessage) (line column : nat)
| ParserError (message : ErrorMessage) (line column : nat)
| SemanticError (message : ErrorMessage) (line : nat)
| RuntimeError (message : ErrorMessage) (line : nat).

(** The label [error.type] carries, as [toString] prints it. *)
Definition error_label (e : MasalaError) : string :=
  match e with
  | LexerError _ _ _ => "Galti ho gayi! Lexer Error"
  | ParserError _ _ _ => "Arrey bhai! Parser Error"
  | SemanticError _ _ => "Kya kar rahe ho! Semantic Error"
  | RuntimeError _ _ => "Dhoom machale! Runtime Error"
  end.

(** ** Lexer (src/lexer.js) *)

Module Lexer.

Record t : Type := mk {
  source : string;
  tokens : list Token;
  start : nat;
  current : nat;
  line : nat;
  column : nat;
  startColumn : nat
}.

(** [new Lexer(source)] *)
Definition new (src : string) : t := mk src [] 0 0 1 1 1.

Definition set_tokens (v : list Token) (lx : t) : t :=
  mk (source lx) v (start lx) (current lx) (line lx) (column lx) (startColumn lx).
Definition set_start (v : nat) (lx : t) : t :=
  mk (source lx) (tokens lx) v (current lx) (line lx) (column lx) (startColumn lx).
Definition set_current (v : nat) (lx : t) : t :=
  mk (source lx) (tokens lx) (start lx) v (line lx) (column lx) (startColumn lx).
Definition set_line (v : nat) (lx : t) : t :=
  mk (source lx) (tokens lx) (start lx) (current lx) v (column lx) (startColumn lx).
Definition set_column (v : nat) (lx : t) : t :=
  mk (source lx) (tokens lx) (start lx) (current lx) (line lx) v (startColumn lx).
Definition set_startColumn (v : nat) (lx : t) : t :=
  mk (source lx) (tokens lx) (start lx) (current lx) (line lx) (column lx) v.

Definition L (A : Type) : Type := M t MasalaError A.

(** [this.source[i]]; [None] is [undefined]. *)
Definition char_at (lx : t) (i : nat) : option ascii := String.get i (source lx).

Definition isAtEnd (lx : t) : bool := String.length (source lx) <=? current lx.

Definition advance : L (option ascii) := fun lx =>
  (Done (char_at lx (current lx)),
   set_column (S (column lx)) (set_current (S (current lx)) lx)).

Definition peek (lx : t) : ascii :=
  if isAtEnd lx then NUL else default NUL (char_at lx (current lx)).

Definition peekNext (lx : t) : ascii :=
  if String.length (source lx) <=? current lx + 1 then NUL
  else default NUL (char_at lx (current lx + 1)).

(** [match(expected)] *)
Definition match_ (expected : ascii) : L bool := fun lx =>
  if isAtEnd lx then (Done false, lx)
  else if negb (char_eqb (default NUL (char_at lx (current lx))) expected) then (Done false, lx)
  else (Done true, set_column (S (column lx)) (set_current (S (current lx)) lx)).

Definition isDigit (char : ascii) : bool := char_between "0" "9" char.

Definition isAlpha (char : ascii) : bool :=
  char_between "a" "z" char || char_between "A" "Z" char || char_eqb char "_".

Definition isAlphaNumeric (char : ascii) : bool := isAlpha char || isDigit char.

Definition addToken (type : TokenType.t) (lit : literal) : L unit := fun lx =>
  let lexeme := slice (source lx) (start lx) (current lx) in
  (Done tt, set_tokens (tokens lx ++ [mkToken type lexeme lit (line lx) (startColumn lx)]) lx).

(** [while (cond(peek()) && !isAtEnd()) advance()]; where the source
    leaves the test of the end out ([isDigit], [isAlphaNumeric]) it is
    implied, [peek()] being the NUL character there.  [n] bounds the
    number of rounds. *)
Fixpoint advance_while (cond : ascii -> bool) (n : nat) : L unit := fun lx =>
  if negb (isAtEnd lx) && cond (peek lx) then
    match n with
    | 0 => (Timeout, lx)
    | S n' => (advance ;;; advance_while cond n') lx
    end
  else (Done tt, lx).

(** The number of characters not yet consumed, which bounds every loop
    of the lexer: each round consumes at least one. *)
Definition remaining (lx : t) : nat := String.length (source lx) - current lx.

Fixpoint skip_loop (n : nat) (startPos : nat) : L bool := fun lx =>
  let skipped := negb (current lx =? startPos) in
  if isAtEnd lx then (Done skipped, lx) else
  match n with
  | 0 => (Timeout, lx)
  | S n' =>
      let char := peek lx in
      if char_eqb char " " || char_eqb char TAB || char_eqb char CR then
        (advance ;;; skip_loop n' startPos) lx
      else if char_eqb char LF then
        (modify (fun lx => set_column 0 (set_line (S (line lx)) lx)) ;;;
         advance ;;; skip_loop n' startPos) lx
      else if char_eqb char "/" then
        if char_eqb (peekNext lx) "/" then
          (advance_while (fun c => negb (char_eqb c LF)) (remaining lx) ;;;
           skip_loop n' startPos) lx
        else (Done skipped, lx)
      else (Done skipped, lx)
  end.

Definition skipWhitespaceAndComments : L bool := fun lx =>
  skip_loop (remaining lx) (current lx) lx.

(** [a.sort((a, b) => b.length - a.length)]: a stable sort, longest
    first. *)
Fixpoint insert_by_length (k : string) (sorted : list string) : list string :=
  match sorted with
  | [] => [k]
  | x :: rest =>
      if String.length x <? String.length k then k :: sorted
      else x :: insert_by_length k rest
  end.

Definition sort_by_length (keys : list string) : list string :=
  fold_left (fun acc k => insert_by_length k acc) keys [].

Definition sortedKeywords : list string := sort_by_length (map fst Keywords).

(** [/[!:]$/.test(keyword)] *)
Fixpoint endsWithSpecial (keyword : string) : bool :=
  match keyword with
  | EmptyString => false
  | String c EmptyString => char_eqb c "!" || char_eqb c ":"
  | String _ r => endsWithSpecial r
  end.

Fixpoint advance_times (n : nat) : L unit :=
  match n with
  | 0 => ret tt
  | S n' => advance ;;; advance_times n'
  end.

Fixpoint matchKeyword_loop (keywords : list string) : L bool := fun lx =>
  match keywords with
  | [] => (Done false, lx)
  | keyword :: rest =>
      let remaining := String.substring (current lx) (String.length (source lx)) (source lx) in
      if startsWith (toLowerCase remaining) (toLowerCase keyword) then
        let endPos := current lx + String.length keyword in
        let nextChar := char_at lx endPos in
        if endsWithSpecial keyword
           || match nextChar with None => true | Some c => negb (isAlphaNumeric c) end
        then
          (advance_times (String.length keyword) ;;;
           addToken (default TokenType.IDENTIFIER (own_property String.eqb keyword Keywords))
             LitNull ;;;
           ret true) lx
        else matchKeyword_loop rest lx
      else matchKeyword_loop rest lx
  end.

Definition matchKeyword : L bool := matchKeyword_loop sortedKeywords.

Fixpoint string_loop (n : nat) : L unit := fun lx =>
  if negb (char_eqb (peek lx) DQUOTE) && negb (isAtEnd lx) then
    match n with
    | 0 => (Timeout, lx)
    | S n' =>
        let lx1 := if char_eqb (peek lx) LF
                   then set_column 0 (set_line (S (line lx)) lx) else lx in
        (* [peekNext()] is a character, never [undefined] *)
        let skip_backslash : L unit :=
          if char_eqb (peek lx1) BACKSLASH then advance ;;; ret tt else ret tt in
        (skip_backslash ;;; advance ;;; string_loop n') lx1
    end
  else (Done tt, lx).

(** The chain of [replace] calls that [string] applies to the text
    between the quotes. *)
Definition process_escapes (value : string) : string :=
  replace_all2 BACKSLASH BACKSLASH BACKSLASH
    (replace_all2 BACKSLASH DQUOTE DQUOTE
      (replace_all2 BACKSLASH "r" CR
        (replace_all2 BACKSLASH "t" TAB
          (replace_all2 BACKSLASH "n" LF value)))).

Definition string_ : L unit := fun lx =>
  let startLine := line lx in
  let startCol := startColumn lx in
  (string_loop (remaining lx) ;;;
   (fun lx =>
      if isAtEnd lx then (Raise (LexerError UNTERMINATED_STRING startLine startCol), lx)
      else
        (advance ;;;
         (fun lx =>
            let value := slice (source lx) (start lx + 1) (current lx - 1) in
            addToken TokenType.STRING (LitString (process_escapes value)) lx)) lx)) lx.

Definition number : L unit := fun lx =>
  (advance_while isDigit (remaining lx) ;;;
   (fun lx =>
      if char_eqb (peek lx) "." && isDigit (peekNext lx)
      then (advance ;;; (fun lx => advance_while isDigit (remaining lx) lx)) lx
      else (Done tt, lx)) ;;;
   (fun lx =>
      let lexeme := slice (source lx) (start lx) (current lx) in
      addToken TokenType.NUMBER (LitNumber (parseFloat lexeme)) lx)) lx.

Definition identifier : L unit := fun lx =>
  (advance_while isAlphaNumeric (remaining lx) ;;;
   (fun lx =>
      let text := slice (source lx) (start lx) (current lx) in
      let tokenType := default TokenType.IDENTIFIER (Keywords_get (toLowerCase text)) in
      addToken tokenType
        (if TokenType.eqb tokenType TokenType.IDENTIFIER then LitString text else LitNull) lx)) lx.

Definition two_char (second : ascii) (yes no : TokenType.t) : L unit :=
  m <- match_ second ;; addToken (if m then yes else no) LitNull.

(** [throw new LexerError(ErrorMessages.UNEXPECTED_CHARACTER(char),
    this.line, this.startColumn)] *)
Definition unexpected {A} (char : ascii) : L A := fun lx =>
  (Raise (LexerError (UNEXPECTED_CHARACTER char) (line lx) (startColumn lx)), lx).

Definition scanToken : L unit :=
  skipped <- skipWhitespaceAndComments ;;
  if skipped : bool then ret tt else
  matched <- matchKeyword ;;
  if matched : bool then ret tt else
  (fun lx =>
     (oc <- advance ;;
      let char := default NUL oc in
      match own_property char_eqb char SingleCharTokens with
      | Some ty => addToken ty LitNull
      | None =>
          if char_eqb char "=" then two_char "=" TokenType.EQUAL_EQUAL TokenType.EQUAL
          else if char_eqb char "!" then two_char "=" TokenType.BANG_EQUAL TokenType.BANG
          else if char_eqb char "<" then two_char "=" TokenType.LESS_EQUAL TokenType.LESS
          else if char_eqb char ">" then two_char "=" TokenType.GREATER_EQUAL TokenType.GREATER
          else if char_eqb char "&" then
            m <- match_ "&" ;;
            if m : bool then addToken TokenType.AND LitNull
            else unexpected char
          else if char_eqb char "|" then
            m <- match_ "|" ;;
            if m : bool then addToken TokenType.OR LitNull
            else unexpected char
          else if char_eqb char DQUOTE then string_
          else if isDigit char then number
          else if isAlpha char then identifier
          else unexpected char
      end) lx).

Fixpoint tokenize_loop (n : nat) : L unit := fun lx =>
  if isAtEnd lx then (Done tt, lx) else
  match n with
  | 0 => (Timeout, lx)
  | S n' =>
      (modify (fun lx => set_startColumn (column lx) (set_start (current lx) lx)) ;;;
       scanToken ;;; tokenize_loop n') lx
  end.

Definition tokenize : L (list Token) := fun lx =>
  (tokenize_loop (remaining lx) ;;;
   modify (fun lx =>
     set_tokens (tokens lx ++ [mkToken TokenType.EOF "" LitNull (line lx) (column lx)]) lx) ;;;
   (fun lx => (Done (tokens lx), lx))) lx.

End Lexer.

(** [tokenize(source)]: the tokens, or the error thrown. *)
Definition tokenize (src : string) : outcome MasalaError (list Token) :=
  fst (Lexer.tokenize (Lexer.new src)).

(** ** The AST (src/ast.js)

    Expression nodes and statement nodes, as the parser builds them.  A
    [Block] is its list of statements; an assignment is an expression. *)

Scheme All for list.
Scheme All for option.

Inductive expr : Type :=
| BinaryExpression (operator : string) (left right : expr) (line : nat)
| UnaryExpression (operator : string) (operand : expr) (line : nat)
| CallExpression (callee : string) (arguments : list expr) (line : nat)
| Literal (value : literal) (line : nat)
| Identifier (name : string) (line : nat)
| Grouping (expression : expr) (line : nat)
| Assignment (name : string) (value : expr) (line : nat).

Inductive stmt : Type :=
| VariableDeclaration (name : string) (value : expr) (line : nat)
| PrintStatement (expressions : list expr) (line : nat)
| IfStatement (conditions : list expr) (consequents : list (list stmt))
              (alternate : option (list stmt)) (line : nat)
| WhileStatement (condition : expr) (body : list stmt) (line : nat)
| BreakStatement (line : nat)
| FunctionDeclaration (name : string) (params : list string) (body : list stmt) (line : nat)
| ReturnStatement (value : option expr) (line : nat)
| ExpressionStatement (expression : expr) (line : nat)
| Block (statements : list stmt).

(** A [Program] node is its [body]. *)
Definition Program : Type := list stmt.

(** ** Parser (src/parser.js, and the parser of the browser bundle)

    The two parsers are the same recursive descent, except that
    - the bundle's [statement] has one more case, for the [BREAK] token
      (method [breakStatement]),
    - the module's [declaration] catches an error, calls [synchronize] and
      throws the error again, and
    - the name that a call node gets from its callee is found by the
      type of the callee in the module and by its [name] property in the
      bundle.
    [bundle] tells which of the two is meant. *)

Module Parser.

Record t : Type := mk { tokens : list Token; current : nat }.

Definition new (toks : list Token) : t := mk toks 0.

Definition P (A : Type) : Type := M t MasalaError A.

(** [this.tokens[i]].  On a token list that ends with an [EOF] token, as
    the lexer makes them, the parser never moves past that token and the
    index is in range.  Past the end of a list the code reads [undefined]
    and throws a [TypeError] at the first property it asks of it; here
    the index then yields an [EOF] token, which is right on no list: what
    is stated of a parser that reads past the end of its list is stated of
    lists that end with [EOF]. *)
Definition token_at (ps : t) (i : nat) : Token :=
  nth i (tokens ps) (mkToken TokenType.EOF "" LitNull 0 0).

Definition peek (ps : t) : Token := token_at ps (current ps).
Definition previous (ps : t) : Token := token_at ps (current ps - 1).
Definition isAtEnd (ps : t) : bool := TokenType.eqb (tok_type (peek ps)) TokenType.EOF.

Definition advance : P Token := fun ps =>
  let ps' := if negb (isAtEnd ps) then mk (tokens ps) (S (current ps)) else ps in
  (Done (previous ps'), ps').

Definition check (type : TokenType.t) (ps : t) : bool :=
  if isAtEnd ps then false else TokenType.eqb (tok_type (peek ps)) type.

(** [match(...types)] *)
Fixpoint match_ (types : list TokenType.t) : P bool := fun ps =>
  match types with
  | [] => (Done false, ps)
  | type :: rest =>
      if check type ps then (advance ;;; ret true) ps else match_ rest ps
  end.

Definition error_here {A} (message : ErrorMessage) : P A := fun ps =>
  (Raise (ParserError message (tok_line (peek ps)) (tok_column (peek ps))), ps).

Definition consume (type : TokenType.t) (errorMessage : ErrorMessage) : P Token := fun ps =>
  if check type ps then advance ps else error_here errorMessage ps.

Definition peek_line : P nat := fun ps => (Done (tok_line (peek ps)), ps).
Definition checking (type : TokenType.t) : P bool := fun ps => (Done (check type ps), ps).

Definition is_boundary (type : TokenType.t) : bool :=
  existsb (TokenType.eqb type)
    [ TokenType.MAAN_LO; TokenType.CLIMAX; TokenType.AGAR_KISMAT_RAHI;
      TokenType.JAB_TAK_HAI_JAAN; TokenType.EK_BAAT_BATAUN;
      TokenType.DIALOGUE_WAPAS_DO; TokenType.PAISA_VASOOL ].

Fixpoint synchronize_loop (n : nat) : P unit := fun ps =>
  if isAtEnd ps then (Done tt, ps) else
  if is_boundary (tok_type (peek ps)) then (Done tt, ps) else
  match n with
  | 0 => (Timeout, ps)
  | S n' => (advance ;;; synchronize_loop n') ps
  end.

Definition synchronize : P unit := fun ps =>
  (advance ;;; synchronize_loop (length (tokens ps))) ps.

(** [try { body } catch (error) { this.synchronize(); throw error; }] *)
Definition try_synchronize {A} (body : P A) : P A := fun ps =>
  match body ps with
  | (Raise error, ps') =>
      match synchronize ps' with
      | (Timeout, ps'') => (Timeout, ps'')
      | (_, ps'') => (Raise error, ps'')
      end
  | r => r
  end.

(** *** Loops of the grammar; [n] bounds the number of rounds, each of
    which consumes a token. *)

(** [while (this.match(...types)) { operator; right = operand(); expr = Binary(...) }] *)
Fixpoint binary_loop (n : nat) (types : list TokenType.t) (operand : P expr) (e : expr) : P expr :=
  m <- match_ types ;;
  if m : bool then
    match n with
    | 0 => timeout
    | S n' =>
        fun ps =>
          let operator := tok_lexeme (previous ps) in
          (right <- operand ;;
           fun ps' =>
             binary_loop n' types operand
               (BinaryExpression operator e right (tok_line (previous ps'))) ps') ps
    end
  else ret e.

(** [while (!this.check(stop) && !this.isAtEnd()) statements.push(this.declaration())] *)
Fixpoint statements_until (n : nat) (stop : TokenType.t) (declaration : P stmt) : P (list stmt) :=
  fun ps =>
    if negb (check stop ps) && negb (isAtEnd ps) then
      match n with
      | 0 => (Timeout, ps)
      | S n' =>
          (s <- declaration ;;
           rest <- statements_until n' stop declaration ;;
           ret (s :: rest)) ps
      end
    else (Done [], ps).

(** [do { items.push(item()) } while (this.match(COMMA))] *)
Fixpoint comma_separated {A} (n : nat) (item : P A) : P (list A) :=
  x <- item ;;
  m <- match_ [TokenType.COMMA] ;;
  if m : bool then
    match n with
    | 0 => timeout
    | S n' => rest <- comma_separated n' item ;; ret (x :: rest)
    end
  else ret [x].

(** The [nahi to] clauses of [ifStatement]. *)
Fixpoint elseif_loop (n : nat) (clause : P (expr * list stmt)) : P (list (expr * list stmt)) :=
  fun ps =>
    if check TokenType.NAHI_TO ps then
      match n with
      | 0 => (Timeout, ps)
      | S n' =>
          (advance ;;; c <- clause ;; rest <- elseif_loop n' clause ;; ret (c :: rest)) ps
      end
    else (Done [], ps).

(** [while (true) { if (this.match(LPAREN)) expr = this.finishCall(expr); else break; }] *)
Fixpoint call_loop (n : nat) (finishCall : expr -> P expr) (e : expr) : P expr :=
  m <- match_ [TokenType.LPAREN] ;;
  if m : bool then
    match n with
    | 0 => timeout
    | S n' => e' <- finishCall e ;; call_loop n' finishCall e'
    end
  else ret e.

Definition rounds : P nat := fun ps => (Done (length (tokens ps)), ps).

Section Grammar.
Variable bundle : bool.

(** The name of the callee.  The module has
    [callee.type === NodeType.IDENTIFIER ? callee.name : '<expr>'], the
    bundle [expr.name || '<expr>']: of the nodes that [primary] and the
    loop of [call] make, the [Identifier] alone has a [name], and the
    empty name is falsy. *)
Definition calleeName (callee : expr) : string :=
  match callee with
  | Identifier name _ =>
      if bundle && String.eqb name "" then "<expr>" else name
  | _ => "<expr>"
  end.

Definition finishCall (expression : P expr) (callee : expr) : P expr :=
  n <- rounds ;;
  at_rparen <- checking TokenType.RPAREN ;;
  args <- (if at_rparen : bool then ret [] else comma_separated n expression) ;;
  paren <- consume TokenType.RPAREN EXPECTED_RPAREN ;;
  ret (CallExpression (calleeName callee) args (tok_line paren)).

Definition primary (expression : P expr) : P expr :=
  line <- peek_line ;;
  m <- match_ [TokenType.SACH] ;; if m : bool then ret (Literal (LitBool true) line) else
  m <- match_ [TokenType.GALAT] ;; if m : bool then ret (Literal (LitBool false) line) else
  m <- match_ [TokenType.KHAALI] ;; if m : bool then ret (Literal LitNull line) else
  m <- match_ [TokenType.NUMBER] ;;
  if m : bool then (fun ps => (Done (Literal (tok_literal (previous ps)) line), ps)) else
  m <- match_ [TokenType.STRING] ;;
  if m : bool then (fun ps => (Done (Literal (tok_literal (previous ps)) line), ps)) else
  m <- match_ [TokenType.IDENTIFIER] ;;
  if m : bool then (fun ps => (Done (Identifier (tok_lexeme (previous ps)) line), ps)) else
  m <- match_ [TokenType.LPAREN] ;;
  if m : bool then
    e <- expression ;;
    consume TokenType.RPAREN EXPECTED_RPAREN ;;;
    ret (Grouping e line)
  else error_here EXPECTED_EXPRESSION.

Definition call (expression : P expr) : P expr :=
  e <- primary expression ;;
  n <- rounds ;;
  call_loop n (finishCall expression) e.

(** [unary], [assignment], [expression] and the statements call
    themselves and one another; [fuel] bounds the depth of these
    calls. *)
Fixpoint expression (fuel : nat) : P expr :=
  match fuel with
  | 0 => timeout
  | S fuel' => assignment fuel'
  end

with assignment (fuel : nat) : P expr :=
  match fuel with
  | 0 => timeout
  | S fuel' =>
      e <- logicOr fuel' ;;
      m <- match_ [TokenType.EQUAL] ;;
      if m : bool then
        value <- assignment fuel' ;;
        match e with
        | Identifier name line => ret (Assignment name value line)
        | _ =>
            fun ps =>
              (Raise (ParserError INVALID_ASSIGNMENT_TARGET
                        (tok_line (previous ps)) (tok_column (previous ps))), ps)
        end
      else ret e
  end

with logicOr (fuel : nat) : P expr :=
  match fuel with
  | 0 => timeout
  | S fuel' =>
      e <- logicAnd fuel' ;; n <- rounds ;;
      binary_loop n [TokenType.OR] (logicAnd fuel') e
  end

with logicAnd (fuel : nat) : P expr :=
  match fuel with
  | 0 => timeout
  | S fuel' =>
      e <- equality fuel' ;; n <- rounds ;;
      binary_loop n [TokenType.AND] (equality fuel') e
  end

with equality (fuel : nat) : P expr :=
  match fuel with
  | 0 => timeout
  | S fuel' =>
      e <- comparison fuel' ;; n <- rounds ;;
      binary_loop n [TokenType.EQUAL_EQUAL; TokenType.BANG_EQUAL] (comparison fuel') e
  end

with comparison (fuel : nat) : P expr :=
  match fuel with
  | 0 => timeout
  | S fuel' =>
      e <- term fuel' ;; n <- rounds ;;
      binary_loop n [TokenType.LESS; TokenType.GREATER;
                     TokenType.LESS_EQUAL; TokenType.GREATER_EQUAL] (term fuel') e
  end

with term (fuel : nat) : P expr :=
  match fuel with
  | 0 => timeout
  | S fuel' =>
      e <- factor fuel' ;; n <- rounds ;;
      binary_loop n [TokenType.PLUS; TokenType.MINUS] (factor fuel') e
  end

with factor (fuel : nat) : P expr :=
  match fuel with
  | 0 => timeout
  | S fuel' =>
      e <- unary fuel' ;; n <- rounds ;;
      binary_loop n [TokenType.STAR; TokenType.SLASH; TokenType.PERCENT] (unary fuel') e
  end

with unary (fuel : nat) : P expr :=
  match fuel with
  | 0 => timeout
  | S fuel' =>
      m <- match_ [TokenType.BANG; TokenType.MINUS] ;;
      if m : bool then
        fun ps =>
          let operator := tok_lexeme (previous ps) in
          (operand <- unary fuel' ;;
           fun ps' => (Done (UnaryExpression operator operand (tok_line (previous ps'))), ps')) ps
      else call (expression fuel')
  end.

Definition variableDeclaration (fuel : nat) : P stmt :=
  line <- peek_line ;;
  advance ;;;
  is_name <- checking TokenType.IDENTIFIER ;;
  if is_name : bool then
    name <- advance ;;
    consume TokenType.EQUAL EXPECTED_EQUALS ;;;
    value <- expression fuel ;;
    ret (VariableDeclaration (tok_lexeme name) value line)
  else error_here EXPECTED_IDENTIFIER.

Definition parameter : P string :=
  is_name <- checking TokenType.IDENTIFIER ;;
  if is_name : bool then name <- advance ;; ret (tok_lexeme name)
  else error_here EXPECTED_IDENTIFIER.

Definition returnStatement (fuel : nat) : P stmt :=
  line <- peek_line ;;
  advance ;;;
  fun ps =>
    if negb (check TokenType.RBRACE ps) && negb (check TokenType.PAISA_VASOOL ps)
       && negb (isAtEnd ps)
    then (value <- expression fuel ;; ret (ReturnStatement (Some value) line)) ps
    else (Done (ReturnStatement None line), ps).

Definition printStatement (fuel : nat) : P stmt :=
  line <- peek_line ;;
  advance ;;;
  n <- rounds ;;
  expressions <- comma_separated n (expression fuel) ;;
  ret (PrintStatement expressions line).

Definition breakStatement : P stmt :=
  line <- peek_line ;;
  advance ;;;
  ret (BreakStatement line).

Definition expressionStatement (fuel : nat) : P stmt :=
  line <- peek_line ;;
  e <- expression fuel ;;
  ret (ExpressionStatement e line).

(** [block]: the statements up to the closing brace. *)
Definition block (declaration : P stmt) : P (list stmt) :=
  n <- rounds ;;
  statements <- statements_until n TokenType.RBRACE declaration ;;
  consume TokenType.RBRACE EXPECTED_RBRACE ;;;
  ret statements.

(** [( expression ) { block }], shared by the clauses of [ifStatement]. *)
Definition condition_and_block (fuel : nat) (declaration : P stmt) : P (expr * list stmt) :=
  consume TokenType.LPAREN EXPECTED_LPAREN ;;;
  condition <- expression fuel ;;
  consume TokenType.RPAREN EXPECTED_RPAREN ;;;
  consume TokenType.LBRACE EXPECTED_LBRACE ;;;
  body <- block declaration ;;
  ret (condition, body).

Definition ifStatement (fuel : nat) (declaration : P stmt) : P stmt :=
  line <- peek_line ;;
  advance ;;;
  first <- condition_and_block fuel declaration ;;
  n <- rounds ;;
  others <- elseif_loop n (condition_and_block fuel declaration) ;;
  is_else <- checking TokenType.WARNA ;;
  alternate <- (if is_else : bool then
                  advance ;;;
                  consume TokenType.LBRACE EXPECTED_LBRACE ;;;
                  b <- block declaration ;; ret (Some b)
                else ret None) ;;
  let clauses := first :: others in
  ret (IfStatement (map fst clauses) (map snd clauses) alternate line).

Definition whileStatement (fuel : nat) (declaration : P stmt) : P stmt :=
  line <- peek_line ;;
  advance ;;;
  c <- condition_and_block fuel declaration ;;
  ret (WhileStatement (fst c) (snd c) line).

Definition functionDeclaration (declaration : P stmt) : P stmt :=
  line <- peek_line ;;
  advance ;;;
  is_name <- checking TokenType.IDENTIFIER ;;
  if is_name : bool then
    name <- advance ;;
    consume TokenType.LPAREN EXPECTED_LPAREN ;;;
    n <- rounds ;;
    at_rparen <- checking TokenType.RPAREN ;;
    params <- (if at_rparen : bool then ret [] else comma_separated n parameter) ;;
    consume TokenType.RPAREN EXPECTED_RPAREN ;;;
    consume TokenType.LBRACE EXPECTED_LBRACE ;;;
    body <- block declaration ;;
    ret (FunctionDeclaration (tok_lexeme name) params body line)
  else error_here EXPECTED_IDENTIFIER.

Definition statement (fuel : nat) (declaration : P stmt) : P stmt := fun ps =>
  if check TokenType.AGAR_KISMAT_RAHI ps then ifStatement fuel declaration ps
  else if check TokenType.JAB_TAK_HAI_JAAN ps then whileStatement fuel declaration ps
  else if bundle && check TokenType.BREAK ps then breakStatement ps
  else if check TokenType.DIALOGUE_WAPAS_DO ps then returnStatement fuel ps
  else if check TokenType.EK_BAAT_BATAUN ps then printStatement fuel ps
  else if check TokenType.LBRACE ps then
    (advance ;;; b <- block declaration ;; ret (Block b)) ps
  else expressionStatement fuel ps.

Fixpoint declaration (fuel : nat) : P stmt :=
  match fuel with
  | 0 => timeout
  | S fuel' =>
      let body : P stmt := fun ps =>
        if check TokenType.CLIMAX ps then functionDeclaration (declaration fuel') ps
        else if check TokenType.MAAN_LO ps then variableDeclaration fuel' ps
        else statement fuel' (declaration fuel') ps in
      if bundle then body else try_synchronize body
  end.

Definition program (fuel : nat) : P Program := fun ps =>
  if negb (check TokenType.ACTION ps) then error_here EXPECTED_ACTION ps else
  (advance ;;;
   n <- rounds ;;
   statements <- statements_until n TokenType.PAISA_VASOOL (declaration fuel) ;;
   fun ps =>
     if negb (check TokenType.PAISA_VASOOL ps) then error_here EXPECTED_PAISA_VASOOL ps
     else (advance ;;; ret statements) ps) ps.

(** The depth of the calls is bounded by the number of tokens, each
    nesting level of the grammar taking fewer than twenty calls. *)
Definition parse : P Program := fun ps =>
  program (20 * S (length (tokens ps))) ps.

End Grammar.
End Parser.

(** [parse(tokens)] of src/parser.js. *)
Definition parse (toks : list Token) : outcome MasalaError Program :=
  fst (Parser.parse false (Parser.new toks)).

(** ** Analyzer (src/analyzer.js) *)

Module Analyzer.

Inductive binding_type : Set := variable | parameter | function.

(** What a scope maps a name to. *)
Record binding : Type := mkBinding { binding_kind : binding_type; binding_line : nat }.

(** What [functions] maps a name to. *)
Record FuncInfo : Type := mkFuncInfo {
  info_params : list string;
  paramCount : nat;
  info_line : nat
}.

(** The stack [scopes] is kept with its top (the innermost, current
    scope) at the head of the list. *)
Record t : Type := mk {
  scopes : list (gmap string binding);
  functions : gmap string FuncInfo;
  currentFunction : option string;
  errors : list MasalaError
}.

(** [new Analyzer()] *)
Definition new : t := mk [∅] ∅ None [].

Definition set_scopes (v : list (gmap string binding)) (st : t) : t :=
  mk v (functions st) (currentFunction st) (errors st).
Definition set_functions (v : gmap string FuncInfo) (st : t) : t :=
  mk (scopes st) v (currentFunction st) (errors st).
Definition set_currentFunction (v : option string) (st : t) : t :=
  mk (scopes st) (functions st) v (errors st).
Definition set_errors (v : list MasalaError) (st : t) : t :=
  mk (scopes st) (functions st) (currentFunction st) v.

Definition A (R : Type) : Type := M t MasalaError R.

Definition pushScope : A unit := modify (fun st => set_scopes (∅ :: scopes st) st).
Definition popScope : A unit := modify (fun st => set_scopes (tail (scopes st)) st).

(** [this.scopes[this.scopes.length - 1]]; the stack is never empty. *)
Definition currentScope (st : t) : gmap string binding := default ∅ (head (scopes st)).

(** [currentScope.set(name, b)] *)
Definition declare (name : string) (b : binding) : A unit :=
  modify (fun st =>
    match scopes st with
    | [] => st
    | scope :: outer => set_scopes (<[name := b]> scope :: outer) st
    end).

(** [lookupVariable(name)], from the innermost scope outwards. *)
Fixpoint lookup_in (stack : list (gmap string binding)) (name : string) : option binding :=
  match stack with
  | [] => None
  | scope :: outer =>
      match scope !! name with
      | Some b => Some b
      | None => lookup_in outer name
      end
  end.

Definition lookupVariable (st : t) (name : string) : option binding :=
  lookup_in (scopes st) name.

(** [if (cond) throw new SemanticError(message, line, null)] *)
Definition throw_if (cond : t -> bool) (message : ErrorMessage) (line : nat) : A unit :=
  fun st => if cond st then (Raise (SemanticError message line), st) else (Done tt, st).

(** First pass. *)
Definition declareFunction (node : stmt) : A unit :=
  match node with
  | FunctionDeclaration name params _ line =>
      throw_if (fun st => bool_decide (is_Some (functions st !! name)))
               (ALREADY_DEFINED name) line ;;;
      modify (fun st =>
        set_functions (<[name := mkFuncInfo params (length params) line]> (functions st)) st) ;;;
      declare name (mkBinding function line)
  | _ => ret tt
  end.

Definition visitIdentifier (name : string) (line : nat) : A unit :=
  throw_if (fun st => negb (bool_decide (is_Some (lookupVariable st name)))
                      && negb (bool_decide (is_Some (functions st !! name))))
           (UNDEFINED_VARIABLE name) line.

(** The checks of [visitCallExpression] that come before its arguments
    are visited. *)
Definition check_callee (callee : string) (argc : nat) (line : nat) : A unit := fun st =>
  match functions st !! callee with
  | None =>
      if negb (bool_decide (is_Some (lookupVariable st callee)))
      then (Raise (SemanticError (UNDEFINED_FUNCTION callee) line), st)
      else (Done tt, st)
  | Some funcInfo =>
      if negb (argc =? paramCount funcInfo)
      then (Raise (SemanticError (WRONG_ARG_COUNT callee (paramCount funcInfo) argc) line), st)
      else (Done tt, st)
  end.

(** [visitExpression], with [visitBinaryExpression], [visitUnaryExpression],
    [visitCallExpression] and [visitAssignment] as its cases. *)
Fixpoint visitExpression (node : expr) : A unit :=
  match node with
  | BinaryExpression _ lhs rhs _ => visitExpression lhs ;;; visitExpression rhs
  | UnaryExpression _ operand _ => visitExpression operand
  | CallExpression callee arguments line =>
      check_callee callee (length arguments) line ;;;
      for_each visitExpression arguments
  | Literal _ _ => ret tt
  | Identifier name line => visitIdentifier name line
  | Grouping expression _ => visitExpression expression
  | Assignment name value line =>
      throw_if (fun st => negb (bool_decide (is_Some (lookupVariable st name))))
               (UNDEFINED_VARIABLE name) line ;;;
      visitExpression value
  end.

(** [visitBlock(node, createNewScope)] over a visitor of statements. *)
Definition visitBlock_with (visit : stmt -> A unit) (statements : list stmt)
    (createNewScope : bool) : A unit :=
  (if createNewScope then pushScope else ret tt) ;;;
  for_each visit statements ;;;
  (if createNewScope then popScope else ret tt).

Definition declare_parameter (line : nat) (param : string) : A unit :=
  throw_if (fun st => bool_decide (is_Some (currentScope st !! param)))
           (ALREADY_DEFINED param) line ;;;
  declare param (mkBinding parameter line).

(** [visitStatement], with the visitors of the statement kinds as its
    cases.  A [BreakStatement] falls to the [default] case, which hands
    the node to [visitExpression], where no case matches. *)
Fixpoint visitStatement (node : stmt) : A unit :=
  match node with
  | VariableDeclaration name value line =>
      throw_if (fun st => bool_decide (is_Some (currentScope st !! name)))
               (ALREADY_DEFINED name) line ;;;
      visitExpression value ;;;
      declare name (mkBinding variable line)
  | PrintStatement expressions _ => for_each visitExpression expressions
  | IfStatement conditions consequents alternate _ =>
      for_each visitExpression conditions ;;;
      for_each (fun consequent => visitBlock_with visitStatement consequent true) consequents ;;;
      match alternate with
      | Some block => visitBlock_with visitStatement block true
      | None => ret tt
      end
  | WhileStatement condition body _ =>
      visitExpression condition ;;;
      visitBlock_with visitStatement body true
  | BreakStatement _ => ret tt
  | FunctionDeclaration name params body line =>
      previousFunction <- (fun st => (Done (currentFunction st), st)) ;;
      modify (set_currentFunction (Some name)) ;;;
      pushScope ;;;
      for_each (declare_parameter line) params ;;;
      visitBlock_with visitStatement body false ;;;
      popScope ;;;
      modify (set_currentFunction previousFunction)
  | ReturnStatement value line =>
      throw_if (fun st => negb (bool_decide (is_Some (currentFunction st))))
               RETURN_OUTSIDE_FUNCTION line ;;;
      match value with
      | Some e => visitExpression e
      | None => ret tt
      end
  | ExpressionStatement expression _ => visitExpression expression
  | Block statements => visitBlock_with visitStatement statements false
  end.

Definition visitBlock : list stmt -> bool -> A unit := visitBlock_with visitStatement.

Definition visitProgram (body : Program) : A unit :=
  for_each declareFunction body ;;;
  for_each visitStatement body.

(** [analyze(ast)]: the first error caught is thrown again. *)
Definition analyze (ast : Program) : A Program := fun st =>
  let st0 := mk [∅] ∅ None [] in
  match visitProgram ast st0 with
  | (Raise error, st1) =>
      let st2 := set_errors (errors st1 ++ [error]) st1 in
      (Raise (default error (head (errors st2))), st2)
  | (Done _, st1) => (Done ast, st1)
  | (Timeout, st1) => (Timeout, st1)
  end.

End Analyzer.

(** [analyze(ast)] of src/analyzer.js: on a fresh analyzer. *)
Definition analyze (ast : Program) : outcome MasalaError Program :=
  fst (Analyzer.analyze ast Analyzer.new).

(** ** Number operations of the host

    [x % y] and [String(x)] on binary64 numbers, through the exact rational
    value [m * 2^e] of a finite number. *)

Definition float_is_zero (x : float) : bool := PrimFloat.eqb x PrimFloat.zero.

(** [x % y]: the remainder of the division truncated towards zero; it has
    the sign of [x] and is exact. *)
Definition float_rem (x y : float) : float :=
  match Prim2SF x, Prim2SF y with
  | S754_nan, _ | _, S754_nan => PrimFloat.nan
  | S754_infinity _, _ => PrimFloat.nan
  | _, S754_zero _ => PrimFloat.nan
  | _, S754_infinity _ => x
  | S754_zero _, _ => x
  | S754_finite sx mx ex, S754_finite _ my ey =>
      let e := Z.min ex ey in
      let X := (Zpos mx * 2 ^ (ex - e))%Z in
      let Y := (Zpos my * 2 ^ (ey - e))%Z in
      let R := (X mod Y)%Z in
      SF2Prim (binary_normalize prec emax (if sx then (- R)%Z else R) e sx)
  end.

Definition digit_char (d : Z) : ascii := ascii_of_nat (48 + Z.to_nat d).

(** The decimal digits of [n >= 0], most significant first; [fuel] bounds
    their number. *)
Fixpoint digits_of (fuel : nat) (n : Z) (acc : string) : string :=
  match fuel with
  | 0 => acc
  | S fuel' =>
      let acc' := String (digit_char (n mod 10)) acc in
      if (n <? 10)%Z then acc' else digits_of fuel' (n / 10) acc'
  end.

Definition Z_to_string (n : Z) : string :=
  if (n <? 0)%Z then "-" +:+ digits_of 400 (- n) "" else digits_of 400 n "".

Definition nat_to_string (n : nat) : string := Z_to_string (Z.of_nat n).

Fixpoint zeros (n : nat) : string :=
  match n with
  | 0 => ""
  | S n' => String "0" (zeros n')
  end.

(** [s * 10^p] as a fraction. *)
Definition scaled (s p : Z) : Z * Z :=
  if (0 <=? p)%Z then (s * 10 ^ p, 1)%Z else (s, 10 ^ (- p))%Z.

(** Does the decimal [s * 10^p] denote the number [x]? *)
Definition reads_back (x : float) (s p : Z) : bool :=
  let (num, den) := scaled s p in PrimFloat.eqb (nearest_float num den) x.

(** The shortest decimal [s * 10^(n'-k)], [10^(k-1) <= s < 10^k], that
    denotes [x = num / den > 0], where [10^(n-1) <= x < 10^n]: the number
    of digits [k] is tried from 1 upwards, and of the two [k]-digit
    candidates around [x] the nearer one is preferred.  The upper
    candidate may be [10^k], which is the digit 1 with [n' = n + 1];
    otherwise [n' = n].  The result is [(s, k, n')]. *)
Fixpoint shortest_digits (rounds : nat) (x : float) (num den n k : Z) : Z * Z * Z :=
  let (pn, pd) := scaled 1 (n - k) in
  let lo := ((num * pd) / (den * pn))%Z in
  let hi := (lo + 1)%Z in
  let ok s := reads_back x s (n - k) in
  (* the distance of [x] to [s * 10^(n-k)], scaled by [den * pd] *)
  let err s := Z.abs (num * pd - s * pn * den)%Z in
  let best :=
    if ok lo && ok hi then
      if (err lo <? err hi)%Z then Some lo
      else if (err hi <? err lo)%Z then Some hi
      else Some (if Z.even lo then lo else hi)
    else if ok lo then Some lo
    else if ok hi then Some hi
    else None in
  match best, rounds with
  | Some s, _ => if (s =? 10 ^ k)%Z then (10 ^ (k - 1), k, n + 1)%Z else (s, k, n)
  | None, 0 => (lo, k, n)
  | None, S rounds' => shortest_digits rounds' x num den n (k + 1)
  end.

(** [n] with [10^(n-1) <= num / den < 10^n], searched upwards from an
    estimate below it taken from the binary length [len] of the number. *)
Definition decimal_exponent (num den len : Z) : Z :=
  let c := (((len - 1) * 30102) / 100000)%Z in
  let fits n :=
    let (pn, pd) := scaled 1 n in (num * pd <? den * pn)%Z in
  if fits c then c
  else if fits (c + 1)%Z then (c + 1)%Z
  else if fits (c + 2)%Z then (c + 2)%Z
  else (c + 3)%Z.

(** [Number.prototype.toString] (radix 10) on a finite [x > 0]. *)
Definition positive_to_string (x : float) : string :=
  match Prim2SF x with
  | S754_finite _ m e =>
      let (num, den) :=
        if (0 <=? e)%Z then (Zpos m * 2 ^ e, 1)%Z else (Zpos m, 2 ^ (- e))%Z in
      let n0 := decimal_exponent num den (Z.pos (digits2_pos m) + e) in
      let '(s, k, n) := shortest_digits 17 x num den n0 1 in
      let ds := Z_to_string s in
      if ((k <=? n) && (n <=? 21))%Z then ds +:+ zeros (Z.to_nat (n - k))
      else if ((0 <? n) && (n <=? 21))%Z then
        String.substring 0 (Z.to_nat n) ds +:+ "." +:+
        String.substring (Z.to_nat n) (Z.to_nat (k - n)) ds
      else if ((-6 <? n) && (n <=? 0))%Z then "0." +:+ zeros (Z.to_nat (- n)) +:+ ds
      else
        let ex := (n - 1)%Z in
        let ex_str := (if (0 <=? ex)%Z then "+" else "-") +:+ Z_to_string (Z.abs ex) in
        if (k =? 1)%Z then ds +:+ "e" +:+ ex_str
        else String.substring 0 1 ds +:+ "." +:+
             String.substring 1 (Z.to_nat (k - 1)) ds +:+ "e" +:+ ex_str
  | _ => "Infinity"
  end.

(** [String(x)] on a number. *)
Definition number_to_string (x : float) : string :=
  if PrimFloat.is_nan x then "NaN"
  else if float_is_zero x then "0"
  else if PrimFloat.ltb x PrimFloat.zero
  then "-" +:+ positive_to_string (PrimFloat.opp x)
  else positive_to_string x.

(** ** Interpreter (src/interpreter.js)

    Environments are JavaScript objects that closures and child
    environments point to; they live in a store, a list indexed by the
    order of their creation.  A [MasalaFunction] is an object too: it
    carries the number of its creation, which is its identity under [===]. *)

Abbreviation env_id := nat (only parsing).

Inductive value : Type :=
| VNull
| VBool (b : bool)
| VNumber (n : float)
| VString (s : string)
| VFunction (id : nat) (name : string) (params : list string) (body : list stmt)
            (line : nat) (closure : env_id).

Record Environment : Type := mkEnvironment {
  values : gmap string value;
  parent : option env_id
}.

(** What a [throw] of the interpreter carries. *)
Inductive thrown : Type :=
| Error (e : MasalaError)
| ReturnValue (v : value).

Module Interpreter.

Record t : Type := mk {
  envs : list Environment;
  globals : env_id;
  environment : env_id;
  output : list string;
  functions_created : nat
}.

(** [new Interpreter()] *)
Definition new : t := mk [mkEnvironment ∅ None] 0 0 [] 0.

Definition set_envs (v : list Environment) (st : t) : t :=
  mk v (globals st) (environment st) (output st) (functions_created st).
Definition set_environment (v : env_id) (st : t) : t :=
  mk (envs st) (globals st) v (output st) (functions_created st).
Definition set_output (v : list string) (st : t) : t :=
  mk (envs st) (globals st) (environment st) v (functions_created st).
Definition set_functions_created (v : nat) (st : t) : t :=
  mk (envs st) (globals st) (environment st) (output st) v.

Definition I (A : Type) : Type := M t thrown A.

Definition runtime_error {A} (message : ErrorMessage) (line : nat) : I A :=
  throw (Error (RuntimeError message line)).

(** *** Environments *)

(** [new Environment(parent)]: the new object's place in the store. *)
Definition new_Environment (parent : env_id) : I env_id := fun st =>
  (Done (length (envs st)),
   set_envs (envs st ++ [mkEnvironment ∅ (Some parent)]) st).

(** [env.define(name, value)] *)
Definition define (env : env_id) (name : string) (v : value) : I unit :=
  modify (fun st =>
    set_envs
      (alter (fun e => mkEnvironment (<[name := v]> (values e)) (parent e)) env (envs st)) st).

(** [env.get(name)] on a store: [Some None] is the miss that throws;
    [None] is the walk up the parents running out of [depth].  (An
    environment is created before its children, so every reference
    points into the store.) *)
Fixpoint get_in (depth : nat) (store : list Environment) (env : env_id) (name : string)
    : option (option value) :=
  match depth with
  | 0 => None
  | S depth' =>
      match store !! env with
      | None => Some None
      | Some e =>
          match values e !! name with
          | Some v => Some (Some v)
          | None =>
              match parent e with
              | Some p => get_in depth' store p name
              | None => Some None
              end
          end
      end
  end.

(** The environment on the chain of [env] that holds [name], which is
    where [assign] writes. *)
Fixpoint holder_in (depth : nat) (store : list Environment) (env : env_id) (name : string)
    : option (option env_id) :=
  match depth with
  | 0 => None
  | S depth' =>
      match store !! env with
      | None => Some None
      | Some e =>
          match values e !! name with
          | Some _ => Some (Some env)
          | None =>
              match parent e with
              | Some p => holder_in depth' store p name
              | None => Some None
              end
          end
      end
  end.

(** A chain of parents is no longer than the store. *)
Definition chain_bound (st : t) : nat := S (length (envs st)).

(** [env.get(name, line)] *)
Definition get (env : env_id) (name : string) (line : nat) : I value := fun st =>
  match get_in (chain_bound st) (envs st) env name with
  | Some (Some v) => (Done v, st)
  | Some None => (Raise (Error (RuntimeError (UNDEFINED_VARIABLE name) line)), st)
  | None => (Timeout, st)
  end.

(** [env.assign(name, value, line)] *)
Definition assign (env : env_id) (name : string) (v : value) (line : nat) : I unit := fun st =>
  match holder_in (chain_bound st) (envs st) env name with
  | Some (Some holder) => define holder name v st
  | Some None => (Raise (Error (RuntimeError (UNDEFINED_VARIABLE name) line)), st)
  | None => (Timeout, st)
  end.

Definition this_environment : I env_id := fun st => (Done (environment st), st).

(** *** Helper methods *)

Definition isTruthy (v : value) : bool :=
  match v with
  | VNull => false
  | VBool b => b
  | _ => true
  end.

(** [a === b] *)
Definition strict_equal (a b : value) : bool :=
  match a, b with
  | VNull, VNull => true
  | VBool x, VBool y => Bool.eqb x y
  | VNumber x, VNumber y => PrimFloat.eqb x y
  | VString x, VString y => String.eqb x y
  | VFunction i _ _ _ _ _, VFunction j _ _ _ _ _ => i =? j
  | _, _ => false
  end.

Definition isEqual (a b : value) : bool :=
  match a, b with
  | VNull, VNull => true
  | VNull, _ => false
  | _, _ => strict_equal a b
  end.

Definition is_number (v : value) : bool :=
  match v with VNumber _ => true | _ => false end.
Definition is_string (v : value) : bool :=
  match v with VString _ => true | _ => false end.

Definition checkNumberOperand (operator : string) (operand : value) (line : nat) : I unit :=
  if is_number operand then ret tt else runtime_error (NOT_A_NUMBER operator) line.

Definition checkNumberOperands (operator : string) (l r : value) (line : nat) : I unit :=
  if is_number l && is_number r then ret tt else runtime_error (NOT_A_NUMBER operator) line.

Definition stringify (v : value) : string :=
  match v with
  | VNull => "khaali"
  | VBool true => "sach"
  | VBool false => "galat"
  | VNumber n => number_to_string n
  | VFunction _ name _ _ _ _ => "<function " +:+ name +:+ ">"
  | VString s => s
  end.

(** [values.join(' ')] *)
Fixpoint join (sep : string) (parts : list string) : string :=
  match parts with
  | [] => ""
  | [p] => p
  | p :: rest => p +:+ sep +:+ join sep rest
  end.

Definition value_of_literal (l : literal) : value :=
  match l with
  | LitNull => VNull
  | LitBool b => VBool b
  | LitNumber n => VNumber n
  | LitString s => VString s
  end.

(** The number under a value that [checkNumberOperand(s)] let pass. *)
Definition num (v : value) : float :=
  match v with VNumber n => n | _ => PrimFloat.nan end.

(** The [switch] of [evaluateUnary], on the value of the operand. *)
Definition unary_operation (operator : string) (operand : value) (line : nat) : I value :=
  if String.eqb operator "-" then
    checkNumberOperand operator operand line ;;;
    ret (VNumber (PrimFloat.opp (num operand)))
  else if String.eqb operator "!" then ret (VBool (negb (isTruthy operand)))
  else runtime_error (INVALID_OPERAND operator) line.

(** The [switch] of [evaluateBinary], on the values of the operands. *)
Definition binary_operation (operator : string) (l r : value) (line : nat) : I value :=
  let on_numbers (f : float -> float -> value) : I value :=
    checkNumberOperands operator l r line ;;; ret (f (num l) (num r)) in
  if String.eqb operator "+" then
    if is_number l && is_number r then ret (VNumber (PrimFloat.add (num l) (num r)))
    else if is_string l || is_string r then ret (VString (stringify l +:+ stringify r))
    else runtime_error (INVALID_OPERAND "+") line
  else if String.eqb operator "-" then on_numbers (fun a b => VNumber (PrimFloat.sub a b))
  else if String.eqb operator "*" then on_numbers (fun a b => VNumber (PrimFloat.mul a b))
  else if String.eqb operator "/" then
    checkNumberOperands operator l r line ;;;
    if float_is_zero (num r) then runtime_error DIVISION_BY_ZERO line
    else ret (VNumber (PrimFloat.div (num l) (num r)))
  else if String.eqb operator "%" then
    checkNumberOperands operator l r line ;;;
    if float_is_zero (num r) then runtime_error DIVISION_BY_ZERO line
    else ret (VNumber (float_rem (num l) (num r)))
  else if String.eqb operator "<" then on_numbers (fun a b => VBool (PrimFloat.ltb a b))
  else if String.eqb operator ">" then on_numbers (fun a b => VBool (PrimFloat.ltb b a))
  else if String.eqb operator "<=" then on_numbers (fun a b => VBool (PrimFloat.leb a b))
  else if String.eqb operator ">=" then on_numbers (fun a b => VBool (PrimFloat.leb b a))
  else if String.eqb operator "==" then ret (VBool (isEqual l r))
  else if String.eqb operator "!=" then ret (VBool (negb (isEqual l r)))
  else if String.eqb operator "&&" then ret (VBool (isTruthy l && isTruthy r))
  else if String.eqb operator "||" then ret (VBool (isTruthy l || isTruthy r))
  else runtime_error (INVALID_OPERAND operator) line.

(** [executeBlock]'s [try { this.environment = environment; ... }
    finally { this.environment = previous; }] around a body. *)
Definition in_environment {A} (env : env_id) (body : I A) : I A := fun st =>
  let previous := environment st in
  let (r, st') := body (set_environment env st) in
  (r, set_environment previous st').

(** The loop of [MasalaFunction.call] that binds the parameters:
    [args[i] !== undefined ? args[i] : null]. *)
Fixpoint bind_parameters (env : env_id) (params : list string) (args : list value) (i : nat)
    : I unit :=
  match params with
  | [] => ret tt
  | p :: rest =>
      define env p (default VNull (args !! i)) ;;;
      bind_parameters env rest args (S i)
  end.

(** [try { body } catch (returnValue) { if (returnValue instanceof
    ReturnValue) return returnValue.value; throw returnValue; }
    return null;] *)
Definition catch_return (body : I unit) : I value := fun st =>
  match body st with
  | (Done _, st') => (Done VNull, st')
  | (Raise (ReturnValue v), st') => (Done v, st')
  | (Raise (Error e), st') => (Raise (Error e), st')
  | (Timeout, st') => (Timeout, st')
  end.

Definition maxIterations : N := 100000%N.

Section Statements.
(** The statement executor that the evaluator of expressions calls
    back through [MasalaFunction.call]. *)
Variable executeStatement : stmt -> I unit.

Definition executeBlock (statements : list stmt) (env : env_id) : I unit :=
  in_environment env (for_each executeStatement statements).

(** [MasalaFunction.call(interpreter, args)] *)
Definition MasalaFunction_call (params : list string) (body : list stmt)
    (closure : env_id) (args : list value) : I value :=
  env <- new_Environment closure ;;
  bind_parameters env params args 0 ;;;
  catch_return (executeBlock body env).

(** What [evaluateCall] does once callee and arguments are values. *)
Definition call_value (name : string) (callee : value) (args : list value) (line : nat)
    : I value :=
  match callee with
  | VFunction _ _ params body _ closure =>
      if negb (length args =? length params)
      then runtime_error (WRONG_ARG_COUNT name (length params) (length args)) line
      else MasalaFunction_call params body closure args
  | _ => runtime_error (NOT_A_FUNCTION name) line
  end.

(** [this.environment.get(node.callee, node.line)], any error replaced
    by [UNDEFINED_FUNCTION]. *)
Definition get_callee (name : string) (line : nat) : I value := fun st =>
  match get (environment st) name line st with
  | (Raise _, st') => (Raise (Error (RuntimeError (UNDEFINED_FUNCTION name) line)), st')
  | r => r
  end.

Fixpoint evaluate (node : expr) : I value :=
  match node with
  | Literal v _ => ret (value_of_literal v)
  | Identifier name line => env <- this_environment ;; get env name line
  | Grouping expression _ => evaluate expression
  | UnaryExpression operator operand line =>
      v <- evaluate operand ;;
      unary_operation operator v line
  | BinaryExpression operator lhs rhs line =>
      l <- evaluate lhs ;;
      r <- evaluate rhs ;;
      binary_operation operator l r line
  | CallExpression name arguments line =>
      callee <- get_callee name line ;;
      args <- map_M evaluate arguments ;;
      call_value name callee args line
  | Assignment name e line =>
      v <- evaluate e ;;
      env <- this_environment ;;
      assign env name v line ;;;
      ret v
  end.

Definition executePrintStatement (expressions : list expr) : I unit :=
  vs <- map_M evaluate expressions ;;
  modify (fun st => set_output (output st ++ [join " " (map stringify vs)]) st).

(** The search of [executeIfStatement] for the first truthy condition
    ([conditions] and [consequents] have the same length). *)
Fixpoint executeIfStatement (conditions : list expr) (consequents : list (list stmt))
    (alternate : option (list stmt)) : I unit :=
  match conditions, consequents with
  | c :: conditions', block :: consequents' =>
      v <- evaluate c ;;
      if isTruthy v then
        outer <- this_environment ;;
        env <- new_Environment outer ;;
        executeBlock block env
      else executeIfStatement conditions' consequents' alternate
  | _, _ =>
      match alternate with
      | Some block =>
          outer <- this_environment ;;
          env <- new_Environment outer ;;
          executeBlock block env
      | None => ret tt
      end
  end.

(** The loop of [executeWhileStatement]; [fuel] bounds the rounds of
    the model, [iterations] counts them as the source does. *)
Fixpoint while_loop (fuel : nat) (condition : expr) (body : list stmt) (line : nat)
    (iterations : N) : I unit :=
  v <- evaluate condition ;;
  if isTruthy v then
    if (maxIterations <? N.succ iterations)%N then runtime_error LOOP_LIMIT_EXCEEDED line
    else
      match fuel with
      | 0 => timeout
      | S fuel' =>
          outer <- this_environment ;;
          env <- new_Environment outer ;;
          executeBlock body env ;;;
          while_loop fuel' condition body line (N.succ iterations)
      end
  else ret tt.

Definition executeFunctionDeclaration (name : string) (params : list string)
    (body : list stmt) (line : nat) : I unit :=
  fun st =>
    let func := VFunction (functions_created st) name params body line (environment st) in
    define (environment st) name func
      (set_functions_created (S (functions_created st)) st).

Definition executeReturnStatement (value : option expr) : I unit :=
  v <- match value with
       | Some e => evaluate e
       | None => ret VNull
       end ;;
  throw (ReturnValue v).
End Statements.

(** [executeStatement]; [fuel] bounds the depth of the calls that go
    through function values and the rounds of the loops. *)
Fixpoint executeStatement (fuel : nat) (node : stmt) : I unit :=
  match fuel with
  | 0 => timeout
  | S fuel' =>
      let exec := executeStatement fuel' in
      match node with
      | VariableDeclaration name e _ =>
          v <- evaluate exec e ;;
          env <- this_environment ;;
          define env name v
      | PrintStatement expressions _ => executePrintStatement exec expressions
      | IfStatement conditions consequents alternate _ =>
          executeIfStatement exec conditions consequents alternate
      | WhileStatement condition body line => while_loop exec fuel' condition body line 0
      | FunctionDeclaration name params body line =>
          executeFunctionDeclaration name params body line
      | ReturnStatement value _ => executeReturnStatement exec value
      | ExpressionStatement expression _ => evaluate exec expression ;;; ret tt
      | Block statements =>
          outer <- this_environment ;;
          env <- new_Environment outer ;;
          executeBlock exec statements env
      | BreakStatement line => runtime_error UNKNOWN_STATEMENT_TYPE line
      end
  end.

(** [execute(ast)] *)
Definition execute (fuel : nat) (ast : Program) : I (list string) :=
  modify (set_output []) ;;;
  modify (fun st => set_environment (globals st) st) ;;;
  for_each (executeStatement fuel) ast ;;;
  (fun st => (Done (output st), st)).

End Interpreter.

(** ** The compiler class (src/masalascript.js) *)

(** What [run] returns: [{ success: true, output }], or
    [{ success: false, errorObject }]; [RunTimeout] marks that the model's
    recursion budget ran out. *)
Inductive RunResult : Type :=
| Success (output : list string)
| Failure (errorObject : thrown)
| RunTimeout.

Module MasalaScript.

Record t : Type := mk {
  skipAnalysis : bool;
  analyzer : Analyzer.t;
  interpreter : Interpreter.t;
  output : list string
}.

(** [new MasalaScript(options)], [skipAnalysis] being [false] unless
    asked for. *)
Definition new_with (skip : bool) : t := mk skip Analyzer.new Interpreter.new [].
Definition new : t := new_with false.

(** [run(source)]; [fuel] is the budget of the interpreter.  [this.output]
    is emptied first and set again by a successful execution. *)
Definition run (fuel : nat) (src : string) (ms : t) : RunResult * t :=
  let ms0 := mk (skipAnalysis ms) (analyzer ms) (interpreter ms) [] in
  match tokenize src with
  | Timeout => (RunTimeout, ms0)
  | Raise e => (Failure (Error e), ms0)
  | Done toks =>
      match parse toks with
      | Timeout => (RunTimeout, ms0)
      | Raise e => (Failure (Error e), ms0)
      | Done ast =>
          let (analysed, an) :=
            if skipAnalysis ms then (Done ast, analyzer ms)
            else Analyzer.analyze ast (analyzer ms) in
          match analysed with
          | Timeout => (RunTimeout, mk (skipAnalysis ms) an (interpreter ms) [])
          | Raise e => (Failure (Error e), mk (skipAnalysis ms) an (interpreter ms) [])
          | Done _ =>
              let (r, it) := Interpreter.execute fuel ast (interpreter ms) in
              match r with
              | Done out => (Success out, mk (skipAnalysis ms) an it out)
              | Raise e => (Failure e, mk (skipAnalysis ms) an it [])
              | Timeout => (RunTimeout, mk (skipAnalysis ms) an it [])
              end
          end
      end
  end.

(** [executeAST(ast)] *)
Definition executeAST (fuel : nat) (ast : Program) (ms : t) : RunResult * t :=
  let (r, it) := Interpreter.execute fuel ast (interpreter ms) in
  match r with
  | Done out => (Success out, mk (skipAnalysis ms) (analyzer ms) it out)
  | Raise e => (Failure e, mk (skipAnalysis ms) (analyzer ms) it (output ms))
  | Timeout => (RunTimeout, mk (skipAnalysis ms) (analyzer ms) it (output ms))
  end.

End MasalaScript.

(** The result of [new MasalaScript().run(source)]. *)
Definition run_fresh (fuel : nat) (src : string) : RunResult :=
  fst (MasalaScript.run fuel src MasalaScript.new).

(** ** The browser bundle

    The bundle repeats the lexer as it is, the parser with its [BREAK]
    case, and an analyzer of its own, which is the one that keeps a loop
    depth.  Its interpreter is not modelled. *)

Module Bundle.

(** [parser.parse()] of the bundle. *)
Definition parse (toks : list Token) : outcome MasalaError Program :=
  fst (Parser.parse true (Parser.new toks)).

Module Analyzer.

Record t : Type := mk {
  scopes : list (gmap string Analyzer.binding);
  functions : gmap string Analyzer.FuncInfo;
  currentFunction : option string;
  loopDepth : nat
}.

Definition new : t := mk [∅] ∅ None 0.

Definition set_scopes (v : list (gmap string Analyzer.binding)) (st : t) : t :=
  mk v (functions st) (currentFunction st) (loopDepth st).
Definition set_functions (v : gmap string Analyzer.FuncInfo) (st : t) : t :=
  mk (scopes st) v (currentFunction st) (loopDepth st).
Definition set_currentFunction (v : option string) (st : t) : t :=
  mk (scopes st) (functions st) v (loopDepth st).
Definition set_loopDepth (v : nat) (st : t) : t :=
  mk (scopes st) (functions st) (currentFunction st) v.

Definition A (R : Type) : Type := M t MasalaError R.

(** [this.scopes.push(new Map())] and [this.scopes.pop()] *)
Definition pushScope : A unit := modify (fun st => set_scopes (∅ :: scopes st) st).
Definition popScope : A unit := modify (fun st => set_scopes (tail (scopes st)) st).

(** [this.scopes[this.scopes.length - 1].set(name, b)] *)
Definition declare (name : string) (b : Analyzer.binding) : A unit :=
  modify (fun st =>
    match scopes st with
    | [] => st
    | scope :: outer => set_scopes (<[name := b]> scope :: outer) st
    end).

(** [this.scopes[0].set(name, b)]: the outermost scope, last in the list. *)
Definition declare_global (name : string) (b : Analyzer.binding) : A unit :=
  modify (fun st =>
    match reverse (scopes st) with
    | [] => st
    | scope :: inner => set_scopes (reverse (<[name := b]> scope :: inner)) st
    end).

Definition lookupVariable (st : t) (name : string) : option Analyzer.binding :=
  Analyzer.lookup_in (scopes st) name.

Definition throw_if (cond : t -> bool) (message : ErrorMessage) (line : nat) : A unit :=
  fun st => if cond st then (Raise (SemanticError message line), st) else (Done tt, st).

(** The first loop of [analyze], on one statement of the program. *)
Definition hoist (node : stmt) : A unit :=
  match node with
  | FunctionDeclaration name params _ line =>
      throw_if (fun st => bool_decide (is_Some (functions st !! name)))
               (ALREADY_DEFINED name) line ;;;
      modify (fun st =>
        set_functions
          (<[name := Analyzer.mkFuncInfo params (length params) line]> (functions st)) st) ;;;
      declare_global name (Analyzer.mkBinding Analyzer.function line)
  | _ => ret tt
  end.

Fixpoint visitExpression (node : expr) : A unit :=
  match node with
  | BinaryExpression _ lhs rhs _ => visitExpression lhs ;;; visitExpression rhs
  | UnaryExpression _ operand _ => visitExpression operand
  | CallExpression callee arguments line =>
      throw_if (fun st => negb (bool_decide (is_Some (functions st !! callee)))
                          && negb (bool_decide (is_Some (lookupVariable st callee))))
               (UNDEFINED_FUNCTION callee) line ;;;
      (fun st =>
         match functions st !! callee with
         | Some funcInfo =>
             if negb (length arguments =? Analyzer.paramCount funcInfo)
             then (Raise (SemanticError
                            (WRONG_ARG_COUNT callee (Analyzer.paramCount funcInfo)
                               (length arguments)) line), st)
             else (Done tt, st)
         | None => (Done tt, st)
         end) ;;;
      for_each visitExpression arguments
  | Literal _ _ => ret tt
  | Identifier name line =>
      throw_if (fun st => negb (bool_decide (is_Some (lookupVariable st name)))
                          && negb (bool_decide (is_Some (functions st !! name))))
               (UNDEFINED_VARIABLE name) line
  | Grouping expression _ => visitExpression expression
  | Assignment name value line =>
      throw_if (fun st => negb (bool_decide (is_Some (lookupVariable st name))))
               (UNDEFINED_VARIABLE name) line ;;;
      visitExpression value
  end.

(** [this.scopes.push(new Map()); for (const s of statements)
    this.visitStatement(s); this.scopes.pop();] *)
Definition in_new_scope (visit : stmt -> A unit) (statements : list stmt) : A unit :=
  pushScope ;;; for_each visit statements ;;; popScope.

Fixpoint visitStatement (node : stmt) : A unit :=
  match node with
  | VariableDeclaration name value line =>
      visitExpression value ;;;
      declare name (Analyzer.mkBinding Analyzer.variable line)
  | PrintStatement expressions _ => for_each visitExpression expressions
  | IfStatement conditions consequents alternate _ =>
      for_each visitExpression conditions ;;;
      for_each (in_new_scope visitStatement) consequents ;;;
      match alternate with
      | Some block => in_new_scope visitStatement block
      | None => ret tt
      end
  | WhileStatement condition body _ =>
      visitExpression condition ;;;
      modify (fun st => set_loopDepth (S (loopDepth st)) st) ;;;
      in_new_scope visitStatement body ;;;
      modify (fun st => set_loopDepth (loopDepth st - 1) st)
  | BreakStatement line =>
      throw_if (fun st => loopDepth st =? 0) BREAK_OUTSIDE_LOOP line
  | FunctionDeclaration name params body line =>
      prev <- (fun st => (Done (currentFunction st), st)) ;;
      modify (set_currentFunction (Some name)) ;;;
      pushScope ;;;
      for_each (fun param => declare param (Analyzer.mkBinding Analyzer.parameter line)) params ;;;
      for_each visitStatement body ;;;
      popScope ;;;
      modify (set_currentFunction prev)
  | ReturnStatement value line =>
      throw_if (fun st => negb (bool_decide (is_Some (currentFunction st))))
               RETURN_OUTSIDE_FUNCTION line ;;;
      match value with
      | Some e => visitExpression e
      | None => ret tt
      end
  | ExpressionStatement expression _ => visitExpression expression
  | Block statements => in_new_scope visitStatement statements
  end.

(** [analyze(ast)] of the bundle. *)
Definition analyze (ast : Program) : A Program := fun st =>
  (for_each hoist ast ;;; for_each visitStatement ast ;;; ret ast) (mk [∅] ∅ None 0).

End Analyzer.

(** The stages of the bundle's [run] that come before execution. *)
Definition compile (src : string) : outcome MasalaError Program :=
  match tokenize src with
  | Done toks =>
      match parse toks with
      | Done ast => fst (Analyzer.analyze ast Analyzer.new)
      | r => r
      end
  | Raise e => Raise e
  | Timeout => Timeout
  end.

End Bundle.

(** The stages of [MasalaScript.compile] (src/masalascript.js). *)
Definition compile (src : string) : outcome MasalaError Program :=
  match tokenize src with
  | Done toks =>
      match parse toks with
      | Done ast => analyze ast
      | r => r
      end
  | Raise e => Raise e
  | Timeout => Timeout
  end.

(** * The vocabulary of the properties *)

(** ** Properties of programs

    [expr_any P e]: some node of the expression [e] satisfies [P];
    [stmt_any Pe Ps s]: some expression node in the statement [s] satisfies
    [Pe], or some statement node of [s] satisfies [Ps]. *)

Fixpoint expr_any (P : expr -> bool) (e : expr) : bool :=
  P e ||
  match e with
  | BinaryExpression _ lhs rhs _ => expr_any P lhs || expr_any P rhs
  | UnaryExpression _ operand _ => expr_any P operand
  | CallExpression _ arguments _ => existsb (expr_any P) arguments
  | Grouping expression _ => expr_any P expression
  | Assignment _ value _ => expr_any P value
  | Literal _ _ | Identifier _ _ => false
  end.

Fixpoint stmt_any (Pe : expr -> bool) (Ps : stmt -> bool) (s : stmt) : bool :=
  Ps s ||
  match s with
  | VariableDeclaration _ value _ => expr_any Pe value
  | PrintStatement expressions _ => existsb (expr_any Pe) expressions
  | IfStatement conditions consequents alternate _ =>
      existsb (expr_any Pe) conditions
      || existsb (existsb (stmt_any Pe Ps)) consequents
      || match alternate with
         | Some block => existsb (stmt_any Pe Ps) block
         | None => false
         end
  | WhileStatement condition body _ =>
      expr_any Pe condition || existsb (stmt_any Pe Ps) body
  | FunctionDeclaration _ _ body _ => existsb (stmt_any Pe Ps) body
  | ReturnStatement (Some e) _ => expr_any Pe e
  | ExpressionStatement expression _ => expr_any Pe expression
  | Block statements => existsb (stmt_any Pe Ps) statements
  | ReturnStatement None _ | BreakStatement _ => false
  end.

Definition program_any (Pe : expr -> bool) (Ps : stmt -> bool) (ast : Program) : bool :=
  existsb (stmt_any Pe Ps) ast.

Definition no_expr : expr -> bool := fun _ => false.
Definition no_stmt : stmt -> bool := fun _ => false.

(** A call of [callee] with [argc] arguments. *)
Definition is_call (callee : string) (argc : nat) (e : expr) : bool :=
  match e with
  | CallExpression name arguments _ => String.eqb name callee && (length arguments =? argc)
  | _ => false
  end.

(** A use of the name [f]: a call of it, a reference to it, or an
    assignment to it. *)
Definition uses_name (f : string) (e : expr) : bool :=
  match e with
  | CallExpression name _ _ | Identifier name _ | Assignment name _ _ => String.eqb name f
  | _ => false
  end.

(** A declaration of the function [f]. *)
Definition declares_function (f : string) (s : stmt) : bool :=
  match s with
  | FunctionDeclaration name _ _ _ => String.eqb name f
  | _ => false
  end.

(** [f] is declared as a function inside a statement of the program, below
    the top level. *)
Definition nested_function (f : string) (ast : Program) : bool :=
  existsb (fun s =>
    match s with
    | FunctionDeclaration _ _ body _ => existsb (stmt_any no_expr (declares_function f)) body
    | IfStatement _ consequents alternate _ =>
        existsb (existsb (stmt_any no_expr (declares_function f))) consequents
        || match alternate with
           | Some block => existsb (stmt_any no_expr (declares_function f)) block
           | None => false
           end
    | WhileStatement _ body _ | Block body =>
        existsb (stmt_any no_expr (declares_function f)) body
    | _ => false
    end) ast.

(** A [BreakStatement] that is in no [while] body. *)
Fixpoint break_outside_loop (s : stmt) : bool :=
  match s with
  | BreakStatement _ => true
  | IfStatement _ consequents alternate _ =>
      existsb (existsb break_outside_loop) consequents
      || match alternate with
         | Some block => existsb break_outside_loop block
         | None => false
         end
  | FunctionDeclaration _ _ body _ => existsb break_outside_loop body
  | Block statements => existsb break_outside_loop statements
  | _ => false
  end.

(** ** Computations that complete, or must fail *)

(** [triple X P m Q must_fail]: started in a state that satisfies [P], the
    computation [m] does not run out of budget; what it throws, and the
    state it throws in, satisfy [X]; when it completes, the state satisfies
    [Q] and [must_fail] is false.  So a computation with [must_fail = true]
    throws. *)
Definition triple {S E : Type} (X : E -> S -> Prop) {A} (P : S -> Prop) (m : M S E A)
    (Q : S -> Prop) (must_fail : bool) : Prop :=
  forall st, P st ->
    match m st with
    | (Done _, st') => Q st' /\ must_fail = false
    | (Raise e, st') => X e st'
    | (Timeout, _) => False
    end.

(** ** The analysis: arity (C5) *)

(** What the analyzers throw. *)
Definition is_semantic (e : MasalaError) : Prop :=
  match e with
  | SemanticError _ _ => True
  | _ => False
  end.

(** What the module's analyzer throws, and the state it throws in. *)
Definition semantic_throw (e : MasalaError) (st : Analyzer.t) : Prop :=
  is_semantic e /\ Analyzer.errors st = [].

(** The second pass leaves the table of functions as the first pass
    built it, and the list of errors empty. *)
Definition table_is (funcs : gmap string Analyzer.FuncInfo) (st : Analyzer.t) : Prop :=
  Analyzer.functions st = funcs /\ Analyzer.errors st = [].

(** A call whose callee is in the table with another parameter count. *)
Definition wrong_count (funcs : gmap string Analyzer.FuncInfo) (e : expr) : bool :=
  match e with
  | CallExpression name arguments _ =>
      match funcs !! name with
      | Some info => negb (length arguments =? Analyzer.paramCount info)
      | None => false
      end
  | _ => false
  end.

(** The first pass: what it has put in the table stays there, and a
    function declaration that it passes is in the table with its number of
    parameters. *)
Definition first_pass_post (sel : stmt -> Prop) (st : Analyzer.t)
    (r : outcome MasalaError unit * Analyzer.t) : Prop :=
  match r with
  | (Done _, st') =>
      Analyzer.errors st' = Analyzer.errors st
      /\ (forall g info, Analyzer.functions st !! g = Some info ->
                         Analyzer.functions st' !! g = Some info)
      /\ (forall g ps b l, sel (FunctionDeclaration g ps b l) ->
            exists info, Analyzer.functions st' !! g = Some info
                         /\ Analyzer.paramCount info = length ps)
  | (Raise e, st') => is_semantic e /\ Analyzer.errors st' = Analyzer.errors st
  | (Timeout, _) => False
  end.

(** The two stages of [run] that turn the text into the AST. *)
Definition parse_source (src : string) : outcome MasalaError Program :=
  match tokenize src with
  | Done toks => parse toks
  | Raise e => Raise e
  | Timeout => Timeout
  end.

(** The test [Wrong argument count throws error], with the accepted
    spelling of the program keywords. *)
Definition wrong_count_source : string := "Chal bhai suru kar
climax add(a, b) {
    dialogue wapas do a + b
}
add(1)
bas khatam karo".

(** What it parses to. *)
Definition wrong_count_ast : Program :=
  [ FunctionDeclaration "add" ["a"; "b"]
      [ ReturnStatement
          (Some (BinaryExpression "+" (Identifier "a" 3) (Identifier "b" 3) 3)) 3 ] 2;
    ExpressionStatement (CallExpression "add" [Literal (LitNumber 1) 5] 5) 5 ].

(** ** The analysis: nested functions (C9) *)

(** [f] is in no scope and not in the table of functions. *)
Definition unbound (f : string) (st : Analyzer.t) : Prop :=
  Analyzer.functions st !! f = None
  /\ Forall (fun scope : gmap string Analyzer.binding => scope !! f = None) (Analyzer.scopes st)
  /\ Analyzer.errors st = [].

(** A function declared inside another and called there by its name. *)
Definition nested_source : string := "Chal bhai suru kar
climax outer() {
  climax helper() { dialogue wapas do 7 }
  dialogue wapas do helper()
}
ek baat bataun: outer()
bas khatam karo".

(** What it parses to. *)
Definition nested_ast : Program :=
  [ FunctionDeclaration "outer" []
      [ FunctionDeclaration "helper" []
          [ ReturnStatement (Some (Literal (LitNumber 7) 3)) 3 ] 3;
        ReturnStatement (Some (CallExpression "helper" [] 4)) 4 ] 2;
    PrintStatement [CallExpression "outer" [] 6] 6 ].

(** The same program with a variable of the top level that bears the name
    of the nested function: the analysis accepts the call, and the call
    reaches the nested function. *)
Definition shadowed_source : string := "Chal bhai suru kar
maan lo helper = 0
climax outer() {
  climax helper() { dialogue wapas do 7 }
  dialogue wapas do helper()
}
ek baat bataun: outer()
bas khatam karo".

(** What it parses to. *)
Definition shadowed_ast : Program :=
  [ VariableDeclaration "helper" (Literal (LitNumber 0) 2) 2;
    FunctionDeclaration "outer" []
      [ FunctionDeclaration "helper" []
          [ ReturnStatement (Some (Literal (LitNumber 7) 4)) 4 ] 4;
        ReturnStatement (Some (CallExpression "helper" [] 5)) 5 ] 3;
    PrintStatement [CallExpression "outer" [] 7] 7 ].

(** ** The analysis of the bundle: loop depth *)

(** What the bundle's analyzer throws. *)
Definition bundle_throw (e : MasalaError) (st : Bundle.Analyzer.t) : Prop := is_semantic e.

(** The loop depth of the bundle's analyzer is [d]. *)
Definition depth_is (d : nat) (st : Bundle.Analyzer.t) : Prop :=
  Bundle.Analyzer.loopDepth st = d.

(** ** Programs for the framing, the break statement and the escapes
       (C1, C2, C4) *)

(** Scenario 2, as the specification and the test suite spell it. *)
Definition scenario2 : string := "action!
maan lo i = 1
jab tak hai jaan (i <= 3) { ek baat bataun: i
 i = i + 1 }
paisa vasool".

(** The same program between the two spellings that [Keywords] holds. *)
Definition scenario2_accepted_spelling : string := "Chal bhai suru kar
maan lo i = 1
jab tak hai jaan (i <= 3) { ek baat bataun: i
 i = i + 1 }
bas khatam karo".

(** The types and lexemes of a token list. *)
Definition shapes (r : outcome MasalaError (list Token)) : list (TokenType.t * string) :=
  match r with
  | Done toks => map (fun tok => (tok_type tok, tok_lexeme tok)) toks
  | _ => []
  end.

(** A break at the top level, and a break in the body of a loop. *)
Definition break_outside_source : string := "Chal bhai suru kar
me bahar ja raha hu
bas khatam karo".

Definition break_in_loop_source : string := "Chal bhai suru kar
jab tak hai jaan (sach) { me bahar ja raha hu }
bas khatam karo".

(** The source text of the literal: quote, backslash, backslash, n, quote. *)
Definition escaped_backslash_n : string := String DQUOTE ("\\n" +:+ String DQUOTE "").

(** The [literal] of the tokens. *)
Definition literals (r : outcome MasalaError (list Token)) : list literal :=
  match r with
  | Done toks => map tok_literal toks
  | _ => []
  end.

(** ** Branches (C8) *)

(** The execution of a block in a new child of the current environment,
    as the branches of [executeIfStatement] do it. *)
Definition run_branch (exec : stmt -> Interpreter.I unit) (block : list stmt)
    : Interpreter.I unit :=
  outer <- Interpreter.this_environment ;;
  env <- Interpreter.new_Environment outer ;;
  Interpreter.executeBlock exec block env.

(** The state in which the statements of a branch start: the store has
    one more environment, an empty child of the current one, and this
    child is the current environment. *)
Definition branch_frame (st : Interpreter.t) : Interpreter.t :=
  Interpreter.set_environment (length (Interpreter.envs st))
    (Interpreter.set_envs
       (Interpreter.envs st
        ++ [mkEnvironment ∅ (Some (Interpreter.environment st))])%list st).

(** What it is to execute a block as a branch, from the state [st]: its
    statements are executed in order, from the first one on, in the state
    [branch_frame st], up to the first that does not complete; then the
    environment that was current in [st] is current again. *)
Definition executes_branch (exec : stmt -> Interpreter.I unit) (block : list stmt)
    (st : Interpreter.t) : outcome thrown unit * Interpreter.t :=
  let (r, st') := for_each exec block (branch_frame st) in
  (r, Interpreter.set_environment (Interpreter.environment st) st').

(** ** Calls of function values (C3) *)

(** The bindings that the loop of [MasalaFunction.call] adds to the new
    environment. *)
Fixpoint bound_values (params : list string) (args : list value) (i : nat)
    (vals : gmap string value) : gmap string value :=
  match params with
  | [] => vals
  | p :: rest => bound_values rest args (S i) (<[p := default VNull (args !! i)]> vals)
  end.

(** An environment with its bindings changed by [f]. *)
Definition with_values (f : gmap string value -> gmap string value) (e : Environment)
    : Environment :=
  mkEnvironment (f (values e)) (parent e).

(** A function value that reaches its call through a parameter, called
    there with no argument for its one parameter. *)
Definition indirect_source : string := "Chal bhai suru kar
climax g(a) { dialogue wapas do a }
climax h(f) { dialogue wapas do f() }
ek baat bataun: h(g)
bas khatam karo".

(** The analyzer as it is in the body of [h], where [f] is a parameter. *)
Definition analyzer_in_h : Analyzer.t :=
  Analyzer.mk [ {[ "f" := Analyzer.mkBinding Analyzer.parameter 3 ]} ]
              ∅ (Some "h") [].

(** ** Closures (C6) *)

(** The state in which the body of a called function starts: the store
    has one more environment, a child of [closure] that holds the
    parameters, and this environment is the current one. *)
Definition call_frame (closure : env_id) (params : list string) (args : list value)
    (st : Interpreter.t) : Interpreter.t :=
  let env := length (Interpreter.envs st) in
  Interpreter.set_environment env
    (Interpreter.set_envs
       (Interpreter.envs st
        ++ [mkEnvironment (bound_values params args 0 ∅) (Some closure)])%list st).

(** An interpreter whose globals hold [x = 2]. *)
Definition globals_with_x : Interpreter.t :=
  Interpreter.mk [mkEnvironment {[ "x" := VNumber 2%float ]} None] 0 0 [] 0.

(** A function reads a variable of the environment it was declared in, not
    of the environment it is called from, and reads what the variable holds
    when the call is made. *)
Definition lexical_source : string := "Chal bhai suru kar
maan lo x = 1
climax show() { dialogue wapas do x }
x = 2
climax caller() {
  maan lo x = 99
  dialogue wapas do show()
}
ek baat bataun: caller()
bas khatam karo".

(** A function declared inside another and returned by it: it reads the
    local variable of the function that declared it, as it is at call time.
    (The declaration of [inner] at the top level lets the reference to
    [inner] pass the analysis.) *)
Definition returned_closure_source : string := "Chal bhai suru kar
climax inner() { dialogue wapas do 0 }
climax make() {
  maan lo x = 1
  climax inner() { dialogue wapas do x }
  x = 2
  dialogue wapas do inner
}
maan lo f = make()
ek baat bataun: f()
bas khatam karo".

(** ** Successive runs (C10) *)

(** The value that the environment [env] of the store holds for [x]
    itself, its parents apart. *)
Definition value_in (it : Interpreter.t) (env : env_id) (x : string) : option value :=
  match Interpreter.envs it !! env with
  | Some e => values e !! x
  | None => None
  end.

(** The environment [env] of the store binds [x]. *)
Definition binds (it : Interpreter.t) (env : env_id) (x : string) : Prop :=
  is_Some (value_in it env x).

(** From [st] to [st'] the global environment and the current one stay
    the same objects and every binding of every environment stays (its
    value may change). *)
Definition store_grows (st st' : Interpreter.t) : Prop :=
  Interpreter.globals st' = Interpreter.globals st
  /\ Interpreter.environment st' = Interpreter.environment st
  /\ length (Interpreter.envs st) <= length (Interpreter.envs st')
  /\ forall env x, binds st env x -> binds st' env x.

(** A computation of the interpreter that only ever adds to the store and
    gives the current environment back, whatever its outcome. *)
Definition grows {A} (m : Interpreter.I A) : Prop :=
  forall st, store_grows st (snd (m st)).

(** A top-level statement that defines [x]. *)
Definition defines_global (x : string) (s : stmt) : bool :=
  match s with
  | VariableDeclaration name _ _ => String.eqb name x
  | FunctionDeclaration name _ _ _ => String.eqb name x
  | _ => false
  end.

(** Successive [run]s on one instance, each with its budget. *)
Definition runs (sources : list (nat * string)) (ms : MasalaScript.t) : MasalaScript.t :=
  fold_left (fun ms' '(fuel, src) => snd (MasalaScript.run fuel src ms')) sources ms.

(** A first program that defines [x] and [g], and a second one that calls
    [g] before it declares it anew. *)
Definition first_source : string := "Chal bhai suru kar
maan lo x = 5
climax g() { ek baat bataun: 1 }
ek baat bataun: 0
bas khatam karo".

Definition second_source : string := "Chal bhai suru kar
g()
climax g() { ek baat bataun: 2 }
bas khatam karo".

(** What the first program parses to. *)
Definition first_ast : Program :=
  [VariableDeclaration "x" (Literal (LitNumber 5%float) 2) 2;
   FunctionDeclaration "g" [] [PrintStatement [Literal (LitNumber 1%float) 3] 3] 3;
   PrintStatement [Literal (LitNumber 0%float) 4] 4].

(** The instance after the first program. *)
Definition after_first : MasalaScript.t :=
  snd (MasalaScript.run 100 first_source MasalaScript.new).

(** * The vocabulary of the further properties *)

(** ** Effects of the evaluator on its state *)

(** A relation between the state before and the state after, kept by
    every step of a computation. *)
Definition related {S E A} (R : S -> S -> Prop) (m : M S E A) : Prop :=
  forall st, R st (snd (m st)).

(** The names that an environment binds. *)
Definition names (e : Environment) : gset string := dom (values e).

(** From [st] to [st']: the global environment is the same object, no
    environment is dropped or given another parent, no name is taken from
    an environment, and only the environment [c] may have been given new
    names; the output has only been appended to. *)
Definition store_extends (c : env_id) (st st' : Interpreter.t) : Prop :=
  Interpreter.globals st' = Interpreter.globals st
  /\ length (Interpreter.envs st) <= length (Interpreter.envs st')
  /\ Interpreter.output st `prefix_of` Interpreter.output st'
  /\ Interpreter.functions_created st <= Interpreter.functions_created st'
  /\ forall j e, Interpreter.envs st !! j = Some e ->
       exists e', Interpreter.envs st' !! j = Some e'
                  /\ parent e' = parent e
                  /\ names e ⊆ names e'
                  /\ (j <> c -> names e' = names e).

(** A step that gives the current environment back and declares names in
    the current environment only. *)
Definition scoped_step (st st' : Interpreter.t) : Prop :=
  Interpreter.environment st' = Interpreter.environment st
  /\ store_extends (Interpreter.environment st) st st'.

(** A step that gives the current environment back and declares no name
    in any environment that was there before. *)
Definition sealed_step (st st' : Interpreter.t) : Prop :=
  Interpreter.environment st' = Interpreter.environment st
  /\ forall c, store_extends c st st'.

(** The name that a statement declares in the environment it is executed
    in. *)
Definition declared_name (s : stmt) : gset string :=
  match s with
  | VariableDeclaration name _ _ => {[ name ]}
  | FunctionDeclaration name _ _ _ => {[ name ]}
  | _ => ∅
  end.

(** ** Reading and writing variables *)

(** The store after [env.define(x, v)]. *)
Definition store_with (env : env_id) (x : string) (v : value) (store : list Environment)
    : list Environment :=
  alter (fun e => mkEnvironment (<[x := v]> (values e)) (parent e)) env store.

(** A store with a variable [x] in the globals and a child environment
    that does not bind it. *)
Definition parent_holds_x : Interpreter.t :=
  Interpreter.mk [mkEnvironment {[ "x" := VNumber 2%float ]} None;
                  mkEnvironment {[ "y" := VNull ]} (Some 0)] 0 1 [] 0.

(** ** The limit on the rounds of a loop *)

(** The loop keeps going from the states that satisfy [Inv]: in such a
    state the condition evaluates to a truthy value, the body, executed as a
    branch in the state that the condition leaves, completes, and the state
    that the body leaves satisfies [Inv] again.  (The condition and the
    body may read and change the store.) *)
Definition keeps_going (exec : stmt -> Interpreter.I unit) (condition : expr)
    (body : list stmt) (Inv : Interpreter.t -> Prop) : Prop :=
  forall st, Inv st ->
    exists v st1 st2,
      Interpreter.evaluate exec condition st = (Done v, st1)
      /\ Interpreter.isTruthy v = true
      /\ executes_branch exec body st1 = (Done tt, st2)
      /\ Inv st2.

(** The loop [jab tak hai jaan (i < 1) { i = 0 }], which reads and writes
    the variable [i]. *)
Definition counter_condition : expr :=
  BinaryExpression "<" (Identifier "i" 2) (Literal (LitNumber 1) 2) 2.

Definition counter_body : list stmt :=
  [ExpressionStatement (Assignment "i" (Literal (LitNumber 0) 3) 3) 3].

(** The global environment is the current one and holds [i = 0]. *)
Definition holds_counter (st : Interpreter.t) : Prop :=
  Interpreter.environment st = 0
  /\ exists vals rest,
       Interpreter.envs st = mkEnvironment vals None :: rest
       /\ vals !! "i" = Some (VNumber 0%float).

(** An interpreter whose globals hold [i = 0]. *)
Definition globals_with_counter : Interpreter.t :=
  Interpreter.mk [mkEnvironment {[ "i" := VNumber 0%float ]} None] 0 0 [] 0.

(** ** The analysis: what it always rejects *)

(** A [ReturnStatement] that is in the body of no function. *)
Fixpoint return_outside_function (s : stmt) : bool :=
  match s with
  | ReturnStatement _ _ => true
  | IfStatement _ consequents alternate _ =>
      existsb (existsb return_outside_function) consequents
      || match alternate with
         | Some block => existsb return_outside_function block
         | None => false
         end
  | WhileStatement _ body _ => existsb return_outside_function body
  | Block statements => existsb return_outside_function statements
  | _ => false
  end.

(** The analyzer is in the body of the function [c] (of none, at the top
    level), and has caught no error. *)
Definition in_function (c : option string) (st : Analyzer.t) : Prop :=
  Analyzer.currentFunction st = c /\ Analyzer.errors st = [].

(** The names of the functions that a program declares at its top level,
    in the order of the declarations. *)
Fixpoint function_names (ast : Program) : list string :=
  match ast with
  | [] => []
  | FunctionDeclaration name _ _ _ :: rest => name :: function_names rest
  | _ :: rest => function_names rest
  end.

(** The analyzer after the first pass has declared a function. *)
Definition with_function (name : string) (params : list string) (line : nat)
    (st : Analyzer.t) : Analyzer.t :=
  snd (Analyzer.declare name (Analyzer.mkBinding Analyzer.function line)
         (Analyzer.set_functions
            (<[name := Analyzer.mkFuncInfo params (length params) line]>
               (Analyzer.functions st)) st)).

(** Is the analyzer at the top level? *)
Definition at_top (c : option string) : bool :=
  match c with None => true | Some _ => false end.

(** The state in which [analyze] starts. *)
Definition clean_slate : Analyzer.t := Analyzer.mk [∅] ∅ None [].

(** A return in a branch at the top level. *)
Definition return_in_branch : Program :=
  [IfStatement [Literal (LitBool true) 2] [[ReturnStatement None 2]] None 2].

(** Two functions of one name. *)
Definition twice_declared : Program :=
  [FunctionDeclaration "f" [] [] 2; PrintStatement [Literal LitNull 3] 3;
   FunctionDeclaration "f" ["a"] [] 4].

(** ** What the lexer produces *)

(** [hoare X P m Q]: started in a state that satisfies [P], the
    computation [m] does not run out of budget; when it completes with the
    value [a] in the state [st'], [Q a st'] holds; what it throws
    satisfies [X]. *)
Definition hoare {S E A} (X : E -> Prop) (P : S -> Prop) (m : M S E A)
    (Q : A -> S -> Prop) : Prop :=
  forall st, P st ->
    match m st with
    | (Done a, st') => Q a st'
    | (Raise e, _) => X e
    | (Timeout, _) => False
    end.

Definition is_lexer_error (e : MasalaError) : Prop :=
  match e with
  | LexerError _ _ _ => True
  | _ => False
  end.

(** The line numbers of the tokens never go down along the list. *)
Definition lines_nondecreasing (toks : list Token) : Prop :=
  forall i j ti tj,
    toks !! i = Some ti -> toks !! j = Some tj -> i <= j -> tok_line ti <= tok_line tj.

(** A token that the scanner may have made by line [line]: it is no [EOF]
    token, and its line is one of the lines read so far. *)
Definition scanned_by (line : nat) (t : Token) : Prop :=
  tok_type t <> TokenType.EOF /\ 1 <= tok_line t /\ tok_line t <= line.

(** The lexer is at work on [src]: the tokens made so far are in the
    order of their lines, and none is an [EOF] token. *)
Definition lexing (src : string) (lx : Lexer.t) : Prop :=
  Lexer.source lx = src
  /\ 1 <= Lexer.line lx
  /\ Forall (scanned_by (Lexer.line lx)) (Lexer.tokens lx)
  /\ lines_nondecreasing (Lexer.tokens lx).

(** The lexer is at work on [src] and has consumed [c] characters at
    least. *)
Definition lexing_from (src : string) (c : nat) (lx : Lexer.t) : Prop :=
  lexing src lx /\ c <= Lexer.current lx.

(** ** Return signals *)

(** What [m] throws satisfies [X], in whatever state it starts. *)
Definition throws_only {S E A} (X : E -> Prop) (m : M S E A) : Prop :=
  forall st, match fst (m st) with Raise e => X e | _ => True end.

(** A thrown object that is an error of the language, and not the signal
    of a [return]. *)
Definition is_error (e : thrown) : Prop :=
  match e with
  | Error _ => True
  | ReturnValue _ => False
  end.

(** A return at the top level of a program. *)
Definition stray_return_source : string := "Chal bhai suru kar
dialogue wapas do 1
bas khatam karo".

(** ** The two parsers *)

(** No token of the list is the [BREAK] token. *)
Definition no_break (toks : list Token) : bool :=
  forallb (fun t => negb (TokenType.eqb (tok_type t) TokenType.BREAK)) toks.

(** The last token of the list is an [EOF] token, as in every list that
    the lexer makes. *)
Definition ends_with_EOF (toks : list Token) : bool :=
  match last toks with
  | Some t => TokenType.eqb (tok_type t) TokenType.EOF
  | None => false
  end.

(** No [IDENTIFIER] token of the list has the empty lexeme (the lexer
    makes an identifier of one character at least). *)
Definition named_identifiers (toks : list Token) : bool :=
  forallb (fun t => negb (TokenType.eqb (tok_type t) TokenType.IDENTIFIER)
                    || negb (String.eqb (tok_lexeme t) "")) toks.

(** Two computations of the parser do the same on the token list [toks]:
    they return the same value and leave the parser in the same state,
    which still holds [toks]; or they throw the same error; or both run out
    of budget. *)
Definition agree {A} (toks : list Token) (m1 m2 : Parser.P A) : Prop :=
  forall ps, Parser.tokens ps = toks ->
    match m1 ps, m2 ps with
    | (Done a, ps1), (Done b, ps2) => a = b /\ ps1 = ps2 /\ Parser.tokens ps1 = toks
    | (Raise e1, _), (Raise e2, _) => e1 = e2
    | (Timeout, _), (Timeout, _) => True
    | _, _ => False
    end.

(** The parsers told by [b] and [b'] are the same one, or they are the
    bundle's and the module's, no token of [toks] is the [BREAK] token and
    no identifier of [toks] has the empty name. *)
Definition comparable (toks : list Token) (b b' : bool) : Prop :=
  b = b' \/ (b = true /\ b' = false /\ no_break toks = true
             /\ named_identifiers toks = true).

(** From [ps] to [ps'] the parser has kept the tokens [toks], has not
    moved back, and is still at a token of the list when it was at one. *)
Definition stays_in_range (toks : list Token) (ps ps' : Parser.t) : Prop :=
  Parser.tokens ps = toks -> Parser.current ps < length toks ->
  Parser.tokens ps' = toks
  /\ Parser.current ps <= Parser.current ps'
  /\ Parser.current ps' < length toks.

(** On the token list [toks], from a state where [Pre] holds, what the
    computation [m] returns and the state it leaves satisfy [Q], and the
    tokens are kept.  Nothing is said of a run that throws or runs out of
    budget. *)
Definition yields {A} (toks : list Token) (Pre : Parser.t -> Prop) (m : Parser.P A)
    (Q : A -> Parser.t -> Prop) : Prop :=
  forall ps, Parser.tokens ps = toks -> Pre ps ->
    match m ps with
    | (Done a, ps') => Parser.tokens ps' = toks /\ Q a ps'
    | _ => True
    end.

(** The tokens of a program with a loop and a function, and no [break]. *)
Definition loop_and_function_source : string := "Chal bhai suru kar
climax twice(n) { dialogue wapas do n * 2 }
maan lo i = 0
jab tak hai jaan (i < 3) {
  ek baat bataun: twice(i)
  i = i + 1
}
bas khatam karo".

Definition loop_and_function_tokens : list Token :=
  match tokenize loop_and_function_source with
  | Done toks => toks
  | _ => []
  end.

(** ** The analysis: the scopes *)

(** When [m] completes, the states it starts and ends in are related by
    [R]. *)
Definition completes_with {S E A} (R : S -> S -> Prop) (m : M S E A) : Prop :=
  forall st, match m st with (Done _, st') => R st st' | _ => True end.

(** The names of the current scope. *)
Definition scope_names (st : Analyzer.t) : gset string := dom (Analyzer.currentScope st).

(** From [st] to [st'] the stack of scopes keeps its height and its outer
    scopes, the current scope keeps its names, and the analyzer stays in the
    function it is in. *)
Definition scope_step (st st' : Analyzer.t) : Prop :=
  length (Analyzer.scopes st') = length (Analyzer.scopes st)
  /\ tail (Analyzer.scopes st') = tail (Analyzer.scopes st)
  /\ scope_names st ⊆ scope_names st'
  /\ Analyzer.currentFunction st' = Analyzer.currentFunction st.

(** From [st] to [st'] the stack of scopes is the same. *)
Definition same_scopes (st st' : Analyzer.t) : Prop :=
  Analyzer.scopes st' = Analyzer.scopes st
  /\ Analyzer.currentFunction st' = Analyzer.currentFunction st.

(** The statement declares the variable [x] in the scope it is visited
    in: it is the declaration of [x], or a block (which the analyzer visits
    without a scope of its own) with such a statement. *)
Fixpoint declares (x : string) (s : stmt) : bool :=
  match s with
  | VariableDeclaration name _ _ => String.eqb name x
  | Block statements => existsb (declares x) statements
  | _ => false
  end.

(** A variable declared twice, with a loop in between. *)
Definition declared_twice : Program :=
  [VariableDeclaration "x" (Literal (LitNumber 1) 2) 2;
   WhileStatement (Literal (LitBool false) 3) [] 3;
   VariableDeclaration "x" (Literal (LitNumber 2) 4) 4].

(** ** The analysis: where a name is visible (C9) *)

(** The statements of a block, visited in a row: [f] is used freely in one
    of them, and no statement before it has declared the variable [f] in
    the scope that the block is visited in. *)
Fixpoint free_uses_with (use : stmt -> bool) (f : string) (statements : list stmt) : bool :=
  match statements with
  | [] => false
  | s :: rest => use s || negb (declares f s) && free_uses_with use f rest
  end.

(** The statement uses the name [f] (calls it, reads it or assigns to it)
    at a place where the statement itself has put no variable and no
    parameter named [f] in a scope of the analyzer: the analyzer comes to
    that use with the scopes that it had before the statement, as far as
    [f] goes.  A variable is in scope from the end of its declaration to the
    end of the block that was given a scope (the branch of an if, the body
    of a loop or of a function; a bare block has no scope of its own), a
    parameter in the body of its function; the declaration of a function
    puts the name of the function in no scope. *)
Fixpoint free_use (f : string) (s : stmt) : bool :=
  match s with
  | VariableDeclaration _ value _ => expr_any (uses_name f) value
  | PrintStatement expressions _ => existsb (expr_any (uses_name f)) expressions
  | IfStatement conditions consequents alternate _ =>
      existsb (expr_any (uses_name f)) conditions
      || existsb (free_uses_with (free_use f) f) consequents
      || match alternate with
         | Some block => free_uses_with (free_use f) f block
         | None => false
         end
  | WhileStatement condition body _ =>
      expr_any (uses_name f) condition || free_uses_with (free_use f) f body
  | BreakStatement _ => false
  | FunctionDeclaration _ params body _ =>
      negb (existsb (String.eqb f) params) && free_uses_with (free_use f) f body
  | ReturnStatement (Some e) _ => expr_any (uses_name f) e
  | ReturnStatement None _ => false
  | ExpressionStatement expression _ => expr_any (uses_name f) expression
  | Block statements => free_uses_with (free_use f) f statements
  end.

(** The program uses [f] at a place where no variable and no parameter
    named [f] is in scope. *)
Definition free_uses (f : string) (ast : Program) : bool :=
  free_uses_with (free_use f) f ast.

(** The state of the analyzer with one more scope, outside all of its own,
    in which [f] is a variable. *)
Definition with_outer (f : string) (st : Analyzer.t) : Analyzer.t :=
  Analyzer.set_scopes
    (Analyzer.scopes st ++ [{[f := Analyzer.mkBinding Analyzer.variable 0]}]) st.

(** The state that [analyze] starts in, with [f] bound outside the
    program. *)
Definition bound_outside (f : string) : Analyzer.t :=
  with_outer f clean_slate.

(** The error of the undefined function or variable [f]. *)
Definition undefined_name (f : string) (e : MasalaError) : Prop :=
  match e with
  | SemanticError message _ => message = UNDEFINED_FUNCTION f \/ message = UNDEFINED_VARIABLE f
  | _ => False
  end.

(** The analysis does not depend on [f] but for the error of the undefined
    [f]: started with [n] scopes at least, the computation [m] that
    completes also completes, with the same value and in the same state,
    when [f] is bound outside, and leaves [n'] scopes at least; and what it
    throws is the error of the undefined [f], or is thrown as well when
    [f] is bound outside. *)
Definition follows (f : string) (n n' : nat) {A} (m : Analyzer.A A) : Prop :=
  forall st, n <= length (Analyzer.scopes st) ->
    match m st with
    | (Done a, st') =>
        n' <= length (Analyzer.scopes st') /\ m (with_outer f st) = (Done a, with_outer f st')
    | (Raise e, _) => undefined_name f e \/ fst (m (with_outer f st)) = Raise e
    | (Timeout, _) => True
    end.

(** The program of [nested_source] after a declaration of the function
    [helper] at the top level: the call in [outer] is a call of that one for
    the analysis. *)
Definition hoisted_source : string := "Chal bhai suru kar
climax helper() { dialogue wapas do 1 }
climax outer() {
  climax helper() { dialogue wapas do 7 }
  dialogue wapas do helper()
}
ek baat bataun: outer()
bas khatam karo".

(** What it parses to. *)
Definition hoisted_ast : Program :=
  [ FunctionDeclaration "helper" []
      [ ReturnStatement (Some (Literal (LitNumber 1) 2)) 2 ] 2;
    FunctionDeclaration "outer" []
      [ FunctionDeclaration "helper" []
          [ ReturnStatement (Some (Literal (LitNumber 7) 4)) 4 ] 4;
        ReturnStatement (Some (CallExpression "helper" [] 5)) 5 ] 3;
    PrintStatement [CallExpression "outer" [] 7] 7 ].

(** The program of [nested_source] after a statement that the analysis
    rejects for another reason. *)
Definition faulty_source : string := "Chal bhai suru kar
maan lo x = 1
maan lo x = 2
climax outer() {
  climax helper() { dialogue wapas do 7 }
  dialogue wapas do helper()
}
ek baat bataun: outer()
bas khatam karo".

(** What it parses to. *)
Definition faulty_ast : Program :=
  [ VariableDeclaration "x" (Literal (LitNumber 1) 2) 2;
    VariableDeclaration "x" (Literal (LitNumber 2) 3) 3;
    FunctionDeclaration "outer" []
      [ FunctionDeclaration "helper" []
          [ ReturnStatement (Some (Literal (LitNumber 7) 5)) 5 ] 5;
        ReturnStatement (Some (CallExpression "helper" [] 6)) 6 ] 4;
    PrintStatement [CallExpression "outer" [] 8] 8 ].

(** A nested function that is called where a variable of a branch bears
    its name no more: the variable was in the scope of the branch. *)
Definition out_of_scope_ast : Program :=
  [ IfStatement [Literal (LitBool true) 2]
      [[VariableDeclaration "helper" (Literal (LitNumber 0) 2) 2]] None 2;
    FunctionDeclaration "outer" []
      [ FunctionDeclaration "helper" []
          [ ReturnStatement (Some (Literal (LitNumber 7) 4)) 4 ] 4;
        ReturnStatement (Some (CallExpression "helper" [] 5)) 5 ] 3 ].

(** * Reasoning about the stages *)

Section Triples.
Context {S E : Type}.
Variable X : E -> S -> Prop.

Lemma triple_ret {A} (P : S -> Prop) (a : A) : triple X P (ret a) P false.
Proof. intros st H. simpl. auto. Qed.

Lemma triple_bind {A B} (P Q R : S -> Prop) (m : M S E A) (k : A -> M S E B) b1 b2 :
  triple X P m Q b1 -> (forall a, triple X Q (k a) R b2) -> triple X P (bind m k) R (b1 || b2).
Proof.
  intros Hm Hk st HP. unfold bind. specialize (Hm st HP).
  destruct (m st) as [[a | e |] st']; try easy.
  destruct Hm as [HQ ->]. exact (Hk a st' HQ).
Qed.

Lemma triple_weaken {A} (P Q : S -> Prop) (m : M S E A) b b' :
  triple X P m Q b -> (b' = true -> b = true) -> triple X P m Q b'.
Proof.
  intros Hm Hb st HP. specialize (Hm st HP).
  destruct (m st) as [[a | e |] st']; try easy.
  destruct Hm as [HQ Hf]. split; [exact HQ |].
  destruct b'; [| reflexivity]. rewrite Hb in Hf; [discriminate | reflexivity].
Qed.

Lemma triple_consequence {A} (P P' Q Q' : S -> Prop) (m : M S E A) b :
  triple X P m Q b -> (forall st, P' st -> P st) -> (forall st, Q st -> Q' st) ->
  triple X P' m Q' b.
Proof.
  intros Hm HP HQ st H. specialize (Hm st (HP st H)).
  destruct (m st) as [[a | e |] st']; try easy.
  destruct Hm. split; auto.
Qed.

Lemma triple_modify (P Q : S -> Prop) (f : S -> S) :
  (forall st, P st -> Q (f st)) -> triple X P (modify f) Q false.
Proof. intros H st HP. simpl. auto. Qed.

Lemma triple_read {A} (P : S -> Prop) (g : S -> A) :
  triple X P (fun st => (Done (g st), st)) P false.
Proof. intros st HP. simpl. auto. Qed.

Lemma triple_for_each {A} (I : S -> Prop) (f : A -> M S E unit) (b : A -> bool) (xs : list A) :
  (forall x, In x xs -> triple X I (f x) I (b x)) ->
  triple X I (for_each f xs) I (existsb b xs).
Proof.
  induction xs as [| x xs IH]; intros H; simpl.
  - apply triple_ret.
  - apply (triple_bind I I I).
    + apply H. now left.
    + intros _. apply IH. intros y Hy. apply H. now right.
Qed.

(** A computation that must fail throws. *)
Lemma triple_fails {A} (P Q : S -> Prop) (m : M S E A) st :
  triple X P m Q true -> P st -> exists e st', m st = (Raise e, st') /\ X e st'.
Proof.
  intros Hm HP. specialize (Hm st HP).
  destruct (m st) as [[a | e |] st']; [destruct Hm; discriminate | eauto | contradiction].
Qed.

End Triples.

Ltac bool_side :=
  simpl; intros; rewrite ?orb_true_iff in *; intuition (try discriminate; auto).

(** Membership in [list_all] and [option_all], the premises of the
    induction principles of the AST. *)
#[universes(polymorphic)]
Lemma list_all_In {A} (P : A -> Prop) (l : list A) :
  list_all A P l -> forall x, In x l -> P x.
Proof.
  induction 1 as [| a Ha l _ IH]; intros x Hx; [destruct Hx |].
  destruct Hx as [<- | Hx]; auto.
Qed.

#[universes(polymorphic)]
Lemma list_all_nested_In {A} (P : A -> Prop) (ls : list (list A)) :
  list_all (list A) (list_all A P) ls -> forall l, In l ls -> forall x, In x l -> P x.
Proof.
  induction 1 as [| l Hl ls _ IH]; intros l' Hl'; [destruct Hl' |].
  destruct Hl' as [<- | Hl']; [exact (list_all_In P l Hl) | exact (IH l' Hl')].
Qed.

(** ** The arity check of the analyzer *)

Local Abbreviation sem_triple := (triple semantic_throw).

Section Arity.
Variable funcs : gmap string Analyzer.FuncInfo.

Lemma throw_if_keeps (P : Analyzer.t -> Prop) cond message line :
  (forall st, P st -> Analyzer.errors st = []) ->
  sem_triple P (Analyzer.throw_if cond message line) P false.
Proof.
  intros Hclean st HP. unfold Analyzer.throw_if.
  destruct (cond st); simpl; unfold semantic_throw; simpl; auto.
Qed.

Lemma table_is_clean st : (table_is funcs) st -> Analyzer.errors st = [].
Proof. now intros [_ H]. Qed.

Lemma declare_keeps_table name b :
  sem_triple (table_is funcs) (Analyzer.declare name b) (table_is funcs) false.
Proof.
  apply triple_modify. intros st H. unfold table_is in *.
  destruct (Analyzer.scopes st); simpl; exact H.
Qed.

Lemma pushScope_keeps_table : sem_triple (table_is funcs) Analyzer.pushScope (table_is funcs) false.
Proof. apply triple_modify. intros st H. exact H. Qed.

Lemma popScope_keeps_table : sem_triple (table_is funcs) Analyzer.popScope (table_is funcs) false.
Proof. apply triple_modify. intros st H. exact H. Qed.

Lemma check_callee_arity callee arguments line :
  sem_triple (table_is funcs) (Analyzer.check_callee callee (length arguments) line)
    (table_is funcs)
    ((wrong_count funcs) (CallExpression callee arguments line)).
Proof.
  intros st H. unfold Analyzer.check_callee, wrong_count. rewrite (proj1 H).
  pose proof (proj2 H) as Hclean. unfold semantic_throw.
  destruct (funcs !! callee) as [info |].
  - destruct (length arguments =? Analyzer.paramCount info); simpl; auto.
  - destruct (negb _); simpl; auto.
Qed.

Lemma visitExpression_arity e :
  sem_triple (table_is funcs) (Analyzer.visitExpression e) (table_is funcs)
    (expr_any (wrong_count funcs) e).
Proof.
  induction e as [op l IHl r IHr line | op o IHo line | callee args IHargs line
                 | v line | name line | e IHe line | name v IHv line]; simpl.
  - apply (triple_bind _ _ (table_is funcs)); [exact IHl | intros _; exact IHr].
  - exact IHo.
  - apply (triple_bind _ _ (table_is funcs)); [apply check_callee_arity |].
    intros _. apply triple_for_each. intros x Hx.
    exact (list_all_In _ _ IHargs x Hx).
  - apply triple_ret.
  - apply throw_if_keeps, table_is_clean.
  - exact IHe.
  - apply (triple_bind _ _ (table_is funcs) _ _ _ false);
      [apply throw_if_keeps, table_is_clean | intros _; exact IHv].
Qed.

Lemma visitBlock_arity (visit : stmt -> Analyzer.A unit) (P : stmt -> bool) statements scoped :
  (forall s, In s statements -> sem_triple (table_is funcs) (visit s) (table_is funcs) (P s)) ->
  sem_triple (table_is funcs) (Analyzer.visitBlock_with visit statements scoped) (table_is funcs)
    (existsb P statements).
Proof.
  intros H. unfold Analyzer.visitBlock_with.
  eapply triple_weaken.
  - apply (triple_bind _ _ (table_is funcs) _ _ _ false).
    + destruct scoped; [apply pushScope_keeps_table | apply triple_ret].
    + intros _. apply (triple_bind _ _ (table_is funcs)).
      * apply triple_for_each. exact H.
      * intros _. destruct scoped; [apply popScope_keeps_table | apply triple_ret].
  - simpl. rewrite orb_false_r. auto.
Qed.

Lemma visitStatement_arity s :
  sem_triple (table_is funcs) (Analyzer.visitStatement s) (table_is funcs)
    (stmt_any (wrong_count funcs) no_stmt s).
Proof.
  induction s as [name v line | es line | conds conss IHconss alt IHalt line
                 | cond body IHbody line | line | name params body IHbody line
                 | v line | e line | body IHbody]; simpl.
  - eapply triple_weaken.
    + apply (triple_bind _ _ (table_is funcs) _ _ _ false);
        [apply throw_if_keeps, table_is_clean |].
      intros _. apply (triple_bind _ _ (table_is funcs)); [apply visitExpression_arity |].
      intros _. apply declare_keeps_table.
    + simpl. rewrite orb_false_r. auto.
  - apply triple_for_each. intros x _. apply visitExpression_arity.
  - eapply triple_weaken.
    + apply (triple_bind _ _ (table_is funcs)).
      * apply triple_for_each. intros x _. apply visitExpression_arity.
      * intros _.
        eapply (triple_bind _ _ (table_is funcs) _ _ _ _
                 (match alt with
                  | Some b => existsb (stmt_any (wrong_count funcs) no_stmt) b
                  | None => false
                  end)).
        -- apply triple_for_each. intros block Hblock.
           apply visitBlock_arity.
           exact (list_all_nested_In _ _ IHconss block Hblock).
        -- intros _. destruct IHalt as [block IHblock |].
           ++ apply visitBlock_arity. exact (list_all_In _ _ IHblock).
           ++ apply triple_ret.
    + bool_side.
  - apply (triple_bind _ _ (table_is funcs)); [apply visitExpression_arity |].
    intros _. apply visitBlock_arity. exact (list_all_In _ _ IHbody).
  - apply triple_ret.
  - eapply triple_weaken.
    + apply (triple_bind _ _ (table_is funcs) _ _ _ false); [apply triple_read |].
      intros prev. apply (triple_bind _ _ (table_is funcs) _ _ _ false).
      { apply triple_modify. intros st H. exact H. }
      intros _. apply (triple_bind _ _ (table_is funcs) _ _ _ false);
        [apply pushScope_keeps_table |].
      intros _. apply (triple_bind _ _ (table_is funcs) _ _ _ false).
      { eapply triple_weaken.
        - apply triple_for_each with (b := fun _ => false). intros p _.
          unfold Analyzer.declare_parameter.
          apply (triple_bind _ _ (table_is funcs) _ _ _ false false);
            [apply throw_if_keeps, table_is_clean | intros _; apply declare_keeps_table].
        - intros; discriminate. }
      intros _. apply (triple_bind _ _ (table_is funcs)).
      { apply visitBlock_arity. exact (list_all_In _ _ IHbody). }
      intros _. apply (triple_bind _ _ (table_is funcs) _ _ _ false false);
        [apply popScope_keeps_table |].
      intros _. apply triple_modify. intros st H. exact H.
    + simpl. rewrite orb_false_r. auto.
  - eapply triple_weaken.
    + apply (triple_bind _ _ (table_is funcs) _ _ _ false
               (match v with Some e => expr_any (wrong_count funcs) e | None => false end));
        [apply throw_if_keeps, table_is_clean |].
      intros _. destruct v as [e |]; [apply visitExpression_arity | apply triple_ret].
    + simpl. destruct v; auto.
  - apply visitExpression_arity.
  - apply visitBlock_arity. exact (list_all_In _ _ IHbody).
Qed.

End Arity.

Lemma declareFunction_table (s : stmt) (st : Analyzer.t) :
  first_pass_post (fun d => s = d) st (Analyzer.declareFunction s st).
Proof.
  unfold first_pass_post.
  destruct s as [| | | | | name params body line | | |];
    try (simpl; split; [reflexivity | split; [auto | intros; discriminate]]).
  unfold Analyzer.declareFunction, bind, Analyzer.throw_if, modify, Analyzer.declare.
  destruct (bool_decide (is_Some (Analyzer.functions st !! name))) eqn:Hdup;
    [simpl; auto |].
  apply bool_decide_eq_false in Hdup.
  assert (Hnone : Analyzer.functions st !! name = None).
  { destruct (Analyzer.functions st !! name) eqn:H; [| reflexivity].
    exfalso. apply Hdup. eauto. }
  simpl. split; [| split].
  - destruct (Analyzer.scopes st); reflexivity.
  - intros g info Hg. destruct (Analyzer.scopes st); simpl;
      (rewrite lookup_insert_ne; [exact Hg | congruence]).
  - intros g ps b l [= <- <- <- <-].
    exists (Analyzer.mkFuncInfo params (length params) line).
    destruct (Analyzer.scopes st); simpl; rewrite lookup_insert_eq; auto.
Qed.

Lemma first_pass_table (body : Program) (st : Analyzer.t) :
  first_pass_post (fun d => In d body) st (for_each Analyzer.declareFunction body st).
Proof.
  revert st. induction body as [| s body IH]; intros st; simpl.
  - split; [reflexivity | split; [auto | intros ? ? ? ? []]].
  - unfold bind. pose proof (declareFunction_table s st) as Hs.
    destruct (Analyzer.declareFunction s st) as [[[] | e |] st1]; try exact Hs.
    destruct Hs as (Herr & Hkeep & Hnew). specialize (IH st1).
    destruct (for_each Analyzer.declareFunction body st1) as [[[] | e |] st2];
      simpl in *; [| rewrite <- Herr; exact IH | exact IH].
    destruct IH as (Herr' & Hkeep' & Hnew'). split; [congruence | split].
    + intros g info Hg. auto.
    + intros g ps b l [-> | Hin].
      * destruct (Hnew g ps b l eq_refl) as (info & Hinfo & Hcount). eauto.
      * eauto.
Qed.

(** A call that the table contradicts is found wherever it occurs. *)
Lemma expr_any_mono (P Q : expr -> bool) (e : expr) :
  (forall x, P x = true -> Q x = true) -> expr_any P e = true -> expr_any Q e = true.
Proof.
  intros HPQ.
  induction e as [op l IHl r IHr line | op o IHo line | callee args IHargs line
                 | v line | name line | e IHe line | name v IHv line]; simpl;
    rewrite ?orb_true_iff; intros H;
    repeat match goal with H : _ \/ _ |- _ => destruct H end; auto; try discriminate.
  right. rewrite existsb_exists in *. destruct H as (x & Hx & Hany).
  exists x. split; [exact Hx |]. exact (list_all_In _ _ IHargs x Hx Hany).
Qed.

Lemma existsb_mono {A} (P Q : A -> bool) (l : list A) :
  (forall x, In x l -> P x = true -> Q x = true) -> existsb P l = true -> existsb Q l = true.
Proof.
  intros H. rewrite !existsb_exists. intros (x & Hx & HP). exists x. auto.
Qed.

Lemma stmt_any_mono (P Q : expr -> bool) (R : stmt -> bool) (s : stmt) :
  (forall x, P x = true -> Q x = true) -> stmt_any P R s = true -> stmt_any Q R s = true.
Proof.
  intros HPQ.
  induction s as [name v line | es line | conds conss IHconss alt IHalt line
                 | cond body IHbody line | line | name params body IHbody line
                 | v line | e line | body IHbody]; simpl;
    rewrite ?orb_true_iff; intros H;
    repeat match goal with H : _ \/ _ |- _ => destruct H end; auto; try discriminate.
  - right. eauto using expr_any_mono.
  - right. revert H. apply existsb_mono. intros x _. now apply expr_any_mono.
  - right. left. left. revert H. apply existsb_mono. intros x _. now apply expr_any_mono.
  - right. left. right. revert H. apply existsb_mono. intros block Hblock.
    apply existsb_mono. intros x Hx. exact (list_all_nested_In _ _ IHconss block Hblock x Hx).
  - right. right. destruct IHalt as [block IHblock |]; [| exact H].
    revert H. apply existsb_mono. intros x Hx. exact (list_all_In _ _ IHblock x Hx).
  - right. left. eauto using expr_any_mono.
  - right. right. revert H. apply existsb_mono. exact (list_all_In _ _ IHbody).
  - right. revert H. apply existsb_mono. exact (list_all_In _ _ IHbody).
  - right. destruct v as [e |]; [eauto using expr_any_mono | exact H].
  - right. eauto using expr_any_mono.
  - right. revert H. apply existsb_mono. exact (list_all_In _ _ IHbody).
Qed.

(** The analysis of a program that calls a function of its top level
    with another number of arguments throws a semantic error. *)
Lemma analyze_rejects_arity (ast : Program) g params body line argc (an : Analyzer.t) :
  In (FunctionDeclaration g params body line) ast ->
  program_any (is_call g argc) no_stmt ast = true ->
  argc <> length params ->
  exists message l an',
    Analyzer.analyze ast an = (Raise (SemanticError message l), an').
Proof.
  intros Hdecl Hcall Hne.
  assert (Hout : forall e st, is_semantic e -> Analyzer.errors st = [] ->
            exists message l an',
              (Raise (default e (head (Analyzer.errors
                  (Analyzer.set_errors (Analyzer.errors st ++ [e]) st)))),
               Analyzer.set_errors (Analyzer.errors st ++ [e]) st)
              = (Raise (SemanticError message l) : outcome MasalaError Program, an')).
  { intros e st He Hst. rewrite Hst. simpl.
    destruct e as [| | message l |]; try contradiction. eauto. }
  unfold Analyzer.analyze, Analyzer.visitProgram, bind.
  set (st0 := Analyzer.mk [∅] ∅ None []).
  pose proof (first_pass_table ast st0) as H1. unfold first_pass_post in H1.
  destruct (for_each Analyzer.declareFunction ast st0) as [[[] | e |] st1];
    [| destruct H1 as [He Hst]; apply Hout; [exact He | rewrite Hst; reflexivity]
     | contradiction].
  destruct H1 as (Herr & _ & Hnew).
  destruct (Hnew g params body line Hdecl) as (info & Hinfo & Hcount).
  assert (Hbad : existsb (stmt_any (wrong_count (Analyzer.functions st1)) no_stmt) ast = true).
  { revert Hcall. unfold program_any. apply existsb_mono. intros s _.
    apply stmt_any_mono. intros [| | name args l | | | |]; simpl; try discriminate.
    intros H. apply andb_true_iff in H as [Hname Hargc].
    apply String.eqb_eq in Hname as ->. apply Nat.eqb_eq in Hargc.
    rewrite Hinfo, Hcount. apply negb_true_iff, Nat.eqb_neq. congruence. }
  pose proof (triple_for_each semantic_throw (table_is (Analyzer.functions st1))
                Analyzer.visitStatement _ ast
                (fun s _ => visitStatement_arity (Analyzer.functions st1) s)) as H2.
  rewrite Hbad in H2.
  destruct (triple_fails _ _ _ _ st1 H2) as (e & st2 & Hrun & He & Hst).
  { split; [reflexivity | exact Herr]. }
  rewrite Hrun. apply Hout; assumption.
Qed.

Lemma run_rejected_by_analysis (ms : MasalaScript.t) fuel src ast message l an' :
  MasalaScript.skipAnalysis ms = false ->
  parse_source src = Done ast ->
  Analyzer.analyze ast (MasalaScript.analyzer ms) = (Raise (SemanticError message l), an') ->
  MasalaScript.run fuel src ms
  = (Failure (Error (SemanticError message l)),
     MasalaScript.mk false an' (MasalaScript.interpreter ms) []).
Proof.
  intros Hskip Hparse Han. unfold MasalaScript.run, parse_source in *.
  destruct (tokenize src) as [toks | |]; try discriminate.
  rewrite Hparse, Hskip, Han. reflexivity.
Qed.

(** C5. A program that calls a function declared by name at the top level
    with a number of arguments other than its number of parameters is
    rejected by the analysis: [run] fails with a Semantic Error, the
    interpreter is left as it was (no statement has been executed) and the
    output is empty. *)
Theorem wrong_arity_rejected (ms : MasalaScript.t) (fuel : nat) (src : string)
    (ast : Program) (g : string) (params : list string) (body : list stmt) (line argc : nat) :
  MasalaScript.skipAnalysis ms = false ->
  parse_source src = Done ast ->
  In (FunctionDeclaration g params body line) ast ->
  program_any (is_call g argc) no_stmt ast = true ->
  argc <> length params ->
  exists message l,
    fst (MasalaScript.run fuel src ms) = Failure (Error (SemanticError message l))
    /\ MasalaScript.interpreter (snd (MasalaScript.run fuel src ms))
       = MasalaScript.interpreter ms
    /\ MasalaScript.output (snd (MasalaScript.run fuel src ms)) = [].
Proof.
  intros Hskip Hparse Hdecl Hcall Hne.
  destruct (analyze_rejects_arity ast g params body line argc (MasalaScript.analyzer ms)
              Hdecl Hcall Hne) as (message & l & an' & Han).
  exists message, l.
  rewrite (run_rejected_by_analysis ms fuel src ast message l an' Hskip Hparse Han).
  auto.
Qed.

Lemma wrong_arity_rejected_witness :
  exists message l,
    fst (MasalaScript.run 10 wrong_count_source MasalaScript.new)
    = Failure (Error (SemanticError message l))
    /\ MasalaScript.interpreter (snd (MasalaScript.run 10 wrong_count_source MasalaScript.new))
       = MasalaScript.interpreter MasalaScript.new
    /\ MasalaScript.output (snd (MasalaScript.run 10 wrong_count_source MasalaScript.new)) = [].
Proof.
  apply (wrong_arity_rejected MasalaScript.new 10 wrong_count_source wrong_count_ast
           "add" ["a"; "b"]
           [ ReturnStatement
               (Some (BinaryExpression "+" (Identifier "a" 3) (Identifier "b" 3) 3)) 3 ]
           2 1).
  - reflexivity.
  - vm_compute. reflexivity.
  - simpl. left. reflexivity.
  - vm_compute. reflexivity.
  - simpl. lia.
Defined.

(** ** Names that the analyzer never binds *)

Section Unbound.
Variable f : string.

Lemma unbound_clean st : (unbound f) st -> Analyzer.errors st = [].
Proof. now intros (_ & _ & H). Qed.

Lemma unbound_lookup st : (unbound f) st -> Analyzer.lookupVariable st f = None.
Proof.
  intros (_ & H & _). unfold Analyzer.lookupVariable.
  induction H as [| scope outer Hscope _ IH]; simpl; [reflexivity |].
  now rewrite Hscope.
Qed.

Lemma pushScope_unbound : sem_triple (unbound f) Analyzer.pushScope (unbound f) false.
Proof.
  apply triple_modify. intros st (Hf & Hs & He). repeat split; simpl; auto.
Qed.

Lemma popScope_unbound : sem_triple (unbound f) Analyzer.popScope (unbound f) false.
Proof.
  apply triple_modify. intros st (Hf & Hs & He). repeat split; simpl; auto.
  destruct Hs; simpl; auto.
Qed.

Lemma declare_unbound name b :
  String.eqb name f = false -> sem_triple (unbound f) (Analyzer.declare name b) (unbound f) false.
Proof.
  intros Hne. apply String.eqb_neq in Hne.
  apply triple_modify. intros st (Hf & Hs & He).
  destruct (Analyzer.scopes st) as [| scope outer] eqn:Hsc.
  - repeat split; auto. rewrite Hsc. constructor.
  - repeat split; simpl; auto. inversion Hs; subst.
    constructor; [| assumption]. now rewrite lookup_insert_ne.
Qed.

(** At a use of [f] the analyzer throws the error of an undefined name. *)
Lemma check_callee_unbound callee argc line :
  sem_triple (unbound f) (Analyzer.check_callee callee argc line) (unbound f) (String.eqb callee f).
Proof.
  intros st H. unfold Analyzer.check_callee.
  pose proof (unbound_clean st H) as Hclean.
  destruct (String.eqb callee f) eqn:Heq.
  - apply String.eqb_eq in Heq as ->.
    rewrite (proj1 H), (unbound_lookup st H). simpl. split; [exact I | exact Hclean].
  - destruct (Analyzer.functions st !! callee) as [info |].
    + destruct (negb _); simpl; unfold semantic_throw; simpl; auto.
    + destruct (negb _); simpl; unfold semantic_throw; simpl; auto.
Qed.

Lemma visitIdentifier_unbound name line :
  sem_triple (unbound f) (Analyzer.visitIdentifier name line) (unbound f) (String.eqb name f).
Proof.
  intros st H. unfold Analyzer.visitIdentifier, Analyzer.throw_if.
  pose proof (unbound_clean st H) as Hclean.
  destruct (String.eqb name f) eqn:Heq.
  - apply String.eqb_eq in Heq as ->.
    rewrite (proj1 H), (unbound_lookup st H). simpl. split; [exact I | exact Hclean].
  - destruct (_ && _); simpl; unfold semantic_throw; simpl; auto.
Qed.

Lemma assignment_target_unbound name line :
  sem_triple (unbound f)
    (Analyzer.throw_if
       (fun st => negb (bool_decide (is_Some (Analyzer.lookupVariable st name))))
       (UNDEFINED_VARIABLE name) line)
    (unbound f) (String.eqb name f).
Proof.
  intros st H. unfold Analyzer.throw_if.
  pose proof (unbound_clean st H) as Hclean.
  destruct (String.eqb name f) eqn:Heq.
  - apply String.eqb_eq in Heq as ->.
    rewrite (unbound_lookup st H). simpl. split; [exact I | exact Hclean].
  - destruct (negb _); simpl; unfold semantic_throw; simpl; auto.
Qed.

Lemma visitExpression_unbound e :
  sem_triple (unbound f) (Analyzer.visitExpression e) (unbound f) (expr_any (uses_name f) e).
Proof.
  induction e as [op l IHl r IHr line | op o IHo line | callee args IHargs line
                 | v line | name line | e IHe line | name v IHv line]; simpl.
  - apply (triple_bind _ _ (unbound f)); [exact IHl | intros _; exact IHr].
  - exact IHo.
  - apply (triple_bind _ _ (unbound f)); [apply check_callee_unbound |].
    intros _. apply triple_for_each. intros x Hx.
    exact (list_all_In _ _ IHargs x Hx).
  - apply triple_ret.
  - eapply triple_weaken; [apply visitIdentifier_unbound | bool_side].
  - exact IHe.
  - apply (triple_bind _ _ (unbound f)); [apply assignment_target_unbound | intros _; exact IHv].
Qed.

Lemma existsb_false_In {A} (P : A -> bool) (l : list A) (x : A) :
  existsb P l = false -> In x l -> P x = false.
Proof.
  intros H Hx. destruct (P x) eqn:HP; [| reflexivity].
  rewrite <- H. symmetry. apply existsb_exists. eauto.
Qed.

Lemma declare_parameters_unbound line params :
  existsb (String.eqb f) params = false ->
  sem_triple (unbound f) (for_each (Analyzer.declare_parameter line) params) (unbound f) false.
Proof.
  intros Hparams. eapply triple_weaken.
  - apply triple_for_each with (b := fun _ => false). intros p Hp.
    unfold Analyzer.declare_parameter.
    apply (triple_bind _ _ (unbound f) _ _ _ false false).
    + apply throw_if_keeps, unbound_clean.
    + intros _. apply declare_unbound.
      rewrite String.eqb_sym. exact (existsb_false_In _ _ _ Hparams Hp).
  - intros; discriminate.
Qed.

(** The first pass binds the names of the function declarations of the top
    level, and no other. *)
Lemma declareFunction_unbound s :
  declares_function f s = false ->
  sem_triple (unbound f) (Analyzer.declareFunction s) (unbound f) false.
Proof.
  destruct s as [| | | | | name params body line | | |]; simpl; intros Hname;
    try apply triple_ret.
  apply String.eqb_neq in Hname.
  apply (triple_bind _ _ (unbound f) _ _ _ false false);
    [apply throw_if_keeps, unbound_clean |].
  intros _. apply (triple_bind _ _ (unbound f) _ _ _ false false).
  - apply triple_modify. intros st (Hf & Hs & He). repeat split; simpl; auto.
    now rewrite lookup_insert_ne.
  - intros _. apply declare_unbound. now apply String.eqb_neq.
Qed.

End Unbound.

Lemma analyze_raises (ast : Program) (an : Analyzer.t) e st1 :
  Analyzer.visitProgram ast (Analyzer.mk [∅] ∅ None []) = (Raise e, st1) ->
  semantic_throw e st1 ->
  exists message l an', Analyzer.analyze ast an = (Raise (SemanticError message l), an').
Proof.
  intros Hrun [He Hst]. unfold Analyzer.analyze. rewrite Hrun, Hst. simpl.
  destruct e as [| | message l |]; try contradiction. eauto.
Qed.

(** ** The loop depth of the bundle's analyzer *)

Section LoopDepth.

Local Abbreviation depth_triple := (triple bundle_throw).

Lemma bundle_throw_if_keeps (P : Bundle.Analyzer.t -> Prop) cond message line :
  depth_triple P (Bundle.Analyzer.throw_if cond message line) P false.
Proof.
  intros st HP. unfold Bundle.Analyzer.throw_if.
  destruct (cond st); simpl; unfold bundle_throw; simpl; auto.
Qed.

Lemma bundle_scopes_keep_depth d (f : list (gmap string Analyzer.binding) ->
                                      list (gmap string Analyzer.binding)) :
  depth_triple (depth_is d)
    (modify (fun st => Bundle.Analyzer.set_scopes (f (Bundle.Analyzer.scopes st)) st))
    (depth_is d) false.
Proof. apply triple_modify. intros st H. exact H. Qed.

Lemma bundle_declare_keeps_depth d name b :
  depth_triple (depth_is d) (Bundle.Analyzer.declare name b) (depth_is d) false.
Proof.
  apply triple_modify. intros st H. unfold depth_is in *.
  destruct (Bundle.Analyzer.scopes st); simpl; exact H.
Qed.

Lemma bundle_visitExpression_depth d e :
  depth_triple (depth_is d) (Bundle.Analyzer.visitExpression e) (depth_is d) false.
Proof.
  induction e as [op l IHl r IHr line | op o IHo line | callee args IHargs line
                 | v line | name line | e IHe line | name v IHv line]; simpl.
  - apply (triple_bind _ _ (depth_is d) _ _ _ false false); [exact IHl | intros _; exact IHr].
  - exact IHo.
  - apply (triple_bind _ _ (depth_is d) _ _ _ false false); [apply bundle_throw_if_keeps |].
    intros _. apply (triple_bind _ _ (depth_is d) _ _ _ false false).
    + intros st H. destruct (Bundle.Analyzer.functions st !! callee) as [info |]; simpl; auto.
      destruct (negb _); simpl; unfold bundle_throw; simpl; auto.
    + intros _. eapply triple_weaken.
      * apply triple_for_each with (b := fun _ => false). intros x Hx.
        exact (list_all_In _ _ IHargs x Hx).
      * intros; discriminate.
  - apply triple_ret.
  - apply bundle_throw_if_keeps.
  - exact IHe.
  - apply (triple_bind _ _ (depth_is d) _ _ _ false false);
      [apply bundle_throw_if_keeps | intros _; exact IHv].
Qed.

Lemma bundle_expressions_depth d es :
  depth_triple (depth_is d) (for_each Bundle.Analyzer.visitExpression es) (depth_is d) false.
Proof.
  eapply triple_weaken.
  - apply triple_for_each with (b := fun _ => false). intros x _.
    apply bundle_visitExpression_depth.
  - intros; discriminate.
Qed.

Lemma bundle_in_new_scope_depth d (visit : stmt -> Bundle.Analyzer.A unit)
    (P : stmt -> bool) statements :
  (forall s, In s statements -> depth_triple (depth_is d) (visit s) (depth_is d) (P s)) ->
  depth_triple (depth_is d) (Bundle.Analyzer.in_new_scope visit statements) (depth_is d)
    (existsb P statements).
Proof.
  intros H. unfold Bundle.Analyzer.in_new_scope.
  eapply triple_weaken.
  - apply (triple_bind _ _ (depth_is d) _ _ _ false).
    + apply (bundle_scopes_keep_depth d (cons ∅)).
    + intros _. apply (triple_bind _ _ (depth_is d)).
      * apply triple_for_each. exact H.
      * intros _. apply (bundle_scopes_keep_depth d tail).
  - bool_side.
Qed.

Lemma existsb_const_false {A} (l : list A) : existsb (fun _ => false) l = false.
Proof. induction l; simpl; auto. Qed.

Lemma existsb_andb_const {A} (c : bool) (P : A -> bool) (l : list A) :
  existsb (fun s => c && P s) l = c && existsb P l.
Proof.
  induction l as [| x l IH]; simpl; [now rewrite andb_false_r |].
  rewrite IH. destruct c; reflexivity.
Qed.

Lemma existsb_existsb_andb_const {A} (c : bool) (P : A -> bool) (ls : list (list A)) :
  existsb (existsb (fun s => c && P s)) ls = c && existsb (existsb P) ls.
Proof.
  induction ls as [| l ls IH]; simpl; [now rewrite andb_false_r |].
  rewrite IH, existsb_andb_const. destruct c; reflexivity.
Qed.

(** At depth [d] a statement leaves the depth as it is, and is rejected if
    [d] is 0 and it holds a [break] outside every loop. *)
Lemma bundle_visitStatement_depth s :
  forall d,
    depth_triple (depth_is d) (Bundle.Analyzer.visitStatement s) (depth_is d)
      ((d =? 0) && break_outside_loop s).
Proof.
  induction s as [name v line | es line | conds conss IHconss alt IHalt line
                 | cond body IHbody line | line | name params body IHbody line
                 | v line | e line | body IHbody]; intros d; simpl;
    rewrite ?andb_false_r.
  - apply (triple_bind _ _ (depth_is d) _ _ _ false false);
      [apply bundle_visitExpression_depth | intros _; apply bundle_declare_keeps_depth].
  - apply bundle_expressions_depth.
  - eapply triple_weaken.
    + apply (triple_bind _ _ (depth_is d) _ _ _ false); [apply bundle_expressions_depth |].
      intros _.
      eapply (triple_bind _ _ (depth_is d) _ _ _
                (existsb (existsb (fun s => (d =? 0) && break_outside_loop s)) conss)
                (match alt with
                 | Some b => existsb (fun s => (d =? 0) && break_outside_loop s) b
                 | None => false
                 end)).
      * apply triple_for_each. intros block Hblock.
        apply bundle_in_new_scope_depth. intros s Hs.
        exact (list_all_nested_In _ _ IHconss block Hblock s Hs d).
      * intros _. destruct IHalt as [block IHblock |].
        -- apply bundle_in_new_scope_depth. intros s Hs.
           exact (list_all_In _ _ IHblock s Hs d).
        -- apply triple_ret.
    + rewrite existsb_existsb_andb_const.
      destruct alt; rewrite ?existsb_andb_const; destruct (d =? 0); bool_side.
  - apply (triple_bind _ _ (depth_is d) _ _ _ false false);
      [apply bundle_visitExpression_depth |].
    intros _. apply (triple_bind _ _ (depth_is (S d)) _ _ _ false false).
    { apply triple_modify. intros st H. unfold depth_is in *. simpl. now rewrite H. }
    intros _. apply (triple_bind _ _ (depth_is (S d)) _ _ _ false false).
    { eapply triple_weaken.
      - apply bundle_in_new_scope_depth with (P := fun _ => false). intros s Hs.
        exact (list_all_In _ _ IHbody s Hs (S d)).
      - rewrite existsb_const_false. intros; discriminate. }
    intros _. apply triple_modify. intros st H. unfold depth_is in *. simpl.
    rewrite H. simpl. apply Nat.sub_0_r.
  - intros st H. unfold Bundle.Analyzer.throw_if. unfold depth_is in H. rewrite H.
    destruct d; simpl; unfold bundle_throw; simpl; auto.
  - eapply triple_weaken.
    + apply (triple_bind _ _ (depth_is d) _ _ _ false); [apply triple_read |].
      intros prev. apply (triple_bind _ _ (depth_is d) _ _ _ false).
      { apply triple_modify. intros st Hst. exact Hst. }
      intros _. apply (triple_bind _ _ (depth_is d) _ _ _ false).
      { apply (bundle_scopes_keep_depth d (cons ∅)). }
      intros _. apply (triple_bind _ _ (depth_is d) _ _ _ false).
      { eapply triple_weaken.
        - apply triple_for_each with (b := fun _ => false). intros p _.
          apply bundle_declare_keeps_depth.
        - intros; discriminate. }
      intros _. apply (triple_bind _ _ (depth_is d)).
      { apply triple_for_each with (b := fun s => (d =? 0) && break_outside_loop s).
        intros s Hs. exact (list_all_In _ _ IHbody s Hs d). }
      intros _. apply (triple_bind _ _ (depth_is d) _ _ _ false false).
      { apply (bundle_scopes_keep_depth d tail). }
      intros _. apply triple_modify. intros st Hst. exact Hst.
    + rewrite existsb_andb_const. destruct (d =? 0); bool_side.
  - apply (triple_bind _ _ (depth_is d) _ _ _ false false);
      [apply bundle_throw_if_keeps |].
    intros _. destruct v as [e |]; [apply bundle_visitExpression_depth | apply triple_ret].
  - apply bundle_visitExpression_depth.
  - eapply triple_weaken.
    + apply bundle_in_new_scope_depth with (P := fun s => (d =? 0) && break_outside_loop s).
      intros s Hs. exact (list_all_In _ _ IHbody s Hs d).
    + rewrite existsb_andb_const. auto.
Qed.

Lemma bundle_hoist_depth s :
  depth_triple (depth_is 0) (Bundle.Analyzer.hoist s) (depth_is 0) false.
Proof.
  destruct s as [| | | | | name params body line | | |]; simpl; try apply triple_ret.
  apply (triple_bind _ _ (depth_is 0) _ _ _ false false); [apply bundle_throw_if_keeps |].
  intros _. apply (triple_bind _ _ (depth_is 0) _ _ _ false false).
  - apply triple_modify. intros st H. exact H.
  - intros _. apply triple_modify. intros st H. unfold depth_is in *.
    destruct (reverse (Bundle.Analyzer.scopes st)); simpl; exact H.
Qed.

(** X7. The bundle's analyzer rejects every program with a [break] outside
    every loop, by its loop depth. *)
Lemma bundle_rejects_break_outside_loop (ast : Program) (an : Bundle.Analyzer.t) :
  existsb break_outside_loop ast = true ->
  exists message l, fst (Bundle.Analyzer.analyze ast an) = Raise (SemanticError message l).
Proof.
  intros Hbreak. unfold Bundle.Analyzer.analyze.
  set (st0 := Bundle.Analyzer.mk [∅] ∅ None 0).
  assert (Ht : depth_triple (depth_is 0)
                 (for_each Bundle.Analyzer.hoist ast ;;;
                  for_each Bundle.Analyzer.visitStatement ast ;;; ret ast)
                 (depth_is 0) true).
  { eapply triple_weaken.
    - apply (triple_bind _ _ (depth_is 0) _ _ _ false).
      + eapply triple_weaken.
        * apply triple_for_each with (b := fun _ => false). intros s _.
          apply bundle_hoist_depth.
        * intros; discriminate.
      + intros _. eapply (triple_bind _ _ (depth_is 0) _ _ _ _ false).
        * apply triple_for_each
            with (b := fun s => (0 =? 0) && break_outside_loop s).
          intros s _. apply bundle_visitStatement_depth.
        * intros _. apply triple_ret.
    - intros _. rewrite existsb_andb_const, Hbreak. reflexivity. }
  destruct (triple_fails _ _ _ _ st0 Ht eq_refl) as (e & st' & Hrun & He).
  rewrite Hrun. simpl. destruct e as [| | message l |]; try contradiction. eauto.
Qed.

(** At a positive depth the bundle's analyzer lets a [break] pass, and in
    the body of a [while] the depth is positive. *)
Lemma bundle_accepts_break_in_loop (st : Bundle.Analyzer.t) (line l2 : nat) (v : literal) :
  (Bundle.Analyzer.loopDepth st <> 0 ->
   Bundle.Analyzer.visitStatement (BreakStatement line) st = (Done tt, st))
  /\ Bundle.Analyzer.visitStatement
       (WhileStatement (Literal v l2) [BreakStatement line] l2) st = (Done tt, st).
Proof.
  split.
  - intros H. simpl. unfold Bundle.Analyzer.throw_if.
    destruct (Bundle.Analyzer.loopDepth st); [contradiction | reflexivity].
  - destruct st as [scopes functions currentFunction depth]. simpl.
    unfold bind, ret, modify, Bundle.Analyzer.in_new_scope, bind,
      Bundle.Analyzer.pushScope, Bundle.Analyzer.popScope, modify,
      Bundle.Analyzer.set_loopDepth, Bundle.Analyzer.set_scopes; simpl.
    rewrite Nat.sub_0_r. reflexivity.
Qed.

End LoopDepth.

(** * The claims on concrete programs *)

(** ** Program framing (C1) *)

(** C1. [Keywords] has no entry for [action!] nor for [paisa vasool]: the
    lexer reads the first as an identifier and a [!], the second as two
    identifiers, and the parser refuses scenario 2 at its first token, in
    the modules as in the bundle.  Between [Chal bhai suru kar] and
    [bas khatam karo] the scenario runs and prints 1, 2, 3. *)
Theorem scenario2_is_refused :
  shapes (tokenize "action!")
  = [(TokenType.IDENTIFIER, "action"); (TokenType.BANG, "!"); (TokenType.EOF, "")]
  /\ shapes (tokenize "paisa vasool")
     = [(TokenType.IDENTIFIER, "paisa"); (TokenType.IDENTIFIER, "vasool"); (TokenType.EOF, "")]
  /\ shapes (tokenize "Chal bhai suru kar bas khatam karo")
     = [(TokenType.ACTION, "Chal bhai suru kar"); (TokenType.PAISA_VASOOL, "bas khatam karo");
        (TokenType.EOF, "")]
  /\ run_fresh 100 scenario2 = Failure (Error (ParserError EXPECTED_ACTION 1 1))
  /\ Bundle.compile scenario2 = Raise (ParserError EXPECTED_ACTION 1 1)
  /\ run_fresh 100 scenario2_accepted_spelling = Success ["1"; "2"; "3"].
Proof. repeat split; vm_compute; reflexivity. Qed.

(** ** The break statement (C2) *)

(** C2. The lexer of the modules makes a [BREAK] token of the phrase, but
    their parser has no statement for it: a program with a break, in a loop
    or not, fails with a Parser Error and never reaches the analyzer, which
    keeps no loop depth and lets a [BreakStatement] node pass.  The browser
    bundle parses the statement and its analyzer decides by the loop depth,
    as the claim says. *)
Theorem break_is_not_parsed :
  shapes (tokenize "me bahar ja raha hu")
  = [(TokenType.BREAK, "me bahar ja raha hu"); (TokenType.EOF, "")]
  /\ run_fresh 100 break_outside_source = Failure (Error (ParserError EXPECTED_EXPRESSION 2 1))
  /\ run_fresh 100 break_in_loop_source = Failure (Error (ParserError EXPECTED_EXPRESSION 2 27))
  /\ analyze [BreakStatement 2] = Done [BreakStatement 2]
  /\ Bundle.compile break_outside_source = Raise (SemanticError BREAK_OUTSIDE_LOOP 2)
  /\ Bundle.compile break_in_loop_source
     = Done [WhileStatement (Literal (LitBool true) 2) [BreakStatement 2] 2].
Proof. repeat split; vm_compute; reflexivity. Qed.

(** ** String escapes (C4) *)

(** C4. The replacements are applied one after the other to the whole
    text, [\n] first and [\\] last: in backslash, backslash, n the first
    replacement finds backslash-n at the second character, and the value of
    the literal is a backslash followed by a line feed, not by the letter n.
    A backslash before any other character stays in the value. *)
Theorem escaped_backslash_lexes_to_newline :
  literals (tokenize escaped_backslash_n) = [LitString (String BACKSLASH (String LF "")); LitNull]
  /\ Lexer.process_escapes "\\n" = String BACKSLASH (String LF "")
  /\ Lexer.process_escapes "a\nb\tc\rd" = String "a" (String LF (String "b" (String TAB
       (String "c" (String CR "d")))))
  /\ Lexer.process_escapes (String BACKSLASH (String DQUOTE "\\")) = String DQUOTE "\"
  /\ Lexer.process_escapes "\q" = "\q".
Proof. repeat split; vm_compute; reflexivity. Qed.

(** * The evaluator *)

(** ** Division by zero (C7) *)

(** [right === 0] holds of the two zeros of binary64, and of no other
    number. *)
Lemma float_is_zero_spec (d : float) :
  float_is_zero d = match Prim2SF d with S754_zero _ => true | _ => false end.
Proof.
  unfold float_is_zero. rewrite FloatAxioms.eqb_spec.
  change (Prim2SF PrimFloat.zero) with (S754_zero false).
  destruct (Prim2SF d) as [s | s | | s m e]; try destruct s; reflexivity.
Qed.

(** C7. On numbers [n] and [d], [n / d] and [n % d] throw the Runtime Error
    [DIVISION_BY_ZERO] when [d] is a zero, and return the quotient and the
    remainder when it is not; so do the expressions [n / d] and [n % d] on
    number literals, in every state of the interpreter. *)
Theorem division_by_zero (exec : stmt -> Interpreter.I unit) (n d : float)
    (line l1 l2 : nat) (st : Interpreter.t) :
  let quotient := Interpreter.binary_operation "/" (VNumber n) (VNumber d) line st in
  let remainder := Interpreter.binary_operation "%" (VNumber n) (VNumber d) line st in
  (Interpreter.evaluate exec
     (BinaryExpression "/" (Literal (LitNumber n) l1) (Literal (LitNumber d) l2) line) st
   = quotient)
  /\ (Interpreter.evaluate exec
        (BinaryExpression "%" (Literal (LitNumber n) l1) (Literal (LitNumber d) l2) line) st
      = remainder)
  /\ match Prim2SF d with
     | S754_zero _ =>
         quotient = (Raise (Error (RuntimeError DIVISION_BY_ZERO line)), st)
         /\ remainder = (Raise (Error (RuntimeError DIVISION_BY_ZERO line)), st)
     | _ =>
         quotient = (Done (VNumber (PrimFloat.div n d)), st)
         /\ remainder = (Done (VNumber (float_rem n d)), st)
     end.
Proof.
  cbv zeta. split; [reflexivity | split; [reflexivity |]].
  pose proof (float_is_zero_spec d) as Hz.
  unfold Interpreter.binary_operation, Interpreter.checkNumberOperands, bind, ret,
    Interpreter.runtime_error, throw. simpl.
  destruct (Prim2SF d); rewrite Hz; split; reflexivity.
Qed.

(** Scenario 1 and the test [Modulo], between the accepted spellings. *)
Lemma division_examples :
  run_fresh 100 "Chal bhai suru kar
ek baat bataun: 10 / 0
bas khatam karo" = Failure (Error (RuntimeError DIVISION_BY_ZERO 2))
  /\ run_fresh 100 "Chal bhai suru kar
ek baat bataun: 10 % 0
bas khatam karo" = Failure (Error (RuntimeError DIVISION_BY_ZERO 2))
  /\ run_fresh 100 "Chal bhai suru kar
ek baat bataun: 20 / 4, 17 % 5, 10 / 4
bas khatam karo" = Success ["5 2 2.5"].
Proof. repeat split; vm_compute; reflexivity. Qed.

(** ** Truthiness (C8) *)

(** A branch is executed as [executes_branch] says. *)
Lemma run_branch_executes exec block (st : Interpreter.t) :
  run_branch exec block st = executes_branch exec block st.
Proof.
  unfold run_branch, executes_branch, branch_frame, bind, Interpreter.this_environment,
    Interpreter.new_Environment, Interpreter.executeBlock, Interpreter.in_environment.
  simpl. destruct (for_each exec block _) as [r st']. reflexivity.
Qed.

(** C8. A value is falsy exactly when it is unit or the boolean false (the
    number 0 and the empty string are truthy); [!v] is the negation of the
    truthiness of [v].  An [if] evaluates its first condition: when the
    value is truthy it executes the consequent of that condition (the
    statements of the consequent, in order, in a new child of the current
    environment) and nothing else of the [if]; when the value is falsy it
    does not execute that consequent and goes on with the conditions that
    are left, and with none left it executes the alternate, when it has
    one.  So [if v {A} else {B}] executes [A] when [v] is truthy and [B]
    when it is not, and what it prints shows which. *)
Theorem truthiness (v : value) :
  (Interpreter.isTruthy v = false <-> v = VNull \/ v = VBool false)
  /\ Interpreter.isTruthy (VNumber PrimFloat.zero) = true
  /\ Interpreter.isTruthy (VString "") = true
  /\ (forall line st,
        Interpreter.unary_operation "!" v line st
        = (Done (VBool (negb (Interpreter.isTruthy v))), st))
  /\ (forall fuel condition conditions consequent consequents alternate line st,
        Interpreter.executeStatement (S fuel)
          (IfStatement (condition :: conditions) (consequent :: consequents) alternate line) st
        = match Interpreter.evaluate (Interpreter.executeStatement fuel) condition st with
          | (Done c, st') =>
              if Interpreter.isTruthy c
              then executes_branch (Interpreter.executeStatement fuel) consequent st'
              else Interpreter.executeStatement (S fuel)
                     (IfStatement conditions consequents alternate line) st'
          | (Raise e, st') => (Raise e, st')
          | (Timeout, st') => (Timeout, st')
          end)
  /\ (forall fuel alternate line st,
        Interpreter.executeStatement (S fuel) (IfStatement [] [] alternate line) st
        = match alternate with
          | Some block => executes_branch (Interpreter.executeStatement fuel) block st
          | None => (Done tt, st)
          end)
  /\ (forall fuel (l : literal) line st,
        let branch text := [PrintStatement [Literal (LitString text) line] line] in
        let '(r, st') :=
          Interpreter.executeStatement (S (S fuel))
            (IfStatement [Literal l line] [branch "A"] (Some (branch "B")) line) st in
        r = Done tt
        /\ Interpreter.output st'
           = (Interpreter.output st
              ++ [if Interpreter.isTruthy (Interpreter.value_of_literal l)
                  then "A" else "B"])%list)
  /\ (forall fuel operand line st,
        Interpreter.evaluate (Interpreter.executeStatement fuel)
          (UnaryExpression "!" operand line) st
        = match Interpreter.evaluate (Interpreter.executeStatement fuel) operand st with
          | (Done c, st') => (Done (VBool (negb (Interpreter.isTruthy c))), st')
          | (Raise e, st') => (Raise e, st')
          | (Timeout, st') => (Timeout, st')
          end).
Proof.
  split; [split |].
  - destruct v as [| [] | | |]; simpl; intros; auto; discriminate.
  - intros [-> | ->]; reflexivity.
  - split; [reflexivity | split; [reflexivity | split; [reflexivity |]]].
    split; [| split; [| split]].
    + intros fuel condition conditions consequent consequents alternate line st.
      simpl. unfold bind.
      destruct (Interpreter.evaluate _ condition st) as [[c | e |] st']; try reflexivity.
      destruct (Interpreter.isTruthy c); [| reflexivity].
      apply (run_branch_executes (Interpreter.executeStatement fuel) consequent st').
    + intros fuel alternate line st. simpl.
      destruct alternate as [block |]; [| reflexivity].
      apply (run_branch_executes (Interpreter.executeStatement fuel) block st).
    + intros fuel l line st. destruct l as [| [] | n | s]; simpl; auto.
    + intros fuel operand line st. simpl. unfold bind.
      destruct (Interpreter.evaluate _ operand st) as [[c | e |] st']; reflexivity.
Qed.

(** What an [if] on a literal prints, for every literal. *)
Lemma if_on_literal (l : literal) (fuel line : nat) (st : Interpreter.t) :
  let branch text := [PrintStatement [Literal (LitString text) line] line] in
  let '(r, st') :=
    Interpreter.executeStatement (S (S fuel))
      (IfStatement [Literal l line] [branch "A"] (Some (branch "B")) line) st in
  r = Done tt
  /\ Interpreter.output st'
     = (Interpreter.output st
        ++ [if Interpreter.isTruthy (Interpreter.value_of_literal l) then "A" else "B"])%list.
Proof.
  destruct l as [| [] | n | s]; simpl; auto.
Qed.

(** ** Calls of function values (C3) *)

Lemma bound_values_other params args i vals x :
  x ∉ params -> bound_values params args i vals !! x = vals !! x.
Proof.
  revert i vals. induction params as [| p rest IH]; intros i vals Hx; simpl; [reflexivity |].
  apply not_elem_of_cons in Hx as [Hne Hx].
  rewrite IH by exact Hx. now rewrite lookup_insert_ne.
Qed.

(** Parameters are bound to the arguments by position, and to unit where
    the arguments have run out. *)
Lemma bound_values_position params args i vals k p :
  NoDup params -> params !! k = Some p ->
  bound_values params args i vals !! p = Some (default VNull (args !! (i + k))).
Proof.
  revert i vals k. induction params as [| q rest IH]; intros i vals k Hnd Hk; [discriminate |].
  apply NoDup_cons in Hnd as [Hq Hnd]. simpl.
  destruct k as [| k]; simpl in Hk.
  - injection Hk as ->. rewrite bound_values_other by exact Hq.
    rewrite lookup_insert_eq, Nat.add_0_r. reflexivity.
  - rewrite (IH (S i) _ k Hnd Hk). now rewrite Nat.add_succ_r.
Qed.

Lemma bind_parameters_store env params args i (st : Interpreter.t) :
  Interpreter.bind_parameters env params args i st
  = (Done tt,
     Interpreter.set_envs
       (alter (with_values (bound_values params args i)) env (Interpreter.envs st)) st).
Proof.
  revert i st. induction params as [| p rest IH]; intros i st; simpl.
  - unfold ret. f_equal. destruct st as [envs g c o n]. unfold Interpreter.set_envs. simpl.
    f_equal. symmetry. apply list_alter_id. intros [vals par]. reflexivity.
  - unfold bind, Interpreter.define, modify. rewrite IH. f_equal.
    destruct st as [envs g c o n]. unfold Interpreter.set_envs. simpl. f_equal.
    rewrite list_alter_alter_eq. apply list_alter_ext; [| reflexivity].
    intros [vals par] _. reflexivity.
Qed.

(** C3 (as amended). For a call whose callee is not in the table of
    functions but is a visible variable or parameter, the analyzer checks
    no argument count: it goes on to the arguments, however many.  At
    runtime [evaluateCall] compares the number of arguments with the number
    of parameters of the function value: it invokes the function when they
    agree and throws the Runtime Error of a wrong argument count when they
    differ.  The loop of [MasalaFunction.call] binds the parameters to the
    arguments by position, and to unit where there is no argument. *)
Theorem indirect_call_arity (st : Analyzer.t) (callee : string) (arguments : list expr)
    (line : nat) (exec : stmt -> Interpreter.I unit) (id : nat) (name : string)
    (params : list string) (body : list stmt) (l : nat) (closure : env_id)
    (args : list value) (it : Interpreter.t) :
  Analyzer.functions st !! callee = None ->
  is_Some (Analyzer.lookupVariable st callee) ->
  NoDup params ->
  Analyzer.visitExpression (CallExpression callee arguments line) st
  = for_each Analyzer.visitExpression arguments st
  /\ Interpreter.call_value exec callee (VFunction id name params body l closure) args line it
     = (if length args =? length params
        then Interpreter.MasalaFunction_call exec params body closure args it
        else (Raise (Error (RuntimeError
                              (WRONG_ARG_COUNT callee (length params) (length args)) line)), it))
  /\ (forall env e k p,
        Interpreter.envs it !! env = Some e -> params !! k = Some p ->
        exists e',
          Interpreter.envs (snd (Interpreter.bind_parameters env params args 0 it)) !! env
          = Some e'
          /\ values e' !! p = Some (default VNull (args !! k))
          /\ parent e' = parent e).
Proof.
  intros Htable [b Hvisible] Hnd. split; [| split].
  - simpl. unfold bind, Analyzer.check_callee. rewrite Htable, Hvisible. reflexivity.
  - simpl. destruct (length args =? length params); reflexivity.
  - intros env e k p He Hk. rewrite bind_parameters_store.
    unfold snd, Interpreter.set_envs, Interpreter.envs at 1.
    exists (with_values (bound_values params args 0) e). split; [| split].
    + rewrite list_lookup_alter_eq, He. reflexivity.
    + simpl. exact (bound_values_position params args 0 (values e) k p Hnd Hk).
    + reflexivity.
Qed.

(** C3 as stated fails: the analysis accepts the call [f()], and the call
    fails at runtime on the missing argument. *)
Lemma indirect_call_missing_argument_fails :
  compile indirect_source
  = Done [ FunctionDeclaration "g" ["a"] [ReturnStatement (Some (Identifier "a" 2)) 2] 2;
           FunctionDeclaration "h" ["f"]
             [ReturnStatement (Some (CallExpression "f" [] 3)) 3] 3;
           PrintStatement [CallExpression "h" [Identifier "g" 4] 4] 4 ]
  /\ run_fresh 100 indirect_source
     = Failure (Error (RuntimeError (WRONG_ARG_COUNT "f" 1 0) 3)).
Proof. split; vm_compute; reflexivity. Qed.

Lemma indirect_call_arity_witness :
  Analyzer.visitExpression (CallExpression "f" [] 3) analyzer_in_h
  = for_each Analyzer.visitExpression [] analyzer_in_h
  /\ Interpreter.call_value (Interpreter.executeStatement 10) "f"
       (VFunction 0 "g" ["a"] [ReturnStatement (Some (Identifier "a" 2)) 2] 2 0) [] 3
       Interpreter.new
     = (if length ([] : list value) =? length ["a"]
        then Interpreter.MasalaFunction_call (Interpreter.executeStatement 10) ["a"]
               [ReturnStatement (Some (Identifier "a" 2)) 2] 0 [] Interpreter.new
        else (Raise (Error (RuntimeError (WRONG_ARG_COUNT "f" (length ["a"])
                                            (length ([] : list value))) 3)),
              Interpreter.new))
  /\ (forall env e k p,
        Interpreter.envs Interpreter.new !! env = Some e -> ["a"] !! k = Some p ->
        exists e',
          Interpreter.envs (snd (Interpreter.bind_parameters env ["a"] [] 0 Interpreter.new))
            !! env = Some e'
          /\ values e' !! p = Some (default VNull (([] : list value) !! k))
          /\ parent e' = parent e).
Proof.
  apply (indirect_call_arity analyzer_in_h "f" [] 3 (Interpreter.executeStatement 10)
           0 "g" ["a"] [ReturnStatement (Some (Identifier "a" 2)) 2] 2 0 [] Interpreter.new).
  - vm_compute. reflexivity.
  - exists (Analyzer.mkBinding Analyzer.parameter 3). vm_compute. reflexivity.
  - apply NoDup_singleton.
Defined.

(** ** Closures (C6) *)

Lemma alter_new_environment (f : Environment -> Environment) (store : list Environment)
    (e : Environment) :
  alter f (length store) (store ++ [e])%list = (store ++ [f e])%list.
Proof.
  rewrite alter_app_r_alt by lia. rewrite Nat.sub_diag. reflexivity.
Qed.

(** [MasalaFunction.call] runs the body in the frame and puts the
    environment of the caller back. *)
Lemma MasalaFunction_call_frame exec params body closure args (st : Interpreter.t) :
  Interpreter.MasalaFunction_call exec params body closure args st
  = (let (r, st') :=
       Interpreter.catch_return (for_each exec body) (call_frame closure params args st) in
     (r, Interpreter.set_environment (Interpreter.environment st) st')).
Proof.
  unfold Interpreter.MasalaFunction_call, bind, Interpreter.new_Environment.
  rewrite bind_parameters_store.
  unfold Interpreter.catch_return, Interpreter.executeBlock, Interpreter.in_environment,
    call_frame.
  destruct st as [envs g c o n]. unfold Interpreter.set_envs, Interpreter.set_environment.
  simpl. rewrite alter_new_environment. unfold with_values. simpl.
  destruct (for_each exec body _) as [[[] | [e | v] |] st']; reflexivity.
Qed.

(** A lookup that finds a value finds the same in a store that extends
    the one it was made in. *)
Lemma get_in_extend (depth : nat) (store store' : list Environment) (env : env_id)
    (x : string) (v : value) :
  (forall j e, store !! j = Some e -> store' !! j = Some e) ->
  Interpreter.get_in depth store env x = Some (Some v) ->
  Interpreter.get_in depth store' env x = Some (Some v).
Proof.
  intros Hext. revert env. induction depth as [| depth IH]; intros env; simpl; [discriminate |].
  destruct (store !! env) as [e |] eqn:He; [| discriminate].
  rewrite (Hext env e He).
  destruct (values e !! x); [auto |].
  destruct (parent e) as [p |]; [apply IH | discriminate].
Qed.

(** [define] on an environment of the store leaves the value there. *)
Lemma define_binds env name v (st : Interpreter.t) :
  env < length (Interpreter.envs st) ->
  value_in (snd (Interpreter.define env name v st)) env name = Some v.
Proof.
  intros Hlt. destruct (lookup_lt_is_Some_2 _ _ Hlt) as [e He].
  unfold value_in. cbn. rewrite list_lookup_alter_eq, He. simpl.
  apply lookup_insert_eq.
Qed.

(** What a call comes to: the statements of the body are executed from
    the frame, a [return] of the body ends the call with its value, and the
    environment of the caller is current again. *)
Lemma MasalaFunction_call_body exec params body closure args (st : Interpreter.t) :
  Interpreter.MasalaFunction_call exec params body closure args st
  = match for_each exec body (call_frame closure params args st) with
    | (Done _, st') =>
        (Done VNull, Interpreter.set_environment (Interpreter.environment st) st')
    | (Raise (ReturnValue r), st') =>
        (Done r, Interpreter.set_environment (Interpreter.environment st) st')
    | (Raise (Error e), st') =>
        (Raise (Error e), Interpreter.set_environment (Interpreter.environment st) st')
    | (Timeout, st') =>
        (Timeout, Interpreter.set_environment (Interpreter.environment st) st')
    end.
Proof.
  rewrite MasalaFunction_call_frame. unfold Interpreter.catch_return.
  destruct (for_each exec body _) as [[[] | [e | r] |] st']; reflexivity.
Qed.

(** A variable that is no parameter is read in the frame through the
    captured environment. *)
Lemma frame_reads_closure exec params closure args (st : Interpreter.t) x v line :
  x ∉ params ->
  Interpreter.get_in (Interpreter.chain_bound st) (Interpreter.envs st) closure x
  = Some (Some v) ->
  Interpreter.evaluate exec (Identifier x line) (call_frame closure params args st)
  = (Done v, call_frame closure params args st).
Proof.
  intros Hx Hget. set (frame := call_frame closure params args st).
  simpl. unfold bind, Interpreter.this_environment, Interpreter.get.
  assert (Hlook : Interpreter.get_in (Interpreter.chain_bound frame)
                    (Interpreter.envs frame) (Interpreter.environment frame) x
                  = Some (Some v)).
  { unfold frame, call_frame, Interpreter.chain_bound. simpl.
    rewrite lookup_app_r by lia. rewrite Nat.sub_diag. simpl.
    rewrite bound_values_other by exact Hx. rewrite lookup_empty.
    rewrite length_app. simpl. rewrite Nat.add_1_r.
    apply get_in_extend with (store := Interpreter.envs st); [| exact Hget].
    intros j e He. rewrite lookup_app_l; [exact He |].
    apply lookup_lt_is_Some. eauto. }
  rewrite Hlook. reflexivity.
Qed.

(** A function whose body returns a variable that is no parameter returns
    what the captured environment holds for it when the call is made. *)
Lemma call_returns_variable fuel params closure args (st : Interpreter.t) x v l :
  x ∉ params ->
  Interpreter.get_in (Interpreter.chain_bound st) (Interpreter.envs st) closure x
  = Some (Some v) ->
  Interpreter.MasalaFunction_call (Interpreter.executeStatement (S fuel)) params
    [ReturnStatement (Some (Identifier x l)) l] closure args st
  = (Done v, Interpreter.set_environment (Interpreter.environment st)
               (call_frame closure params args st)).
Proof.
  intros Hx Hget. rewrite MasalaFunction_call_body.
  cbn [for_each Interpreter.executeStatement]. unfold bind at 1.
  unfold Interpreter.executeReturnStatement, bind.
  rewrite (frame_reads_closure _ params closure args st x v l Hx Hget).
  reflexivity.
Qed.

(** C6. A function declaration binds its name to a function value that
    holds the environment in which the declaration is executed.  A call
    with as many arguments as parameters invokes the value, and the
    invocation executes the statements of the body, in order, in a new
    environment whose parent is the environment that the value holds; a
    [return] of the body ends the call with its value.  The environment of
    the caller is only put back afterwards and has no part in the call.  A
    variable that the body reads and that is no parameter is found through
    the captured environment, in the store as it is when the call is made:
    a function whose body returns such a variable returns the value that
    the variable has at call time, and after the variable of the captured
    environment has been given another value, the same function value
    returns that one. *)
Theorem closure_call (exec : stmt -> Interpreter.I unit) (params : list string)
    (body : list stmt) (closure : env_id) (args : list value) (st : Interpreter.t)
    (caller : env_id) (x : string) (v : value) (line : nat) :
  x ∉ params ->
  Interpreter.get_in (Interpreter.chain_bound st) (Interpreter.envs st) closure x
  = Some (Some v) ->
  let frame := call_frame closure params args st in
  let back := Interpreter.set_environment (Interpreter.environment st) in
  Interpreter.MasalaFunction_call exec params body closure args st
  = match for_each exec body frame with
    | (Done _, st') => (Done VNull, back st')
    | (Raise (ReturnValue r), st') => (Done r, back st')
    | (Raise (Error e), st') => (Raise (Error e), back st')
    | (Timeout, st') => (Timeout, back st')
    end
  /\ Interpreter.envs st !! Interpreter.environment frame = None
  /\ Interpreter.envs frame !! Interpreter.environment frame
     = Some (mkEnvironment (bound_values params args 0 ∅) (Some closure))
  /\ Interpreter.MasalaFunction_call exec params body closure args
       (Interpreter.set_environment caller st)
     = (let (r, st') := Interpreter.MasalaFunction_call exec params body closure args st in
        (r, Interpreter.set_environment caller st'))
  /\ Interpreter.evaluate exec (Identifier x line) frame = (Done v, frame)
  /\ (forall fuel l,
        Interpreter.MasalaFunction_call (Interpreter.executeStatement (S fuel)) params
          [ReturnStatement (Some (Identifier x l)) l] closure args st
        = (Done v, back frame))
  /\ (forall fuel l w,
        let later := snd (Interpreter.define closure x w st) in
        Interpreter.MasalaFunction_call (Interpreter.executeStatement (S fuel)) params
          [ReturnStatement (Some (Identifier x l)) l] closure args later
        = (Done w, Interpreter.set_environment (Interpreter.environment later)
                     (call_frame closure params args later)))
  /\ (forall fuel name l (it : Interpreter.t),
        Interpreter.environment it < length (Interpreter.envs it) ->
        value_in
          (snd (Interpreter.executeStatement (S fuel) (FunctionDeclaration name params body l) it))
          (Interpreter.environment it) name
        = Some (VFunction (Interpreter.functions_created it) name params body l
                  (Interpreter.environment it)))
  /\ (forall id name l callee,
        length args = length params ->
        Interpreter.call_value exec callee (VFunction id name params body l closure) args line st
        = Interpreter.MasalaFunction_call exec params body closure args st).
Proof.
  intros Hx Hget. cbv zeta. set (frame := call_frame closure params args st).
  split; [| split; [| split; [| split; [| split; [| split; [| split; [| split]]]]]]].
  - apply MasalaFunction_call_body.
  - apply lookup_ge_None_2. simpl. lia.
  - unfold frame, call_frame. simpl.
    rewrite lookup_app_r by lia. rewrite Nat.sub_diag. reflexivity.
  - rewrite !MasalaFunction_call_frame.
    assert (Hframe : call_frame closure params args (Interpreter.set_environment caller st)
                     = frame).
    { reflexivity. }
    rewrite Hframe. unfold frame.
    destruct (Interpreter.catch_return (for_each exec body) _) as [r st'].
    destruct st, st'; reflexivity.
  - apply frame_reads_closure; assumption.
  - intros fuel l. apply call_returns_variable; assumption.
  - intros fuel l w. cbv zeta. apply call_returns_variable; [exact Hx |].
    assert (Hlt : closure < length (Interpreter.envs st)).
    { unfold Interpreter.chain_bound in Hget. simpl in Hget.
      destruct (Interpreter.envs st !! closure) as [e |] eqn:He; [| discriminate].
      apply lookup_lt_is_Some. eauto. }
    destruct (lookup_lt_is_Some_2 _ _ Hlt) as [e He].
    unfold Interpreter.chain_bound. cbn.
    rewrite list_lookup_alter_eq, He. simpl. now rewrite lookup_insert_eq.
  - intros fuel name l it Hlt.
    exact (define_binds _ name _
             (Interpreter.set_functions_created (S (Interpreter.functions_created it)) it)
             Hlt).
  - intros id name l callee Hlen. simpl. rewrite Hlen, Nat.eqb_refl. reflexivity.
Qed.

Lemma closure_call_witness :
  let exec := Interpreter.executeStatement 10 in
  let body := [ReturnStatement (Some (Identifier "x" 1)) 1] in
  let frame := call_frame 0 ["a"] [VNumber 5%float] globals_with_x in
  let back := Interpreter.set_environment (Interpreter.environment globals_with_x) in
  Interpreter.MasalaFunction_call exec ["a"] body 0 [VNumber 5%float] globals_with_x
  = match for_each exec body frame with
    | (Done _, st') => (Done VNull, back st')
    | (Raise (ReturnValue r), st') => (Done r, back st')
    | (Raise (Error e), st') => (Raise (Error e), back st')
    | (Timeout, st') => (Timeout, back st')
    end
  /\ Interpreter.envs globals_with_x !! Interpreter.environment frame = None
  /\ Interpreter.envs frame !! Interpreter.environment frame
     = Some (mkEnvironment (bound_values ["a"] [VNumber 5%float] 0 ∅) (Some 0))
  /\ Interpreter.MasalaFunction_call exec ["a"] body 0 [VNumber 5%float]
       (Interpreter.set_environment 7 globals_with_x)
     = (let (r, st') :=
          Interpreter.MasalaFunction_call exec ["a"] body 0 [VNumber 5%float] globals_with_x in
        (r, Interpreter.set_environment 7 st'))
  /\ Interpreter.evaluate exec (Identifier "x" 1) frame = (Done (VNumber 2%float), frame)
  /\ (forall fuel l,
        Interpreter.MasalaFunction_call (Interpreter.executeStatement (S fuel)) ["a"]
          [ReturnStatement (Some (Identifier "x" l)) l] 0 [VNumber 5%float] globals_with_x
        = (Done (VNumber 2%float), back frame))
  /\ (forall fuel l w,
        let later := snd (Interpreter.define 0 "x" w globals_with_x) in
        Interpreter.MasalaFunction_call (Interpreter.executeStatement (S fuel)) ["a"]
          [ReturnStatement (Some (Identifier "x" l)) l] 0 [VNumber 5%float] later
        = (Done w, Interpreter.set_environment (Interpreter.environment later)
                     (call_frame 0 ["a"] [VNumber 5%float] later)))
  /\ (forall fuel name l (it : Interpreter.t),
        Interpreter.environment it < length (Interpreter.envs it) ->
        value_in
          (snd (Interpreter.executeStatement (S fuel) (FunctionDeclaration name ["a"] body l) it))
          (Interpreter.environment it) name
        = Some (VFunction (Interpreter.functions_created it) name ["a"] body l
                  (Interpreter.environment it)))
  /\ (forall id name l callee,
        length [VNumber 5%float] = length ["a"] ->
        Interpreter.call_value exec callee (VFunction id name ["a"] body l 0) [VNumber 5%float] 1
          globals_with_x
        = Interpreter.MasalaFunction_call exec ["a"] body 0 [VNumber 5%float] globals_with_x).
Proof.
  apply (closure_call (Interpreter.executeStatement 10) ["a"]
           [ReturnStatement (Some (Identifier "x" 1)) 1] 0 [VNumber 5%float]
           globals_with_x 7 "x" (VNumber 2%float) 1).
  - rewrite list_elem_of_singleton. discriminate.
  - vm_compute. reflexivity.
Defined.

Lemma closure_examples :
  run_fresh 100 lexical_source = Success ["2"]
  /\ run_fresh 100 returned_closure_source = Success ["2"].
Proof. split; vm_compute; reflexivity. Qed.

(** ** Successive runs on one instance (C10) *)

Lemma bind_Done {S E A B} (m : M S E A) (k : A -> M S E B) (st st' : S) (a : A) :
  m st = (Done a, st') -> bind m k st = k a st'.
Proof. intros H. unfold bind. now rewrite H. Qed.

(** *** Bindings are never removed *)

Lemma binds_iff it env x :
  binds it env x
  <-> exists e v, Interpreter.envs it !! env = Some e /\ values e !! x = Some v.
Proof.
  unfold binds, value_in. split.
  - intros [v Hv]. destruct (Interpreter.envs it !! env) as [e |]; [| discriminate].
    now exists e, v.
  - intros (e & v & -> & Hv). now exists v.
Qed.

Lemma store_grows_refl st : store_grows st st.
Proof. repeat split; auto. Qed.

Lemma store_grows_trans st1 st2 st3 :
  store_grows st1 st2 -> store_grows st2 st3 -> store_grows st1 st3.
Proof.
  intros (Hg1 & He1 & Hl1 & Hb1) (Hg2 & He2 & Hl2 & Hb2).
  split; [congruence | split; [congruence | split; [lia | auto]]].
Qed.

Lemma grows_ret {A} (a : A) : grows (ret a).
Proof. intros st. apply store_grows_refl. Qed.

Lemma grows_throw {A} (e : thrown) : grows (throw e : Interpreter.I A).
Proof. intros st. apply store_grows_refl. Qed.

Lemma grows_timeout {A} : grows (timeout : Interpreter.I A).
Proof. intros st. apply store_grows_refl. Qed.

Lemma grows_bind {A B} (m : Interpreter.I A) (k : A -> Interpreter.I B) :
  grows m -> (forall a, grows (k a)) -> grows (bind m k).
Proof.
  intros Hm Hk st. unfold bind. specialize (Hm st).
  destruct (m st) as [[a | e |] st1]; simpl in *; try exact Hm.
  exact (store_grows_trans _ _ _ Hm (Hk a st1)).
Qed.

Lemma grows_for_each {A} (f : A -> Interpreter.I unit) (xs : list A) :
  (forall x, grows (f x)) -> grows (for_each f xs).
Proof.
  intros Hf. induction xs as [| x xs IH]; simpl; [apply grows_ret |].
  apply grows_bind; auto.
Qed.

Lemma grows_map_M {A B} (f : A -> Interpreter.I B) (xs : list A) :
  (forall x, In x xs -> grows (f x)) -> grows (map_M f xs).
Proof.
  induction xs as [| x xs IH]; intros Hf; simpl; [apply grows_ret |].
  apply grows_bind; [apply Hf; now left |].
  intros y. apply grows_bind; [apply IH; intros; apply Hf; now right |].
  intros ys. apply grows_ret.
Qed.

Lemma grows_same_store {A} (m : Interpreter.I A) :
  (forall st, Interpreter.envs (snd (m st)) = Interpreter.envs st
              /\ Interpreter.globals (snd (m st)) = Interpreter.globals st
              /\ Interpreter.environment (snd (m st)) = Interpreter.environment st) ->
  grows m.
Proof.
  intros H st. destruct (H st) as (He & Hg & Hc).
  split; [exact Hg | split; [exact Hc | split; [now rewrite He |]]].
  intros env x. unfold binds, value_in. now rewrite He.
Qed.

Lemma grows_this_environment : grows Interpreter.this_environment.
Proof. apply grows_same_store. intros st. auto. Qed.

Lemma grows_new_Environment p : grows (Interpreter.new_Environment p).
Proof.
  intros st. split; [reflexivity | split; [reflexivity | split]].
  { simpl. rewrite length_app. lia. }
  intros env x. rewrite !binds_iff. intros (e & v & Hl & Hv).
  exists e, v. split; [| exact Hv].
  simpl. apply lookup_app_l_Some. exact Hl.
Qed.

Lemma grows_define env name v : grows (Interpreter.define env name v).
Proof.
  intros st. split; [reflexivity | split; [reflexivity | split]].
  { cbn. now rewrite length_alter. }
  intros env' x. rewrite !binds_iff. intros (e & w & Hl & Hw). cbn.
  destruct (decide (env = env')) as [<- | Hne].
  - exists (mkEnvironment (<[name := v]> (values e)) (parent e)).
    destruct (decide (name = x)) as [<- | Hx].
    + exists v. rewrite list_lookup_alter_eq, Hl. simpl. now rewrite lookup_insert_eq.
    + exists w. rewrite list_lookup_alter_eq, Hl. simpl. now rewrite lookup_insert_ne.
  - exists e, w. now rewrite list_lookup_alter_ne.
Qed.

Lemma grows_get env name line : grows (Interpreter.get env name line).
Proof.
  apply grows_same_store. intros st. unfold Interpreter.get.
  destruct (Interpreter.get_in _ _ _ _) as [[v |] |]; auto.
Qed.

Lemma grows_assign env name v line : grows (Interpreter.assign env name v line).
Proof.
  intros st. unfold Interpreter.assign.
  destruct (Interpreter.holder_in _ _ _ _) as [[holder |] |];
    [apply grows_define | apply store_grows_refl | apply store_grows_refl].
Qed.

Lemma grows_in_environment {A} env (body : Interpreter.I A) :
  grows body -> grows (Interpreter.in_environment env body).
Proof.
  intros Hbody st. unfold Interpreter.in_environment.
  specialize (Hbody (Interpreter.set_environment env st)).
  destruct (body _) as [r st']. simpl in *.
  destruct Hbody as (Hg & _ & Hl & Hb).
  split; [exact Hg | split; [reflexivity | split; [exact Hl |]]].
  intros e x H. exact (Hb e x H).
Qed.

Lemma grows_catch_return (body : Interpreter.I unit) :
  grows body -> grows (Interpreter.catch_return body).
Proof.
  intros Hbody st. unfold Interpreter.catch_return. specialize (Hbody st).
  destruct (body st) as [[[] | [e | v] |] st']; exact Hbody.
Qed.

Lemma grows_bind_parameters env params args i :
  grows (Interpreter.bind_parameters env params args i).
Proof.
  revert i. induction params as [| p rest IH]; intros i; simpl; [apply grows_ret |].
  apply grows_bind; [apply grows_define | intros _; apply IH].
Qed.

Lemma grows_unary_operation op v line : grows (Interpreter.unary_operation op v line).
Proof.
  apply grows_same_store. intros st.
  unfold Interpreter.unary_operation, Interpreter.checkNumberOperand, bind, ret,
    Interpreter.runtime_error, throw.
  destruct (String.eqb op "-"); [destruct (Interpreter.is_number v); auto |].
  destruct (String.eqb op "!"); auto.
Qed.

Lemma grows_binary_operation op l r line : grows (Interpreter.binary_operation op l r line).
Proof.
  apply grows_same_store. intros st.
  unfold Interpreter.binary_operation, Interpreter.checkNumberOperands, bind, ret,
    Interpreter.runtime_error, throw.
  repeat match goal with
         | |- context [if ?c then _ else _] => destruct c; simpl; auto
         end.
Qed.

Section GrowsStatements.
Variable exec : stmt -> Interpreter.I unit.
Hypothesis exec_grows : forall s, grows (exec s).

Lemma grows_executeBlock statements env : grows (Interpreter.executeBlock exec statements env).
Proof. apply grows_in_environment, grows_for_each, exec_grows. Qed.

Lemma grows_call_value name callee args line :
  grows (Interpreter.call_value exec name callee args line).
Proof.
  destruct callee as [| b | n | s | id fname params body l closure]; simpl;
    try apply grows_throw.
  destruct (negb _); [apply grows_throw |].
  unfold Interpreter.MasalaFunction_call.
  apply grows_bind; [apply grows_new_Environment |].
  intros env. apply grows_bind; [apply grows_bind_parameters |].
  intros _. apply grows_catch_return, grows_executeBlock.
Qed.

Lemma grows_get_callee name line : grows (Interpreter.get_callee name line).
Proof.
  apply grows_same_store. intros st. unfold Interpreter.get_callee, Interpreter.get.
  destruct (Interpreter.get_in _ _ _ _) as [[v |] |]; auto.
Qed.

Lemma grows_evaluate e : grows (Interpreter.evaluate exec e).
Proof.
  induction e as [op l IHl r IHr line | op o IHo line | callee args IHargs line
                 | v line | name line | e IHe line | name v IHv line]; simpl.
  - apply grows_bind; [exact IHl |]. intros x.
    apply grows_bind; [exact IHr |]. intros y. apply grows_binary_operation.
  - apply grows_bind; [exact IHo |]. intros x. apply grows_unary_operation.
  - apply grows_bind; [apply grows_get_callee |]. intros c.
    apply grows_bind; [apply grows_map_M; exact (list_all_In _ _ IHargs) |].
    intros vs. apply grows_call_value.
  - apply grows_ret.
  - apply grows_bind; [apply grows_this_environment |]. intros env. apply grows_get.
  - exact IHe.
  - apply grows_bind; [exact IHv |]. intros x.
    apply grows_bind; [apply grows_this_environment |]. intros env.
    apply grows_bind; [apply grows_assign | intros _; apply grows_ret].
Qed.

Lemma grows_branch block :
  grows (outer <- Interpreter.this_environment ;;
         env <- Interpreter.new_Environment outer ;;
         Interpreter.executeBlock exec block env).
Proof.
  apply grows_bind; [apply grows_this_environment |]. intros outer.
  apply grows_bind; [apply grows_new_Environment |]. intros env.
  apply grows_executeBlock.
Qed.

Lemma grows_executeIfStatement conditions consequents alternate :
  grows (Interpreter.executeIfStatement exec conditions consequents alternate).
Proof.
  revert consequents.
  induction conditions as [| c conditions IH]; intros consequents; simpl.
  - destruct alternate; [apply grows_branch | apply grows_ret].
  - destruct consequents as [| block consequents].
    + destruct alternate; [apply grows_branch | apply grows_ret].
    + apply grows_bind; [apply grows_evaluate |]. intros v.
      destruct (Interpreter.isTruthy v); [apply grows_branch | apply IH].
Qed.

Lemma grows_while_loop fuel condition body line iterations :
  grows (Interpreter.while_loop exec fuel condition body line iterations).
Proof.
  revert iterations. induction fuel as [| fuel IH]; intros iterations; simpl.
  - apply grows_bind; [apply grows_evaluate |]. intros v.
    destruct (Interpreter.isTruthy v); [| apply grows_ret].
    destruct (_ <? _)%N; [apply grows_throw | apply grows_timeout].
  - apply grows_bind; [apply grows_evaluate |]. intros v.
    destruct (Interpreter.isTruthy v); [| apply grows_ret].
    destruct (_ <? _)%N; [apply grows_throw |].
    apply grows_bind; [apply grows_this_environment |]. intros outer.
    apply grows_bind; [apply grows_new_Environment |]. intros env.
    apply grows_bind; [apply grows_executeBlock |]. intros _. apply IH.
Qed.

End GrowsStatements.

Lemma grows_executeStatement fuel s : grows (Interpreter.executeStatement fuel s).
Proof.
  revert s. induction fuel as [| fuel IH]; intros s; simpl; [apply grows_timeout |].
  destruct s as [name e line | es line | conds conss alt line | cond body line | line
                | name params body line | v line | e line | body].
  - apply grows_bind; [apply grows_evaluate, IH |]. intros v.
    apply grows_bind; [apply grows_this_environment |]. intros env. apply grows_define.
  - unfold Interpreter.executePrintStatement.
    apply grows_bind; [apply grows_map_M; intros; apply grows_evaluate, IH |].
    intros vs. apply grows_same_store. intros st. auto.
  - apply grows_executeIfStatement, IH.
  - apply grows_while_loop, IH.
  - apply grows_throw.
  - unfold Interpreter.executeFunctionDeclaration. intros st.
    eapply store_grows_trans; [| apply grows_define].
    repeat split; auto.
  - unfold Interpreter.executeReturnStatement.
    apply grows_bind; [destruct v; [apply grows_evaluate, IH | apply grows_ret] |].
    intros x. apply grows_throw.
  - apply grows_bind; [apply grows_evaluate, IH | intros _; apply grows_ret].
  - apply grows_branch, IH.
Qed.

(** No run of a program removes a binding from any environment. *)
Lemma execute_keeps_bindings fuel ast (it : Interpreter.t) :
  let it' := snd (Interpreter.execute fuel ast it) in
  Interpreter.globals it' = Interpreter.globals it
  /\ length (Interpreter.envs it) <= length (Interpreter.envs it')
  /\ forall env x, binds it env x -> binds it' env x.
Proof.
  unfold Interpreter.execute, bind, modify. simpl.
  pose proof (grows_for_each _ ast (grows_executeStatement fuel)
                (Interpreter.set_environment (Interpreter.globals it)
                   (Interpreter.set_output [] it))) as (Hg & _ & Hl & Hb).
  destruct (for_each _ ast _) as [[[] | e |] st]; simpl in *; auto.
Qed.

Lemma run_interpreter (ms : MasalaScript.t) fuel src :
  MasalaScript.interpreter (snd (MasalaScript.run fuel src ms)) = MasalaScript.interpreter ms
  \/ exists ast,
       MasalaScript.interpreter (snd (MasalaScript.run fuel src ms))
       = snd (Interpreter.execute fuel ast (MasalaScript.interpreter ms)).
Proof.
  unfold MasalaScript.run.
  destruct (tokenize src) as [toks | e |]; [| now left | now left].
  destruct (parse toks) as [ast | e |]; [| now left | now left].
  destruct (if MasalaScript.skipAnalysis ms then _ else _) as [[a | e |] an];
    [| now left | now left].
  right. exists ast.
  destruct (Interpreter.execute fuel ast (MasalaScript.interpreter ms)) as [[out | e |] it];
    reflexivity.
Qed.

Lemma run_keeps_bindings (ms : MasalaScript.t) fuel src :
  let it := MasalaScript.interpreter ms in
  let it' := MasalaScript.interpreter (snd (MasalaScript.run fuel src ms)) in
  Interpreter.globals it' = Interpreter.globals it
  /\ length (Interpreter.envs it) <= length (Interpreter.envs it')
  /\ forall env x, binds it env x -> binds it' env x.
Proof.
  cbv zeta. destruct (run_interpreter ms fuel src) as [-> | [ast ->]];
    [auto | apply execute_keeps_bindings].
Qed.

Lemma runs_keep_bindings (sources : list (nat * string)) (ms : MasalaScript.t) :
  let it := MasalaScript.interpreter ms in
  let it' := MasalaScript.interpreter (runs sources ms) in
  Interpreter.globals it' = Interpreter.globals it
  /\ length (Interpreter.envs it) <= length (Interpreter.envs it')
  /\ forall env x, binds it env x -> binds it' env x.
Proof.
  cbv zeta. revert ms. induction sources as [| [fuel src] sources IH]; intros ms; [auto |].
  simpl. destruct (IH (snd (MasalaScript.run fuel src ms))) as (Hg & Hl & Hb).
  destruct (run_keeps_bindings ms fuel src) as (Hg' & Hl' & Hb').
  split; [congruence | split; [lia | auto]].
Qed.


(** *** What a top-level declaration leaves in the globals *)

Lemma bind_Done_inv {S E A B} (m : M S E A) (k : A -> M S E B) (st st' : S) (b : B) :
  bind m k st = (Done b, st') ->
  exists a st1, m st = (Done a, st1) /\ k a st1 = (Done b, st').
Proof.
  unfold bind. destruct (m st) as [[a | e |] st1]; try discriminate.
  intros H. now exists a, st1.
Qed.

(** A declaration of [x] that completes binds [x] in the current
    environment. *)
Lemma executeStatement_defines fuel s x (st st' : Interpreter.t) :
  defines_global x s = true ->
  Interpreter.environment st < length (Interpreter.envs st) ->
  Interpreter.executeStatement fuel s st = (Done tt, st') ->
  binds st' (Interpreter.environment st) x.
Proof.
  intros Hdef Hlt Hexec. destruct fuel as [| fuel]; [discriminate |].
  destruct s as [name e line | | | | | name params body line | | |]; try discriminate;
    simpl in Hdef; apply String.eqb_eq in Hdef; subst name; simpl in Hexec.
  - apply bind_Done_inv in Hexec as (v & st1 & Hev & Hexec).
    pose proof (grows_evaluate _ (grows_executeStatement fuel) e st) as (_ & Hc & Hl & _).
    rewrite Hev in Hc, Hl. simpl in Hc, Hl.
    unfold bind, Interpreter.this_environment in Hexec.
    assert (Hst' : st' = snd (Interpreter.define (Interpreter.environment st1) x v st1))
      by (now inversion Hexec).
    rewrite Hst', <- Hc. exists v. apply define_binds. lia.
  - unfold Interpreter.executeFunctionDeclaration in Hexec.
    assert (Hst' : st' = snd (Interpreter.define (Interpreter.environment st) x
                                (VFunction (Interpreter.functions_created st) x params body line
                                   (Interpreter.environment st))
                                (Interpreter.set_functions_created
                                   (S (Interpreter.functions_created st)) st)))
      by (now inversion Hexec).
    rewrite Hst'. eexists. apply (define_binds _ _ _ (Interpreter.set_functions_created _ st)).
    exact Hlt.
Qed.

Lemma for_each_defines fuel ast x (st st' : Interpreter.t) :
  existsb (defines_global x) ast = true ->
  Interpreter.environment st < length (Interpreter.envs st) ->
  for_each (Interpreter.executeStatement fuel) ast st = (Done tt, st') ->
  binds st' (Interpreter.environment st) x.
Proof.
  revert st. induction ast as [| s ast IH]; intros st Hdef Hlt Hrun; [discriminate |].
  simpl in Hdef, Hrun. apply bind_Done_inv in Hrun as ([] & st1 & Hs & Hrest).
  pose proof (grows_executeStatement fuel s st) as (_ & Hc & Hl & _).
  rewrite Hs in Hc, Hl. simpl in Hc, Hl.
  pose proof (grows_for_each _ ast (grows_executeStatement fuel) st1) as (_ & _ & _ & Hb).
  rewrite Hrest in Hb. simpl in Hb.
  apply orb_true_iff in Hdef as [Hdef | Hdef].
  - apply Hb. exact (executeStatement_defines fuel s x st st1 Hdef Hlt Hs).
  - rewrite <- Hc. apply (IH st1 Hdef); [lia | exact Hrest].
Qed.

(** A program that completes leaves each name that it declares at the top
    level bound in the globals. *)
Lemma execute_defines fuel ast x out (it it' : Interpreter.t) :
  existsb (defines_global x) ast = true ->
  Interpreter.globals it < length (Interpreter.envs it) ->
  Interpreter.execute fuel ast it = (Done out, it') ->
  binds it' (Interpreter.globals it) x.
Proof.
  intros Hdef Hlt Hrun. unfold Interpreter.execute in Hrun.
  apply bind_Done_inv in Hrun as ([] & st1 & H1 & Hrun).
  apply bind_Done_inv in Hrun as ([] & st2 & H2 & Hrun).
  apply bind_Done_inv in Hrun as ([] & st3 & H3 & Hrun).
  unfold modify in H1, H2. inversion H1; subst st1. inversion H2; subst st2.
  inversion Hrun; subst it'.
  exact (for_each_defines fuel ast x
           (Interpreter.set_environment (Interpreter.globals it) (Interpreter.set_output [] it))
           st3 Hdef Hlt H3).
Qed.

Lemma run_Success (ms : MasalaScript.t) fuel src out :
  fst (MasalaScript.run fuel src ms) = Success out ->
  exists ast it',
    parse_source src = Done ast
    /\ Interpreter.execute fuel ast (MasalaScript.interpreter ms) = (Done out, it')
    /\ MasalaScript.interpreter (snd (MasalaScript.run fuel src ms)) = it'.
Proof.
  unfold MasalaScript.run, parse_source.
  destruct (tokenize src) as [toks | e |]; try discriminate.
  destruct (parse toks) as [ast | e |]; try discriminate.
  destruct (if MasalaScript.skipAnalysis ms then _ else _) as [[a | e |] an];
    try discriminate.
  destruct (Interpreter.execute fuel ast (MasalaScript.interpreter ms)) as [[o | e |] it'] eqn:He;
    try discriminate.
  simpl. intros [= ->]. now exists ast, it'.
Qed.

(** The program that prints [x], on an interpreter whose globals bind it. *)
Lemma execute_print_global (it : Interpreter.t) (fuel : nat) (x : string) (v : value)
    (line : nat) :
  value_in it (Interpreter.globals it) x = Some v ->
  Interpreter.execute (S fuel) [PrintStatement [Identifier x line] line] it
  = (Done [Interpreter.stringify v],
     Interpreter.set_output [Interpreter.stringify v]
       (Interpreter.set_environment (Interpreter.globals it) it)).
Proof.
  intros Hval.
  assert (Hget : Interpreter.get_in (Interpreter.chain_bound it) (Interpreter.envs it)
                   (Interpreter.globals it) x = Some (Some v)).
  { unfold value_in in Hval. unfold Interpreter.chain_bound. simpl.
    destruct (Interpreter.envs it !! Interpreter.globals it) as [e |]; [| discriminate].
    now rewrite Hval. }
  unfold Interpreter.execute.
  set (st1 := Interpreter.set_environment (Interpreter.globals it)
                (Interpreter.set_output [] it)).
  assert (Hev : Interpreter.evaluate (Interpreter.executeStatement fuel) (Identifier x line) st1
                = (Done v, st1)).
  { simpl. unfold bind, Interpreter.this_environment, Interpreter.get.
    change (Interpreter.get_in (Interpreter.chain_bound st1) (Interpreter.envs st1)
              (Interpreter.environment st1) x)
      with (Interpreter.get_in (Interpreter.chain_bound it) (Interpreter.envs it)
              (Interpreter.globals it) x).
    now rewrite Hget. }
  rewrite (bind_Done _ _ it (Interpreter.set_output [] it) tt) by reflexivity.
  rewrite (bind_Done _ _ _ st1 tt) by reflexivity.
  rewrite (bind_Done _ _ st1
             (Interpreter.set_output [Interpreter.stringify v] st1) tt).
  - destruct it; reflexivity.
  - simpl. rewrite (bind_Done _ _ st1
                      (Interpreter.set_output [Interpreter.stringify v] st1) tt);
      [reflexivity |].
    unfold Interpreter.executePrintStatement. simpl.
    rewrite (bind_Done _ _ st1 st1 [v]).
    + reflexivity.
    + rewrite (bind_Done _ _ st1 st1 v) by exact Hev. reflexivity.
Qed.

(** What a run has left as its output and as the current environment
    plays no part in the next execution. *)
Lemma execute_resets fuel ast output env (it : Interpreter.t) :
  Interpreter.execute fuel ast
    (Interpreter.set_output output (Interpreter.set_environment env it))
  = Interpreter.execute fuel ast it.
Proof. destruct it. reflexivity. Qed.

Lemma new_with_globals (skip : bool) (earlier : list (nat * string)) :
  let it := MasalaScript.interpreter (runs earlier (MasalaScript.new_with skip)) in
  Interpreter.globals it < length (Interpreter.envs it).
Proof.
  cbv zeta.
  destruct (runs_keep_bindings earlier (MasalaScript.new_with skip)) as (Hg & Hl & _).
  rewrite Hg. simpl in *. lia.
Qed.

(** C10. On one instance, whatever runs it has served before: when a run
    of a source succeeds, each name [x] that the program declares at the
    top level (a variable or a function) is bound in the one global
    environment of the instance, and stays bound there through any later
    runs, successful or not; after them the program that prints [x] still
    finds it, and its output holds its own line only.  [execute] starts
    from the empty output and the globals as the current environment,
    whatever the run before has left in the two. *)
Theorem later_run_sees_globals (skip : bool) (earlier later : list (nat * string))
    (fuel : nat) (src : string) (ast : Program) (out : list string) (x : string) :
  let ms := runs earlier (MasalaScript.new_with skip) in
  let ms' := runs later (snd (MasalaScript.run fuel src ms)) in
  let it' := MasalaScript.interpreter ms' in
  parse_source src = Done ast ->
  existsb (defines_global x) ast = true ->
  fst (MasalaScript.run fuel src ms) = Success out ->
  Interpreter.globals it' = Interpreter.globals (MasalaScript.interpreter ms)
  /\ (exists v,
        value_in it' (Interpreter.globals it') x = Some v
        /\ forall fuel' line,
             fst (MasalaScript.executeAST (S fuel') [PrintStatement [Identifier x line] line] ms')
             = Success [Interpreter.stringify v])
  /\ (forall fuel' program output env,
        Interpreter.execute fuel' program
          (Interpreter.set_output output (Interpreter.set_environment env it'))
        = Interpreter.execute fuel' program it').
Proof.
  cbv zeta. intros Hparse Hdef Hrun.
  set (ms := runs earlier (MasalaScript.new_with skip)) in *.
  destruct (run_Success ms fuel src out Hrun) as (ast' & it1 & Hparse' & Hexec & Hit1).
  assert (ast' = ast) by congruence. subst ast'.
  pose proof (execute_defines fuel ast x out _ it1 Hdef (new_with_globals skip earlier) Hexec)
    as Hbound.
  destruct (run_keeps_bindings ms fuel src) as (Hg1 & _ & _).
  destruct (runs_keep_bindings later (snd (MasalaScript.run fuel src ms))) as (Hg & _ & Hb).
  rewrite Hit1 in Hg, Hb, Hg1.
  assert (Hglobals : Interpreter.globals (MasalaScript.interpreter
                        (runs later (snd (MasalaScript.run fuel src ms))))
                     = Interpreter.globals (MasalaScript.interpreter ms)) by congruence.
  split; [exact Hglobals | split; [| intros; apply execute_resets]].
  destruct (Hb _ _ Hbound) as [v Hv]. exists v. rewrite Hglobals. split; [exact Hv |].
  intros fuel' line. unfold MasalaScript.executeAST.
  rewrite (execute_print_global _ fuel' x v line) by (now rewrite Hglobals). reflexivity.
Qed.

Lemma later_run_sees_globals_witness :
  exists v,
    value_in
      (MasalaScript.interpreter
         (runs [(100, second_source); (100, "oops")]
            (snd (MasalaScript.run 100 first_source (runs [] (MasalaScript.new_with false))))))
      0 "x" = Some v
    /\ forall fuel' line,
         fst (MasalaScript.executeAST (S fuel') [PrintStatement [Identifier "x" line] line]
                (runs [(100, second_source); (100, "oops")]
                   (snd (MasalaScript.run 100 first_source
                           (runs [] (MasalaScript.new_with false))))))
         = Success [Interpreter.stringify v].
Proof.
  refine (proj1 (proj2 (later_run_sees_globals false [] [(100, second_source); (100, "oops")]
                          100 first_source first_ast ["0"] "x" _ _ _)));
    vm_compute; reflexivity.
Defined.

(** On a new instance the second program fails: [g] is called before its
    declaration is executed.  After the first program it succeeds, the call
    reaching the [g] that the first run left in the globals; and its output
    holds nothing of the first run. *)
Lemma successive_runs :
  fst (MasalaScript.run 100 first_source MasalaScript.new) = Success ["0"]
  /\ run_fresh 100 second_source = Failure (Error (RuntimeError (UNDEFINED_FUNCTION "g") 2))
  /\ fst (MasalaScript.run 100 second_source after_first) = Success ["1"]
  /\ fst (MasalaScript.run 100 second_source
            (snd (MasalaScript.run 100 second_source after_first))) = Success ["2"]
  /\ fst (MasalaScript.executeAST 2 [PrintStatement [Identifier "x" 2] 2]
            (runs [(100, second_source); (100, "oops")] after_first)) = Success ["5"].
Proof. repeat split; vm_compute; reflexivity. Qed.

(** * Further properties of the stages *)

Section Related.
Context {S E : Type} (R : S -> S -> Prop).
Hypothesis R_refl : forall st, R st st.
Hypothesis R_trans : forall st1 st2 st3, R st1 st2 -> R st2 st3 -> R st1 st3.

Lemma related_ret {A} (a : A) : related R (ret a : M S E A).
Proof. intros st. apply R_refl. Qed.

Lemma related_throw {A} (e : E) : related R (throw e : M S E A).
Proof. intros st. apply R_refl. Qed.

Lemma related_timeout {A} : related R (timeout : M S E A).
Proof. intros st. apply R_refl. Qed.

Lemma related_read {A} (f : S -> outcome E A) : related R (fun st => (f st, st)).
Proof. intros st. apply R_refl. Qed.

Lemma related_bind {A B} (m : M S E A) (k : A -> M S E B) :
  related R m -> (forall a, related R (k a)) -> related R (bind m k).
Proof.
  intros Hm Hk st. unfold bind. specialize (Hm st).
  destruct (m st) as [[a | e |] st1]; simpl in *; try exact Hm.
  exact (R_trans _ _ _ Hm (Hk a st1)).
Qed.

Lemma related_for_each {A} (f : A -> M S E unit) (xs : list A) :
  (forall x, In x xs -> related R (f x)) -> related R (for_each f xs).
Proof.
  induction xs as [| x xs IH]; intros Hf; simpl; [apply related_ret |].
  apply related_bind; [apply Hf; now left | intros _; apply IH; intros; apply Hf; now right].
Qed.

Lemma related_map_M {A B} (f : A -> M S E B) (xs : list A) :
  (forall x, In x xs -> related R (f x)) -> related R (map_M f xs).
Proof.
  induction xs as [| x xs IH]; intros Hf; simpl; [apply related_ret |].
  apply related_bind; [apply Hf; now left |].
  intros y. apply related_bind; [apply IH; intros; apply Hf; now right |].
  intros ys. apply related_ret.
Qed.

End Related.

Lemma store_extends_refl c st : store_extends c st st.
Proof.
  repeat split; auto. intros j e He. exists e. repeat split; auto.
Qed.

Lemma store_extends_trans c st1 st2 st3 :
  store_extends c st1 st2 -> store_extends c st2 st3 -> store_extends c st1 st3.
Proof.
  intros (Hg1 & Hl1 & Ho1 & Hf1 & He1) (Hg2 & Hl2 & Ho2 & Hf2 & He2).
  split; [congruence | split; [lia | split; [by etrans | split; [lia |]]]].
  intros j e He. destruct (He1 j e He) as (e' & He' & Hp' & Hs' & Hn').
  destruct (He2 j e' He') as (e'' & He'' & Hp'' & Hs'' & Hn'').
  exists e''. split; [exact He'' | split; [congruence | split; [by etrans |]]].
  intros Hj. rewrite (Hn'' Hj). exact (Hn' Hj).
Qed.

Lemma scoped_step_refl st : scoped_step st st.
Proof. split; [reflexivity | apply store_extends_refl]. Qed.

Lemma scoped_step_trans st1 st2 st3 :
  scoped_step st1 st2 -> scoped_step st2 st3 -> scoped_step st1 st3.
Proof.
  intros [Hc1 H1] [Hc2 H2]. split; [congruence |].
  rewrite Hc1 in H2. exact (store_extends_trans _ _ _ _ H1 H2).
Qed.

Lemma sealed_step_refl st : sealed_step st st.
Proof. split; [reflexivity | intros c; apply store_extends_refl]. Qed.

Lemma sealed_step_trans st1 st2 st3 :
  sealed_step st1 st2 -> sealed_step st2 st3 -> sealed_step st1 st3.
Proof.
  intros [Hc1 H1] [Hc2 H2]. split; [congruence |].
  intros c. exact (store_extends_trans _ _ _ _ (H1 c) (H2 c)).
Qed.

Lemma sealed_scoped st st' : sealed_step st st' -> scoped_step st st'.
Proof. intros [Hc H]. split; [exact Hc | apply H]. Qed.

Lemma sealed_is_scoped {A} (m : Interpreter.I A) :
  related sealed_step m -> related scoped_step m.
Proof. intros H st. apply sealed_scoped, H. Qed.

(** A step that changes no environment but one that is new. *)
Lemma store_extends_fresh c c' st st' :
  store_extends c st st' -> length (Interpreter.envs st) <= c -> store_extends c' st st'.
Proof.
  intros (Hg & Hl & Ho & Hf & He) Hc. repeat split; auto.
  intros j e Hj. destruct (He j e Hj) as (e' & He' & Hp & Hs & Hn).
  exists e'. repeat split; auto. intros _. apply Hn.
  apply lookup_lt_Some in Hj. lia.
Qed.

Lemma sealed_unchanged {A} (m : Interpreter.I A) :
  (forall st, snd (m st) = st) -> related sealed_step m.
Proof. intros H st. rewrite H. apply sealed_step_refl. Qed.

Lemma sealed_new_Environment p : related sealed_step (Interpreter.new_Environment p).
Proof.
  intros st. split; [reflexivity |]. intros c. repeat split; simpl; auto.
  - rewrite length_app. lia.
  - intros j e He. exists e. repeat split; auto. now apply lookup_app_l_Some.
Qed.

(** What [define] does to the environments of the store. *)
Lemma define_names env x v (st : Interpreter.t) j e :
  Interpreter.envs st !! j = Some e ->
  exists e', Interpreter.envs (snd (Interpreter.define env x v st)) !! j = Some e'
             /\ parent e' = parent e
             /\ names e' = (if decide (j = env) then {[ x ]} ∪ names e else names e).
Proof.
  intros He. cbn. destruct (decide (j = env)) as [-> | Hne].
  - eexists. rewrite list_lookup_alter_eq, He. simpl. split; [reflexivity |].
    split; [reflexivity |]. unfold names. simpl. apply dom_insert_L.
  - exists e. rewrite list_lookup_alter_ne by congruence. auto.
Qed.

Lemma define_extends env x v (st : Interpreter.t) :
  store_extends env st (snd (Interpreter.define env x v st)).
Proof.
  repeat split; auto.
  - cbn. now rewrite length_alter.
  - intros j e He. destruct (define_names env x v st j e He) as (e' & He' & Hp & Hn).
    exists e'. split; [exact He' | split; [exact Hp |]].
    rewrite Hn. destruct (decide (j = env)) as [Hj | Hj].
    + split; [apply union_subseteq_r | intros Hne; contradiction].
    + split; [reflexivity | reflexivity].
Qed.

(** [define] of a name that the environment binds already. *)
Lemma define_bound_extends env x v (st : Interpreter.t) e c :
  Interpreter.envs st !! env = Some e -> is_Some (values e !! x) ->
  store_extends c st (snd (Interpreter.define env x v st)).
Proof.
  intros Henv Hx. repeat split; auto.
  - cbn. now rewrite length_alter.
  - intros j e0 He. destruct (define_names env x v st j e0 He) as (e' & He' & Hp & Hn).
    exists e'. split; [exact He' | split; [exact Hp |]].
    rewrite Hn. destruct (decide (j = env)) as [-> | Hne]; [| split; reflexivity].
    assert (e0 = e) by congruence. subst e0.
    assert (Hin : x ∈ names e) by (now apply elem_of_dom).
    split; [apply union_subseteq_r |].
    intros _. apply subseteq_union_1_L. now apply singleton_subseteq_l.
Qed.

Lemma holder_in_bound depth store env x h :
  Interpreter.holder_in depth store env x = Some (Some h) ->
  exists e, store !! h = Some e /\ is_Some (values e !! x).
Proof.
  revert env. induction depth as [| depth IH]; intros env; simpl; [discriminate |].
  destruct (store !! env) as [e |] eqn:He; [| discriminate].
  destruct (values e !! x) as [w |] eqn:Hx.
  - intros [= <-]. exists e. split; [exact He | now exists w].
  - destruct (parent e) as [p |]; [apply IH | discriminate].
Qed.

Lemma sealed_assign env x v line : related sealed_step (Interpreter.assign env x v line).
Proof.
  intros st. unfold Interpreter.assign.
  destruct (Interpreter.holder_in _ _ _ _) as [[h |] |] eqn:Hh;
    [| apply sealed_step_refl | apply sealed_step_refl].
  destruct (holder_in_bound _ _ _ _ _ Hh) as (e & He & Hx).
  split; [reflexivity |]. intros c. exact (define_bound_extends h x v st e c He Hx).
Qed.

Lemma sealed_get env x line : related sealed_step (Interpreter.get env x line).
Proof.
  apply sealed_unchanged. intros st. unfold Interpreter.get.
  destruct (Interpreter.get_in _ _ _ _) as [[v |] |]; reflexivity.
Qed.

Lemma sealed_get_callee x line : related sealed_step (Interpreter.get_callee x line).
Proof.
  apply sealed_unchanged. intros st. unfold Interpreter.get_callee, Interpreter.get.
  destruct (Interpreter.get_in _ _ _ _) as [[v |] |]; reflexivity.
Qed.

Lemma sealed_this_environment : related sealed_step Interpreter.this_environment.
Proof. apply sealed_unchanged. reflexivity. Qed.

Lemma sealed_unary_operation op v line :
  related sealed_step (Interpreter.unary_operation op v line).
Proof.
  apply sealed_unchanged. intros st.
  unfold Interpreter.unary_operation, Interpreter.checkNumberOperand, bind, ret,
    Interpreter.runtime_error, throw.
  destruct (String.eqb op "-"); [destruct (Interpreter.is_number v); reflexivity |].
  destruct (String.eqb op "!"); reflexivity.
Qed.

Lemma sealed_binary_operation op l r line :
  related sealed_step (Interpreter.binary_operation op l r line).
Proof.
  apply sealed_unchanged. intros st.
  unfold Interpreter.binary_operation, Interpreter.checkNumberOperands, bind, ret,
    Interpreter.runtime_error, throw.
  repeat match goal with
         | |- context [if ?c then _ else _] => destruct c; simpl; try reflexivity
         end.
Qed.

(** A body that is scoped in the environment [env] changes the names of
    [env] only, and [in_environment] gives the current environment
    back. *)
Lemma in_environment_extends {A} env (body : Interpreter.I A) (st : Interpreter.t) :
  related scoped_step body ->
  let st1 := snd (Interpreter.in_environment env body st) in
  Interpreter.environment st1 = Interpreter.environment st /\ store_extends env st st1.
Proof.
  intros Hbody. unfold Interpreter.in_environment.
  specialize (Hbody (Interpreter.set_environment env st)).
  destruct (body _) as [r st1]. simpl in *.
  destruct Hbody as (_ & Hg & Hl & Ho & Hf & He). repeat split; auto.
Qed.

Lemma bind_parameters_extends env params args i (st : Interpreter.t) :
  let st1 := snd (Interpreter.bind_parameters env params args i st) in
  Interpreter.environment st1 = Interpreter.environment st /\ store_extends env st st1.
Proof.
  revert i st. induction params as [| p rest IH]; intros i st; simpl.
  - split; [reflexivity | apply store_extends_refl].
  - unfold bind. cbn.
    set (st1 := Interpreter.set_envs _ st).
    destruct (IH (S i) st1) as [Hc He]. split; [exact Hc |].
    eapply store_extends_trans; [| exact He]. apply (define_extends env p _ st).
Qed.

Section ScopedStatements.
Variable exec : stmt -> Interpreter.I unit.
Hypothesis exec_scoped : forall s, related scoped_step (exec s).

Lemma for_each_scoped statements : related scoped_step (for_each exec statements).
Proof.
  apply related_for_each; [apply scoped_step_refl | apply scoped_step_trans | auto].
Qed.

(** A block that runs in a new environment declares nothing outside it. *)
Lemma sealed_in_new_environment p statements (st : Interpreter.t) :
  sealed_step st
    (snd ((env <- Interpreter.new_Environment p ;;
           Interpreter.executeBlock exec statements env) st)).
Proof.
  unfold bind. cbn.
  set (st1 := Interpreter.set_envs _ st).
  pose proof (in_environment_extends (length (Interpreter.envs st))
                (for_each exec statements) st1 (for_each_scoped statements)) as [Hc He].
  unfold Interpreter.executeBlock.
  destruct (Interpreter.in_environment _ _ st1) as [r st2]. simpl in *.
  split; [exact Hc |]. intros c.
  apply (store_extends_fresh (length (Interpreter.envs st))); [| lia].
  eapply store_extends_trans; [| exact He].
  destruct (sealed_new_Environment p st) as [_ H]. apply H.
Qed.

Lemma sealed_run_branch block : related sealed_step (run_branch exec block).
Proof.
  intros st. unfold run_branch, bind at 1, Interpreter.this_environment.
  apply sealed_in_new_environment.
Qed.

Lemma sealed_MasalaFunction_call params body closure args :
  related sealed_step (Interpreter.MasalaFunction_call exec params body closure args).
Proof.
  intros st. unfold Interpreter.MasalaFunction_call, bind. cbn.
  set (n := length (Interpreter.envs st)).
  set (st1 := Interpreter.set_envs _ st).
  assert (Hnew : forall c, store_extends c st st1).
  { intros c. destruct (sealed_new_Environment closure st) as [_ H]. apply H. }
  pose proof (bind_parameters_extends n params args 0 st1) as [Hc2 He2].
  destruct (Interpreter.bind_parameters n params args 0 st1) as [r2 st2] eqn:Hbp.
  simpl in Hc2, He2.
  assert (Hpar : sealed_step st st2).
  { split; [exact Hc2 |]. intros c.
    apply (store_extends_fresh n); [| unfold n; lia].
    eapply store_extends_trans; [apply Hnew | exact He2]. }
  destruct r2 as [[] | e |]; [| exact Hpar | exact Hpar].
  pose proof (in_environment_extends n (for_each exec body) st2 (for_each_scoped body))
    as [Hc3 He3].
  unfold Interpreter.catch_return, Interpreter.executeBlock.
  destruct (Interpreter.in_environment n _ st2) as [r st3]. simpl in Hc3, He3.
  assert (Hall : sealed_step st st3).
  { split; [congruence |]. intros c.
    apply (store_extends_fresh n); [| unfold n; lia].
    eapply store_extends_trans; [| exact He3].
    eapply store_extends_trans; [apply Hnew | exact He2]. }
  destruct r as [[] | [e | v] |]; exact Hall.
Qed.

Lemma sealed_call_value name callee args line :
  related sealed_step (Interpreter.call_value exec name callee args line).
Proof.
  destruct callee as [| b | n | s | id fname params body l closure]; simpl;
    try (apply related_throw, sealed_step_refl).
  destruct (negb _); [apply related_throw, sealed_step_refl |].
  apply sealed_MasalaFunction_call.
Qed.

Local Ltac sealed_bind :=
  apply related_bind; [apply sealed_step_trans | |].

(** The evaluation of an expression declares no name in any environment
    that was there before. *)
Lemma sealed_evaluate e : related sealed_step (Interpreter.evaluate exec e).
Proof.
  induction e as [op l IHl r IHr line | op o IHo line | callee args IHargs line
                 | v line | name line | e IHe line | name v IHv line]; simpl.
  - sealed_bind; [exact IHl |]. intros x.
    sealed_bind; [exact IHr |]. intros y. apply sealed_binary_operation.
  - sealed_bind; [exact IHo |]. intros x. apply sealed_unary_operation.
  - sealed_bind; [apply sealed_get_callee |]. intros c.
    sealed_bind.
    + apply related_map_M; [apply sealed_step_refl | apply sealed_step_trans |].
      exact (list_all_In _ _ IHargs).
    + intros vs. apply sealed_call_value.
  - apply related_ret, sealed_step_refl.
  - sealed_bind; [apply sealed_this_environment |]. intros env. apply sealed_get.
  - exact IHe.
  - sealed_bind; [exact IHv |]. intros x.
    sealed_bind; [apply sealed_this_environment |]. intros env.
    sealed_bind; [apply sealed_assign | intros _; apply related_ret, sealed_step_refl].
Qed.

Lemma sealed_executeIfStatement conditions consequents alternate :
  related sealed_step (Interpreter.executeIfStatement exec conditions consequents alternate).
Proof.
  revert consequents.
  induction conditions as [| c conditions IH]; intros consequents; simpl.
  - destruct alternate; [apply sealed_run_branch | apply related_ret, sealed_step_refl].
  - destruct consequents as [| block consequents].
    + destruct alternate; [apply sealed_run_branch | apply related_ret, sealed_step_refl].
    + sealed_bind; [apply sealed_evaluate |]. intros v.
      destruct (Interpreter.isTruthy v); [apply sealed_run_branch | apply IH].
Qed.

Lemma sealed_while_loop fuel condition body line iterations :
  related sealed_step (Interpreter.while_loop exec fuel condition body line iterations).
Proof.
  revert iterations. induction fuel as [| fuel IH]; intros iterations; simpl.
  - sealed_bind; [apply sealed_evaluate |]. intros v.
    destruct (Interpreter.isTruthy v); [| apply related_ret, sealed_step_refl].
    destruct (_ <? _)%N;
      [apply related_throw, sealed_step_refl | apply related_timeout, sealed_step_refl].
  - sealed_bind; [apply sealed_evaluate |]. intros v.
    destruct (Interpreter.isTruthy v); [| apply related_ret, sealed_step_refl].
    destruct (_ <? _)%N; [apply related_throw, sealed_step_refl |].
    change (related sealed_step
              (run_branch exec body ;;;
               Interpreter.while_loop exec fuel condition body line (N.succ iterations))).
    sealed_bind; [apply sealed_run_branch | intros _; apply IH].
Qed.

Lemma sealed_executePrintStatement expressions :
  related sealed_step (Interpreter.executePrintStatement exec expressions).
Proof.
  unfold Interpreter.executePrintStatement.
  sealed_bind.
  - apply related_map_M; [apply sealed_step_refl | apply sealed_step_trans |].
    intros e _. apply sealed_evaluate.
  - intros vs st. split; [reflexivity |]. intros c. repeat split; simpl; auto.
    + now apply prefix_app_r.
    + intros j e He. exists e. auto.
Qed.

Lemma sealed_executeReturnStatement value :
  related sealed_step (Interpreter.executeReturnStatement exec value).
Proof.
  unfold Interpreter.executeReturnStatement.
  sealed_bind.
  - destruct value; [apply sealed_evaluate | apply related_ret, sealed_step_refl].
  - intros v. apply related_throw, sealed_step_refl.
Qed.

End ScopedStatements.

Lemma scoped_executeFunctionDeclaration name params body line :
  related scoped_step (Interpreter.executeFunctionDeclaration name params body line).
Proof.
  intros st. unfold Interpreter.executeFunctionDeclaration.
  split; [reflexivity |].
  eapply store_extends_trans; [| apply define_extends].
  repeat split; simpl; auto. intros j e He. exists e. auto.
Qed.

Lemma scoped_variable_declaration exec name e :
  (forall s, related scoped_step (exec s)) ->
  related scoped_step
    (v <- Interpreter.evaluate exec e ;;
     env <- Interpreter.this_environment ;;
     Interpreter.define env name v).
Proof.
  intros Hexec.
  apply related_bind; [apply scoped_step_trans | |].
  - apply sealed_is_scoped, sealed_evaluate, Hexec.
  - intros v st. split; [reflexivity |]. apply define_extends.
Qed.

(** Every statement gives the current environment back and declares
    names in the current environment only. *)
Lemma scoped_executeStatement fuel s : related scoped_step (Interpreter.executeStatement fuel s).
Proof.
  revert s. induction fuel as [| fuel IH]; intros s; simpl;
    [apply related_timeout, scoped_step_refl |].
  destruct s as [name e line | es line | conds conss alt line | cond body line | line
                | name params body line | v line | e line | body].
  - apply scoped_variable_declaration, IH.
  - apply sealed_is_scoped, sealed_executePrintStatement, IH.
  - apply sealed_is_scoped, sealed_executeIfStatement, IH.
  - apply sealed_is_scoped, sealed_while_loop, IH.
  - apply related_throw, scoped_step_refl.
  - apply scoped_executeFunctionDeclaration.
  - apply sealed_is_scoped, sealed_executeReturnStatement, IH.
  - apply sealed_is_scoped.
    apply related_bind; [apply sealed_step_trans | |].
    + apply sealed_evaluate, IH.
    + intros _. apply related_ret, sealed_step_refl.
  - apply sealed_is_scoped. exact (sealed_run_branch _ IH body).
Qed.

(** A statement that is no declaration declares no name in any
    environment that was there before. *)
Lemma sealed_executeStatement fuel s :
  declared_name s = ∅ -> related sealed_step (Interpreter.executeStatement fuel s).
Proof.
  intros Hs. destruct fuel as [| fuel]; simpl; [apply related_timeout, sealed_step_refl |].
  pose proof (scoped_executeStatement fuel) as IH.
  destruct s as [name e line | es line | conds conss alt line | cond body line | line
                | name params body line | v line | e line | body]; simpl in Hs.
  - exfalso. set_solver.
  - apply sealed_executePrintStatement, IH.
  - apply sealed_executeIfStatement, IH.
  - apply sealed_while_loop, IH.
  - apply related_throw, sealed_step_refl.
  - exfalso. set_solver.
  - apply sealed_executeReturnStatement, IH.
  - apply related_bind; [apply sealed_step_trans | |].
    + apply sealed_evaluate, IH.
    + intros _. apply related_ret, sealed_step_refl.
  - exact (sealed_run_branch _ IH body).
Qed.

(** X10. Names do not leak: whatever its outcome, a statement leaves every
    environment of the store in place, with its parent and all its names;
    it adds no name to it, except that a declaration of a variable or of a
    function may add its own name to the environment it is executed in.
    So what a branch, a loop body, a block or a called function declares
    stays in the environment made for it. *)
Theorem names_do_not_leak (fuel : nat) (s : stmt) (st : Interpreter.t) (j : env_id)
    (e : Environment) :
  Interpreter.envs st !! j = Some e ->
  exists e',
    Interpreter.envs (snd (Interpreter.executeStatement fuel s st)) !! j = Some e'
    /\ parent e' = parent e
    /\ names e ⊆ names e'
    /\ names e' ⊆ (if decide (j = Interpreter.environment st)
                   then declared_name s ∪ names e else names e).
Proof.
  intros He.
  assert (Hsealed : related sealed_step (Interpreter.executeStatement fuel s) ->
            exists e',
              Interpreter.envs (snd (Interpreter.executeStatement fuel s st)) !! j = Some e'
              /\ parent e' = parent e /\ names e ⊆ names e'
              /\ names e' ⊆ (if decide (j = Interpreter.environment st)
                             then declared_name s ∪ names e else names e)).
  { intros H. destruct (H st) as [_ Hall].
    destruct (Hall (S j)) as (_ & _ & _ & _ & Hj).
    destruct (Hj j e He) as (e' & He' & Hp & Hs & Hn).
    exists e'. rewrite (Hn ltac:(lia)). repeat split; auto.
    destruct (decide _); [apply union_subseteq_r | reflexivity]. }
  destruct (scoped_executeStatement fuel s st) as (Hc & _ & _ & _ & _ & Hscoped).
  destruct (Hscoped j e He) as (e' & He' & Hp & Hs & Hn).
  destruct (decide (j = Interpreter.environment st)) as [Hj | Hj];
    [| exists e'; rewrite (Hn Hj); auto].
  destruct s as [name v line | es line | conds conss alt line | cond body line | line
                | name params body line | v line | v line | body];
    try (apply Hsealed, sealed_executeStatement; reflexivity).
  - (* a variable declaration *)
    exists e'. split; [exact He' | split; [exact Hp | split; [exact Hs |]]].
    destruct fuel as [| fuel]; [simpl in He'; rewrite He in He'; injection He' as <-;
                                apply union_subseteq_r |].
    simpl in He'. unfold bind in He'.
    pose proof (sealed_evaluate _ (scoped_executeStatement fuel) v st) as [Hc1 Hall].
    destruct (Hall (S j)) as (_ & _ & _ & _ & Hj1).
    destruct (Hj1 j e He) as (e1 & He1 & _ & _ & Hn1).
    destruct (Interpreter.evaluate _ v st) as [[w | err |] st1]; simpl in *.
    + destruct (define_names (Interpreter.environment st1) name w st1 j e1 He1)
        as (e2 & He2 & _ & Hn2).
      cbn in He2. assert (e' = e2) by congruence. subst e2.
      rewrite Hn2, (Hn1 ltac:(lia)).
      destruct (decide _); [reflexivity | apply union_subseteq_r].
    + assert (e' = e1) by congruence. subst e1. rewrite (Hn1 ltac:(lia)).
      apply union_subseteq_r.
    + assert (e' = e1) by congruence. subst e1. rewrite (Hn1 ltac:(lia)).
      apply union_subseteq_r.
  - (* a function declaration *)
    exists e'. split; [exact He' | split; [exact Hp | split; [exact Hs |]]].
    destruct fuel as [| fuel]; [simpl in He'; rewrite He in He'; injection He' as <-;
                                apply union_subseteq_r |].
    simpl in He'. unfold Interpreter.executeFunctionDeclaration in He'.
    destruct (define_names (Interpreter.environment st) name
                (VFunction (Interpreter.functions_created st) name params body line
                   (Interpreter.environment st))
                (Interpreter.set_functions_created (S (Interpreter.functions_created st)) st)
                j e He) as (e2 & He2 & _ & Hn2).
    cbn in He', He2. assert (e' = e2) by congruence. subst e2. rewrite Hn2.
    destruct (decide _); [reflexivity | apply union_subseteq_r].
Qed.

(** An [if] statement that declares [y] in its branch, executed on
    globals that hold [x]: the globals keep [x] and get no [y]. *)
Lemma names_do_not_leak_witness :
  exists e',
    Interpreter.envs
      (snd (Interpreter.executeStatement 5
              (IfStatement [Literal (LitBool true) 1]
                 [[VariableDeclaration "y" (Literal LitNull 1) 1]] None 1)
              globals_with_x)) !! 0 = Some e'
    /\ parent e' = parent (mkEnvironment {[ "x" := VNumber 2%float ]} None)
    /\ names (mkEnvironment {[ "x" := VNumber 2%float ]} None) ⊆ names e'
    /\ names e' ⊆ (if decide (0 = Interpreter.environment globals_with_x)
                   then declared_name
                          (IfStatement [Literal (LitBool true) 1]
                             [[VariableDeclaration "y" (Literal LitNull 1) 1]] None 1)
                        ∪ names (mkEnvironment {[ "x" := VNumber 2%float ]} None)
                   else names (mkEnvironment {[ "x" := VNumber 2%float ]} None)).
Proof.
  apply (names_do_not_leak 5
           (IfStatement [Literal (LitBool true) 1]
              [[VariableDeclaration "y" (Literal LitNull 1) 1]] None 1)
           globals_with_x 0 (mkEnvironment {[ "x" := VNumber 2%float ]} None)).
  reflexivity.
Defined.

(** X11. Every statement, whatever its outcome (also when it throws), leaves
    the current environment and the global environment of the interpreter
    as they were; and after [execute], whatever its outcome, the current
    environment is the global one. *)
Theorem current_environment_is_restored (fuel : nat) (st : Interpreter.t) :
  (forall s,
     Interpreter.environment (snd (Interpreter.executeStatement fuel s st))
     = Interpreter.environment st
     /\ Interpreter.globals (snd (Interpreter.executeStatement fuel s st))
        = Interpreter.globals st)
  /\ (forall ast,
        Interpreter.environment (snd (Interpreter.execute fuel ast st))
        = Interpreter.globals st
        /\ Interpreter.globals (snd (Interpreter.execute fuel ast st))
           = Interpreter.globals st).
Proof.
  split.
  - intros s. destruct (scoped_executeStatement fuel s st) as (Hc & Hg & _). auto.
  - intros ast. unfold Interpreter.execute, bind, modify. simpl.
    pose proof (related_for_each scoped_step scoped_step_refl scoped_step_trans
                  (Interpreter.executeStatement fuel) ast
                  (fun s _ => scoped_executeStatement fuel s)
                  (Interpreter.set_environment (Interpreter.globals st)
                     (Interpreter.set_output [] st))) as (Hc & Hg & _).
    destruct (for_each _ ast _) as [[[] | e |] st1]; simpl in *; auto.
Qed.



Lemma define_store env x v (st : Interpreter.t) :
  Interpreter.define env x v st
  = (Done tt, Interpreter.set_envs (store_with env x v (Interpreter.envs st)) st).
Proof. reflexivity. Qed.

Lemma length_store_with env x v store : length (store_with env x v store) = length store.
Proof. apply length_alter. Qed.

(** A lookup of another name does not see a [define]. *)
Lemma get_in_store_with_other depth store env x v env' y :
  y <> x ->
  Interpreter.get_in depth (store_with env x v store) env' y
  = Interpreter.get_in depth store env' y.
Proof.
  intros Hy. revert env'. induction depth as [| depth IH]; intros env'; simpl; [reflexivity |].
  unfold store_with at 1. destruct (decide (env' = env)) as [-> | Hne].
  - rewrite list_lookup_alter_eq. destruct (store !! env) as [e |]; simpl; [| reflexivity].
    rewrite lookup_insert_ne by congruence.
    destruct (values e !! y); [reflexivity |].
    destruct (parent e); [apply IH | reflexivity].
  - rewrite list_lookup_alter_ne by congruence.
    destruct (store !! env') as [e |]; [| reflexivity].
    destruct (values e !! y); [reflexivity |].
    destruct (parent e); [apply IH | reflexivity].
Qed.

(** The environment that [assign] writes to is the one that [get] reads
    from; both miss together, and both run out of budget together. *)
Lemma holder_in_get_in depth store env x :
  match Interpreter.holder_in depth store env x, Interpreter.get_in depth store env x with
  | Some (Some h), Some (Some v) =>
      exists e, store !! h = Some e /\ values e !! x = Some v
  | Some None, Some None => True
  | None, None => True
  | _, _ => False
  end.
Proof.
  revert env. induction depth as [| depth IH]; intros env; simpl; [exact I |].
  destruct (store !! env) as [e |] eqn:He; [| exact I].
  destruct (values e !! x) as [v |] eqn:Hx; [now exists e |].
  destruct (parent e) as [p |]; [apply IH | exact I].
Qed.

(** After the write, the lookup of [x] from [env] finds the value
    written. *)
Lemma get_in_after_assign depth store env x v h :
  Interpreter.holder_in depth store env x = Some (Some h) ->
  Interpreter.get_in depth (store_with h x v store) env x = Some (Some v).
Proof.
  revert env. induction depth as [| depth IH]; intros env; simpl; [discriminate |].
  destruct (store !! env) as [e |] eqn:He; [| discriminate].
  destruct (values e !! x) as [w |] eqn:Hx.
  - intros [= <-]. unfold store_with. rewrite list_lookup_alter_eq, He. simpl.
    now rewrite lookup_insert_eq.
  - destruct (parent e) as [p |] eqn:Hp; [| discriminate]. intros Hh.
    destruct (holder_in_bound _ _ _ _ _ Hh) as (eh & Heh & Hbound).
    assert (Hne : env <> h).
    { intros ->. rewrite He in Heh. injection Heh as <-. rewrite Hx in Hbound.
      destruct Hbound; discriminate. }
    unfold store_with at 1. rewrite list_lookup_alter_ne by congruence.
    rewrite He, Hx, Hp. apply IH. exact Hh.
Qed.

(** X8. [define] then [get]: a variable defined in an environment of the
    store is read back from it with the value given, whatever its parents
    hold; and the reading of every other name, from every environment, is
    as before. *)
Theorem define_then_get (env : env_id) (x : string) (v : value) (line : nat)
    (st : Interpreter.t) :
  env < length (Interpreter.envs st) ->
  let st' := snd (Interpreter.define env x v st) in
  Interpreter.get env x line st' = (Done v, st')
  /\ (forall env' y line', y <> x ->
        fst (Interpreter.get env' y line' st') = fst (Interpreter.get env' y line' st)).
Proof.
  intros Hlt. cbv zeta. rewrite define_store. simpl. split.
  - destruct (lookup_lt_is_Some_2 _ _ Hlt) as [e He].
    assert (Hget : forall n, Interpreter.get_in (S n) (store_with env x v (Interpreter.envs st))
                               env x = Some (Some v)).
    { intros n. simpl. unfold store_with. rewrite list_lookup_alter_eq, He. simpl.
      now rewrite lookup_insert_eq. }
    unfold Interpreter.get, Interpreter.chain_bound. now rewrite Hget.
  - intros env' y line' Hy.
    set (st' := Interpreter.set_envs (store_with env x v (Interpreter.envs st)) st).
    assert (Henvs : Interpreter.envs st' = store_with env x v (Interpreter.envs st))
      by reflexivity.
    unfold Interpreter.get, Interpreter.chain_bound.
    rewrite Henvs, length_store_with, get_in_store_with_other by exact Hy.
    destruct (Interpreter.get_in _ _ env' y) as [[w |] |]; reflexivity.
Qed.

Lemma define_then_get_witness :
  Interpreter.get 1 "x" 3 (snd (Interpreter.define 1 "x" (VBool true) parent_holds_x))
  = (Done (VBool true), snd (Interpreter.define 1 "x" (VBool true) parent_holds_x))
  /\ (forall env' y line', y <> "x" ->
        fst (Interpreter.get env' y line'
               (snd (Interpreter.define 1 "x" (VBool true) parent_holds_x)))
        = fst (Interpreter.get env' y line' parent_holds_x)).
Proof.
  apply (define_then_get 1 "x" (VBool true) 3 parent_holds_x). simpl. lia.
Defined.

(** X9. [assign] then [get]: an assignment that completes is read back from
    the same environment, and leaves every other name as it reads.  An
    assignment never creates a variable: it throws exactly when the
    reading of the name throws, with the same error, and then leaves the
    state as it is. *)
Theorem assign_then_get (env : env_id) (x : string) (v : value) (line : nat)
    (st : Interpreter.t) :
  (forall st',
     Interpreter.assign env x v line st = (Done tt, st') ->
     Interpreter.get env x line st' = (Done v, st')
     /\ forall env' y line', y <> x ->
          fst (Interpreter.get env' y line' st') = fst (Interpreter.get env' y line' st))
  /\ (forall e,
        fst (Interpreter.get env x line st) = Raise e
        <-> Interpreter.assign env x v line st = (Raise e, st)).
Proof.
  pose proof (holder_in_get_in (Interpreter.chain_bound st) (Interpreter.envs st) env x) as H.
  unfold Interpreter.assign, Interpreter.get.
  destruct (Interpreter.holder_in _ _ env x) as [[h |] |] eqn:Hh;
    destruct (Interpreter.get_in _ _ env x) as [[w |] |] eqn:Hg; try contradiction.
  - split.
    + intros st'. rewrite define_store. intros [= <-].
      set (st' := Interpreter.set_envs (store_with h x v (Interpreter.envs st)) st).
      assert (Henvs : Interpreter.envs st' = store_with h x v (Interpreter.envs st))
        by reflexivity.
      unfold Interpreter.chain_bound. rewrite Henvs, length_store_with.
      fold (Interpreter.chain_bound st). split.
      * now rewrite (get_in_after_assign _ _ _ _ v _ Hh).
      * intros env' y line' Hy.
        rewrite get_in_store_with_other by exact Hy.
        destruct (Interpreter.get_in _ _ env' y) as [[u |] |]; reflexivity.
    + intros e. rewrite define_store. simpl. split; discriminate.
  - split; [discriminate |]. intros e. simpl. split; intros [= <-]; reflexivity.
  - split; [discriminate |]. intros e. simpl. split; discriminate.
Qed.

(** An assignment from a child environment reaches the variable of the
    parent; an assignment to a name that nothing binds throws. *)
Lemma assign_examples :
  fst (Interpreter.get 0 "x" 1
         (snd (Interpreter.assign 1 "x" (VBool true) 1 parent_holds_x)))
  = Done (VBool true)
  /\ Interpreter.assign 1 "z" VNull 4 parent_holds_x
     = (Raise (Error (RuntimeError (UNDEFINED_VARIABLE "z") 4)), parent_holds_x).
Proof. split; vm_compute; reflexivity. Qed.

(** From round [i] on, with a budget for the rounds that are left, the
    loop reaches its limit. *)
Lemma while_loop_reaches_limit exec condition body line Inv (k : nat) :
  keeps_going exec condition body Inv ->
  forall fuel (i : N) st,
    Inv st ->
    (i + N.of_nat k = Interpreter.maxIterations)%N -> k <= fuel ->
    fst (Interpreter.while_loop exec fuel condition body line i st)
    = Raise (Error (RuntimeError LOOP_LIMIT_EXCEEDED line)).
Proof.
  intros Hloop. induction k as [| k IH]; intros fuel i st Hst Hi Hfuel.
  - assert (Hlim : (Interpreter.maxIterations <? N.succ i)%N = true)
      by (apply N.ltb_lt; lia).
    destruct (Hloop st Hst) as (v & st1 & st2 & Hv & Ht & _).
    destruct fuel; simpl; unfold bind; rewrite Hv, Ht, Hlim; reflexivity.
  - assert (Hlim : (Interpreter.maxIterations <? N.succ i)%N = false)
      by (apply N.ltb_ge; lia).
    destruct fuel as [| fuel]; [lia |].
    destruct (Hloop st Hst) as (v & st1 & st2 & Hv & Ht & Hbody & Hst2).
    simpl. unfold bind at 1. rewrite Hv, Ht, Hlim.
    change (fst ((run_branch exec body ;;;
                  Interpreter.while_loop exec fuel condition body line (N.succ i)) st1)
            = Raise (Error (RuntimeError LOOP_LIMIT_EXCEEDED line))).
    unfold bind at 1. rewrite run_branch_executes, Hbody. apply IH; [exact Hst2 | lia | lia].
Qed.

(** X13. No loop runs forever: a loop that keeps going (from the state it
    starts in and from every state that a round leaves, the condition is
    truthy and the body completes) is stopped by the Runtime Error of the
    loop limit; a budget of [maxIterations] (100000) rounds is enough for
    the model to get there. *)
Theorem loop_limit (fuel : nat) (condition : expr) (body : list stmt) (line : nat)
    (Inv : Interpreter.t -> Prop) (st : Interpreter.t) :
  Inv st ->
  keeps_going (Interpreter.executeStatement fuel) condition body Inv ->
  (Interpreter.maxIterations <= N.of_nat fuel)%N ->
  fst (Interpreter.executeStatement (S fuel) (WhileStatement condition body line) st)
  = Raise (Error (RuntimeError LOOP_LIMIT_EXCEEDED line)).
Proof.
  intros Hst Hloop Hfuel. simpl.
  apply (while_loop_reaches_limit _ condition body line Inv
           (N.to_nat Interpreter.maxIterations));
    [exact Hloop | exact Hst | lia | lia].
Qed.

(** The loop on [i] keeps going: its condition reads [i], its body writes
    it from the environment of the round, through the parent. *)
Lemma counter_keeps_going fuel :
  keeps_going (Interpreter.executeStatement (S fuel)) counter_condition counter_body
    holds_counter.
Proof.
  intros st (Henv & vals & rest & Henvs & Hi).
  destruct st as [envs g c o n]. simpl in Henv, Henvs. subst c envs.
  set (e0 := mkEnvironment vals None). set (child := mkEnvironment ∅ (Some 0)).
  set (st := Interpreter.mk (e0 :: rest) g 0 o n).
  exists (VBool true), st,
    (Interpreter.mk (mkEnvironment (<["i" := VNumber 0%float]> vals) None :: rest ++ [child])
       g 0 o n).
  split; [| split; [reflexivity | split]].
  - unfold counter_condition. simpl.
    unfold bind, Interpreter.this_environment, Interpreter.get. simpl.
    rewrite Hi. reflexivity.
  - assert (Hhold : Interpreter.holder_in
                      (S (length ((e0 :: rest) ++ [child])))
                      ((e0 :: rest) ++ [child]) (length (e0 :: rest)) "i"
                    = Some (Some 0)).
    { cbn [Interpreter.holder_in]. rewrite list_lookup_middle by reflexivity.
      cbn [values parent child]. rewrite lookup_empty.
      simpl. rewrite Hi. reflexivity. }
    unfold executes_branch, counter_body, branch_frame.
    cbn [for_each Interpreter.executeStatement Interpreter.evaluate].
    unfold bind, ret, Interpreter.this_environment, Interpreter.assign,
      Interpreter.chain_bound. cbn [Interpreter.value_of_literal].
    cbn [Interpreter.environment Interpreter.envs Interpreter.set_environment
         Interpreter.set_envs st].
    fold e0 child. rewrite Hhold. reflexivity.
  - split; [reflexivity |]. eexists _, _. split; [reflexivity |]. apply lookup_insert_eq.
Qed.

Lemma loop_limit_witness :
  fst (Interpreter.executeStatement (S (S (N.to_nat 99999)))
         (WhileStatement counter_condition counter_body 2) globals_with_counter)
  = Raise (Error (RuntimeError LOOP_LIMIT_EXCEEDED 2)).
Proof.
  apply (loop_limit (S (N.to_nat 99999)) counter_condition counter_body 2 holds_counter
           globals_with_counter).
  - split; [reflexivity |]. eexists _, _. split; [reflexivity | reflexivity].
  - apply counter_keeps_going.
  - rewrite Nat2N.inj_succ, N2Nat.id. unfold Interpreter.maxIterations. lia.
Defined.

(** The visit of an expression changes nothing in the analyzer: it
    completes, or it throws a semantic error. *)
Lemma visitExpression_reads e (st : Analyzer.t) :
  match Analyzer.visitExpression e st with
  | (Done _, st') => st' = st
  | (Raise err, st') => st' = st /\ is_semantic err
  | (Timeout, _) => False
  end.
Proof.
  revert st.
  induction e as [op l IHl r IHr line | op o IHo line | callee args IHargs line
                 | v line | name line | e IHe line | name v IHv line]; intros st; simpl.
  - unfold bind. specialize (IHl st).
    destruct (Analyzer.visitExpression l st) as [[[] | err |] st1]; try exact IHl.
    subst st1. apply IHr.
  - apply IHo.
  - unfold bind, Analyzer.check_callee.
    assert (Hargs : match for_each Analyzer.visitExpression args st with
                    | (Done _, st') => st' = st
                    | (Raise err, st') => st' = st /\ is_semantic err
                    | (Timeout, _) => False
                    end).
    { pose proof (list_all_In _ _ IHargs) as H. clear IHargs.
      induction args as [| a args IH]; simpl; [reflexivity |].
      unfold bind. pose proof (H a ltac:(now left) st) as Ha.
      destruct (Analyzer.visitExpression a st) as [[[] | err |] st1]; try exact Ha.
      subst st1. apply IH. intros x Hx. apply H. now right. }
    destruct (Analyzer.functions st !! callee) as [info |].
    + destruct (negb _); simpl; [auto | exact Hargs].
    + destruct (negb _); simpl; [auto | exact Hargs].
  - reflexivity.
  - unfold Analyzer.visitIdentifier, Analyzer.throw_if.
    destruct (_ && _); simpl; auto.
  - apply IHe.
  - unfold bind, Analyzer.throw_if. destruct (negb _); simpl; [auto | apply IHv].
Qed.

Lemma visitExpression_keeps (P : Analyzer.t -> Prop) e :
  (forall st, P st -> Analyzer.errors st = []) ->
  triple semantic_throw P (Analyzer.visitExpression e) P false.
Proof.
  intros Hclean st HP. pose proof (visitExpression_reads e st) as H.
  destruct (Analyzer.visitExpression e st) as [[[] | err |] st1].
  - subst st1. auto.
  - destruct H as [-> Herr]. split; [exact Herr | auto].
  - exact H.
Qed.

Lemma in_function_clean c st : in_function c st -> Analyzer.errors st = [].
Proof. now intros [_ H]. Qed.

Lemma scopes_keep_function c (f : list (gmap string Analyzer.binding) ->
                                 list (gmap string Analyzer.binding)) :
  triple semantic_throw (in_function c)
    (modify (fun st => Analyzer.set_scopes (f (Analyzer.scopes st)) st)) (in_function c) false.
Proof. apply triple_modify. intros st H. exact H. Qed.

Lemma declare_keeps_function c name b :
  triple semantic_throw (in_function c) (Analyzer.declare name b) (in_function c) false.
Proof.
  apply triple_modify. intros st H. destruct (Analyzer.scopes st); exact H.
Qed.

Lemma visitBlock_function c (visit : stmt -> Analyzer.A unit) (P : stmt -> bool)
    statements createNewScope :
  (forall s, In s statements ->
     triple semantic_throw (in_function c) (visit s) (in_function c) (P s)) ->
  triple semantic_throw (in_function c)
    (Analyzer.visitBlock_with visit statements createNewScope) (in_function c)
    (existsb P statements).
Proof.
  intros H. unfold Analyzer.visitBlock_with.
  eapply triple_weaken.
  - apply (triple_bind _ _ (in_function c) _ _ _ false).
    + destruct createNewScope; [apply (scopes_keep_function c (cons ∅)) | apply triple_ret].
    + intros _. apply (triple_bind _ _ (in_function c)).
      * apply triple_for_each. exact H.
      * intros _. destruct createNewScope;
          [apply (scopes_keep_function c tail) | apply triple_ret].
  - bool_side.
Qed.

Lemma expressions_keep_function c (es : list expr) :
  triple semantic_throw (in_function c) (for_each Analyzer.visitExpression es)
    (in_function c) false.
Proof.
  eapply triple_weaken.
  - apply triple_for_each with (b := fun _ => false). intros e _.
    apply visitExpression_keeps, in_function_clean.
  - rewrite existsb_const_false. auto.
Qed.

(** A statement leaves the analyzer in the function it was in, and at
    the top level it is rejected when it holds a return outside every
    function. *)
Lemma visitStatement_function s :
  forall c,
    triple semantic_throw (in_function c) (Analyzer.visitStatement s) (in_function c)
      (at_top c && return_outside_function s).
Proof.
  induction s as [name v line | es line | conds conss IHconss alt IHalt line
                 | cond body IHbody line | line | name params body IHbody line
                 | v line | e line | body IHbody]; intros c; simpl;
    rewrite ?andb_false_r.
  - apply (triple_bind _ _ (in_function c) _ _ _ false false);
      [apply throw_if_keeps, in_function_clean |].
    intros _. apply (triple_bind _ _ (in_function c) _ _ _ false false);
      [apply visitExpression_keeps, in_function_clean
      | intros _; apply declare_keeps_function].
  - apply expressions_keep_function.
  - eapply triple_weaken.
    + apply (triple_bind _ _ (in_function c) _ _ _ false);
        [apply expressions_keep_function |].
      intros _.
      eapply (triple_bind _ _ (in_function c) _ _ _
                (existsb (existsb (fun s => at_top c && return_outside_function s)) conss)
                (match alt with
                 | Some b => existsb (fun s => at_top c && return_outside_function s) b
                 | None => false
                 end)).
      * apply triple_for_each. intros block Hblock.
        apply visitBlock_function. intros s Hs.
        exact (list_all_nested_In _ _ IHconss block Hblock s Hs c).
      * intros _. destruct IHalt as [block IHblock |].
        -- apply visitBlock_function. intros s Hs.
           exact (list_all_In _ _ IHblock s Hs c).
        -- apply triple_ret.
    + rewrite existsb_existsb_andb_const.
      destruct alt; rewrite ?existsb_andb_const; destruct (at_top c); bool_side.
  - eapply triple_weaken.
    + apply (triple_bind _ _ (in_function c) _ _ _ false);
        [apply visitExpression_keeps, in_function_clean |].
      intros _.
      apply visitBlock_function with (P := fun s => at_top c && return_outside_function s).
      intros s Hs. exact (list_all_In _ _ IHbody s Hs c).
    + rewrite existsb_andb_const. auto.
  - apply triple_ret.
  - assert (Ht : forall prev, prev = c ->
              triple semantic_throw (in_function c)
                (modify (Analyzer.set_currentFunction (Some name)) ;;;
                 Analyzer.pushScope ;;;
                 for_each (Analyzer.declare_parameter line) params ;;;
                 Analyzer.visitBlock_with Analyzer.visitStatement body false ;;;
                 Analyzer.popScope ;;;
                 modify (Analyzer.set_currentFunction prev))
                (in_function c) false).
    { intros prev ->. eapply triple_weaken.
      - apply (triple_bind _ _ (in_function (Some name)) _ _ _ false).
        { apply triple_modify. intros st [_ H]. split; [reflexivity | exact H]. }
        intros _. apply (triple_bind _ _ (in_function (Some name)) _ _ _ false);
          [apply (scopes_keep_function (Some name) (cons ∅)) |].
        intros _. apply (triple_bind _ _ (in_function (Some name)) _ _ _ false).
        { eapply triple_weaken.
          - apply triple_for_each with (b := fun _ => false). intros p _.
            unfold Analyzer.declare_parameter.
            apply (triple_bind _ _ (in_function (Some name)) _ _ _ false false);
              [apply throw_if_keeps, in_function_clean
              | intros _; apply declare_keeps_function].
          - intros; discriminate. }
        intros _. apply (triple_bind _ _ (in_function (Some name)) _ _ _ false).
        { eapply triple_weaken.
          - apply visitBlock_function with (P := fun _ => false). intros s Hs.
            exact (list_all_In _ _ IHbody s Hs (Some name)).
          - rewrite existsb_const_false. auto. }
        intros _. apply (triple_bind _ _ (in_function (Some name)) _ _ _ false false);
          [apply (scopes_keep_function (Some name) tail) |].
        intros _. apply triple_modify. intros st [_ H]. split; [reflexivity | exact H].
      - auto. }
    intros st Hst. exact (Ht (Analyzer.currentFunction st) (proj1 Hst) st Hst).
  - intros st [Hc Hclean]. unfold bind, Analyzer.throw_if. rewrite Hc.
    destruct c as [f |]; simpl.
    + destruct v as [e |].
      * exact (visitExpression_keeps _ e (in_function_clean (Some f)) st (conj Hc Hclean)).
      * simpl. split; [split; assumption | reflexivity].
    + split; [exact I | exact Hclean].
  - apply visitExpression_keeps, in_function_clean.
  - eapply triple_weaken.
    + apply visitBlock_function with (P := fun s => at_top c && return_outside_function s).
      intros s Hs. exact (list_all_In _ _ IHbody s Hs c).
    + rewrite existsb_andb_const. auto.
Qed.

Lemma declareFunction_keeps_function c s :
  triple semantic_throw (in_function c) (Analyzer.declareFunction s) (in_function c) false.
Proof.
  destruct s as [| | | | | name params body line | | |]; simpl; try apply triple_ret.
  apply (triple_bind _ _ (in_function c) _ _ _ false false);
    [apply throw_if_keeps, in_function_clean |].
  intros _. apply (triple_bind _ _ (in_function c) _ _ _ false false).
  - apply triple_modify. intros st H. exact H.
  - intros _. apply declare_keeps_function.
Qed.

(** The two passes of [visitProgram], from the state in which [analyze]
    starts. *)
Lemma visitProgram_function (ast : Program) :
  triple semantic_throw (in_function None) (Analyzer.visitProgram ast) (in_function None)
    (existsb return_outside_function ast).
Proof.
  unfold Analyzer.visitProgram.
  apply (triple_bind _ _ (in_function None) _ _ _ false).
  - eapply triple_weaken.
    + apply triple_for_each with (b := fun _ => false). intros s _.
      apply declareFunction_keeps_function.
    + rewrite existsb_const_false. auto.
  - intros _. apply triple_for_each. intros s _.
    exact (visitStatement_function s None).
Qed.

(** X4. A return outside every function is rejected: a program with a return
    statement at its top level, or in a branch, a loop body or a block of
    its top level, does not pass the analysis. *)
Theorem return_outside_function_rejected (ast : Program) (an : Analyzer.t) :
  existsb return_outside_function ast = true ->
  exists message l an', Analyzer.analyze ast an = (Raise (SemanticError message l), an').
Proof.
  intros Hret. pose proof (visitProgram_function ast) as H. rewrite Hret in H.
  destruct (triple_fails _ _ _ _ clean_slate H (conj eq_refl eq_refl))
    as (e & st1 & Hrun & He).
  exact (analyze_raises ast an e st1 Hrun He).
Qed.

Lemma return_outside_function_rejected_witness :
  exists message l an',
    Analyzer.analyze return_in_branch Analyzer.new = (Raise (SemanticError message l), an').
Proof.
  apply (return_outside_function_rejected return_in_branch Analyzer.new). reflexivity.
Defined.

Lemma declareFunction_step name params body line (st : Analyzer.t) :
  Analyzer.declareFunction (FunctionDeclaration name params body line) st
  = if bool_decide (is_Some (Analyzer.functions st !! name))
    then (Raise (SemanticError (ALREADY_DEFINED name) line), st)
    else (Done tt, with_function name params line st).
Proof.
  unfold Analyzer.declareFunction, bind, Analyzer.throw_if, with_function.
  destruct (bool_decide _); reflexivity.
Qed.

(** The first pass, on a table that holds some names already: it completes when the
    declared names are new and differ from one another, and then the
    table holds them too; it throws [ALREADY_DEFINED] at the first
    declaration of a name that the table holds. *)
Lemma first_pass_names (ast : Program) (st : Analyzer.t) :
  Analyzer.errors st = [] ->
  match for_each Analyzer.declareFunction ast st with
  | (Done _, st') =>
      NoDup (function_names ast)
      /\ (forall g, g ∈ function_names ast -> Analyzer.functions st !! g = None)
      /\ (forall g, is_Some (Analyzer.functions st' !! g)
                    <-> is_Some (Analyzer.functions st !! g) \/ g ∈ function_names ast)
  | (Raise e, st') =>
      exists name params body line,
        e = SemanticError (ALREADY_DEFINED name) line
        /\ In (FunctionDeclaration name params body line) ast
        /\ Analyzer.errors st' = []
        /\ (NoDup (function_names ast) ->
            exists g, g ∈ function_names ast /\ is_Some (Analyzer.functions st !! g))
  | (Timeout, _) => False
  end.
Proof.
  revert st. induction ast as [| s ast IH]; intros st Hclean; simpl.
  - split; [constructor | split; [intros g Hg; inversion Hg |]].
    intros g. split; [auto | intros [H | H]; [exact H | inversion H]].
  - assert (Hskip : (forall name ps b l, s <> FunctionDeclaration name ps b l) ->
              Analyzer.declareFunction s = ret tt
              /\ function_names (s :: ast) = function_names ast).
    { intros Hs. destruct s; try (split; reflexivity). exfalso. eapply Hs. reflexivity. }
    destruct s as [| | | | | name params body line | | |];
      try (destruct Hskip as [-> Hnames]; [intros; discriminate |];
           unfold bind, ret; specialize (IH st Hclean);
           destruct (for_each Analyzer.declareFunction ast st) as [[[] | e |] st1];
           [exact IH
           | destruct IH as (n & ps & b & l & He & Hin & Herr & Hdup);
             exists n, ps, b, l; repeat split; auto
           | exact IH]).
    clear Hskip. unfold bind at 1. rewrite declareFunction_step.
    destruct (bool_decide (is_Some (Analyzer.functions st !! name))) eqn:Hdup.
    + apply bool_decide_eq_true in Hdup. exists name, params, body, line.
      split; [reflexivity | split; [now left | split; [exact Hclean |]]].
      intros _. exists name. split; [left | exact Hdup].
    + apply bool_decide_eq_false in Hdup.
      assert (Hnone : Analyzer.functions st !! name = None).
      { destruct (Analyzer.functions st !! name) eqn:H; [| reflexivity].
        exfalso. apply Hdup. eauto. }
      set (st1 := with_function name params line st).
      assert (Hfun : Analyzer.functions st1
                     = <[name := Analyzer.mkFuncInfo params (length params) line]>
                         (Analyzer.functions st)).
      { unfold st1, with_function, Analyzer.declare, modify. simpl.
        destruct (Analyzer.scopes st); reflexivity. }
      assert (Herr1 : Analyzer.errors st1 = []).
      { unfold st1, with_function, Analyzer.declare, modify. simpl.
        destruct (Analyzer.scopes st); exact Hclean. }
      specialize (IH st1 Herr1).
      destruct (for_each Analyzer.declareFunction ast st1) as [[[] | e |] st2]; [| | exact IH].
      * destruct IH as (Hnd & Hnew & Hall). rewrite Hfun in Hnew, Hall.
        assert (Hname : name ∉ function_names ast).
        { intros Hin. specialize (Hnew name Hin). now rewrite lookup_insert_eq in Hnew. }
        split; [constructor; assumption | split].
        -- intros g Hg. apply elem_of_cons in Hg as [-> | Hg]; [exact Hnone |].
           specialize (Hnew g Hg). destruct (decide (g = name)) as [-> | Hne];
             [exact Hnone | now rewrite lookup_insert_ne in Hnew].
        -- intros g. rewrite Hall, elem_of_cons.
           destruct (decide (g = name)) as [-> | Hne].
           ++ rewrite lookup_insert_eq. split; [auto | eauto].
           ++ rewrite lookup_insert_ne by congruence. tauto.
      * destruct IH as (n & ps & b & l & He & Hin & Herr & Hdup').
        exists n, ps, b, l. split; [exact He | split; [now right | split; [exact Herr |]]].
        intros Hnd. apply NoDup_cons in Hnd as [Hname Hnd].
        destruct (Hdup' Hnd) as (g & Hg & Hbound). rewrite Hfun in Hbound.
        destruct (decide (g = name)) as [-> | Hne]; [contradiction |].
        rewrite lookup_insert_ne in Hbound by congruence.
        exists g. split; [now right | exact Hbound].
Qed.

(** X5. Two functions of one name at the top level are rejected before every
    other check, with the error of the name that is already defined; and
    when the names differ, the first pass completes with exactly the
    declared names in the table of functions. *)
Theorem duplicate_function_rejected (ast : Program) (an : Analyzer.t) :
  (NoDup (function_names ast) ->
   exists st1,
     for_each Analyzer.declareFunction ast clean_slate = (Done tt, st1)
     /\ forall g, is_Some (Analyzer.functions st1 !! g) <-> g ∈ function_names ast)
  /\ (~ NoDup (function_names ast) ->
      exists name params body line an',
        In (FunctionDeclaration name params body line) ast
        /\ Analyzer.analyze ast an
           = (Raise (SemanticError (ALREADY_DEFINED name) line), an')).
Proof.
  pose proof (first_pass_names ast clean_slate eq_refl) as H.
  unfold Analyzer.analyze, Analyzer.visitProgram, bind. fold clean_slate.
  destruct (for_each Analyzer.declareFunction ast clean_slate) as [[[] | e |] st1];
    [| | contradiction].
  - destruct H as (Hnd & _ & Hall). split; [| contradiction].
    intros _. exists st1. split; [reflexivity |].
    intros g. rewrite Hall. simpl. rewrite lookup_empty. split; [| auto].
    intros [[x Hx] | Hg]; [discriminate | exact Hg].
  - destruct H as (name & params & body & line & -> & Hin & Herr & Hdup). split.
    + intros Hnd. destruct (Hdup Hnd) as (g & _ & [x Hx]). simpl in Hx.
      rewrite lookup_empty in Hx. discriminate.
    + intros _. exists name, params, body, line. rewrite Herr. simpl. eauto.
Qed.

Lemma duplicate_function_examples :
  analyze twice_declared = Raise (SemanticError (ALREADY_DEFINED "f") 4)
  /\ function_names twice_declared = ["f"; "f"].
Proof. split; vm_compute; reflexivity. Qed.

Section Hoare.
Context {S E : Type}.
Variable X : E -> Prop.

Lemma hoare_ret {A} (P : S -> Prop) (Q : A -> S -> Prop) (a : A) :
  (forall st, P st -> Q a st) -> hoare X P (ret a) Q.
Proof. intros H st HP. simpl. auto. Qed.

Lemma hoare_bind {A B} (P : S -> Prop) (Q : A -> S -> Prop) (R : B -> S -> Prop)
    (m : M S E A) (k : A -> M S E B) :
  hoare X P m Q -> (forall a, hoare X (Q a) (k a) R) -> hoare X P (bind m k) R.
Proof.
  intros Hm Hk st HP. unfold bind. specialize (Hm st HP).
  destruct (m st) as [[a | e |] st']; try easy. exact (Hk a st' Hm).
Qed.

Lemma hoare_consequence {A} (P P' : S -> Prop) (Q Q' : A -> S -> Prop) (m : M S E A) :
  hoare X P m Q -> (forall st, P' st -> P st) -> (forall a st, Q a st -> Q' a st) ->
  hoare X P' m Q'.
Proof.
  intros Hm HP HQ st H. specialize (Hm st (HP st H)).
  destruct (m st) as [[a | e |] st']; auto.
Qed.

Lemma hoare_modify (P : S -> Prop) (Q : unit -> S -> Prop) (f : S -> S) :
  (forall st, P st -> Q tt (f st)) -> hoare X P (modify f) Q.
Proof. intros H st HP. simpl. auto. Qed.

(** A computation that looks at the state it starts in. *)
Lemma hoare_state {A} (P : S -> Prop) (Q : A -> S -> Prop) (m : S -> M S E A) :
  (forall st0, hoare X (fun st => P st /\ st = st0) (m st0) Q) ->
  hoare X P (fun st => m st st) Q.
Proof. intros H st HP. exact (H st st (conj HP eq_refl)). Qed.

End Hoare.

Section LexerInvariant.
Variable src : string.

Lemma scanned_by_later line line' t : line <= line' -> scanned_by line t -> scanned_by line' t.
Proof. intros Hle (Hty & H1 & Hl). repeat split; auto. lia. Qed.

(** What [lexing] looks at. *)
Lemma lexing_same (lx lx' : Lexer.t) :
  Lexer.source lx' = Lexer.source lx -> Lexer.line lx' = Lexer.line lx ->
  Lexer.tokens lx' = Lexer.tokens lx -> lexing src lx -> lexing src lx'.
Proof. unfold lexing. intros -> -> ->. auto. Qed.

Lemma lexing_next_line (lx : Lexer.t) :
  lexing src lx -> lexing src (Lexer.set_column 0 (Lexer.set_line (S (Lexer.line lx)) lx)).
Proof.
  intros (Hsrc & Hline & Htoks & Hsorted). repeat split; simpl; auto.
  eapply Forall_impl; [exact Htoks |]. intros t. apply scanned_by_later. lia.
Qed.

Lemma lexing_addToken type lit (lx : Lexer.t) :
  type <> TokenType.EOF -> lexing src lx -> lexing src (snd (Lexer.addToken type lit lx)).
Proof.
  intros Hty (Hsrc & Hline & Htoks & Hsorted). repeat split; simpl; auto.
  - apply Forall_app. split; [exact Htoks |]. constructor; [| constructor].
    repeat split; simpl; auto.
  - intros i j ti tj Hi Hj Hij.
    destruct (decide (j < length (Lexer.tokens lx))) as [Hlt | Hge].
    + rewrite lookup_app_l in Hi by lia. rewrite lookup_app_l in Hj by lia. eauto.
    + rewrite lookup_app_r in Hj by lia.
      destruct (j - length (Lexer.tokens lx)) as [| k]; [| destruct k; discriminate].
      injection Hj as <-. simpl.
      destruct (decide (i < length (Lexer.tokens lx))) as [Hlt | Hge'].
      * rewrite lookup_app_l in Hi by lia.
        rewrite Forall_lookup in Htoks. destruct (Htoks i ti Hi) as (_ & _ & H). exact H.
      * rewrite lookup_app_r in Hi by lia.
        destruct (i - length (Lexer.tokens lx)) as [| k]; [| destruct k; discriminate].
        injection Hi as <-. reflexivity.
Qed.

Lemma not_at_end_remaining (lx : Lexer.t) :
  Lexer.isAtEnd lx = false -> 1 <= Lexer.remaining lx.
Proof.
  unfold Lexer.isAtEnd, Lexer.remaining. intros H. apply Nat.leb_gt in H. lia.
Qed.

Lemma lexing_from_weaken c c' lx : c' <= c -> lexing_from src c lx -> lexing_from src c' lx.
Proof. intros Hle [H Hc]. split; [exact H | lia]. Qed.

(** [advance] consumes one character. *)
Lemma advance_state (lx : Lexer.t) :
  exists oc lx', Lexer.advance lx = (Done oc, lx')
    /\ Lexer.source lx' = Lexer.source lx /\ Lexer.line lx' = Lexer.line lx
    /\ Lexer.tokens lx' = Lexer.tokens lx /\ Lexer.current lx' = S (Lexer.current lx).
Proof. eexists _, _. split; [reflexivity |]. auto. Qed.

Lemma advance_spec c :
  hoare is_lexer_error (lexing_from src c) Lexer.advance (fun _ => lexing_from src (S c)).
Proof.
  intros lx [H Hc]. destruct (advance_state lx) as (oc & lx' & -> & Hs & Hl & Ht & Hcur).
  split; [exact (lexing_same lx lx' Hs Hl Ht H) | lia].
Qed.

Lemma match_spec expected c :
  hoare is_lexer_error (lexing_from src c) (Lexer.match_ expected) (fun _ => lexing_from src c).
Proof.
  intros lx [H Hc]. unfold Lexer.match_.
  destruct (Lexer.isAtEnd lx); [split; assumption |].
  destruct (negb _); [split; assumption |].
  split; [exact (lexing_same lx _ eq_refl eq_refl eq_refl H) | simpl; lia].
Qed.

Lemma addToken_spec type lit c :
  type <> TokenType.EOF ->
  hoare is_lexer_error (lexing_from src c) (Lexer.addToken type lit) (fun _ => lexing_from src c).
Proof.
  intros Hty lx [H Hc]. pose proof (lexing_addToken type lit lx Hty H) as H'.
  unfold Lexer.addToken in *. simpl in *. split; [exact H' | exact Hc].
Qed.

Lemma advance_times_spec k c :
  hoare is_lexer_error (lexing_from src c) (Lexer.advance_times k)
    (fun _ => lexing_from src (c + k)).
Proof.
  revert c. induction k as [| k IH]; intros c; simpl.
  - apply hoare_ret. intros lx H. now rewrite Nat.add_0_r.
  - eapply hoare_bind; [apply advance_spec |]. intros oc.
    eapply hoare_consequence; [apply (IH (S c)) | auto |].
    intros u lx H. now rewrite Nat.add_succ_r.
Qed.

(** The loops that consume characters while a test holds. *)
Lemma advance_while_spec cond n c (b : bool) :
  hoare is_lexer_error
    (fun lx => lexing_from src c lx /\ Lexer.remaining lx <= n
               /\ negb (Lexer.isAtEnd lx) && cond (Lexer.peek lx) = b)
    (Lexer.advance_while cond n)
    (fun _ => lexing_from src (if b then S c else c)).
Proof.
  revert c b. induction n as [| n IH]; intros c b lx (H & Hn & Hb).
  - simpl. rewrite Hb. destruct b; [| exact H].
    apply andb_true_iff in Hb as [Hend _]. apply negb_true_iff in Hend.
    apply not_at_end_remaining in Hend. lia.
  - simpl. rewrite Hb. destruct b; [| exact H].
    apply andb_true_iff in Hb as [Hend _]. apply negb_true_iff in Hend.
    apply not_at_end_remaining in Hend.
    unfold bind. destruct (advance_state lx) as (oc & lx' & -> & Hs & Hl & Ht & Hcur).
    destruct H as [H Hc].
    assert (H' : lexing_from src (S c) lx').
    { split; [exact (lexing_same lx lx' Hs Hl Ht H) | lia]. }
    assert (Hn' : Lexer.remaining lx' <= n).
    { unfold Lexer.remaining in *. rewrite Hs, Hcur. lia. }
    pose proof (IH (S c) _ lx' (conj H' (conj Hn' eq_refl))) as Hrest.
    destruct (Lexer.advance_while cond n lx') as [[[] | e |] lx'']; auto.
    eapply lexing_from_weaken; [| exact Hrest]. destruct (_ && _); lia.
Qed.

Lemma remaining_from c (lx : Lexer.t) n :
  Lexer.source lx = src -> String.length src - c <= n -> c <= Lexer.current lx ->
  Lexer.remaining lx <= n.
Proof. unfold Lexer.remaining. intros -> H Hc. lia. Qed.

(** One step of a sequence, at the state at hand. *)
Lemma hoare_bind_here {A B} (Q : A -> Lexer.t -> Prop) (R : B -> Lexer.t -> Prop)
    (m : Lexer.L A) (k : A -> Lexer.L B) (lx : Lexer.t) :
  match m lx with
  | (Done a, lx') => Q a lx'
  | (Raise e, _) => is_lexer_error e
  | (Timeout, _) => False
  end ->
  (forall a, hoare is_lexer_error (Q a) (k a) R) ->
  match bind m k lx with
  | (Done b, lx') => R b lx'
  | (Raise e, _) => is_lexer_error e
  | (Timeout, _) => False
  end.
Proof.
  intros Hm Hk. unfold bind. destruct (m lx) as [[a | e |] lx']; try easy.
  exact (Hk a lx' Hm).
Qed.

Lemma advance_while_here cond c (lx : Lexer.t) :
  lexing_from src c lx ->
  match Lexer.advance_while cond (Lexer.remaining lx) lx with
  | (Done _, lx') => lexing_from src c lx'
  | (Raise e, _) => is_lexer_error e
  | (Timeout, _) => False
  end.
Proof.
  intros H.
  pose proof (advance_while_spec cond (Lexer.remaining lx) c _ lx
                (conj H (conj (le_n _) eq_refl))) as Hrun.
  destruct (Lexer.advance_while cond (Lexer.remaining lx) lx) as [[[] | e |] lx']; auto.
  eapply lexing_from_weaken; [| exact Hrun]. destruct (_ && _); lia.
Qed.

(** Blanks and comments. *)
Lemma skip_loop_spec n startPos :
  hoare is_lexer_error
    (fun lx => lexing_from src startPos lx /\ Lexer.remaining lx <= n)
    (Lexer.skip_loop n startPos)
    (fun skipped lx => lexing_from src startPos lx
                       /\ (skipped = true -> startPos < Lexer.current lx)).
Proof.
  induction n as [| n IH]; intros lx (H & Hn).
  - cbn [Lexer.skip_loop]. cbv zeta. destruct (Lexer.isAtEnd lx) eqn:Hend.
    + split; [exact H |]. intros Hs. apply negb_true_iff, Nat.eqb_neq in Hs.
      destruct H as [_ Hc]. lia.
    + apply not_at_end_remaining in Hend. lia.
  - cbn [Lexer.skip_loop]. cbv zeta.
    assert (Hdone : lexing_from src startPos lx
                    /\ (negb (Lexer.current lx =? startPos) = true
                        -> startPos < Lexer.current lx)).
    { split; [exact H |]. intros Hs. apply negb_true_iff, Nat.eqb_neq in Hs.
      destruct H as [_ Hc]. lia. }
    destruct (Lexer.isAtEnd lx) eqn:Hend; [exact Hdone |].
    pose proof (not_at_end_remaining lx Hend) as Hrem.
    destruct H as [H Hc]. pose proof H as (Hsrc & _).
    assert (Hnext : forall lx', lexing_from src (S (Lexer.current lx)) lx' ->
              lexing_from src startPos lx' /\ Lexer.remaining lx' <= n).
    { intros lx' [H' Hc']. split; [split; [exact H' | lia] |].
      apply remaining_from with (c := S (Lexer.current lx)); [apply H' | | exact Hc'].
      unfold Lexer.remaining in Hn. rewrite Hsrc in Hn. lia. }
    destruct (_ || _).
    { apply (hoare_bind_here (fun _ => lexing_from src (S (Lexer.current lx)))).
      - exact (advance_spec (Lexer.current lx) lx (conj H (le_n _))).
      - intros _ lx' H'. apply IH. auto. }
    destruct (char_eqb (Lexer.peek lx) LF) eqn:Hlf.
    { apply (hoare_bind_here (fun _ => lexing_from src (Lexer.current lx))).
      - cbn. split; [exact (lexing_next_line lx H) | reflexivity].
      - intros _.
        apply (hoare_bind _ _ (fun _ => lexing_from src (S (Lexer.current lx))));
          [apply advance_spec |].
        intros _ lx' H'. apply IH. auto. }
    destruct (char_eqb (Lexer.peek lx) "/"); [| exact Hdone].
    destruct (char_eqb (Lexer.peekNext lx) "/"); [| exact Hdone].
    apply (hoare_bind_here (fun _ => lexing_from src (S (Lexer.current lx)))).
    + refine (advance_while_spec _ (Lexer.remaining lx) (Lexer.current lx) true lx _).
      split; [split; [exact H | lia] |]. split; [lia |].
      rewrite Hend, Hlf. reflexivity.
    + intros _ lx' H'. apply IH. auto.
Qed.

Lemma own_property_In {K V} (eqb : K -> K -> bool) (key : K) (obj : list (K * V)) (v : V) :
  own_property eqb key obj = Some v -> In v (map snd obj).
Proof.
  induction obj as [| [k v'] rest IH]; simpl; [discriminate |].
  destruct (eqb k key); [intros [= <-]; now left | right; auto].
Qed.

Lemma keyword_type_not_EOF (keyword : string) :
  default TokenType.IDENTIFIER (own_property String.eqb keyword Keywords) <> TokenType.EOF.
Proof.
  destruct (own_property String.eqb keyword Keywords) as [ty |] eqn:Hty; simpl;
    [| discriminate].
  apply own_property_In in Hty. simpl in Hty. intros ->. intuition discriminate.
Qed.

Lemma Keywords_get_not_EOF (name : string) :
  default TokenType.IDENTIFIER (Keywords_get name) <> TokenType.EOF.
Proof.
  unfold Keywords_get. pose proof (keyword_type_not_EOF name) as H.
  destruct (own_property String.eqb name Keywords) as [ty |]; [exact H |].
  destruct (existsb _ _); discriminate.
Qed.

Lemma SingleCharTokens_not_EOF (char : ascii) (ty : TokenType.t) :
  own_property char_eqb char SingleCharTokens = Some ty -> ty <> TokenType.EOF.
Proof.
  intros Hty. apply own_property_In in Hty. simpl in Hty. intros ->. intuition discriminate.
Qed.

Lemma sortedKeywords_nonempty : Forall (fun k => 1 <= String.length k) Lexer.sortedKeywords.
Proof.
  assert (H : forallb (fun k => 1 <=? String.length k) Lexer.sortedKeywords = true)
    by (vm_compute; reflexivity).
  rewrite forallb_forall in H. apply List.Forall_forall. intros k Hk.
  apply Nat.leb_le. auto.
Qed.

(** A keyword, when one starts here. *)
Lemma matchKeyword_loop_spec keywords c :
  Forall (fun k => 1 <= String.length k) keywords ->
  hoare is_lexer_error (lexing_from src c) (Lexer.matchKeyword_loop keywords)
    (fun matched => lexing_from src (if matched : bool then S c else c)).
Proof.
  induction keywords as [| keyword rest IH]; intros Hall lx H.
  - exact H.
  - cbn [Lexer.matchKeyword_loop]. cbv zeta.
    apply Forall_cons in Hall as [Hlen Hall].
    destruct (startsWith _ _); [| exact (IH Hall lx H)].
    destruct (_ || _); [| exact (IH Hall lx H)].
    apply (hoare_bind_here (fun _ => lexing_from src (S c))).
    + pose proof (advance_times_spec (String.length keyword) c lx H) as Hrun.
      destruct (Lexer.advance_times (String.length keyword) lx) as [[[] | e |] lx']; auto.
      eapply lexing_from_weaken; [| exact Hrun]. lia.
    + intros _.
      apply (hoare_bind _ _ (fun _ => lexing_from src (S c)));
        [apply addToken_spec, keyword_type_not_EOF |].
      intros _. apply hoare_ret. auto.
Qed.

(** The characters of a string literal. *)
Lemma string_loop_spec n c :
  hoare is_lexer_error (fun lx => lexing_from src c lx /\ Lexer.remaining lx <= n)
    (Lexer.string_loop n) (fun _ => lexing_from src c).
Proof.
  revert c. induction n as [| n IH]; intros c lx (H & Hn); cbn [Lexer.string_loop].
  - destruct (_ && _) eqn:Hcond; [| exact H].
    apply andb_true_iff in Hcond as [_ Hend]. apply negb_true_iff in Hend.
    apply not_at_end_remaining in Hend. lia.
  - destruct (_ && _) eqn:Hcond; [| exact H].
    apply andb_true_iff in Hcond as [_ Hend]. apply negb_true_iff in Hend.
    apply not_at_end_remaining in Hend. cbv zeta.
    destruct H as [H Hc]. pose proof H as (Hsrc & _).
    set (lx1 := if char_eqb (Lexer.peek lx) LF
                then Lexer.set_column 0 (Lexer.set_line (S (Lexer.line lx)) lx) else lx).
    assert (H1 : lexing src lx1 /\ Lexer.current lx1 = Lexer.current lx).
    { subst lx1. destruct (char_eqb _ _); [| auto].
      split; [exact (lexing_next_line lx H) | reflexivity]. }
    destruct H1 as [H1 Hc1]. clearbody lx1.
    apply (hoare_bind_here (fun _ => lexing_from src (Lexer.current lx))).
    + destruct (char_eqb (Lexer.peek lx1) BACKSLASH).
      * apply (hoare_bind_here (fun _ => lexing_from src (Lexer.current lx))).
        -- pose proof (advance_spec (Lexer.current lx) lx1
                         (conj H1 (Nat.eq_le_incl _ _ (eq_sym Hc1)))) as Hrun.
           destruct (Lexer.advance lx1) as [[oc | e |] lx']; auto.
           eapply lexing_from_weaken; [| exact Hrun]. lia.
        -- intros _. apply hoare_ret. auto.
      * split; [exact H1 | lia].
    + intros _.
      apply (hoare_bind _ _ (fun _ => lexing_from src (S (Lexer.current lx))));
        [apply advance_spec |].
      intros _ lx' [H' Hc']. apply IH. split; [split; [exact H' | lia] |].
      apply remaining_from with (c := S (Lexer.current lx)); [apply H' | | exact Hc'].
      unfold Lexer.remaining in Hn. rewrite Hsrc in Hn. lia.
Qed.

Lemma string_spec c :
  hoare is_lexer_error (lexing_from src c) Lexer.string_ (fun _ => lexing_from src c).
Proof.
  intros lx H. unfold Lexer.string_. cbv zeta.
  apply (hoare_bind_here (fun _ => lexing_from src c)).
  - exact (string_loop_spec (Lexer.remaining lx) c lx (conj H (le_n _))).
  - intros _ lx1 H1. destruct (Lexer.isAtEnd lx1); [exact I |].
    apply (hoare_bind_here (fun _ => lexing_from src c)).
    + pose proof (advance_spec c lx1 H1) as Hrun.
      destruct (Lexer.advance lx1) as [[oc | e |] lx']; auto.
      eapply lexing_from_weaken; [| exact Hrun]. lia.
    + intros _ lx2 H2. apply addToken_spec; [discriminate | exact H2].
Qed.

Lemma number_spec c :
  hoare is_lexer_error (lexing_from src c) Lexer.number (fun _ => lexing_from src c).
Proof.
  intros lx H. unfold Lexer.number.
  apply (hoare_bind_here (fun _ => lexing_from src c)).
  - exact (advance_while_here _ c lx H).
  - intros _. apply (hoare_bind _ _ (fun _ => lexing_from src c)).
    + intros lx1 H1. destruct (_ && _); [| exact H1].
      apply (hoare_bind_here (fun _ => lexing_from src c)).
      * pose proof (advance_spec c lx1 H1) as Hrun.
        destruct (Lexer.advance lx1) as [[oc | e |] lx']; auto.
        eapply lexing_from_weaken; [| exact Hrun]. lia.
      * intros _ lx2 H2. exact (advance_while_here _ c lx2 H2).
    + intros _ lx1 H1. cbv zeta. apply addToken_spec; [discriminate | exact H1].
Qed.

Lemma identifier_spec c :
  hoare is_lexer_error (lexing_from src c) Lexer.identifier (fun _ => lexing_from src c).
Proof.
  intros lx H. unfold Lexer.identifier.
  apply (hoare_bind_here (fun _ => lexing_from src c)).
  - exact (advance_while_here _ c lx H).
  - intros _ lx1 H1. cbv zeta. apply addToken_spec; [apply Keywords_get_not_EOF | exact H1].
Qed.

Lemma two_char_spec second yes no c :
  yes <> TokenType.EOF -> no <> TokenType.EOF ->
  hoare is_lexer_error (lexing_from src c) (Lexer.two_char second yes no)
    (fun _ => lexing_from src c).
Proof.
  intros Hyes Hno. unfold Lexer.two_char.
  apply (hoare_bind _ _ (fun _ => lexing_from src c)); [apply match_spec |].
  intros m. apply addToken_spec. destruct m; assumption.
Qed.

Lemma match_then_spec second type char c :
  type <> TokenType.EOF ->
  hoare is_lexer_error (lexing_from src c)
    (m <- Lexer.match_ second ;;
     if m : bool then Lexer.addToken type LitNull else Lexer.unexpected char)
    (fun _ => lexing_from src c).
Proof.
  intros Hty.
  apply (hoare_bind _ _ (fun _ => lexing_from src c)); [apply match_spec |].
  intros [|]; [apply addToken_spec, Hty |]. intros lx H. exact I.
Qed.

(** One round of the scanner consumes a character at least. *)
Lemma scanToken_spec c :
  hoare is_lexer_error (fun lx => lexing src lx /\ Lexer.current lx = c) Lexer.scanToken
    (fun _ => lexing_from src (S c)).
Proof.
  intros lx [H Hc]. unfold Lexer.scanToken.
  apply (hoare_bind_here
           (fun skipped lx' => lexing_from src c lx' /\ (skipped = true -> c < Lexer.current lx'))).
  { unfold Lexer.skipWhitespaceAndComments. rewrite Hc.
    apply skip_loop_spec. split; [split; [exact H | lia] | lia]. }
  intros [|].
  { apply hoare_ret. intros lx1 [[H1 _] Hlt]. split; [exact H1 |]. apply Hlt. reflexivity. }
  apply (hoare_bind _ _ (fun matched => lexing_from src (if matched : bool then S c else c))).
  { eapply hoare_consequence;
      [apply (matchKeyword_loop_spec _ c), sortedKeywords_nonempty | | auto].
    intros lx1 [H1 _]. exact H1. }
  intros [|]; [apply hoare_ret; auto |].
  intros lx1 H1.
  apply (hoare_bind_here (fun _ => lexing_from src (S c))).
  { exact (advance_spec c lx1 H1). }
  intros oc. cbv zeta.
  destruct (own_property char_eqb (default NUL oc) SingleCharTokens) as [ty |] eqn:Hty.
  { apply addToken_spec. exact (SingleCharTokens_not_EOF _ _ Hty). }
  repeat (destruct (char_eqb (default NUL oc) _);
          [first [ apply two_char_spec; discriminate
                 | apply match_then_spec; discriminate
                 | apply string_spec ] |]).
  destruct (Lexer.isDigit _); [apply number_spec |].
  destruct (Lexer.isAlpha _); [apply identifier_spec |].
  intros lx2 H2. exact I.
Qed.

Lemma tokenize_loop_spec n :
  hoare is_lexer_error (fun lx => lexing src lx /\ Lexer.remaining lx <= n)
    (Lexer.tokenize_loop n) (fun _ => lexing src).
Proof.
  induction n as [| n IH]; intros lx (H & Hn); cbn [Lexer.tokenize_loop].
  - destruct (Lexer.isAtEnd lx) eqn:Hend; [exact H |].
    apply not_at_end_remaining in Hend. lia.
  - destruct (Lexer.isAtEnd lx) eqn:Hend; [exact H |].
    apply not_at_end_remaining in Hend. pose proof H as (Hsrc & _).
    apply (hoare_bind_here (fun _ lx' => lexing src lx' /\ Lexer.current lx' = Lexer.current lx)).
    + cbn. split; [| reflexivity]. exact (lexing_same lx _ eq_refl eq_refl eq_refl H).
    + intros _.
      apply (hoare_bind _ _ (fun _ => lexing_from src (S (Lexer.current lx))));
        [apply scanToken_spec |].
      intros _ lx' [H' Hc']. apply IH. split; [exact H' |].
      apply remaining_from with (c := S (Lexer.current lx)); [apply H' | | exact Hc'].
      unfold Lexer.remaining in Hn. rewrite Hsrc in Hn. lia.
Qed.

End LexerInvariant.

Lemma lexing_new (src : string) : lexing src (Lexer.new src).
Proof.
  repeat split; simpl; auto. intros i j ti tj Hi. discriminate.
Qed.

(** X1. The token list that [tokenize] returns ends with its one [EOF] token,
    the line numbers of its tokens start at 1 and never go down along the
    list; what [tokenize] throws is a [LexerError], and its loops stay
    within their bounds on every source. *)
Theorem tokens_end_with_the_only_EOF (src : string) :
  match tokenize src with
  | Done toks =>
      exists body eof,
        toks = (body ++ [eof])%list
        /\ tok_type eof = TokenType.EOF
        /\ Forall (fun t => tok_type t <> TokenType.EOF) body
        /\ Forall (fun t => 1 <= tok_line t) toks
        /\ lines_nondecreasing toks
  | Raise e => is_lexer_error e
  | Timeout => False
  end.
Proof.
  unfold tokenize, Lexer.tokenize.
  pose proof (tokenize_loop_spec src (Lexer.remaining (Lexer.new src)) (Lexer.new src)
                (conj (lexing_new src) (le_n _))) as Hrun.
  unfold bind.
  destruct (Lexer.tokenize_loop _ _) as [[[] | e |] lx]; simpl; auto.
  destruct Hrun as (Hsrc & Hline & Htoks & Hsorted).
  exists (Lexer.tokens lx), (mkToken TokenType.EOF "" LitNull (Lexer.line lx) (Lexer.column lx)).
  repeat split.
  - eapply Forall_impl; [exact Htoks |]. intros t H. apply H.
  - apply Forall_app. split.
    + eapply Forall_impl; [exact Htoks |]. intros t H. apply H.
    + constructor; [exact Hline | constructor].
  - intros i j ti tj Hi Hj Hij.
    destruct (decide (j < length (Lexer.tokens lx))) as [Hlt | Hge].
    + rewrite lookup_app_l in Hi by lia. rewrite lookup_app_l in Hj by lia. eauto.
    + rewrite lookup_app_r in Hj by lia.
      destruct (j - length (Lexer.tokens lx)) as [| k]; [| destruct k; discriminate].
      injection Hj as <-. simpl.
      destruct (decide (i < length (Lexer.tokens lx))) as [Hlt | Hge'].
      * rewrite lookup_app_l in Hi by lia.
        rewrite Forall_lookup in Htoks. destruct (Htoks i ti Hi) as (_ & _ & H). exact H.
      * rewrite lookup_app_r in Hi by lia.
        destruct (i - length (Lexer.tokens lx)) as [| k]; [| destruct k; discriminate].
        injection Hi as <-. reflexivity.
Qed.

Section ThrowsOnly.
Context {S E : Type}.
Variable X : E -> Prop.

Lemma throws_only_ret {A} (a : A) : throws_only X (ret a : M S E A).
Proof. intros st. exact I. Qed.

Lemma throws_only_timeout {A} : throws_only X (timeout : M S E A).
Proof. intros st. exact I. Qed.

Lemma throws_only_throw {A} (e : E) : X e -> throws_only X (throw e : M S E A).
Proof. intros H st. exact H. Qed.

Lemma throws_only_bind {A B} (m : M S E A) (k : A -> M S E B) :
  throws_only X m -> (forall a, throws_only X (k a)) -> throws_only X (bind m k).
Proof.
  intros Hm Hk st. unfold bind. specialize (Hm st).
  destruct (m st) as [[a | e |] st']; simpl in *; auto. apply Hk.
Qed.

Lemma throws_only_for_each {A} (f : A -> M S E unit) (xs : list A) :
  (forall x, In x xs -> throws_only X (f x)) -> throws_only X (for_each f xs).
Proof.
  induction xs as [| x xs IH]; intros H; simpl; [apply throws_only_ret |].
  apply throws_only_bind; [apply H; now left |]. intros _. apply IH.
  intros y Hy. apply H. now right.
Qed.

Lemma throws_only_map_M {A B} (f : A -> M S E B) (xs : list A) :
  (forall x, In x xs -> throws_only X (f x)) -> throws_only X (map_M f xs).
Proof.
  induction xs as [| x xs IH]; intros H; simpl; [apply throws_only_ret |].
  apply throws_only_bind; [apply H; now left |]. intros y.
  apply throws_only_bind; [apply IH; intros z Hz; apply H; now right |].
  intros ys. apply throws_only_ret.
Qed.

End ThrowsOnly.

(** The operations of the interpreter throw errors of the language. *)
Lemma get_throws_errors env x line : throws_only is_error (Interpreter.get env x line).
Proof.
  intros st. unfold Interpreter.get.
  destruct (Interpreter.get_in _ _ _ _) as [[v |] |]; exact I.
Qed.

Lemma assign_throws_errors env x v line :
  throws_only is_error (Interpreter.assign env x v line).
Proof.
  intros st. unfold Interpreter.assign.
  destruct (Interpreter.holder_in _ _ _ _) as [[h |] |]; exact I.
Qed.

Lemma get_callee_throws_errors x line : throws_only is_error (Interpreter.get_callee x line).
Proof.
  intros st. unfold Interpreter.get_callee.
  destruct (Interpreter.get _ _ _ _) as [[v | e |] st']; exact I.
Qed.

Lemma unary_operation_throws_errors op v line :
  throws_only is_error (Interpreter.unary_operation op v line).
Proof.
  intros st.
  unfold Interpreter.unary_operation, Interpreter.checkNumberOperand, bind, ret,
    Interpreter.runtime_error, throw.
  destruct (String.eqb op "-"); [destruct (Interpreter.is_number v); exact I |].
  destruct (String.eqb op "!"); exact I.
Qed.

Lemma binary_operation_throws_errors op l r line :
  throws_only is_error (Interpreter.binary_operation op l r line).
Proof.
  intros st.
  unfold Interpreter.binary_operation, Interpreter.checkNumberOperands, bind, ret,
    Interpreter.runtime_error, throw.
  repeat match goal with
         | |- context [if ?c then _ else _] => destruct c; simpl; try exact I
         end.
Qed.

(** [MasalaFunction.call] catches the signal of every [return] in the
    body: whatever the body is, a call throws errors only. *)
Lemma catch_return_throws_errors (body : Interpreter.I unit) :
  throws_only is_error (Interpreter.catch_return body).
Proof.
  intros st. unfold Interpreter.catch_return.
  destruct (body st) as [[[] | [e | v] |] st']; exact I.
Qed.

Lemma in_environment_throws {A} (X : thrown -> Prop) env (body : Interpreter.I A) :
  throws_only X body -> throws_only X (Interpreter.in_environment env body).
Proof.
  intros H st. unfold Interpreter.in_environment.
  specialize (H (Interpreter.set_environment env st)).
  destruct (body _) as [r st']. exact H.
Qed.

Lemma bind_parameters_throws_errors env params args i :
  throws_only is_error (Interpreter.bind_parameters env params args i).
Proof.
  revert i. induction params as [| p params IH]; intros i; simpl;
    [apply throws_only_ret |].
  apply throws_only_bind; [intros st; exact I | intros _; apply IH].
Qed.

Section ErrorsOnly.
Variable exec : stmt -> Interpreter.I unit.

Lemma call_value_throws_errors name callee args line :
  throws_only is_error (Interpreter.call_value exec name callee args line).
Proof.
  destruct callee as [| b | n | s | id fname params body l closure]; simpl;
    try (apply throws_only_throw; exact I).
  destruct (negb _); [apply throws_only_throw; exact I |].
  unfold Interpreter.MasalaFunction_call.
  apply throws_only_bind; [intros st; exact I |]. intros env.
  apply throws_only_bind; [apply bind_parameters_throws_errors |]. intros _.
  apply catch_return_throws_errors.
Qed.

(** The evaluation of an expression throws errors only, whatever the
    statements of the functions it calls do. *)
Lemma evaluate_throws_errors e : throws_only is_error (Interpreter.evaluate exec e).
Proof.
  induction e as [op l IHl r IHr line | op o IHo line | callee args IHargs line
                 | v line | name line | e IHe line | name v IHv line]; simpl.
  - apply throws_only_bind; [exact IHl |]. intros x.
    apply throws_only_bind; [exact IHr |]. intros y. apply binary_operation_throws_errors.
  - apply throws_only_bind; [exact IHo |]. intros x. apply unary_operation_throws_errors.
  - apply throws_only_bind; [apply get_callee_throws_errors |]. intros c.
    apply throws_only_bind.
    + apply throws_only_map_M. exact (list_all_In _ _ IHargs).
    + intros vs. apply call_value_throws_errors.
  - apply throws_only_ret.
  - apply throws_only_bind; [intros st; exact I |]. intros env. apply get_throws_errors.
  - exact IHe.
  - apply throws_only_bind; [exact IHv |]. intros x.
    apply throws_only_bind; [intros st; exact I |]. intros env.
    apply throws_only_bind; [apply assign_throws_errors | intros _; apply throws_only_ret].
Qed.

Hypothesis exec_throws_errors :
  forall s, return_outside_function s = false -> throws_only is_error (exec s).

Lemma run_branch_throws_errors block :
  existsb return_outside_function block = false ->
  throws_only is_error (run_branch exec block).
Proof.
  intros Hblock. unfold run_branch.
  apply throws_only_bind; [intros st; exact I |]. intros outer.
  apply throws_only_bind; [intros st; exact I |]. intros env.
  apply in_environment_throws, throws_only_for_each. intros s Hs.
  apply exec_throws_errors.
  destruct (return_outside_function s) eqn:Hret; [| reflexivity].
  rewrite <- Hblock. symmetry. apply existsb_exists. eauto.
Qed.

Lemma executeIfStatement_throws_errors conditions consequents alternate :
  existsb (existsb return_outside_function) consequents = false ->
  match alternate with
  | Some block => existsb return_outside_function block
  | None => false
  end = false ->
  throws_only is_error (Interpreter.executeIfStatement exec conditions consequents alternate).
Proof.
  intros Hcons Halt. revert consequents Hcons.
  assert (Helse : throws_only is_error
            match alternate with
            | Some block => run_branch exec block
            | None => ret tt
            end).
  { destruct alternate; [apply run_branch_throws_errors, Halt | apply throws_only_ret]. }
  induction conditions as [| c conditions IH]; intros consequents Hcons; simpl.
  - exact Helse.
  - destruct consequents as [| block consequents]; [exact Helse |].
    simpl in Hcons. apply orb_false_iff in Hcons as [Hblock Hcons].
    apply throws_only_bind; [apply evaluate_throws_errors |]. intros v.
    destruct (Interpreter.isTruthy v); [exact (run_branch_throws_errors block Hblock) |].
    apply IH, Hcons.
Qed.

Lemma while_loop_throws_errors fuel condition body line iterations :
  existsb return_outside_function body = false ->
  throws_only is_error (Interpreter.while_loop exec fuel condition body line iterations).
Proof.
  intros Hbody. revert iterations. induction fuel as [| fuel IH]; intros iterations; simpl.
  - apply throws_only_bind; [apply evaluate_throws_errors |]. intros v.
    destruct (Interpreter.isTruthy v); [| apply throws_only_ret].
    destruct (_ <? _)%N; [apply throws_only_throw; exact I | apply throws_only_timeout].
  - apply throws_only_bind; [apply evaluate_throws_errors |]. intros v.
    destruct (Interpreter.isTruthy v); [| apply throws_only_ret].
    destruct (_ <? _)%N; [apply throws_only_throw; exact I |].
    change (throws_only is_error
              (run_branch exec body ;;;
               Interpreter.while_loop exec fuel condition body line (N.succ iterations))).
    apply throws_only_bind; [apply run_branch_throws_errors, Hbody | intros _; apply IH].
Qed.

End ErrorsOnly.

(** A statement with no return outside the functions it declares throws
    errors only. *)
Lemma executeStatement_throws_errors fuel s :
  return_outside_function s = false ->
  throws_only is_error (Interpreter.executeStatement fuel s).
Proof.
  revert s. induction fuel as [| fuel IH]; intros s Hs; simpl;
    [apply throws_only_timeout |].
  destruct s as [name e line | es line | conds conss alt line | cond body line | line
                | name params body line | v line | e line | body]; simpl in Hs.
  - apply throws_only_bind; [apply evaluate_throws_errors |]. intros v.
    apply throws_only_bind; intros; intros st; exact I.
  - unfold Interpreter.executePrintStatement.
    apply throws_only_bind.
    + apply throws_only_map_M. intros e _. apply evaluate_throws_errors.
    + intros vs st. exact I.
  - apply orb_false_iff in Hs as [Hcons Halt].
    exact (executeIfStatement_throws_errors _ IH conds conss alt Hcons Halt).
  - exact (while_loop_throws_errors _ IH fuel cond body line 0%N Hs).
  - apply throws_only_throw. exact I.
  - intros st. exact I.
  - discriminate.
  - apply throws_only_bind; [apply evaluate_throws_errors | intros _; apply throws_only_ret].
  - exact (run_branch_throws_errors _ IH body Hs).
Qed.

Lemma execute_throws_errors fuel (ast : Program) :
  existsb return_outside_function ast = false ->
  throws_only is_error (Interpreter.execute fuel ast).
Proof.
  intros Hast. unfold Interpreter.execute.
  apply throws_only_bind; [intros st; exact I |]. intros _.
  apply throws_only_bind; [intros st; exact I |]. intros _.
  apply throws_only_bind; [| intros _ st; exact I].
  apply throws_only_for_each. intros s Hs. apply executeStatement_throws_errors.
  destruct (return_outside_function s) eqn:Hret; [| reflexivity].
  rewrite <- Hast. symmetry. apply existsb_exists. eauto.
Qed.

(** A program that passes the analysis has no return outside a function. *)
Lemma analysed_has_no_stray_return (ast ast' : Program) (an an' : Analyzer.t) :
  Analyzer.analyze ast an = (Done ast', an') -> existsb return_outside_function ast = false.
Proof.
  intros Hdone. destruct (existsb return_outside_function ast) eqn:Hret; [| reflexivity].
  pose proof (visitProgram_function ast) as H. rewrite Hret in H.
  destruct (triple_fails _ _ _ _ clean_slate H (conj eq_refl eq_refl))
    as (e & st1 & Hrun & He).
  unfold Analyzer.analyze in Hdone. fold clean_slate in Hdone. rewrite Hrun in Hdone.
  discriminate.
Qed.

Lemma stray_return_parses :
  parse_source stray_return_source = Done [ReturnStatement (Some (Literal (LitNumber 1) 2)) 2].
Proof. vm_compute. reflexivity. Qed.

Lemma run_without_analysis fuel src ast an it out :
  parse_source src = Done ast ->
  fst (MasalaScript.run fuel src (MasalaScript.mk true an it out))
  = match fst (Interpreter.execute fuel ast it) with
    | Done o => Success o
    | Raise e => Failure e
    | Timeout => RunTimeout
    end.
Proof.
  intros Hparse. unfold MasalaScript.run, parse_source in *.
  destruct (tokenize src) as [toks | |]; try discriminate.
  rewrite Hparse. simpl.
  destruct (Interpreter.execute fuel ast it) as [[o | e |] it']; reflexivity.
Qed.

(** X14. With the analysis on, the signal of a [return] never comes out of
    [run] as the error object of a failed run: the analysis has refused
    every return outside a function, and a call catches the signal of
    every return of its body.  (Nothing is said of the other objects that
    [run] may catch.)  With the analysis skipped, the signal of a return
    at the top level does come out of [run] as the error object. *)
Theorem no_return_signal_leaves_run (fuel : nat) (src : string) (an : Analyzer.t)
    (it : Interpreter.t) (out : list string) :
  match fst (MasalaScript.run fuel src (MasalaScript.mk false an it out)) with
  | Failure (ReturnValue _) => False
  | _ => True
  end
  /\ fst (MasalaScript.run (S fuel) stray_return_source (MasalaScript.mk true an it out))
     = Failure (ReturnValue (VNumber 1%float)).
Proof.
  split.
  - unfold MasalaScript.run. cbn [MasalaScript.skipAnalysis MasalaScript.analyzer
                                  MasalaScript.interpreter].
    destruct (tokenize src) as [toks | e |]; simpl; auto.
    destruct (parse toks) as [ast | e |]; simpl; auto.
    destruct (Analyzer.analyze ast an) as [[ast' | e |] an'] eqn:Han; simpl; auto.
    pose proof (execute_throws_errors fuel ast
                  (analysed_has_no_stray_return ast ast' an an' Han) it) as H.
    destruct (Interpreter.execute fuel ast it) as [[o | [e | v] |] it']; simpl in *; auto.
  - rewrite (run_without_analysis (S fuel) stray_return_source _ an it out stray_return_parses).
    reflexivity.
Qed.

(** ** The two parsers *)

Section Agree.
Variable toks : list Token.

Lemma agree_bind {A B} (m1 m2 : Parser.P A) (k1 k2 : A -> Parser.P B) :
  agree toks m1 m2 -> (forall a, agree toks (k1 a) (k2 a)) ->
  agree toks (bind m1 k1) (bind m2 k2).
Proof.
  intros Hm Hk ps Hps. unfold bind. specialize (Hm ps Hps).
  destruct (m1 ps) as [[a | e |] ps1], (m2 ps) as [[b | e' |] ps2]; try easy.
  destruct Hm as (-> & -> & Ht). exact (Hk b ps2 Ht).
Qed.

(** A computation agrees with itself when it leaves the tokens alone. *)
Lemma agree_same {A} (m : Parser.P A) :
  (forall ps, Parser.tokens (snd (m ps)) = Parser.tokens ps) -> agree toks m m.
Proof.
  intros H ps Hps. specialize (H ps).
  destruct (m ps) as [[a | e |] ps1]; simpl in *; auto. repeat split. congruence.
Qed.

Lemma agree_ret {A} (a : A) : agree toks (ret a) (ret a).
Proof. apply agree_same. reflexivity. Qed.

Lemma agree_timeout {A} : agree toks (timeout : Parser.P A) timeout.
Proof. apply agree_same. reflexivity. Qed.

Lemma agree_read {A} (f : Parser.t -> A) :
  agree toks (fun ps => (Done (f ps), ps)) (fun ps => (Done (f ps), ps)).
Proof. apply agree_same. reflexivity. Qed.

Lemma agree_raise {A} (f : Parser.t -> MasalaError) :
  agree toks (fun ps => (Raise (f ps), ps) : outcome MasalaError A * Parser.t)
    (fun ps => (Raise (f ps), ps)).
Proof. apply agree_same. reflexivity. Qed.

Lemma advance_tokens ps : Parser.tokens (snd (Parser.advance ps)) = Parser.tokens ps.
Proof. unfold Parser.advance. simpl. destruct (negb _); reflexivity. Qed.

Lemma agree_advance : agree toks Parser.advance Parser.advance.
Proof. apply agree_same, advance_tokens. Qed.

Lemma agree_match types : agree toks (Parser.match_ types) (Parser.match_ types).
Proof.
  apply agree_same. induction types as [| type rest IH]; intros ps; simpl; [reflexivity |].
  destruct (Parser.check type ps); [| apply IH].
  unfold bind. pose proof (advance_tokens ps) as H.
  destruct (Parser.advance ps) as [[t | e |] ps']; exact H.
Qed.

Lemma agree_error_here {A} message :
  agree toks (Parser.error_here message : Parser.P A) (Parser.error_here message).
Proof. apply agree_same. reflexivity. Qed.

Lemma agree_consume type message :
  agree toks (Parser.consume type message) (Parser.consume type message).
Proof.
  apply agree_same. intros ps. unfold Parser.consume.
  destruct (Parser.check type ps); [apply advance_tokens | reflexivity].
Qed.

Lemma agree_peek_line : agree toks Parser.peek_line Parser.peek_line.
Proof. apply agree_same. reflexivity. Qed.

Lemma agree_checking type : agree toks (Parser.checking type) (Parser.checking type).
Proof. apply agree_same. reflexivity. Qed.

Lemma agree_rounds : agree toks Parser.rounds Parser.rounds.
Proof. apply agree_same. reflexivity. Qed.

(** A computation that looks at the state it starts in. *)
Lemma agree_state {A} (m1 m2 : Parser.t -> Parser.P A) :
  (forall ps0, agree toks (m1 ps0) (m2 ps0)) ->
  agree toks (fun ps => m1 ps ps) (fun ps => m2 ps ps).
Proof. intros H ps Hps. exact (H ps ps Hps). Qed.

Ltac agree_basic :=
  first [ apply agree_ret | apply agree_timeout | apply agree_advance | apply agree_match
        | apply agree_error_here | apply agree_consume | apply agree_peek_line
        | apply agree_checking | apply agree_rounds | assumption
        | apply agree_read | apply agree_raise ].

Ltac agree_known := fail.

Ltac agree_go :=
  repeat first
    [ agree_basic
    | agree_known
    | apply agree_bind; [| intros ?]
    | progress cbv zeta
    | match goal with
      | |- agree _ (if ?b then _ else _) (if ?b then _ else _) => destruct b
      | |- agree _ (match ?e with _ => _ end) (match ?e with _ => _ end) => destruct e
      end ].

(** *** The loops *)

Lemma agree_binary_loop n types (operand operand' : Parser.P expr) e :
  agree toks operand operand' ->
  agree toks (Parser.binary_loop n types operand e) (Parser.binary_loop n types operand' e).
Proof.
  intros Hop. revert e. induction n as [| n IH]; intros e; simpl.
  - agree_go.
  - apply agree_bind; [apply agree_match |]. intros [|]; [| apply agree_ret].
    apply (agree_state
             (fun ps0 => right <- operand ;;
                         fun ps' => Parser.binary_loop n types operand
                           (BinaryExpression (tok_lexeme (Parser.previous ps0)) e right
                              (tok_line (Parser.previous ps'))) ps')
             (fun ps0 => right <- operand' ;;
                         fun ps' => Parser.binary_loop n types operand'
                           (BinaryExpression (tok_lexeme (Parser.previous ps0)) e right
                              (tok_line (Parser.previous ps'))) ps')).
    intros ps0. apply agree_bind; [exact Hop |]. intros right.
    apply (agree_state
             (fun ps' => Parser.binary_loop n types operand
                (BinaryExpression (tok_lexeme (Parser.previous ps0)) e right
                   (tok_line (Parser.previous ps'))))
             (fun ps' => Parser.binary_loop n types operand'
                (BinaryExpression (tok_lexeme (Parser.previous ps0)) e right
                   (tok_line (Parser.previous ps'))))).
    intros ps'. apply IH.
Qed.

Lemma agree_statements_until n stop (declaration declaration' : Parser.P stmt) :
  agree toks declaration declaration' ->
  agree toks (Parser.statements_until n stop declaration)
    (Parser.statements_until n stop declaration').
Proof.
  intros Hd. induction n as [| n IH]; intros ps Hps; simpl.
  - destruct (_ && _); simpl; auto.
  - destruct (_ && _); [| simpl; auto].
    revert ps Hps. change (agree toks
      (s <- declaration ;; rest <- Parser.statements_until n stop declaration ;; ret (s :: rest))
      (s <- declaration' ;; rest <- Parser.statements_until n stop declaration' ;;
       ret (s :: rest))).
    agree_go.
Qed.

Lemma agree_comma_separated {A} n (item item' : Parser.P A) :
  agree toks item item' ->
  agree toks (Parser.comma_separated n item) (Parser.comma_separated n item').
Proof.
  intros Hi. induction n as [| n IH]; cbn [Parser.comma_separated]; agree_go.
Qed.

Lemma agree_elseif_loop n (clause clause' : Parser.P (expr * list stmt)) :
  agree toks clause clause' ->
  agree toks (Parser.elseif_loop n clause) (Parser.elseif_loop n clause').
Proof.
  intros Hc. induction n as [| n IH]; intros ps Hps; simpl.
  - destruct (Parser.check _ _); simpl; auto.
  - destruct (Parser.check _ _); [| simpl; auto].
    revert ps Hps. change (agree toks
      (Parser.advance ;;; c <- clause ;; rest <- Parser.elseif_loop n clause ;; ret (c :: rest))
      (Parser.advance ;;; c <- clause' ;; rest <- Parser.elseif_loop n clause' ;;
       ret (c :: rest))).
    agree_go.
Qed.

Ltac agree_known ::=
  first [ apply agree_binary_loop | apply agree_statements_until
        | apply agree_comma_separated | apply agree_elseif_loop ].

Lemma agree_at {A} (m1 m2 : Parser.P A) (ps : Parser.t) :
  agree toks m1 m2 -> Parser.tokens ps = toks ->
  match m1 ps, m2 ps with
  | (Done a, ps1), (Done b, ps2) => a = b /\ ps1 = ps2 /\ Parser.tokens ps1 = toks
  | (Raise e1, _), (Raise e2, _) => e1 = e2
  | (Timeout, _), (Timeout, _) => True
  | _, _ => False
  end.
Proof. intros H Hps. exact (H ps Hps). Qed.

(** *** The end of the input *)

Lemma not_at_end_in_range (ps : Parser.t) :
  Parser.isAtEnd ps = false -> Parser.current ps < length (Parser.tokens ps).
Proof.
  unfold Parser.isAtEnd, Parser.peek, Parser.token_at. intros H.
  destruct (decide (Parser.current ps < length (Parser.tokens ps))) as [Hlt | Hge];
    [exact Hlt |].
  rewrite nth_overflow in H by lia. discriminate.
Qed.

Lemma TokenType_eqb_eq (a b : TokenType.t) : TokenType.eqb a b = true -> a = b.
Proof. destruct a, b; intros H; first [reflexivity | discriminate H]. Qed.

(** The token that [check] has found. *)
Lemma check_true type (ps : Parser.t) :
  Parser.check type ps = true ->
  Parser.current ps < length (Parser.tokens ps)
  /\ tok_type (Parser.peek ps) = type
  /\ In (Parser.peek ps) (Parser.tokens ps).
Proof.
  unfold Parser.check. intros H.
  destruct (Parser.isAtEnd ps) eqn:Hend; [discriminate |].
  pose proof (not_at_end_in_range ps Hend) as Hlt.
  split; [exact Hlt |]. split; [apply TokenType_eqb_eq, H |].
  unfold Parser.peek, Parser.token_at. apply nth_In, Hlt.
Qed.

(** *** What a computation returns *)

Lemma yields_bind {A B} Pre (m : Parser.P A) (k : A -> Parser.P B) Q R :
  yields toks Pre m Q -> (forall a, yields toks (Q a) (k a) R) ->
  yields toks Pre (bind m k) R.
Proof.
  intros Hm Hk ps Hps Hpre. unfold bind. specialize (Hm ps Hps Hpre).
  destruct (m ps) as [[a | e |] ps1]; auto.
  destruct Hm as [Ht Hq]. exact (Hk a ps1 Ht Hq).
Qed.

Lemma yields_weaken {A} (Pre Pre' : Parser.t -> Prop) (m : Parser.P A)
    (Q Q' : A -> Parser.t -> Prop) :
  yields toks Pre' m Q' -> (forall ps, Pre ps -> Pre' ps) ->
  (forall a ps, Q' a ps -> Q a ps) -> yields toks Pre m Q.
Proof.
  intros Hm Hpre Hq ps Hps HP. specialize (Hm ps Hps (Hpre ps HP)).
  destruct (m ps) as [[a | e |] ps1]; auto.
  destruct Hm as [Ht HQ]. split; [exact Ht | apply Hq, HQ].
Qed.

(** A computation that agrees with another keeps the tokens. *)
Lemma agree_yields {A} (m m' : Parser.P A) (Pre : Parser.t -> Prop) :
  agree toks m m' -> yields toks Pre m (fun _ _ => True).
Proof.
  intros H ps Hps _. specialize (H ps Hps).
  destruct (m ps) as [[a | e |] ps1], (m' ps) as [[b | e' |] ps2]; easy.
Qed.

Lemma yields_ret {A} (Pre : Parser.t -> Prop) (a : A) (Q : A -> Parser.t -> Prop) :
  (forall ps, Q a ps) -> yields toks Pre (ret a) Q.
Proof. intros H ps Hps _. simpl. split; [exact Hps | apply H]. Qed.

(** After [match(type)] has said yes, the previous token is a token of
    the list and has this type. *)
Lemma yields_match type (Pre : Parser.t -> Prop) :
  yields toks Pre (Parser.match_ [type])
    (fun m ps' => m = true ->
                  tok_type (Parser.previous ps') = type /\ In (Parser.previous ps') toks).
Proof.
  intros ps Hps _. cbn [Parser.match_].
  destruct (Parser.check type ps) eqn:Hc; [| simpl; split; [exact Hps | discriminate]].
  pose proof (check_true _ _ Hc) as (Hlt & Hty & Hin).
  unfold Parser.check in Hc. destruct (Parser.isAtEnd ps) eqn:Hend; [discriminate |].
  unfold bind, Parser.advance. rewrite Hend. simpl.
  split; [exact Hps |]. intros _.
  unfold Parser.previous, Parser.token_at. simpl. rewrite Nat.sub_0_r.
  rewrite <- Hps. split; [exact Hty | exact Hin].
Qed.

(** Binding a computation whose value is known to satisfy [Q]. *)
Lemma agree_bind_post {A B} (Q : A -> Prop) (m1 m2 : Parser.P A) (k1 k2 : A -> Parser.P B) :
  agree toks m1 m2 ->
  yields toks (fun _ => True) m1 (fun a _ => Q a) ->
  (forall a, Q a -> agree toks (k1 a) (k2 a)) ->
  agree toks (bind m1 k1) (bind m2 k2).
Proof.
  intros Hm Hy Hk ps Hps. unfold bind. specialize (Hm ps Hps). specialize (Hy ps Hps I).
  destruct (m1 ps) as [[a | e |] ps1], (m2 ps) as [[b | e' |] ps2]; try easy.
  destruct Hm as (-> & -> & Ht). destruct Hy as [_ Hq]. exact (Hk b Hq ps2 Ht).
Qed.

(** *** Expressions *)

Section Comparable.
Variables b b' : bool.
Hypothesis parsers_comparable : comparable toks b b'.

(** The two parsers give the same name to the callee that is the identifier
    of a token of the list. *)
Lemma identifier_callee (t : Token) (line : nat) :
  In t toks -> tok_type t = TokenType.IDENTIFIER ->
  Parser.calleeName b (Identifier (tok_lexeme t) line)
  = Parser.calleeName b' (Identifier (tok_lexeme t) line).
Proof.
  intros Hin Hty. destruct parsers_comparable as [-> | (-> & -> & _ & Hnamed)];
    [reflexivity |].
  unfold named_identifiers in Hnamed. rewrite forallb_forall in Hnamed.
  specialize (Hnamed t Hin). rewrite Hty in Hnamed. simpl in Hnamed.
  apply negb_true_iff in Hnamed. simpl. rewrite Hnamed. reflexivity.
Qed.

(** What [primary] returns has the same name as a callee for the two
    parsers. *)
Lemma primary_callee (expression expression' : Parser.P expr) :
  agree toks expression expression' ->
  yields toks (fun _ => True) (Parser.primary expression)
    (fun e _ => Parser.calleeName b e = Parser.calleeName b' e).
Proof.
  intros He. unfold Parser.primary.
  apply yields_bind with (Q := fun _ _ => True);
    [apply (agree_yields _ _ _ agree_peek_line) |]. intros line.
  do 3 (eapply yields_bind; [apply yields_match |]; intros [|];
        [apply yields_ret; reflexivity |]).
  do 2 (eapply yields_bind; [apply yields_match |]; intros [|];
        [intros ps Hps _; split; [exact Hps | reflexivity] |]).
  eapply yields_bind; [apply yields_match |]. intros [|].
  { intros ps Hps Hq. destruct (Hq eq_refl) as [Hty Hin].
    split; [exact Hps | apply identifier_callee; assumption]. }
  eapply yields_bind; [apply yields_match |]. intros [|].
  - apply yields_bind with (Q := fun _ _ => True); [apply (agree_yields _ _ _ He) |].
    intros e.
    apply yields_bind with (Q := fun _ _ => True);
      [apply (agree_yields _ _ _ (agree_consume _ _)) |].
    intros _. apply yields_ret. reflexivity.
  - intros ps Hps _. exact I.
Qed.

(** Every parser gives the name ['<expr>'] to a callee that is a call. *)
Lemma finishCall_callee c (expression expression' : Parser.P expr) callee :
  agree toks expression expression' ->
  yields toks (fun _ => True) (Parser.finishCall c expression callee)
    (fun e _ => forall d d', Parser.calleeName d e = Parser.calleeName d' e).
Proof.
  intros He. unfold Parser.finishCall.
  apply yields_bind with (Q := fun _ _ => True);
    [apply (agree_yields _ _ _ agree_rounds) |]. intros n.
  apply yields_bind with (Q := fun _ _ => True);
    [apply (agree_yields _ _ _ (agree_checking _)) |]. intros at_rparen.
  apply yields_bind with (Q := fun _ _ => True).
  { destruct at_rparen; [apply (agree_yields _ _ _ (agree_ret _)) |].
    apply (agree_yields _ _ _ (agree_comma_separated n _ _ He)). }
  intros args.
  apply yields_bind with (Q := fun _ _ => True);
    [apply (agree_yields _ _ _ (agree_consume _ _)) |].
  intros paren. apply yields_ret. reflexivity.
Qed.

Lemma agree_finishCall (expression expression' : Parser.P expr) callee :
  agree toks expression expression' ->
  Parser.calleeName b callee = Parser.calleeName b' callee ->
  agree toks (Parser.finishCall b expression callee)
    (Parser.finishCall b' expression' callee).
Proof.
  intros He Hname. unfold Parser.finishCall. rewrite Hname. agree_go.
Qed.

Lemma agree_call_loop n (expression expression' : Parser.P expr) e :
  agree toks expression expression' ->
  Parser.calleeName b e = Parser.calleeName b' e ->
  agree toks (Parser.call_loop n (Parser.finishCall b expression) e)
    (Parser.call_loop n (Parser.finishCall b' expression') e).
Proof.
  intros He. revert e. induction n as [| n IH]; intros e Hname; cbn [Parser.call_loop];
    (apply agree_bind; [apply agree_match |]); intros [|];
    try apply agree_ret; try apply agree_timeout.
  apply agree_bind_post
    with (Q := fun e => forall d d', Parser.calleeName d e = Parser.calleeName d' e).
  - apply agree_finishCall; assumption.
  - apply finishCall_callee with expression'. exact He.
  - intros e' Hq. apply IH, Hq.
Qed.

Lemma agree_primary (expression expression' : Parser.P expr) :
  agree toks expression expression' ->
  agree toks (Parser.primary expression) (Parser.primary expression').
Proof. intros He. unfold Parser.primary. agree_go. Qed.

Lemma agree_call (expression expression' : Parser.P expr) :
  agree toks expression expression' ->
  agree toks (Parser.call b expression) (Parser.call b' expression').
Proof.
  intros He. unfold Parser.call.
  apply agree_bind_post
    with (Q := fun e => Parser.calleeName b e = Parser.calleeName b' e).
  - apply agree_primary, He.
  - apply primary_callee with expression'. exact He.
  - intros e Hname. apply agree_bind; [apply agree_rounds |]. intros n.
    apply agree_call_loop; assumption.
Qed.

Ltac agree_known ::=
  first [ apply agree_binary_loop | apply agree_statements_until
        | apply agree_comma_separated | apply agree_elseif_loop
        | apply agree_primary | apply agree_call ].

Lemma agree_expressions fuel :
  agree toks (Parser.expression b fuel) (Parser.expression b' fuel)
  /\ agree toks (Parser.assignment b fuel) (Parser.assignment b' fuel)
  /\ agree toks (Parser.logicOr b fuel) (Parser.logicOr b' fuel)
  /\ agree toks (Parser.logicAnd b fuel) (Parser.logicAnd b' fuel)
  /\ agree toks (Parser.equality b fuel) (Parser.equality b' fuel)
  /\ agree toks (Parser.comparison b fuel) (Parser.comparison b' fuel)
  /\ agree toks (Parser.term b fuel) (Parser.term b' fuel)
  /\ agree toks (Parser.factor b fuel) (Parser.factor b' fuel)
  /\ agree toks (Parser.unary b fuel) (Parser.unary b' fuel).
Proof.
  induction fuel as [| fuel (He & Ha & Hor & Hand & Heq & Hcmp & Hterm & Hfac & Hun)].
  - repeat split; apply agree_timeout.
  - repeat split;
      cbn [Parser.expression Parser.assignment Parser.logicOr Parser.logicAnd
           Parser.equality Parser.comparison Parser.term Parser.factor Parser.unary];
      agree_go.
    intros ps Hps. cbv beta zeta. refine (agree_at _ _ ps _ Hps). agree_go.
Qed.

Lemma agree_expression fuel :
  agree toks (Parser.expression b fuel) (Parser.expression b' fuel).
Proof. apply agree_expressions. Qed.

Ltac agree_known ::=
  first [ apply agree_binary_loop | apply agree_statements_until
        | apply agree_comma_separated | apply agree_elseif_loop
        | apply agree_primary | apply agree_call
        | apply agree_expression ].

(** *** Statements *)

Lemma agree_variableDeclaration fuel :
  agree toks (Parser.variableDeclaration b fuel) (Parser.variableDeclaration b' fuel).
Proof. unfold Parser.variableDeclaration. agree_go. Qed.

Lemma agree_parameter : agree toks Parser.parameter Parser.parameter.
Proof. unfold Parser.parameter. agree_go. Qed.

Lemma agree_returnStatement fuel :
  agree toks (Parser.returnStatement b fuel) (Parser.returnStatement b' fuel).
Proof.
  unfold Parser.returnStatement. agree_go.
  intros ps Hps. cbv beta. destruct (_ && _); [| simpl; auto].
  refine (agree_at _ _ ps _ Hps). agree_go.
Qed.

Lemma agree_printStatement fuel :
  agree toks (Parser.printStatement b fuel) (Parser.printStatement b' fuel).
Proof.
  unfold Parser.printStatement. agree_go.
Qed.

Lemma agree_breakStatement : agree toks Parser.breakStatement Parser.breakStatement.
Proof. unfold Parser.breakStatement. agree_go. Qed.

Lemma agree_expressionStatement fuel :
  agree toks (Parser.expressionStatement b fuel) (Parser.expressionStatement b' fuel).
Proof. unfold Parser.expressionStatement. agree_go. Qed.

Section Declarations.
Variables declaration declaration' : Parser.P stmt.
Hypothesis declarations_agree : agree toks declaration declaration'.

Lemma agree_block : agree toks (Parser.block declaration) (Parser.block declaration').
Proof.
  unfold Parser.block. agree_go.
Qed.

Lemma agree_condition_and_block fuel :
  agree toks (Parser.condition_and_block b fuel declaration)
    (Parser.condition_and_block b' fuel declaration').
Proof.
  unfold Parser.condition_and_block. agree_go.
Qed.

Lemma agree_ifStatement fuel :
  agree toks (Parser.ifStatement b fuel declaration)
    (Parser.ifStatement b' fuel declaration').
Proof.
  unfold Parser.ifStatement. agree_go.
Qed.

Lemma agree_whileStatement fuel :
  agree toks (Parser.whileStatement b fuel declaration)
    (Parser.whileStatement b' fuel declaration').
Proof. unfold Parser.whileStatement. agree_go. Qed.

Lemma agree_functionDeclaration :
  agree toks (Parser.functionDeclaration declaration)
    (Parser.functionDeclaration declaration').
Proof.
  unfold Parser.functionDeclaration. agree_go.
Qed.

End Declarations.

(** *** The end of a run of [synchronize] *)

Lemma synchronize_loop_done n (ps : Parser.t) :
  length (Parser.tokens ps) - Parser.current ps <= n ->
  exists ps', Parser.synchronize_loop n ps = (Done tt, ps').
Proof.
  revert ps. induction n as [| n IH]; intros ps Hn; cbn [Parser.synchronize_loop];
    destruct (Parser.isAtEnd ps) eqn:Hend; eauto;
    destruct (Parser.is_boundary _); eauto;
    pose proof (not_at_end_in_range ps Hend) as Hlt; [lia |].
  unfold bind, Parser.advance. rewrite Hend. simpl. apply IH. simpl. lia.
Qed.

(** [synchronize] comes to an end: it stops at the [EOF] token at the
    latest. *)
Lemma synchronize_done (ps : Parser.t) : exists ps', Parser.synchronize ps = (Done tt, ps').
Proof.
  unfold Parser.synchronize, bind.
  pose proof (advance_tokens ps) as Ht.
  destruct (Parser.advance ps) as [[t | e |] ps1] eqn:Hadv; try discriminate.
  apply synchronize_loop_done. simpl in Ht. rewrite Ht. lia.
Qed.

(** Catching an error, synchronizing and throwing the error again throws
    the error. *)
Lemma agree_try_synchronize {A} (m1 m2 : Parser.P A) :
  agree toks m1 m2 -> agree toks m1 (Parser.try_synchronize m2).
Proof.
  intros H ps Hps. specialize (H ps Hps). unfold Parser.try_synchronize.
  destruct (m1 ps) as [[a | e |] ps1], (m2 ps) as [[a' | e' |] ps2]; try easy.
  destruct (synchronize_done ps2) as [ps' ->]. exact H.
Qed.

Lemma agree_try_both {A} (m1 m2 : Parser.P A) :
  agree toks m1 m2 -> agree toks (Parser.try_synchronize m1) (Parser.try_synchronize m2).
Proof.
  intros H ps Hps. specialize (H ps Hps). unfold Parser.try_synchronize.
  destruct (m1 ps) as [[a | e |] ps1], (m2 ps) as [[a' | e' |] ps2]; try easy.
  destruct (synchronize_done ps1) as [ps1' ->], (synchronize_done ps2) as [ps2' ->]. exact H.
Qed.

(** *** Where the two parsers differ *)

Lemma check_BREAK (ps : Parser.t) :
  no_break toks = true -> Parser.tokens ps = toks ->
  Parser.check TokenType.BREAK ps = false.
Proof.
  intros Hno Hps. unfold Parser.check, Parser.isAtEnd, Parser.peek, Parser.token_at.
  rewrite Hps. destruct (TokenType.eqb _ TokenType.EOF); [reflexivity |].
  destruct (nth_in_or_default (Parser.current ps) toks (mkToken TokenType.EOF "" LitNull 0 0))
    as [Hin | ->]; [| reflexivity].
  unfold no_break in Hno. rewrite forallb_forall in Hno.
  apply negb_true_iff, Hno, Hin.
Qed.

Lemma agree_statement fuel (declaration declaration' : Parser.P stmt) :
  agree toks declaration declaration' ->
  agree toks (Parser.statement b fuel declaration) (Parser.statement b' fuel declaration').
Proof.
  intros Hd ps Hps. unfold Parser.statement.
  assert (Hbreak : b' && Parser.check TokenType.BREAK ps
                   = b && Parser.check TokenType.BREAK ps).
  { destruct parsers_comparable as [-> | (-> & -> & Hno & _)]; [reflexivity |].
    rewrite (check_BREAK ps Hno Hps). reflexivity. }
  rewrite Hbreak. destruct (b && Parser.check TokenType.BREAK ps);
    repeat match goal with
           | |- context [if Parser.check ?t ps then _ else _] => destruct (Parser.check t ps)
           end;
    first [ exact (agree_ifStatement _ _ Hd fuel ps Hps)
          | exact (agree_whileStatement _ _ Hd fuel ps Hps)
          | exact (agree_breakStatement ps Hps)
          | exact (agree_returnStatement fuel ps Hps)
          | exact (agree_printStatement fuel ps Hps)
          | exact (agree_expressionStatement fuel ps Hps)
          | refine (agree_at _ _ ps _ Hps); agree_go ].
Qed.

Lemma agree_declaration fuel :
  agree toks (Parser.declaration b fuel) (Parser.declaration b' fuel).
Proof.
  induction fuel as [| fuel IH]; cbn [Parser.declaration]; [apply agree_timeout |].
  cbv zeta.
  assert (Hbody : agree toks
            (fun ps =>
               if Parser.check TokenType.CLIMAX ps
               then Parser.functionDeclaration (Parser.declaration b fuel) ps
               else if Parser.check TokenType.MAAN_LO ps
                    then Parser.variableDeclaration b fuel ps
                    else Parser.statement b fuel (Parser.declaration b fuel) ps)
            (fun ps =>
               if Parser.check TokenType.CLIMAX ps
               then Parser.functionDeclaration (Parser.declaration b' fuel) ps
               else if Parser.check TokenType.MAAN_LO ps
                    then Parser.variableDeclaration b' fuel ps
                    else Parser.statement b' fuel (Parser.declaration b' fuel) ps)).
  { intros ps Hps.
    repeat match goal with
           | |- context [if Parser.check ?t ps then _ else _] => destruct (Parser.check t ps)
           end;
      refine (agree_at _ _ ps _ Hps).
    - apply agree_functionDeclaration, IH.
    - apply agree_variableDeclaration.
    - apply agree_statement. exact IH. }
  clear IH. revert Hbody. destruct parsers_comparable as [Heq | (Hb & Hb' & _)].
  - rewrite Heq. intros Hbody. destruct b'; [exact Hbody | apply agree_try_both, Hbody].
  - rewrite Hb, Hb'. intros Hbody. apply agree_try_synchronize, Hbody.
Qed.

Lemma agree_program fuel : agree toks (Parser.program b fuel) (Parser.program b' fuel).
Proof.
  intros ps Hps. unfold Parser.program.
  destruct (negb _); [simpl; reflexivity |].
  refine (agree_at _ _ ps _ Hps). agree_go.
  - apply agree_declaration.
  - intros ps' Hps'. cbv beta. destruct (negb _); [simpl; reflexivity |].
    exact (agree_at (Parser.advance ;;; ret a1) (Parser.advance ;;; ret a1) ps'
             (agree_bind _ _ _ _ agree_advance (fun _ => agree_ret a1)) Hps').
Qed.

Lemma agree_parse : agree toks (Parser.parse b) (Parser.parse b').
Proof. intros ps Hps. unfold Parser.parse. exact (agree_program _ ps Hps). Qed.

End Comparable.
End Agree.

(** *** The parser stays in the token list *)

Section InRange.
Variable toks : list Token.
Hypothesis toks_end : ends_with_EOF toks = true.

Lemma range_refl (ps : Parser.t) : stays_in_range toks ps ps.
Proof. intros Ht Hlt. split; [exact Ht | split; [lia | exact Hlt]]. Qed.

Lemma range_trans (ps1 ps2 ps3 : Parser.t) :
  stays_in_range toks ps1 ps2 -> stays_in_range toks ps2 ps3 ->
  stays_in_range toks ps1 ps3.
Proof.
  intros H12 H23 Ht Hlt. destruct (H12 Ht Hlt) as (Ht2 & Hle2 & Hlt2).
  destruct (H23 Ht2 Hlt2) as (Ht3 & Hle3 & Hlt3).
  split; [exact Ht3 | split; [lia | exact Hlt3]].
Qed.

(** The token before the last one is not the [EOF] token's place: a token
    of the list that is not an [EOF] token has a token after it. *)
Lemma not_last (i : nat) :
  i < length toks ->
  TokenType.eqb (tok_type (nth i toks (mkToken TokenType.EOF "" LitNull 0 0))) TokenType.EOF
  = false ->
  S i < length toks.
Proof.
  intros Hlt Hty. destruct (decide (S i < length toks)) as [H | H]; [exact H |].
  assert (Hi : i = pred (length toks)) by lia.
  unfold ends_with_EOF in toks_end. rewrite last_lookup, <- Hi in toks_end.
  rewrite nth_lookup in Hty. destruct (toks !! i) as [t |]; [| discriminate].
  simpl in Hty. congruence.
Qed.

Lemma range_advance : related (stays_in_range toks) Parser.advance.
Proof.
  intros ps Ht Hlt. unfold Parser.advance. simpl.
  destruct (Parser.isAtEnd ps) eqn:Hend; simpl; [split; [exact Ht | split; [lia | exact Hlt]] |].
  split; [exact Ht | split; [lia |]].
  apply not_last; [exact Hlt |]. unfold Parser.isAtEnd, Parser.peek, Parser.token_at in Hend.
  rewrite Ht in Hend. exact Hend.
Qed.

Lemma range_at {A} (m : Parser.P A) (ps : Parser.t) :
  related (stays_in_range toks) m -> stays_in_range toks ps (snd (m ps)).
Proof. intros H. exact (H ps). Qed.

Lemma range_bind {A B} (m : Parser.P A) (k : A -> Parser.P B) :
  related (stays_in_range toks) m -> (forall a, related (stays_in_range toks) (k a)) ->
  related (stays_in_range toks) (bind m k).
Proof. apply related_bind, range_trans. Qed.

Lemma range_ret {A} (a : A) : related (stays_in_range toks) (ret a : Parser.P A).
Proof. intros ps. apply range_refl. Qed.

Lemma range_timeout {A} : related (stays_in_range toks) (timeout : Parser.P A).
Proof. intros ps. apply range_refl. Qed.

Lemma range_read {A} (f : Parser.t -> outcome MasalaError A) :
  related (stays_in_range toks) (fun ps => (f ps, ps)).
Proof. intros ps. apply range_refl. Qed.

Lemma range_match types : related (stays_in_range toks) (Parser.match_ types).
Proof.
  induction types as [| type rest IH]; intros ps; cbn [Parser.match_];
    [apply range_refl |].
  destruct (Parser.check type ps); [| apply IH].
  exact (range_bind _ _ range_advance (fun _ => range_ret true) ps).
Qed.

Lemma range_error_here {A} message :
  related (stays_in_range toks) (Parser.error_here message : Parser.P A).
Proof. intros ps. apply range_refl. Qed.

Lemma range_consume type message :
  related (stays_in_range toks) (Parser.consume type message).
Proof.
  intros ps. unfold Parser.consume.
  destruct (Parser.check type ps); [apply range_advance | apply range_refl].
Qed.

Lemma range_peek_line : related (stays_in_range toks) Parser.peek_line.
Proof. intros ps. apply range_refl. Qed.

Lemma range_checking type : related (stays_in_range toks) (Parser.checking type).
Proof. intros ps. apply range_refl. Qed.

Lemma range_rounds : related (stays_in_range toks) Parser.rounds.
Proof. intros ps. apply range_refl. Qed.

Ltac range_basic :=
  first [ apply range_ret | apply range_timeout | apply range_advance | apply range_match
        | apply range_error_here | apply range_consume | apply range_peek_line
        | apply range_checking | apply range_rounds | assumption
        | apply range_read ].

Ltac range_known := fail.

Ltac range_go :=
  repeat first
    [ range_basic
    | range_known
    | apply range_bind; [| intros ?]
    | progress cbv zeta
    | match goal with
      | |- related _ (if ?b then _ else _) => destruct b
      | |- related _ (match ?e with _ => _ end) => destruct e
      end ].

(** **** The loops *)

Lemma range_synchronize_loop n : related (stays_in_range toks) (Parser.synchronize_loop n).
Proof.
  induction n as [| n IH]; intros ps; cbn [Parser.synchronize_loop];
    destruct (Parser.isAtEnd ps); try apply range_refl;
    destruct (Parser.is_boundary _); try apply range_refl.
  exact (range_bind _ _ range_advance (fun _ => IH) ps).
Qed.

Lemma range_synchronize : related (stays_in_range toks) Parser.synchronize.
Proof.
  intros ps. unfold Parser.synchronize.
  exact (range_bind _ _ range_advance (fun _ => range_synchronize_loop _) ps).
Qed.

Lemma range_try_synchronize {A} (body : Parser.P A) :
  related (stays_in_range toks) body ->
  related (stays_in_range toks) (Parser.try_synchronize body).
Proof.
  intros H ps. unfold Parser.try_synchronize. specialize (H ps).
  destruct (body ps) as [[a | e |] ps1]; simpl in *; try exact H.
  pose proof (range_synchronize ps1) as Hs.
  destruct (Parser.synchronize ps1) as [[u | e' |] ps2]; simpl in *;
    exact (range_trans _ _ _ H Hs).
Qed.

Lemma range_binary_loop n types (operand : Parser.P expr) e :
  related (stays_in_range toks) operand ->
  related (stays_in_range toks) (Parser.binary_loop n types operand e).
Proof.
  intros Hop. revert e. induction n as [| n IH]; intros e; cbn [Parser.binary_loop].
  - range_go.
  - apply range_bind; [apply range_match |]. intros [|]; [| apply range_ret].
    intros ps. cbv zeta beta.
    refine (range_bind _ _ Hop _ ps). intros right ps'. apply IH.
Qed.

Lemma range_statements_until n stop (declaration : Parser.P stmt) :
  related (stays_in_range toks) declaration ->
  related (stays_in_range toks) (Parser.statements_until n stop declaration).
Proof.
  intros Hd. induction n as [| n IH]; intros ps; cbn [Parser.statements_until];
    destruct (_ && _); try apply range_refl.
  refine (range_bind _ _ Hd _ ps). intros s.
  apply range_bind; [exact IH |]. intros rest. apply range_ret.
Qed.

Lemma range_comma_separated {A} n (item : Parser.P A) :
  related (stays_in_range toks) item ->
  related (stays_in_range toks) (Parser.comma_separated n item).
Proof.
  intros Hi. induction n as [| n IH]; cbn [Parser.comma_separated]; range_go.
Qed.

Lemma range_elseif_loop n (clause : Parser.P (expr * list stmt)) :
  related (stays_in_range toks) clause ->
  related (stays_in_range toks) (Parser.elseif_loop n clause).
Proof.
  intros Hc. induction n as [| n IH]; intros ps; cbn [Parser.elseif_loop];
    destruct (Parser.check _ _); try apply range_refl.
  refine (range_bind _ _ range_advance _ ps). intros _.
  apply range_bind; [exact Hc |]. intros c.
  apply range_bind; [exact IH |]. intros rest. apply range_ret.
Qed.

Lemma range_call_loop n (finishCall : expr -> Parser.P expr) e :
  (forall e, related (stays_in_range toks) (finishCall e)) ->
  related (stays_in_range toks) (Parser.call_loop n finishCall e).
Proof.
  intros Hf. revert e. induction n as [| n IH]; intros e; cbn [Parser.call_loop]; range_go.
  - apply Hf.
  - apply IH.
Qed.

Ltac range_known ::=
  first [ apply range_binary_loop | apply range_statements_until
        | apply range_comma_separated | apply range_elseif_loop
        | apply range_call_loop; intros ? ].

(** **** Expressions and statements *)

Section Grammar.
Variable b : bool.

Lemma range_finishCall (expression : Parser.P expr) callee :
  related (stays_in_range toks) expression ->
  related (stays_in_range toks) (Parser.finishCall b expression callee).
Proof. intros He. unfold Parser.finishCall. range_go. Qed.

Lemma range_primary (expression : Parser.P expr) :
  related (stays_in_range toks) expression ->
  related (stays_in_range toks) (Parser.primary expression).
Proof. intros He. unfold Parser.primary. range_go. Qed.

Lemma range_call (expression : Parser.P expr) :
  related (stays_in_range toks) expression ->
  related (stays_in_range toks) (Parser.call b expression).
Proof.
  intros He. unfold Parser.call. range_go.
Qed.

Lemma range_expressions fuel :
  related (stays_in_range toks) (Parser.expression b fuel)
  /\ related (stays_in_range toks) (Parser.assignment b fuel)
  /\ related (stays_in_range toks) (Parser.logicOr b fuel)
  /\ related (stays_in_range toks) (Parser.logicAnd b fuel)
  /\ related (stays_in_range toks) (Parser.equality b fuel)
  /\ related (stays_in_range toks) (Parser.comparison b fuel)
  /\ related (stays_in_range toks) (Parser.term b fuel)
  /\ related (stays_in_range toks) (Parser.factor b fuel)
  /\ related (stays_in_range toks) (Parser.unary b fuel).
Proof.
  induction fuel as [| fuel (He & Ha & Hor & Hand & Heq & Hcmp & Hterm & Hfac & Hun)].
  - repeat apply conj; apply range_timeout.
  - repeat apply conj;
      cbn [Parser.expression Parser.assignment Parser.logicOr Parser.logicAnd
           Parser.equality Parser.comparison Parser.term Parser.factor Parser.unary];
      range_go.
    intros ps. cbv beta zeta. refine (range_bind _ _ Hun _ ps).
    intros operand ps'. apply range_refl.
Qed.

Lemma range_expression fuel : related (stays_in_range toks) (Parser.expression b fuel).
Proof. apply range_expressions. Qed.

Ltac range_known ::=
  first [ apply range_binary_loop | apply range_statements_until
        | apply range_comma_separated | apply range_elseif_loop
        | apply range_call_loop; intros ?
        | apply range_expression ].

Lemma range_variableDeclaration fuel :
  related (stays_in_range toks) (Parser.variableDeclaration b fuel).
Proof. unfold Parser.variableDeclaration. range_go. Qed.

Lemma range_parameter : related (stays_in_range toks) Parser.parameter.
Proof. unfold Parser.parameter. range_go. Qed.

Lemma range_returnStatement fuel :
  related (stays_in_range toks) (Parser.returnStatement b fuel).
Proof.
  unfold Parser.returnStatement. range_go.
  intros ps. cbv beta. destruct (_ && _); [| apply range_refl].
  refine (range_bind _ _ (range_expression fuel) _ ps). intros value. apply range_ret.
Qed.

Lemma range_printStatement fuel :
  related (stays_in_range toks) (Parser.printStatement b fuel).
Proof. unfold Parser.printStatement. range_go. Qed.

Lemma range_breakStatement : related (stays_in_range toks) Parser.breakStatement.
Proof. unfold Parser.breakStatement. range_go. Qed.

Lemma range_expressionStatement fuel :
  related (stays_in_range toks) (Parser.expressionStatement b fuel).
Proof. unfold Parser.expressionStatement. range_go. Qed.

Section Declarations.
Variable declaration : Parser.P stmt.
Hypothesis declaration_in_range : related (stays_in_range toks) declaration.

Lemma range_block : related (stays_in_range toks) (Parser.block declaration).
Proof. unfold Parser.block. range_go. Qed.

Lemma range_condition_and_block fuel :
  related (stays_in_range toks) (Parser.condition_and_block b fuel declaration).
Proof. unfold Parser.condition_and_block. range_go. Qed.

Lemma range_ifStatement fuel :
  related (stays_in_range toks) (Parser.ifStatement b fuel declaration).
Proof. unfold Parser.ifStatement. range_go. Qed.

Lemma range_whileStatement fuel :
  related (stays_in_range toks) (Parser.whileStatement b fuel declaration).
Proof. unfold Parser.whileStatement. range_go. Qed.

Lemma range_functionDeclaration :
  related (stays_in_range toks) (Parser.functionDeclaration declaration).
Proof.
  unfold Parser.functionDeclaration. range_go.
Qed.

Lemma range_statement fuel :
  related (stays_in_range toks) (Parser.statement b fuel declaration).
Proof.
  intros ps. unfold Parser.statement.
  destruct (b && Parser.check TokenType.BREAK ps);
    repeat match goal with
           | |- context [if Parser.check ?t ps then _ else _] => destruct (Parser.check t ps)
           end;
    first [ exact (range_ifStatement fuel ps)
          | exact (range_whileStatement fuel ps)
          | exact (range_breakStatement ps)
          | exact (range_returnStatement fuel ps)
          | exact (range_printStatement fuel ps)
          | exact (range_expressionStatement fuel ps)
          | refine (range_at _ ps _); range_go ].
Qed.

End Declarations.

Lemma range_declaration fuel : related (stays_in_range toks) (Parser.declaration b fuel).
Proof.
  induction fuel as [| fuel IH]; cbn [Parser.declaration]; [apply range_timeout |].
  cbv zeta.
  assert (Hbody : related (stays_in_range toks)
            (fun ps =>
               if Parser.check TokenType.CLIMAX ps
               then Parser.functionDeclaration (Parser.declaration b fuel) ps
               else if Parser.check TokenType.MAAN_LO ps
                    then Parser.variableDeclaration b fuel ps
                    else Parser.statement b fuel (Parser.declaration b fuel) ps)).
  { intros ps.
    repeat match goal with
           | |- context [if Parser.check ?t ps then _ else _] => destruct (Parser.check t ps)
           end.
    - exact (range_functionDeclaration _ IH ps).
    - exact (range_variableDeclaration fuel ps).
    - exact (range_statement _ IH fuel ps). }
  destruct b; [exact Hbody | apply range_try_synchronize, Hbody].
Qed.

Lemma range_program fuel : related (stays_in_range toks) (Parser.program b fuel).
Proof.
  intros ps. unfold Parser.program.
  destruct (negb _); [apply range_refl |].
  refine (range_at _ ps _). range_go.
  - apply range_declaration.
  - intros ps'. cbv beta. destruct (negb _); [apply range_refl |].
    exact (range_bind _ _ range_advance (fun _ => range_ret _) ps').
Qed.

Lemma range_parse : related (stays_in_range toks) (Parser.parse b).
Proof. intros ps. unfold Parser.parse. exact (range_program _ ps). Qed.

End Grammar.
End InRange.

(** A list that ends with a token has a token. *)
Lemma ends_with_EOF_length (toks : list Token) :
  ends_with_EOF toks = true -> 0 < length toks.
Proof. destruct toks; [discriminate | simpl; lia]. Qed.

(** X2. On a token list as the lexer makes them - the last token is the
    [EOF] token and no [IDENTIFIER] token has the empty lexeme - that has
    no [BREAK] token, the parser of the bundle and the parser of the
    modules return the same program, or throw the same error: the two differ
    by the [break] statement, by the name that they give to a callee whose
    name is empty, and by the module's parser synchronizing before it throws
    the error again, which changes nothing in what comes out.  On such a
    list each of the two parsers ends at a token of the list: none reads
    past the [EOF] token. *)
Theorem parsers_agree_without_break (toks : list Token) :
  ends_with_EOF toks = true ->
  named_identifiers toks = true ->
  no_break toks = true ->
  Bundle.parse toks = parse toks
  /\ (forall bundle,
        Parser.tokens (snd (Parser.parse bundle (Parser.new toks))) = toks
        /\ Parser.current (snd (Parser.parse bundle (Parser.new toks))) < length toks).
Proof.
  intros Hend Hnamed Hno. split.
  - unfold Bundle.parse, parse.
    pose proof (agree_parse toks true false
                  (or_intror (conj eq_refl (conj eq_refl (conj Hno Hnamed))))
                  (Parser.new toks) eq_refl) as H.
    destruct (Parser.parse true (Parser.new toks)) as [[a | e |] ps1],
             (Parser.parse false (Parser.new toks)) as [[b | e' |] ps2]; simpl; try easy.
    + destruct H as [-> _]. reflexivity.
    + now subst.
  - intros bundle.
    destruct (range_parse toks Hend bundle (Parser.new toks) eq_refl
                (ends_with_EOF_length toks Hend)) as (Ht & _ & Hlt).
    split; [exact Ht | exact Hlt].
Qed.

Lemma parsers_agree_without_break_witness :
  Bundle.parse loop_and_function_tokens = parse loop_and_function_tokens
  /\ (forall bundle,
        Parser.tokens (snd (Parser.parse bundle (Parser.new loop_and_function_tokens)))
        = loop_and_function_tokens
        /\ Parser.current (snd (Parser.parse bundle (Parser.new loop_and_function_tokens)))
           < length loop_and_function_tokens).
Proof.
  apply (parsers_agree_without_break loop_and_function_tokens); vm_compute; reflexivity.
Defined.

(** X15. The frame of a program: a token list that a parser (of the bundle or
    of the modules) accepts starts with the [ACTION] token and has a
    [PAISA_VASOOL] token after it; and on a token list that starts with
    another token the parser throws [EXPECTED_ACTION] at that token. *)
Theorem parse_needs_the_frame (bundle : bool) (toks : list Token) :
  (forall ast,
     fst (Parser.parse bundle (Parser.new toks)) = Done ast ->
     exists first rest,
       toks = first :: rest
       /\ tok_type first = TokenType.ACTION
       /\ exists t, In t rest /\ tok_type t = TokenType.PAISA_VASOOL)
  /\ (forall first rest,
        toks = first :: rest ->
        tok_type first <> TokenType.ACTION ->
        fst (Parser.parse bundle (Parser.new toks))
        = Raise (ParserError EXPECTED_ACTION (tok_line first) (tok_column first))).
Proof.
  unfold Parser.parse, Parser.program. set (ps0 := Parser.new toks).
  set (fuel := 20 * S (length (Parser.tokens ps0))).
  split.
  - intros ast. destruct (Parser.check TokenType.ACTION ps0) eqn:Hact;
      [| intros H; discriminate H].
    apply check_true in Hact as (Hlt & Hty & _).
    destruct toks as [| first rest]; [simpl in Hlt; lia |].
    unfold Parser.peek, Parser.token_at in Hty. simpl in Hty.
    intros Hrun. exists first, rest. split; [reflexivity | split; [exact Hty |]].
    cbn [negb] in Hrun. unfold bind at 1 in Hrun.
    pose proof (advance_tokens ps0) as Ht1.
    destruct (Parser.advance ps0) as [[t0 | e |] ps1]; try discriminate Hrun.
    simpl in Ht1. unfold bind at 1 in Hrun. unfold Parser.rounds at 1 in Hrun.
    unfold bind at 1 in Hrun.
    pose proof (agree_statements_until (first :: rest) (length (Parser.tokens ps1))
                  TokenType.PAISA_VASOOL _ _
                  (agree_declaration (first :: rest) bundle bundle (or_introl eq_refl) fuel)
                  ps1 Ht1) as Hkeep.
    destruct (Parser.statements_until _ _ _ ps1) as [[ss | e |] ps2]; try discriminate Hrun.
    destruct Hkeep as (_ & _ & Ht2).
    destruct (Parser.check TokenType.PAISA_VASOOL ps2) eqn:Hend; [| discriminate Hrun].
    apply check_true in Hend as (_ & Hty2 & Hin). rewrite Ht2 in Hin.
    exists (Parser.peek ps2). split; [| exact Hty2].
    destruct Hin as [Heq | Hin]; [| exact Hin]. rewrite <- Heq, Hty in Hty2. discriminate.
  - intros first rest -> Hty. unfold Parser.check, Parser.isAtEnd, Parser.peek,
      Parser.token_at, Parser.error_here. simpl.
    destruct (TokenType.eqb (tok_type first) TokenType.EOF); [reflexivity |].
    destruct (TokenType.eqb (tok_type first) TokenType.ACTION) eqn:Heq; [| reflexivity].
    apply TokenType_eqb_eq in Heq. contradiction.
Qed.

(** ** The scopes of the analyzer *)

Section CompletesWith.
Context {S E : Type}.
Variable R : S -> S -> Prop.
Hypothesis R_refl : forall st, R st st.
Hypothesis R_trans : forall st1 st2 st3, R st1 st2 -> R st2 st3 -> R st1 st3.

Lemma completes_ret {A} (a : A) : completes_with R (ret a : M S E A).
Proof. intros st. apply R_refl. Qed.

Lemma completes_bind {A B} (m : M S E A) (k : A -> M S E B) :
  completes_with R m -> (forall a, completes_with R (k a)) -> completes_with R (bind m k).
Proof.
  intros Hm Hk st. unfold bind. specialize (Hm st).
  destruct (m st) as [[a | e |] st1]; auto.
  specialize (Hk a st1). destruct (k a st1) as [[b | e |] st2]; eauto.
Qed.

Lemma completes_for_each {A} (f : A -> M S E unit) (xs : list A) :
  (forall x, In x xs -> completes_with R (f x)) -> completes_with R (for_each f xs).
Proof.
  induction xs as [| x xs IH]; intros H; simpl; [apply completes_ret |].
  apply completes_bind; [apply H; now left |]. intros _. apply IH.
  intros y Hy. apply H. now right.
Qed.

End CompletesWith.

Lemma for_each_app {S E A} (f : A -> M S E unit) (xs ys : list A) (st : S) :
  for_each f (xs ++ ys) st = (for_each f xs ;;; for_each f ys) st.
Proof.
  revert st. induction xs as [| x xs IH]; intros st; simpl; [reflexivity |].
  unfold bind in *. destruct (f x st) as [[[] | e |] st1]; [| reflexivity | reflexivity].
  apply IH.
Qed.

Lemma scope_step_refl st : scope_step st st.
Proof. repeat split; auto. Qed.

Lemma scope_step_trans st1 st2 st3 :
  scope_step st1 st2 -> scope_step st2 st3 -> scope_step st1 st3.
Proof.
  intros (H1 & H2 & H3 & H4) (H1' & H2' & H3' & H4').
  repeat split; try congruence. by etrans.
Qed.

Lemma same_scopes_step st st' : same_scopes st st' -> scope_step st st'.
Proof.
  intros [Hs Hc]. unfold scope_step, scope_names, Analyzer.currentScope.
  rewrite Hs, Hc. auto.
Qed.

Lemma same_scopes_refl st : same_scopes st st.
Proof. split; reflexivity. Qed.

Lemma same_scopes_trans st1 st2 st3 :
  same_scopes st1 st2 -> same_scopes st2 st3 -> same_scopes st1 st3.
Proof. intros [H1 H2] [H1' H2']. split; congruence. Qed.

Lemma completes_same_step {A} (m : Analyzer.A A) :
  completes_with same_scopes m -> completes_with scope_step m.
Proof.
  intros H st. specialize (H st). destruct (m st) as [[a | e |] st']; auto.
  apply same_scopes_step, H.
Qed.

(** The visit of an expression, and a check, leave the scopes alone. *)
Lemma visitExpression_same_scopes e : completes_with same_scopes (Analyzer.visitExpression e).
Proof.
  intros st. pose proof (visitExpression_reads e st) as H.
  destruct (Analyzer.visitExpression e st) as [[[] | err |] st']; auto.
  subst st'. apply same_scopes_refl.
Qed.

Lemma throw_if_same_scopes cond message line :
  completes_with same_scopes (Analyzer.throw_if cond message line).
Proof.
  intros st. unfold Analyzer.throw_if. destruct (cond st); [exact I | apply same_scopes_refl].
Qed.

(** A declaration adds its name to the current scope. *)
Lemma declare_scope_step name b : completes_with scope_step (Analyzer.declare name b).
Proof.
  intros st. unfold Analyzer.declare, modify.
  destruct (Analyzer.scopes st) as [| scope outer] eqn:Hs; [apply scope_step_refl |].
  unfold scope_step, scope_names, Analyzer.currentScope. simpl. rewrite Hs. simpl.
  repeat split. rewrite dom_insert_L. apply union_subseteq_r.
Qed.

Lemma declare_names name b (st : Analyzer.t) :
  Analyzer.scopes st <> [] -> name ∈ scope_names (snd (Analyzer.declare name b st)).
Proof.
  intros Hne. unfold Analyzer.declare, modify, scope_names, Analyzer.currentScope.
  destruct (Analyzer.scopes st) as [| scope outer] eqn:Hs; [contradiction |]. simpl.
  rewrite dom_insert_L. apply elem_of_union_l, elem_of_singleton. reflexivity.
Qed.

(** A block that is visited in a scope of its own leaves the stack as it
    was. *)
Lemma visitBlock_same_scopes (visit : stmt -> Analyzer.A unit) statements :
  (forall s, In s statements -> completes_with scope_step (visit s)) ->
  completes_with same_scopes (Analyzer.visitBlock_with visit statements true).
Proof.
  intros H st. unfold Analyzer.visitBlock_with, bind, Analyzer.pushScope, modify.
  pose proof (completes_for_each scope_step scope_step_refl scope_step_trans visit statements H
                (Analyzer.set_scopes (∅ :: Analyzer.scopes st) st)) as Hrun.
  destruct (for_each visit statements _) as [[[] | e |] st1]; auto.
  destruct Hrun as (_ & Htail & _ & Hc). simpl in *.
  split; [exact Htail | exact Hc].
Qed.

Lemma visitBlock_scope_step (visit : stmt -> Analyzer.A unit) statements :
  (forall s, In s statements -> completes_with scope_step (visit s)) ->
  completes_with scope_step (Analyzer.visitBlock_with visit statements false).
Proof.
  intros H. unfold Analyzer.visitBlock_with.
  apply completes_bind; [apply scope_step_trans | apply completes_ret, scope_step_refl |].
  intros _.
  apply completes_bind; [apply scope_step_trans | | intros _; apply completes_ret, scope_step_refl].
  apply completes_for_each; [apply scope_step_refl | apply scope_step_trans | exact H].
Qed.

Ltac scope_bind :=
  apply completes_bind; [apply scope_step_trans | |].

(** The scope discipline: a statement that completes leaves the stack of
    scopes at its height, with its outer scopes as they were and with the
    names of the current scope. *)
Lemma visitStatement_scope_step s : completes_with scope_step (Analyzer.visitStatement s).
Proof.
  induction s as [name v line | es line | conds conss IHconss alt IHalt line
                 | cond body IHbody line | line | name params body IHbody line
                 | v line | e line | body IHbody]; simpl.
  - scope_bind; [apply completes_same_step, throw_if_same_scopes |]. intros _.
    scope_bind; [apply completes_same_step, visitExpression_same_scopes |]. intros _.
    apply declare_scope_step.
  - apply completes_for_each; [apply scope_step_refl | apply scope_step_trans |].
    intros e _. apply completes_same_step, visitExpression_same_scopes.
  - scope_bind.
    { apply completes_for_each; [apply scope_step_refl | apply scope_step_trans |].
      intros e _. apply completes_same_step, visitExpression_same_scopes. }
    intros _. scope_bind.
    { apply completes_for_each; [apply scope_step_refl | apply scope_step_trans |].
      intros block Hblock. apply completes_same_step, visitBlock_same_scopes.
      intros s Hs. exact (list_all_nested_In _ _ IHconss block Hblock s Hs). }
    intros _. destruct IHalt as [block IHblock |]; [| apply completes_ret, scope_step_refl].
    apply completes_same_step, visitBlock_same_scopes.
    intros s Hs. exact (list_all_In _ _ IHblock s Hs).
  - scope_bind; [apply completes_same_step, visitExpression_same_scopes |]. intros _.
    apply completes_same_step, visitBlock_same_scopes.
    intros s Hs. exact (list_all_In _ _ IHbody s Hs).
  - apply completes_ret, scope_step_refl.
  - intros st. unfold bind at 1 2. unfold modify at 1. unfold bind at 1.
    unfold Analyzer.pushScope at 1. unfold modify at 1.
    set (st1 := Analyzer.set_scopes _ _).
    assert (Hrest : completes_with scope_step
              (for_each (Analyzer.declare_parameter line) params ;;;
               Analyzer.visitBlock_with Analyzer.visitStatement body false)).
    { scope_bind.
      - apply completes_for_each; [apply scope_step_refl | apply scope_step_trans |].
        intros p _. unfold Analyzer.declare_parameter.
        scope_bind; [apply completes_same_step, throw_if_same_scopes |].
        intros _. apply declare_scope_step.
      - intros _. apply visitBlock_scope_step.
        intros s Hs. exact (list_all_In _ _ IHbody s Hs). }
    specialize (Hrest st1). unfold bind in Hrest |- *.
    destruct (for_each (Analyzer.declare_parameter line) params st1) as [[[] | e |] st2]; auto.
    destruct (Analyzer.visitBlock_with Analyzer.visitStatement body false st2)
      as [[[] | e |] st3]; auto.
    destruct Hrest as (Hlen & Htail & _ & _). subst st1. simpl in *.
    unfold scope_step, scope_names, Analyzer.currentScope. simpl.
    rewrite Htail. auto.
  - scope_bind; [apply completes_same_step, throw_if_same_scopes |]. intros _.
    destruct v; [apply completes_same_step, visitExpression_same_scopes
                | apply completes_ret, scope_step_refl].
  - apply completes_same_step, visitExpression_same_scopes.
  - apply visitBlock_scope_step. intros s Hs. exact (list_all_In _ _ IHbody s Hs).
Qed.

Lemma scope_step_nonempty st st' :
  scope_step st st' -> Analyzer.scopes st <> [] -> Analyzer.scopes st' <> [].
Proof.
  intros (Hlen & _) Hne Hnil. rewrite Hnil in Hlen.
  destruct (Analyzer.scopes st); [contradiction | discriminate].
Qed.

(** The statements of a list that complete leave in the current scope the
    names they declare in it. *)
Lemma for_each_declares x (visit : stmt -> Analyzer.A unit) statements :
  (forall s, In s statements -> completes_with scope_step (visit s)) ->
  (forall s, In s statements -> forall st,
     Analyzer.scopes st <> [] -> declares x s = true ->
     match visit s st with (Done _, st') => x ∈ scope_names st' | _ => True end) ->
  forall st, Analyzer.scopes st <> [] -> existsb (declares x) statements = true ->
    match for_each visit statements st with
    | (Done _, st') => x ∈ scope_names st'
    | _ => True
    end.
Proof.
  induction statements as [| s statements IH]; intros Hstep Hdecl st Hne Hx; simpl in *;
    [discriminate |].
  unfold bind.
  pose proof (Hstep s (or_introl eq_refl) st) as Hs.
  pose proof (Hdecl s (or_introl eq_refl) st Hne) as Hd.
  destruct (visit s st) as [[[] | e |] st1]; auto.
  pose proof (scope_step_nonempty st st1 Hs Hne) as Hne1.
  destruct (declares x s) eqn:Hxs.
  - specialize (Hd eq_refl).
    pose proof (completes_for_each scope_step scope_step_refl scope_step_trans visit statements
                  (fun y Hy => Hstep y (or_intror Hy)) st1) as Hrest.
    destruct (for_each visit statements st1) as [[[] | e |] st2]; auto.
    destruct Hrest as (_ & _ & Hnames & _). apply Hnames, Hd.
  - apply IH; [intros y Hy; apply Hstep; now right
              | intros y Hy; apply Hdecl; now right | exact Hne1 | exact Hx].
Qed.

Lemma visitStatement_declares x s (st : Analyzer.t) :
  Analyzer.scopes st <> [] -> declares x s = true ->
  match Analyzer.visitStatement s st with
  | (Done _, st') => x ∈ scope_names st'
  | _ => True
  end.
Proof.
  revert st.
  induction s as [name v line | es line | conds conss IHconss alt IHalt line
                 | cond body IHbody line | line | name params body IHbody line
                 | v line | e line | body IHbody]; intros st Hne Hx; simpl in Hx;
    try discriminate.
  - apply String.eqb_eq in Hx. subst name. simpl. unfold bind, Analyzer.throw_if.
    destruct (bool_decide _); [exact I |].
    pose proof (visitExpression_reads v st) as Hv.
    destruct (Analyzer.visitExpression v st) as [[[] | err |] st1]; auto.
    subst st1. exact (declare_names x _ st Hne).
  - simpl. unfold Analyzer.visitBlock_with, bind, ret.
    pose proof (for_each_declares x Analyzer.visitStatement body
                  (fun s _ => visitStatement_scope_step s)
                  (fun s Hs st0 => list_all_In _ _ IHbody s Hs st0) st Hne Hx) as H.
    destruct (for_each Analyzer.visitStatement body st) as [[[] | e |] st1]; auto.
Qed.

(** The first pass puts the names of the functions into the current
    scope. *)
Lemma first_pass_scope (ast : Program) (st : Analyzer.t) :
  Analyzer.scopes st <> [] ->
  match for_each Analyzer.declareFunction ast st with
  | (Done _, st') =>
      scope_step st st' /\ forall g, g ∈ function_names ast -> g ∈ scope_names st'
  | _ => True
  end.
Proof.
  revert st. induction ast as [| s ast IH]; intros st Hne; simpl.
  - split; [apply scope_step_refl |]. intros g Hg. inversion Hg.
  - assert (Hskip : (forall name ps b l, s <> FunctionDeclaration name ps b l) ->
              Analyzer.declareFunction s = ret tt
              /\ function_names (s :: ast) = function_names ast).
    { intros Hs. destruct s; try (split; reflexivity). exfalso. eapply Hs. reflexivity. }
    destruct s as [| | | | | name params body line | | |];
      try (destruct Hskip as [-> Hnames]; [intros; discriminate |];
           unfold bind, ret; exact (IH st Hne)).
    clear Hskip. unfold bind at 1. rewrite declareFunction_step.
    destruct (bool_decide _); [exact I |].
    set (st1 := with_function name params line st).
    assert (Hstep : scope_step st st1).
    { pose proof (declare_scope_step name (Analyzer.mkBinding Analyzer.function line)
                    (Analyzer.set_functions
                       (<[name := Analyzer.mkFuncInfo params (length params) line]>
                          (Analyzer.functions st)) st)) as H.
      exact H. }
    assert (Hname : name ∈ scope_names st1).
    { exact (declare_names name (Analyzer.mkBinding Analyzer.function line)
               (Analyzer.set_functions
                  (<[name := Analyzer.mkFuncInfo params (length params) line]>
                     (Analyzer.functions st)) st) Hne). }
    specialize (IH st1 (scope_step_nonempty st st1 Hstep Hne)).
    destruct (for_each Analyzer.declareFunction ast st1) as [[[] | e |] st2]; auto.
    destruct IH as [Hstep2 Hnames]. split; [exact (scope_step_trans _ _ _ Hstep Hstep2) |].
    intros g Hg. apply elem_of_cons in Hg as [-> | Hg]; [| auto].
    destruct Hstep2 as (_ & _ & Hsub & _). apply Hsub, Hname.
Qed.

(** X6. A name may be declared once in a scope: the analysis rejects a program
    that declares a variable at its top level under a name that a statement
    before it has declared there, or that is the name of a function of the
    top level (declared before or after the variable); what is declared in
    between in a branch, a loop body or a function does not matter. *)
Theorem redeclaration_rejected (pre post : list stmt) (x : string) (value : expr) (line : nat)
    (an : Analyzer.t) :
  existsb (declares x) pre = true
  \/ x ∈ function_names (pre ++ VariableDeclaration x value line :: post)%list ->
  exists message l an',
    Analyzer.analyze (pre ++ VariableDeclaration x value line :: post)%list an
    = (Raise (SemanticError message l), an').
Proof.
  intros Hx. set (ast := (pre ++ VariableDeclaration x value line :: post)%list) in *.
  assert (Hpass1 : triple semantic_throw (in_function None)
                     (for_each Analyzer.declareFunction ast) (in_function None) false).
  { eapply triple_weaken.
    - apply triple_for_each with (b := fun _ => false). intros s _.
      apply declareFunction_keeps_function.
    - rewrite existsb_const_false. auto. }
  specialize (Hpass1 clean_slate (conj eq_refl eq_refl)).
  pose proof (first_pass_scope ast clean_slate ltac:(discriminate)) as Hscope1.
  destruct (for_each Analyzer.declareFunction ast clean_slate) as [[[] | e |] st1] eqn:Hrun1;
    [| | contradiction].
  2:{ apply (analyze_raises ast an e st1); [| exact Hpass1].
      unfold Analyzer.visitProgram, bind. fold clean_slate. rewrite Hrun1. reflexivity. }
  destruct Hpass1 as [Hin1 _]. destruct Hscope1 as [Hstep1 Hnames1].
  assert (Hne1 : Analyzer.scopes st1 <> []).
  { apply (scope_step_nonempty clean_slate st1 Hstep1). discriminate. }
  pose proof (triple_for_each semantic_throw (in_function None) Analyzer.visitStatement
                (fun s => at_top None && return_outside_function s) pre
                (fun s _ => visitStatement_function s None) st1 Hin1) as Hpre.
  pose proof (completes_for_each scope_step scope_step_refl scope_step_trans
                Analyzer.visitStatement pre (fun s _ => visitStatement_scope_step s) st1)
    as Hstep2.
  assert (Hraise : forall e st2,
            for_each Analyzer.visitStatement ast st1 = (Raise e, st2) ->
            semantic_throw e st2 ->
            exists message l an', Analyzer.analyze ast an = (Raise (SemanticError message l), an')).
  { intros e st2 Hrun He. apply (analyze_raises ast an e st2); [| exact He].
    unfold Analyzer.visitProgram, bind. fold clean_slate. rewrite Hrun1. exact Hrun. }
  pose proof (for_each_app Analyzer.visitStatement pre
                (VariableDeclaration x value line :: post) st1) as Happ.
  fold ast in Happ. unfold bind in Happ.
  destruct (for_each Analyzer.visitStatement pre st1) as [[[] | e |] st2] eqn:Hrun2;
    [| | contradiction].
  2:{ exact (Hraise e st2 Happ Hpre). }
  destruct Hpre as [[_ Hclean2] _].
  assert (Hbound : x ∈ scope_names st2).
  { destruct Hx as [Hx | Hx].
    - pose proof (for_each_declares x Analyzer.visitStatement pre
                    (fun s _ => visitStatement_scope_step s)
                    (fun s _ st0 => visitStatement_declares x s st0) st1 Hne1 Hx) as H.
      rewrite Hrun2 in H. exact H.
    - destruct Hstep2 as (_ & _ & Hsub & _). apply Hsub, Hnames1, Hx. }
  apply (Hraise (SemanticError (ALREADY_DEFINED x) line) st2).
  - rewrite Happ. simpl. unfold bind, Analyzer.throw_if.
    rewrite bool_decide_eq_true_2; [reflexivity |].
    apply elem_of_dom. exact Hbound.
  - split; [exact I | exact Hclean2].
Qed.

Lemma redeclaration_rejected_witness :
  exists message l an',
    Analyzer.analyze declared_twice Analyzer.new = (Raise (SemanticError message l), an').
Proof.
  apply (redeclaration_rejected
           [VariableDeclaration "x" (Literal (LitNumber 1) 2) 2;
            WhileStatement (Literal (LitBool false) 3) [] 3]
           [] "x" (Literal (LitNumber 2) 4) 4 Analyzer.new).
  left. reflexivity.
Defined.

(** A [break] at the top level of a program. *)
Lemma bundle_rejects_break_outside_loop_witness :
  exists message l,
    fst (Bundle.Analyzer.analyze [BreakStatement 2] Bundle.Analyzer.new)
    = Raise (SemanticError message l).
Proof.
  apply (bundle_rejects_break_outside_loop [BreakStatement 2] Bundle.Analyzer.new).
  reflexivity.
Defined.

(** X16. With the analysis on, [run] is [compile] followed by [executeAST]:
    when [compile] gives an AST, [run] reports what [executeAST] reports
    on it and leaves the interpreter as [executeAST] leaves it; when
    [compile] throws, [run] fails with that error, the interpreter is as
    it was (no statement has been executed) and the output is empty.
    What the analyzer of the instance has analysed before plays no part. *)
Theorem run_is_compile_then_execute (fuel : nat) (src : string) (an : Analyzer.t)
    (it : Interpreter.t) (out : list string) :
  match compile src with
  | Done ast =>
      fst (MasalaScript.run fuel src (MasalaScript.mk false an it out))
      = fst (MasalaScript.executeAST fuel ast (MasalaScript.mk false an it out))
      /\ MasalaScript.interpreter
           (snd (MasalaScript.run fuel src (MasalaScript.mk false an it out)))
         = MasalaScript.interpreter
             (snd (MasalaScript.executeAST fuel ast (MasalaScript.mk false an it out)))
  | Raise e =>
      fst (MasalaScript.run fuel src (MasalaScript.mk false an it out)) = Failure (Error e)
      /\ MasalaScript.interpreter
           (snd (MasalaScript.run fuel src (MasalaScript.mk false an it out)))
         = it
      /\ MasalaScript.output (snd (MasalaScript.run fuel src (MasalaScript.mk false an it out)))
         = []
  | Timeout =>
      fst (MasalaScript.run fuel src (MasalaScript.mk false an it out)) = RunTimeout
  end.
Proof.
  unfold compile, MasalaScript.run, MasalaScript.executeAST, analyze.
  cbn [MasalaScript.skipAnalysis MasalaScript.analyzer MasalaScript.interpreter].
  destruct (tokenize src) as [toks | e |]; [| simpl; auto | simpl; auto].
  destruct (parse toks) as [ast | e |]; [| simpl; auto | simpl; auto].
  change (Analyzer.analyze ast Analyzer.new) with (Analyzer.analyze ast an).
  pose proof (eq_refl : Analyzer.analyze ast an = Analyzer.analyze ast an) as Hsame.
  unfold Analyzer.analyze at 2 in Hsame.
  destruct (Analyzer.visitProgram ast _) as [[[] | e |] st1];
    rewrite Hsame; simpl; auto.
  destruct (Interpreter.execute fuel ast it) as [[o | e |] it']; simpl; auto.
Qed.

(** * Nested functions (C9) *)

(** ** Names that the analyzer never binds: nested functions *)

Lemma triple_done {S E A} (X : E -> S -> Prop) (P Q : S -> Prop) (m : M S E A) b st a st' :
  triple X P m Q b -> P st -> m st = (Done a, st') -> Q st' /\ b = false.
Proof. intros H HP Hrun. specialize (H st HP). rewrite Hrun in H. exact H. Qed.

Lemma completes_done {S E A} (R : S -> S -> Prop) (m : M S E A) st a st' :
  completes_with R m -> m st = (Done a, st') -> R st st'.
Proof. intros H Hrun. specialize (H st). rewrite Hrun in H. exact H. Qed.

(** The statements of a block leave the table of functions, the outer
    scopes and the empty list of errors as they were. *)
Lemma statements_keep statements (st st' : Analyzer.t) :
  Analyzer.errors st = [] ->
  for_each Analyzer.visitStatement statements st = (Done tt, st') ->
  Analyzer.functions st' = Analyzer.functions st
  /\ Analyzer.errors st' = []
  /\ tail (Analyzer.scopes st') = tail (Analyzer.scopes st).
Proof.
  intros Hclean Hrun.
  destruct (triple_done _ _ _ _ _ st tt st'
              (triple_for_each semantic_throw (table_is (Analyzer.functions st))
                 Analyzer.visitStatement _ statements
                 (fun s _ => visitStatement_arity (Analyzer.functions st) s))
              (conj eq_refl Hclean) Hrun) as [[Hf He] _].
  pose proof (completes_done scope_step _ st tt st'
                (completes_for_each scope_step scope_step_refl scope_step_trans
                   Analyzer.visitStatement statements
                   (fun s _ => visitStatement_scope_step s)) Hrun) as (_ & Htail & _).
  auto.
Qed.

Lemma parameters_keep line params (st st' : Analyzer.t) :
  Analyzer.errors st = [] ->
  for_each (Analyzer.declare_parameter line) params st = (Done tt, st') ->
  Analyzer.functions st' = Analyzer.functions st
  /\ Analyzer.errors st' = []
  /\ tail (Analyzer.scopes st') = tail (Analyzer.scopes st).
Proof.
  revert st. induction params as [| p params IH]; intros st Hclean Hrun; simpl in Hrun.
  - injection Hrun as <-. auto.
  - apply bind_Done_inv in Hrun as ([] & st1 & Hp & Hrun).
    unfold Analyzer.declare_parameter, bind, Analyzer.throw_if, Analyzer.declare, modify in Hp.
    destruct (bool_decide _); [discriminate |]. injection Hp as <-.
    assert (Hclean1 : Analyzer.errors
              match Analyzer.scopes st with
              | [] => st
              | scope :: outer =>
                  Analyzer.set_scopes
                    (<[p := Analyzer.mkBinding Analyzer.parameter line]> scope :: outer) st
              end = []).
    { destruct (Analyzer.scopes st); exact Hclean. }
    destruct (IH _ Hclean1 Hrun) as (Hf & He & Ht).
    rewrite Hf, Ht. destruct (Analyzer.scopes st) eqn:Hs; simpl; rewrite ?Hs; auto.
Qed.

Section FreeUse.
Variable f : string.

(** A state in which [f] is unbound stays so when its scopes and its table
    of functions are put back. *)
Lemma unbound_restored (st st' : Analyzer.t) :
  unbound f st ->
  Analyzer.functions st' = Analyzer.functions st ->
  Analyzer.errors st' = [] ->
  Analyzer.scopes st' = Analyzer.scopes st ->
  unbound f st'.
Proof. intros (Hf & Hs & _) Hf' He' Hs'. unfold unbound. rewrite Hf', Hs'. auto. Qed.

Section Statements.
Variable statements : list stmt.
Hypothesis each :
  forall s, In s statements ->
    forall st st', unbound f st -> Analyzer.visitStatement s st = (Done tt, st') ->
      free_use f s = false /\ (declares f s = false -> unbound f st').

Lemma for_each_free_use (st st' : Analyzer.t) :
  unbound f st ->
  for_each Analyzer.visitStatement statements st = (Done tt, st') ->
  free_uses_with (free_use f) f statements = false
  /\ (existsb (declares f) statements = false -> unbound f st').
Proof.
  revert st each. induction statements as [| s rest IH]; intros st Heach Hun Hrun;
    simpl in Hrun |- *.
  - injection Hrun as <-. auto.
  - apply bind_Done_inv in Hrun as ([] & st1 & Hs & Hrun).
    destruct (Heach s (or_introl eq_refl) st st1 Hun Hs) as [Huse Hkeep].
    rewrite Huse. simpl. destruct (declares f s); simpl; [split; [reflexivity | discriminate] |].
    exact (IH st1 (fun x Hx => Heach x (or_intror Hx)) (Hkeep eq_refl) Hrun).
Qed.

(** A block with a scope of its own: what it declares is gone at its
    end. *)
Lemma scoped_block_free_use (st st' : Analyzer.t) :
  unbound f st ->
  Analyzer.visitBlock_with Analyzer.visitStatement statements true st = (Done tt, st') ->
  free_uses_with (free_use f) f statements = false /\ unbound f st'.
Proof.
  intros Hun Hrun. unfold Analyzer.visitBlock_with in Hrun.
  apply bind_Done_inv in Hrun as ([] & st1 & Hpush & Hrun).
  apply bind_Done_inv in Hrun as ([] & st2 & Hbody & Hpop).
  unfold Analyzer.pushScope, modify in Hpush. injection Hpush as <-.
  unfold Analyzer.popScope, modify in Hpop. injection Hpop as <-.
  assert (Hun1 : unbound f (Analyzer.set_scopes (∅ :: Analyzer.scopes st) st)).
  { destruct Hun as (Hf & Hs & He). repeat split; simpl; auto. }
  destruct (for_each_free_use _ _ Hun1 Hbody) as [Huse _].
  split; [exact Huse |].
  destruct (statements_keep _ _ _ (proj2 (proj2 Hun1)) Hbody) as (Hf & He & Ht).
  apply (unbound_restored st); simpl; auto.
Qed.

Lemma bare_block_free_use (st st' : Analyzer.t) :
  unbound f st ->
  Analyzer.visitBlock_with Analyzer.visitStatement statements false st = (Done tt, st') ->
  free_uses_with (free_use f) f statements = false
  /\ (existsb (declares f) statements = false -> unbound f st').
Proof.
  intros Hun Hrun. unfold Analyzer.visitBlock_with in Hrun.
  apply bind_Done_inv in Hrun as ([] & st1 & Hpush & Hrun).
  apply bind_Done_inv in Hrun as ([] & st2 & Hbody & Hpop).
  injection Hpush as <-. injection Hpop as <-.
  exact (for_each_free_use _ _ Hun Hbody).
Qed.

End Statements.

Lemma expression_free_use e (st st' : Analyzer.t) :
  unbound f st -> Analyzer.visitExpression e st = (Done tt, st') ->
  expr_any (uses_name f) e = false /\ unbound f st'.
Proof.
  intros Hun Hrun.
  destruct (triple_done _ _ _ _ _ st tt st' (visitExpression_unbound f e) Hun Hrun); auto.
Qed.

Lemma expressions_free_use es (st st' : Analyzer.t) :
  unbound f st -> for_each Analyzer.visitExpression es st = (Done tt, st') ->
  existsb (expr_any (uses_name f)) es = false /\ unbound f st'.
Proof.
  intros Hun Hrun.
  destruct (triple_done _ _ _ _ _ st tt st'
              (triple_for_each semantic_throw (unbound f) Analyzer.visitExpression _ es
                 (fun e _ => visitExpression_unbound f e)) Hun Hrun); auto.
Qed.

Lemma throw_if_done cond message line (st st' : Analyzer.t) :
  Analyzer.throw_if cond message line st = (Done tt, st') -> st' = st.
Proof. unfold Analyzer.throw_if. destruct (cond st); [discriminate | congruence]. Qed.

(** A statement that the analysis accepts, in a state where [f] is
    unbound, uses [f] at no place where [f] is not in scope; and [f] is
    unbound after it unless the statement declares the variable [f] -
    whatever functions it declares. *)
Lemma visitStatement_free_use s :
  forall st st', unbound f st -> Analyzer.visitStatement s st = (Done tt, st') ->
    free_use f s = false /\ (declares f s = false -> unbound f st').
Proof.
  induction s as [name v line | es line | conds conss IHconss alt IHalt line
                 | cond body IHbody line | line | name params body IHbody line
                 | v line | e line | body IHbody]; intros st st' Hun Hrun; simpl in Hrun |- *.
  - apply bind_Done_inv in Hrun as ([] & st1 & Hcheck & Hrun).
    apply throw_if_done in Hcheck as ->.
    apply bind_Done_inv in Hrun as ([] & st2 & Hv & Hrun).
    destruct (expression_free_use _ _ _ Hun Hv) as [Huse Hun2].
    split; [exact Huse |]. intros Hname.
    destruct (triple_done _ _ _ _ _ st2 tt st' (declare_unbound f name _ Hname) Hun2 Hrun).
    assumption.
  - destruct (expressions_free_use _ _ _ Hun Hrun). auto.
  - apply bind_Done_inv in Hrun as ([] & st1 & Hconds & Hrun).
    destruct (expressions_free_use _ _ _ Hun Hconds) as [-> Hun1].
    apply bind_Done_inv in Hrun as ([] & st2 & Hconss & Halt).
    assert (Hblocks : existsb (free_uses_with (free_use f) f) conss = false
                      /\ unbound f st2).
    { clear Halt Hconds Hun. revert st1 Hun1 Hconss.
      induction IHconss as [| block Hblock conss _ IH]; intros st1 Hun1 Hconss;
        simpl in Hconss |- *.
      - injection Hconss as <-. auto.
      - apply bind_Done_inv in Hconss as ([] & st1' & Hb & Hconss).
        destruct (scoped_block_free_use block (list_all_In _ _ Hblock) _ _ Hun1 Hb)
          as [-> Hun1'].
        exact (IH st1' Hun1' Hconss). }
    destruct Hblocks as [-> Hun2]. simpl.
    destruct IHalt as [block Hblock |].
    + destruct (scoped_block_free_use block (list_all_In _ _ Hblock) _ _ Hun2 Halt). auto.
    + injection Halt as <-. auto.
  - apply bind_Done_inv in Hrun as ([] & st1 & Hcond & Hrun).
    destruct (expression_free_use _ _ _ Hun Hcond) as [-> Hun1].
    destruct (scoped_block_free_use body (list_all_In _ _ IHbody) _ _ Hun1 Hrun). auto.
  - injection Hrun as <-. auto.
  - apply bind_Done_inv in Hrun as (prev & st0 & Hread & Hrun). injection Hread as <- <-.
    apply bind_Done_inv in Hrun as ([] & st1 & Hset & Hrun).
    unfold modify in Hset. injection Hset as <-.
    apply bind_Done_inv in Hrun as ([] & st2 & Hpush & Hrun).
    unfold Analyzer.pushScope, modify in Hpush. injection Hpush as <-.
    apply bind_Done_inv in Hrun as ([] & st3 & Hparams & Hrun).
    apply bind_Done_inv in Hrun as ([] & st4 & Hbody & Hrun).
    apply bind_Done_inv in Hrun as ([] & st5 & Hpop & Hrun).
    unfold Analyzer.popScope, modify in Hpop. injection Hpop as <-.
    unfold modify in Hrun. injection Hrun as <-.
    set (st2 := Analyzer.set_scopes _ (Analyzer.set_currentFunction (Some name) st)) in *.
    assert (Hun2 : unbound f st2).
    { destruct Hun as (Hf & Hs & He). repeat split; simpl; auto. }
    destruct (parameters_keep _ _ _ _ (proj2 (proj2 Hun2)) Hparams) as (Hf3 & He3 & Ht3).
    assert (Hbody' := Hbody). unfold Analyzer.visitBlock_with in Hbody'.
    apply bind_Done_inv in Hbody' as ([] & st3' & Hnone & Hbody').
    apply bind_Done_inv in Hbody' as ([] & st4' & Hbody' & Hnone').
    injection Hnone as <-. injection Hnone' as <-.
    destruct (statements_keep _ _ _ He3 Hbody') as (Hf4 & He4 & Ht4).
    split.
    + destruct (existsb (String.eqb f) params) eqn:Hin; [reflexivity |]. simpl.
      destruct (triple_done _ _ _ _ _ st2 tt st3
                  (declare_parameters_unbound f line params Hin) Hun2 Hparams) as [Hun3 _].
      exact (proj1 (bare_block_free_use body (list_all_In _ _ IHbody) _ _ Hun3 Hbody)).
    + intros _. subst st2. simpl in *.
      apply (unbound_restored st); simpl; auto; congruence.
  - apply bind_Done_inv in Hrun as ([] & st1 & Hcheck & Hrun).
    apply throw_if_done in Hcheck as ->.
    destruct v as [e |].
    + destruct (expression_free_use _ _ _ Hun Hrun). auto.
    + injection Hrun as <-. auto.
  - destruct (expression_free_use _ _ _ Hun Hrun). auto.
  - exact (bare_block_free_use body (list_all_In _ _ IHbody) _ _ Hun Hrun).
Qed.

End FreeUse.

(** ** What the analysis owes to a name *)

Section Follows.
Variable f : string.

Lemma follows_ret {A} n (a : A) : follows f n n (ret a : Analyzer.A A).
Proof. intros st Hn. simpl. auto. Qed.

Lemma follows_bind {A B} n n1 n' (m : Analyzer.A A) (k : A -> Analyzer.A B) :
  follows f n n1 m -> (forall a, follows f n1 n' (k a)) -> follows f n n' (bind m k).
Proof.
  intros Hm Hk st Hn. unfold bind. specialize (Hm st Hn).
  destruct (m st) as [[a | e |] st1].
  - destruct Hm as [Hn1 ->]. exact (Hk a st1 Hn1).
  - destruct Hm as [Hm | Hm]; [left; exact Hm | right].
    destruct (m (with_outer f st)) as [[a | e' |] st1']; simpl in Hm |- *.
    + discriminate Hm.
    + injection Hm as ->. reflexivity.
    + discriminate Hm.
  - exact I.
Qed.

Lemma follows_for_each {A} n (visit : A -> Analyzer.A unit) (xs : list A) :
  (forall x, In x xs -> follows f n n (visit x)) -> follows f n n (for_each visit xs).
Proof.
  induction xs as [| x xs IH]; intros H; simpl; [apply follows_ret |].
  apply (follows_bind n n n); [apply H; now left |].
  intros _. apply IH. intros y Hy. apply H. now right.
Qed.

(** A step that changes the state in the same way with and without the
    outer scope. *)
Lemma follows_modify n n' (g : Analyzer.t -> Analyzer.t) :
  (forall st, n <= length (Analyzer.scopes st) ->
     n' <= length (Analyzer.scopes (g st)) /\ g (with_outer f st) = with_outer f (g st)) ->
  follows f n n' (modify g).
Proof.
  intros H st Hn. unfold modify. destruct (H st Hn) as [Hn' ->]. auto.
Qed.

Lemma follows_read {A} n (g : Analyzer.t -> A) :
  (forall st, g (with_outer f st) = g st) ->
  follows f n n (fun st => (Done (g st), st)).
Proof. intros H st Hn. cbv beta. rewrite H. auto. Qed.

(** A check that says no, says no with the outer scope; and one that says
    yes throws the error of the undefined [f], or says yes with the outer
    scope. *)
Lemma follows_throw_if n cond message line :
  (forall st, n <= length (Analyzer.scopes st) -> cond st = false ->
     cond (with_outer f st) = false) ->
  (forall st, n <= length (Analyzer.scopes st) -> cond st = true ->
     undefined_name f (SemanticError message line) \/ cond (with_outer f st) = true) ->
  follows f n n (Analyzer.throw_if cond message line).
Proof.
  intros Hno Hyes st Hn. unfold Analyzer.throw_if.
  destruct (cond st) eqn:Hc.
  - destruct (Hyes st Hn Hc) as [H | ->]; [left; exact H | right; reflexivity].
  - rewrite (Hno st Hn Hc). auto.
Qed.

Lemma lookup_in_app stack scope name :
  Analyzer.lookup_in (stack ++ [scope]) name
  = match Analyzer.lookup_in stack name with
    | Some b => Some b
    | None => scope !! name
    end.
Proof.
  induction stack as [| s stack IH]; simpl.
  - destruct (scope !! name); reflexivity.
  - destruct (s !! name); [reflexivity | exact IH].
Qed.

(** With the outer scope a name is looked up as without it, but for [f]
    when nothing else binds it. *)
Lemma lookupVariable_with_outer (st : Analyzer.t) name :
  bool_decide (is_Some (Analyzer.lookupVariable (with_outer f st) name))
  = bool_decide (is_Some (Analyzer.lookupVariable st name)) || String.eqb name f.
Proof.
  unfold Analyzer.lookupVariable, with_outer. simpl. rewrite lookup_in_app.
  destruct (Analyzer.lookup_in (Analyzer.scopes st) name) as [b |].
  - rewrite !bool_decide_eq_true_2 by eauto. reflexivity.
  - rewrite (bool_decide_eq_false_2 (is_Some None)) by (intros [? ?]; discriminate). simpl.
    destruct (String.eqb name f) eqn:Heq.
    + apply String.eqb_eq in Heq as ->. rewrite lookup_singleton_eq.
      apply bool_decide_eq_true_2. eauto.
    + apply String.eqb_neq in Heq. rewrite lookup_singleton_ne by congruence.
      apply bool_decide_eq_false_2. intros [? ?]; discriminate.
Qed.

Lemma currentScope_with_outer (st : Analyzer.t) :
  1 <= length (Analyzer.scopes st) ->
  Analyzer.currentScope (with_outer f st) = Analyzer.currentScope st.
Proof.
  unfold Analyzer.currentScope, with_outer. simpl.
  destruct (Analyzer.scopes st); simpl; [lia | reflexivity].
Qed.

Lemma follows_declare n name b : follows f (S n) (S n) (Analyzer.declare name b).
Proof.
  apply follows_modify. intros [[| scope outer] funcs current errs] Hn; simpl in *; [lia |].
  split; [lia | reflexivity].
Qed.

Lemma follows_pushScope n : follows f n (S n) Analyzer.pushScope.
Proof.
  apply follows_modify. intros st Hn. simpl. split; [lia | reflexivity].
Qed.

Lemma follows_popScope n : follows f (S (S n)) (S n) Analyzer.popScope.
Proof.
  apply follows_modify. intros [[| scope outer] funcs current errs] Hn; simpl in *; [lia |].
  split; [lia | reflexivity].
Qed.

Lemma follows_visitIdentifier n name line :
  follows f n n (Analyzer.visitIdentifier name line).
Proof.
  apply follows_throw_if; intros st _ Hc; rewrite lookupVariable_with_outer.
  - apply andb_false_iff in Hc as [Hc | Hc].
    + apply negb_false_iff in Hc. rewrite Hc. reflexivity.
    + simpl. rewrite Hc. apply andb_false_r.
  - destruct (String.eqb name f) eqn:Heq.
    + apply String.eqb_eq in Heq as ->. left. simpl. auto.
    + right. rewrite orb_false_r. exact Hc.
Qed.

Lemma follows_assignment_target n name line :
  follows f n n
    (Analyzer.throw_if
       (fun st => negb (bool_decide (is_Some (Analyzer.lookupVariable st name))))
       (UNDEFINED_VARIABLE name) line).
Proof.
  apply follows_throw_if; intros st _ Hc; rewrite lookupVariable_with_outer.
  - apply negb_false_iff in Hc. rewrite Hc. reflexivity.
  - destruct (String.eqb name f) eqn:Heq.
    + apply String.eqb_eq in Heq as ->. left. simpl. auto.
    + right. rewrite orb_false_r. exact Hc.
Qed.

Lemma follows_check_callee n callee argc line :
  follows f n n (Analyzer.check_callee callee argc line).
Proof.
  intros st Hn. unfold Analyzer.check_callee.
  change (Analyzer.functions (with_outer f st)) with (Analyzer.functions st).
  destruct (Analyzer.functions st !! callee) as [info |].
  - destruct (negb _); simpl; auto.
  - rewrite lookupVariable_with_outer.
    destruct (bool_decide (is_Some (Analyzer.lookupVariable st callee))); simpl; [auto |].
    destruct (String.eqb callee f) eqn:Heq; simpl; [| auto].
    apply String.eqb_eq in Heq as ->. left. auto.
Qed.

Lemma follows_visitExpression n e : follows f n n (Analyzer.visitExpression e).
Proof.
  induction e as [op l IHl r IHr line | op o IHo line | callee args IHargs line
                 | v line | name line | e IHe line | name v IHv line]; simpl.
  - apply (follows_bind n n n); [exact IHl | intros _; exact IHr].
  - exact IHo.
  - apply (follows_bind n n n); [apply follows_check_callee |].
    intros _. apply follows_for_each. intros x Hx. exact (list_all_In _ _ IHargs x Hx).
  - apply follows_ret.
  - apply follows_visitIdentifier.
  - exact IHe.
  - apply (follows_bind n n n); [apply follows_assignment_target | intros _; exact IHv].
Qed.

Lemma follows_already_defined n name line :
  follows f (S n) (S n)
    (Analyzer.throw_if (fun st => bool_decide (is_Some (Analyzer.currentScope st !! name)))
       (ALREADY_DEFINED name) line).
Proof.
  apply follows_throw_if; intros st Hn Hc; [| right];
    (rewrite currentScope_with_outer by lia); exact Hc.
Qed.

Lemma follows_visitBlock n (visit : stmt -> Analyzer.A unit) statements scoped :
  (forall k s, In s statements -> follows f (S k) (S k) (visit s)) ->
  follows f (S n) (S n) (Analyzer.visitBlock_with visit statements scoped).
Proof.
  intros H. unfold Analyzer.visitBlock_with. destruct scoped.
  - apply (follows_bind _ (S (S n))); [apply follows_pushScope |]. intros _.
    apply (follows_bind _ (S (S n))); [| intros _; apply follows_popScope].
    apply follows_for_each. intros s Hs. apply H, Hs.
  - apply (follows_bind _ (S n)); [apply follows_ret |]. intros _.
    apply (follows_bind _ (S n)); [| intros _; apply follows_ret].
    apply follows_for_each. intros s Hs. apply H, Hs.
Qed.

Lemma follows_visitStatement s : forall n, follows f (S n) (S n) (Analyzer.visitStatement s).
Proof.
  induction s as [name v line | es line | conds conss IHconss alt IHalt line
                 | cond body IHbody line | line | name params body IHbody line
                 | v line | e line | body IHbody]; intros n; simpl.
  - apply (follows_bind _ (S n)); [apply follows_already_defined |]. intros _.
    apply (follows_bind _ (S n)); [apply follows_visitExpression |]. intros _.
    apply follows_declare.
  - apply follows_for_each. intros e _. apply follows_visitExpression.
  - apply (follows_bind _ (S n)).
    { apply follows_for_each. intros e _. apply follows_visitExpression. }
    intros _. apply (follows_bind _ (S n)).
    + apply follows_for_each. intros block Hblock. apply follows_visitBlock.
      intros k s Hs. exact (list_all_nested_In _ _ IHconss block Hblock s Hs k).
    + intros _. destruct IHalt as [block IHblock |]; [| apply follows_ret].
      apply follows_visitBlock. intros k s Hs. exact (list_all_In _ _ IHblock s Hs k).
  - apply (follows_bind _ (S n)); [apply follows_visitExpression |]. intros _.
    apply follows_visitBlock. intros k s Hs. exact (list_all_In _ _ IHbody s Hs k).
  - apply follows_ret.
  - apply (follows_bind _ (S n)); [apply follows_read; reflexivity |]. intros prev.
    apply (follows_bind _ (S n)).
    { apply follows_modify. intros st Hn. simpl. auto. }
    intros _. apply (follows_bind _ (S (S n))); [apply follows_pushScope |]. intros _.
    apply (follows_bind _ (S (S n))).
    { apply follows_for_each. intros p _. unfold Analyzer.declare_parameter.
      apply (follows_bind _ (S (S n))); [apply follows_already_defined |].
      intros _. apply follows_declare. }
    intros _. apply (follows_bind _ (S (S n))).
    { apply follows_visitBlock. intros k s Hs. exact (list_all_In _ _ IHbody s Hs k). }
    intros _. apply (follows_bind _ (S n)); [apply follows_popScope |]. intros _.
    apply follows_modify. intros st Hn. simpl. auto.
  - apply (follows_bind _ (S n)).
    { apply follows_throw_if; intros st _ Hc; [| right]; exact Hc. }
    intros _. destruct v as [e |]; [apply follows_visitExpression | apply follows_ret].
  - apply follows_visitExpression.
  - apply follows_visitBlock. intros k s Hs. exact (list_all_In _ _ IHbody s Hs k).
Qed.

Lemma follows_declareFunction n s : follows f (S n) (S n) (Analyzer.declareFunction s).
Proof.
  destruct s as [| | | | | name params body line | | |]; simpl; try apply follows_ret.
  apply (follows_bind _ (S n)).
  { apply follows_throw_if; intros st _ Hc; [| right]; exact Hc. }
  intros _. apply (follows_bind _ (S n)); [| intros _; apply follows_declare].
  apply follows_modify. intros st Hn. simpl. auto.
Qed.

Lemma follows_visitProgram ast : follows f 1 1 (Analyzer.visitProgram ast).
Proof.
  unfold Analyzer.visitProgram. apply (follows_bind _ 1).
  - apply follows_for_each. intros s _. apply follows_declareFunction.
  - intros _. apply follows_for_each. intros s _. apply follows_visitStatement.
Qed.

End Follows.

(** What [analyze] throws is what [visitProgram] has thrown. *)
Lemma analyze_throws (ast : Program) (an : Analyzer.t) e st1 :
  Analyzer.visitProgram ast clean_slate = (Raise e, st1) ->
  Analyzer.errors st1 = [] ->
  exists an', Analyzer.analyze ast an = (Raise e, an').
Proof.
  intros Hrun Hst. unfold Analyzer.analyze. fold clean_slate. rewrite Hrun, Hst. simpl. eauto.
Qed.

Lemma nested_source_parses : parse_source nested_source = Done nested_ast.
Proof. vm_compute. reflexivity. Qed.

(** The analysis rejects the program; without the analysis it runs, the
    evaluator defining the nested function when the outer one is called. *)
Lemma nested_source_runs :
  run_fresh 100 nested_source
  = Failure (Error (SemanticError (UNDEFINED_FUNCTION "helper") 4))
  /\ fst (MasalaScript.run 100 nested_source (MasalaScript.new_with true)) = Success ["7"].
Proof. split; vm_compute; reflexivity. Qed.

(** A variable of a branch is out of scope after the branch: the call of
    the nested function that comes later is rejected. *)
Lemma out_of_scope_rejected :
  free_uses "helper" out_of_scope_ast = true
  /\ fst (Analyzer.analyze out_of_scope_ast Analyzer.new)
     = Raise (SemanticError (UNDEFINED_FUNCTION "helper") 5).
Proof. split; vm_compute; reflexivity. Qed.

(** C9 (as amended). The first pass hoists the function declarations of
    the top level only, and no statement but the declaration of a variable
    [f] puts [f] in a scope that lasts: the declaration of a function [f]
    inside a function or a block binds [f] in no scope and adds nothing to
    the table of functions.  So a program that uses the name [f] (calls it,
    reads it or assigns to it) at a place where no variable and no parameter
    named [f] is in scope, and in which [f] is no function of the top level,
    is rejected by the analysis - whatever nested functions named [f] it
    declares.  The error is the one of the undefined function or variable
    [f], unless the analysis throws, before it comes to the use, an error
    that it also throws when [f] is bound outside the program.  At a use of
    the unbound [f], the analyzer throws [UNDEFINED_FUNCTION] for a call and
    [UNDEFINED_VARIABLE] for a reference.  The evaluator does define a
    nested function when the function around it is called: the program of
    [nested_source], which the analysis rejects, prints 7 when the analysis
    is skipped. *)
Theorem nested_function_use_rejected (ast : Program) (f : string) (an : Analyzer.t) :
  existsb (declares_function f) ast = false ->
  free_uses f ast = true ->
  (exists message l an',
     Analyzer.analyze ast an = (Raise (SemanticError message l), an')
     /\ (message = UNDEFINED_FUNCTION f \/ message = UNDEFINED_VARIABLE f
         \/ fst (Analyzer.visitProgram ast (bound_outside f))
            = Raise (SemanticError message l)))
  /\ (forall st args line, unbound f st ->
        fst (Analyzer.visitExpression (CallExpression f args line) st)
        = Raise (SemanticError (UNDEFINED_FUNCTION f) line)
        /\ fst (Analyzer.visitExpression (Identifier f line) st)
           = Raise (SemanticError (UNDEFINED_VARIABLE f) line))
  /\ (forall s st st', unbound f st ->
        declares f s = false ->
        Analyzer.visitStatement s st = (Done tt, st') -> unbound f st')
  /\ (forall st st', unbound f st ->
        for_each Analyzer.declareFunction ast st = (Done tt, st') -> unbound f st')
  /\ run_fresh 100 nested_source
     = Failure (Error (SemanticError (UNDEFINED_FUNCTION "helper") 4))
  /\ fst (MasalaScript.run 100 nested_source (MasalaScript.new_with true)) = Success ["7"].
Proof.
  intros Htop Huses.
  assert (Hpass1 : forall st st', unbound f st ->
            for_each Analyzer.declareFunction ast st = (Done tt, st') -> unbound f st').
  { intros st st' Hun Hrun.
    exact (proj1 (triple_done _ _ _ _ _ st tt st'
                    (triple_for_each semantic_throw (unbound f) Analyzer.declareFunction
                       (fun _ => false) ast
                       (fun s Hs => declareFunction_unbound f s
                                      (existsb_false_In _ _ _ Htop Hs)))
                    Hun Hrun)). }
  split; [| split; [| split; [| split]]].
  - assert (H0 : unbound f clean_slate) by (repeat split; simpl; auto).
    pose proof (visitProgram_function ast clean_slate (conj eq_refl eq_refl)) as Hsem.
    pose proof (follows_visitProgram f ast clean_slate (le_n 1)) as Hfol.
    destruct (Analyzer.visitProgram ast clean_slate) as [[[] | e |] st1] eqn:Hrun;
      [| | contradiction].
    + exfalso. unfold Analyzer.visitProgram in Hrun.
      apply bind_Done_inv in Hrun as ([] & st' & Hfirst & Hsecond).
      destruct (for_each_free_use f ast (fun s _ => visitStatement_free_use f s) st' st1
                  (Hpass1 _ _ H0 Hfirst) Hsecond) as [Hnone _].
      unfold free_uses in Huses. congruence.
    + destruct Hsem as [He Hst]. destruct (analyze_throws ast an e st1 Hrun Hst) as [an' Han].
      destruct e as [| | message l |]; try contradiction.
      exists message, l, an'. split; [exact Han |].
      destruct Hfol as [[Hm | Hm] | Hm]; auto.
  - intros st args line H. simpl. unfold bind, Analyzer.check_callee,
      Analyzer.visitIdentifier, Analyzer.throw_if.
    rewrite (proj1 H), (unbound_lookup f st H). simpl. auto.
  - intros s st st' Hun Hs Hrun.
    exact (proj2 (visitStatement_free_use f s st st' Hun Hrun) Hs).
  - exact Hpass1.
  - exact nested_source_runs.
Qed.

Lemma nested_function_use_rejected_witness :
  (exists message l an',
     Analyzer.analyze nested_ast Analyzer.new = (Raise (SemanticError message l), an')
     /\ (message = UNDEFINED_FUNCTION "helper" \/ message = UNDEFINED_VARIABLE "helper"
         \/ fst (Analyzer.visitProgram nested_ast (bound_outside "helper"))
            = Raise (SemanticError message l)))
  /\ (forall st args line, unbound "helper" st ->
        fst (Analyzer.visitExpression (CallExpression "helper" args line) st)
        = Raise (SemanticError (UNDEFINED_FUNCTION "helper") line)
        /\ fst (Analyzer.visitExpression (Identifier "helper" line) st)
           = Raise (SemanticError (UNDEFINED_VARIABLE "helper") line))
  /\ (forall s st st', unbound "helper" st ->
        declares "helper" s = false ->
        Analyzer.visitStatement s st = (Done tt, st') -> unbound "helper" st')
  /\ (forall st st', unbound "helper" st ->
        for_each Analyzer.declareFunction nested_ast st = (Done tt, st') ->
        unbound "helper" st')
  /\ run_fresh 100 nested_source
     = Failure (Error (SemanticError (UNDEFINED_FUNCTION "helper") 4))
  /\ fst (MasalaScript.run 100 nested_source (MasalaScript.new_with true)) = Success ["7"].
Proof.
  apply (nested_function_use_rejected nested_ast "helper" Analyzer.new);
    vm_compute; reflexivity.
Defined.

(** C9 as stated fails.  Each of these programs declares a nested function
    [helper] and calls it by its name.  The first has a variable [helper]
    at its top level, the second a function [helper] at its top level: the
    analysis accepts them, and they run.  The third has a variable declared
    twice before the call: the analysis rejects it with the error of a name
    that is already defined, not with the one of an undefined name. *)
Lemma nested_function_use_accepted :
  (parse_source shadowed_source = Done shadowed_ast
   /\ nested_function "helper" shadowed_ast = true
   /\ program_any (uses_name "helper") no_stmt shadowed_ast = true
   /\ analyze shadowed_ast = Done shadowed_ast
   /\ run_fresh 100 shadowed_source = Success ["7"])
  /\ (parse_source hoisted_source = Done hoisted_ast
      /\ nested_function "helper" hoisted_ast = true
      /\ program_any (uses_name "helper") no_stmt hoisted_ast = true
      /\ analyze hoisted_ast = Done hoisted_ast
      /\ run_fresh 100 hoisted_source = Success ["7"])
  /\ (parse_source faulty_source = Done faulty_ast
      /\ nested_function "helper" faulty_ast = true
      /\ program_any (uses_name "helper") no_stmt faulty_ast = true
      /\ free_uses "helper" faulty_ast = true
      /\ analyze faulty_ast = Raise (SemanticError (ALREADY_DEFINED "x") 3)).
Proof. repeat apply conj; vm_compute; reflexivity. Qed.
